(** * FBX/glTF document reconciliation: buffer codec, mesh assembly,
      skin expansion and animation sampling

    A shallow embedding of the parts of [fbx_document.cpp] that decode and
    encode typed buffers, flip triangle winding, expand and verify skins and
    sample animation tracks, together with the properties proved of them.

    Conventions.
    - A C++ [int] is a [Z]; signed arithmetic is the mathematical one
      (signed overflow is undefined in C++), while the conversions to and
      from [uint32_t] that the source performs are written out with
      [to_uint32] / [to_int32].
    - [Vector<T>] is a [list T]; an index outside the vector through
      [operator[]] or [write[]] is the engine's [CRASH_BAD_INDEX], modelled
      by the outcome [Crashed].  An access through a raw pointer ([ptr()],
      [ptrw()]) outside the allocation is the outcome [Undefined].
    - [float] and [double] are IEEE-754 binary32 and binary64 values,
      modelled by [spec_float] with the operations of [SpecFloat] at
      precision 24/128 and 53/1024.
    - Loops whose trip count is not syntactically bounded take a [fuel]
      argument; running out of fuel is the outcome [Diverged]. *)

From Stdlib Require Import Reals Lra.
From Stdlib Require String Ascii DecimalString DecimalZ.
From Stdlib Require Import ZArith List Bool Lia Permutation Sorted SpecFloat.
Import ListNotations.
Local Open Scope Z_scope.

Set Implicit Arguments.

(* ================================================================== *)
(** * Outcomes of a call *)
(* ================================================================== *)

Inductive outcome (A : Type) : Type :=
| Done (a : A)
| Crashed
| Undefined
| Diverged.

Arguments Done {A} a.
Arguments Crashed {A}.
Arguments Undefined {A}.
Arguments Diverged {A}.

Definition bind {A B : Type} (m : outcome A) (k : A -> outcome B) : outcome B :=
  match m with
  | Done a => k a
  | Crashed => Crashed
  | Undefined => Undefined
  | Diverged => Diverged
  end.

Notation "x <- m ;; k" := (bind m (fun x => k))
  (at level 61, m at next level, right associativity).
Notation "' p <- m ;; k" := (bind m (fun p => k))
  (at level 61, p pattern, m at next level, right associativity).

(** The engine's [Error] codes that the modelled functions return. *)
Inductive Error : Type :=
| OK
| FAILED
| ERR_INVALID_DATA
| ERR_PARSE_ERROR.

(* ================================================================== *)
(** * Engine containers *)
(* ================================================================== *)

(** [Vector<T>::operator[]]: a read outside [0, size) crashes. *)
Definition get {A : Type} (v : list A) (i : Z) : outcome A :=
  if i <? 0 then Crashed
  else match nth_error v (Z.to_nat i) with
       | Some a => Done a
       | None => Crashed
       end.

(** [Vector<T>::size]. *)
Definition size {A : Type} (v : list A) : Z := Z.of_nat (length v).

(** [Vector<T>::push_back]. *)
Definition push_back {A : Type} (v : list A) (x : A) : list A := v ++ [x].

(** [Vector<T>::find]: index of the first occurrence, [-1] when absent. *)
Fixpoint find_from (v : list Z) (x : Z) (i : Z) : Z :=
  match v with
  | [] => -1
  | y :: t => if y =? x then i else find_from t x (i + 1)
  end.

Definition find (v : list Z) (x : Z) : Z := find_from v x 0.

(** [Vector<T>::sort]: ascending order. *)
Fixpoint sort_insert (x : Z) (v : list Z) : list Z :=
  match v with
  | [] => [x]
  | y :: t => if x <=? y then x :: y :: t else y :: sort_insert x t
  end.

Fixpoint sort (v : list Z) : list Z :=
  match v with
  | [] => []
  | x :: t => sort_insert x (sort t)
  end.

(** Modelled from the spec: [DisjointSet<T>], the engine's union-find
    (union by rank with path compression), whose header is not among the
    sources.  Keys are kept in insertion order, the order in which the
    engine's hash map is walked by [get_representatives] and
    [get_members].  Each entry records the representative its parent chain
    ends in and its own rank; path compression only shortens chains and
    changes neither, so the chain itself is not represented. *)
Module DisjointSet.

Record Element : Type := { object : Z; root : Z; rank : Z }.

Definition t : Type := list Element.

Definition empty : t := [].

Definition has (ds : t) (k : Z) : bool :=
  existsb (fun e => object e =? k) ds.

(** [insert]: a new key is its own representative with rank 0. *)
Definition insert (ds : t) (k : Z) : t :=
  if has ds k then ds else ds ++ [{| object := k; root := k; rank := 0 |}].

(** [get_parent] of the element of key [k]. *)
Fixpoint root_of (ds : t) (k : Z) : Z :=
  match ds with
  | [] => k
  | e :: r => if object e =? k then root e else root_of r k
  end.

Fixpoint rank_of (ds : t) (k : Z) : Z :=
  match ds with
  | [] => 0
  | e :: r => if object e =? k then rank e else rank_of r k
  end.

(** Hang the class of [y] under [x]; bump the rank of [x] when asked. *)
Definition merge (ds : t) (x y : Z) (bump : bool) : t :=
  map (fun e =>
         {| object := object e;
            root := if root e =? y then x else root e;
            rank := if bump && (object e =? x) then rank e + 1 else rank e |})
      ds.

(** [create_union(a, b)]. *)
Definition create_union (ds : t) (a b : Z) : t :=
  let ds := insert (insert ds a) b in
  let x_root := root_of ds a in
  let y_root := root_of ds b in
  if x_root =? y_root then ds
  else
    let '(x_root, y_root) :=
      if rank_of ds x_root <? rank_of ds y_root
      then (y_root, x_root) else (x_root, y_root) in
    merge ds x_root y_root (rank_of ds x_root =? rank_of ds y_root).

(** [get_representatives]. *)
Definition get_representatives (ds : t) : list Z :=
  map object (filter (fun e => root e =? object e) ds).

(** [get_members]: nothing is returned for a key that is absent or not
    a representative. *)
Definition get_members (ds : t) (representative : Z) : list Z :=
  if has ds representative && (root_of ds representative =? representative)
  then map object (filter (fun e => root e =? representative) ds)
  else [].

End DisjointSet.

(* ================================================================== *)
(** * Skin and skeleton resolver *)
(* ================================================================== *)

(** The fields of [FBXNode] that the resolver reads. *)
Record FBXNode : Type := {
  parent : Z;
  children : list Z;
  height : Z;
  joint : bool
}.

(** The fields of [FBXSkin] that the resolver reads and writes. *)
Record FBXSkin : Type := {
  joints : list Z;
  non_joints : list Z;
  roots : list Z
}.

Definition set_joints (s : FBXSkin) (j : list Z) : FBXSkin :=
  {| joints := j; non_joints := non_joints s; roots := roots s |}.

Definition set_non_joints (s : FBXSkin) (n : list Z) : FBXSkin :=
  {| joints := joints s; non_joints := n; roots := roots s |}.

Definition set_roots (s : FBXSkin) (r : list Z) : FBXSkin :=
  {| joints := joints s; non_joints := non_joints s; roots := r |}.

(** [_find_highest_node]. *)
Fixpoint _find_highest_node_loop (nodes : list FBXNode) (p_subset : list Z)
    (highest best_node : Z) : outcome Z :=
  match p_subset with
  | [] => Done best_node
  | node_i :: rest =>
      node <- get nodes node_i ;;
      if (highest =? -1) || (height node <? highest)
      then _find_highest_node_loop nodes rest (height node) node_i
      else _find_highest_node_loop nodes rest highest best_node
  end.

Definition _find_highest_node (nodes : list FBXNode) (p_subset : list Z) : outcome Z :=
  _find_highest_node_loop nodes p_subset (-1) (-1).

(** The classification step shared by the climbing loops and by
    [_capture_nodes_in_skin]: a node tagged joint that the skin does not
    list yet becomes a joint of the skin, any other node becomes a
    non-joint unless it is one already. *)
Definition mark (node : FBXNode) (p_skin : FBXSkin) (index : Z) : FBXSkin :=
  if joint node && (find (joints p_skin) index <? 0)
  then set_joints p_skin (push_back (joints p_skin) index)
  else if find (non_joints p_skin) index <? 0
       then set_non_joints p_skin (push_back (non_joints p_skin) index)
       else p_skin.

(** [_capture_nodes_in_skin]: the recursion follows the [children] lists,
    one unit of fuel per level. *)
Fixpoint _capture_nodes_in_skin (fuel : nat) (nodes : list FBXNode)
    (p_skin : FBXSkin) (p_node_index : Z) : outcome (FBXSkin * bool) :=
  match fuel with
  | O => Diverged
  | S fuel =>
      node <- get nodes p_node_index ;;
      '(p_skin, found_joint) <-
        fold_left
          (fun acc child =>
             '(skin, found) <- acc ;;
             '(skin, b) <- _capture_nodes_in_skin fuel nodes skin child ;;
             Done (skin, found || b))
          (children node) (Done (p_skin, false)) ;;
      let p_skin := if found_joint then mark node p_skin p_node_index else p_skin in
      Done (p_skin, 0 <? find (joints p_skin) p_node_index)
  end.

(** The union pass shared by the three functions below: every listed node
    is inserted and united with its parent when the parent is listed. *)
Fixpoint union_pass (nodes : list FBXNode) (all_nodes todo : list Z)
    (disjoint_set : DisjointSet.t) : outcome DisjointSet.t :=
  match todo with
  | [] => Done disjoint_set
  | node_index :: rest =>
      node <- get nodes node_index ;;
      let disjoint_set := DisjointSet.insert disjoint_set node_index in
      let disjoint_set :=
        if 0 <=? find all_nodes (parent node)
        then DisjointSet.create_union disjoint_set (parent node) node_index
        else disjoint_set in
      union_pass nodes all_nodes rest disjoint_set
  end.

(** The minimum height among the roots ([maxHeight] in the source). *)
Fixpoint min_root_height (nodes : list FBXNode) (roots : list Z) (maxHeight : Z) : outcome Z :=
  match roots with
  | [] => Done maxHeight
  | root :: rest =>
      node <- get nodes root ;;
      if (maxHeight =? -1) || (height node <? maxHeight)
      then min_root_height nodes rest (height node)
      else min_root_height nodes rest maxHeight
  end.

(** The inner [while] of the levelling loop: climb from [current_node]
    until its height is [maxHeight], marking every parent on the way. *)
Fixpoint climb_to_height (fuel : nat) (nodes : list FBXNode) (p_skin : FBXSkin)
    (current_node maxHeight : Z) : outcome (FBXSkin * Z) :=
  match fuel with
  | O => Diverged
  | S fuel =>
      node <- get nodes current_node ;;
      if maxHeight <? height node then
        pnode <- get nodes (parent node) ;;
        climb_to_height fuel nodes (mark pnode p_skin (parent node)) (parent node) maxHeight
      else Done (p_skin, current_node)
  end.

(** The levelling [for] loop; returns the replaced roots. *)
Fixpoint level_roots (fuel : nat) (nodes : list FBXNode) (p_skin : FBXSkin)
    (roots : list Z) (maxHeight : Z) : outcome (FBXSkin * list Z) :=
  match roots with
  | [] => Done (p_skin, [])
  | root :: rest =>
      '(p_skin, current_node) <- climb_to_height fuel nodes p_skin root maxHeight ;;
      '(p_skin, rest) <- level_roots fuel nodes p_skin rest maxHeight ;;
      Done (p_skin, current_node :: rest)
  end.

(** [all_same]: every root from the second on has the parent of the first. *)
Fixpoint all_same_parent (nodes : list FBXNode) (first_parent : Z) (roots : list Z) : outcome bool :=
  match roots with
  | [] => Done true
  | root :: rest =>
      node <- get nodes root ;;
      all_same <- all_same_parent nodes first_parent rest ;;
      Done ((first_parent =? parent node) && all_same)
  end.

(** One lock-step climb: every root is replaced by its parent. *)
Fixpoint climb_all (nodes : list FBXNode) (p_skin : FBXSkin) (roots : list Z)
    : outcome (FBXSkin * list Z) :=
  match roots with
  | [] => Done (p_skin, [])
  | current_node :: rest =>
      node <- get nodes current_node ;;
      pnode <- get nodes (parent node) ;;
      '(p_skin, rest) <- climb_all nodes (mark pnode p_skin (parent node)) rest ;;
      Done (p_skin, parent node :: rest)
  end.

(** The closing [do ... while (!all_same)] loop. *)
Fixpoint climb_until_same (fuel : nat) (nodes : list FBXNode) (p_skin : FBXSkin)
    (roots : list Z) : outcome (FBXSkin * list Z) :=
  match fuel with
  | O => Diverged
  | S fuel =>
      root0 <- get roots 0 ;;
      node0 <- get nodes root0 ;;
      all_same <- all_same_parent nodes (parent node0) (tl roots) ;;
      if all_same then Done (p_skin, roots)
      else
        '(p_skin, roots) <- climb_all nodes p_skin roots ;;
        climb_until_same fuel nodes p_skin roots
  end.

(** The representatives left by the first union pass over the joints. *)
Definition initial_roots (nodes : list FBXNode) (p_skin : FBXSkin) : outcome (list Z) :=
  disjoint_set <- union_pass nodes (joints p_skin) (joints p_skin) DisjointSet.empty ;;
  Done (DisjointSet.get_representatives disjoint_set).

(** [_capture_nodes_for_multirooted_skin]; the local [roots] vector is
    returned next to the skin so that its final value can be observed. *)
Definition _capture_nodes_for_multirooted_skin (fuel : nat) (nodes : list FBXNode)
    (p_skin : FBXSkin) : outcome (FBXSkin * list Z) :=
  roots <- initial_roots nodes p_skin ;;
  if size roots <=? 1 then Done (p_skin, roots)
  else
    maxHeight <- min_root_height nodes roots (-1) ;;
    '(p_skin, roots) <- level_roots fuel nodes p_skin roots maxHeight ;;
    climb_until_same fuel nodes p_skin roots.

(** The root computation that [_expand_skin] and [_verify_skin] share
    verbatim: union pass over joints and non-joints, then the highest node
    of every class, sorted.  [None] stands for the [ERR_FAIL_COND_V(root <
    0, FAILED)] exit. *)
Fixpoint highest_of_each (nodes : list FBXNode) (disjoint_set : DisjointSet.t)
    (out_owners : list Z) (out_roots : list Z) : outcome (option (list Z)) :=
  match out_owners with
  | [] => Done (Some out_roots)
  | owner :: rest =>
      root <- _find_highest_node nodes (DisjointSet.get_members disjoint_set owner) ;;
      if root <? 0 then Done None
      else highest_of_each nodes disjoint_set rest (push_back out_roots root)
  end.

Definition compute_roots (nodes : list FBXNode) (p_skin : FBXSkin) : outcome (option (list Z)) :=
  let all_skin_nodes := joints p_skin ++ non_joints p_skin in
  disjoint_set <- union_pass nodes all_skin_nodes all_skin_nodes DisjointSet.empty ;;
  let out_owners := DisjointSet.get_representatives disjoint_set in
  r <- highest_of_each nodes disjoint_set out_owners [] ;;
  Done (option_map sort r).

(** The loop of [_expand_skin] that runs the marking pass from each root. *)
Fixpoint capture_from_roots (fuel : nat) (nodes : list FBXNode) (p_skin : FBXSkin)
    (out_roots : list Z) : outcome FBXSkin :=
  match out_roots with
  | [] => Done p_skin
  | root :: rest =>
      '(p_skin, _) <- _capture_nodes_in_skin fuel nodes p_skin root ;;
      capture_from_roots fuel nodes p_skin rest
  end.

(** [_expand_skin]. *)
Definition _expand_skin (fuel : nat) (nodes : list FBXNode) (p_skin : FBXSkin)
    : outcome (Error * FBXSkin) :=
  '(p_skin, _) <- _capture_nodes_for_multirooted_skin fuel nodes p_skin ;;
  r <- compute_roots nodes p_skin ;;
  match r with
  | None => Done (FAILED, p_skin)
  | Some out_roots =>
      p_skin <- capture_from_roots fuel nodes p_skin out_roots ;;
      Done (OK, set_roots p_skin out_roots)
  end.

(** Element-wise comparison of the recomputed roots with the stored ones;
    the stored vector is read through [operator[]]. *)
Fixpoint roots_differ (out_roots : list Z) (stored : list Z) (i : Z) : outcome bool :=
  match out_roots with
  | [] => Done false
  | r :: rest =>
      s <- get stored i ;;
      if negb (r =? s) then Done true else roots_differ rest stored (i + 1)
  end.

Fixpoint parents_differ (nodes : list FBXNode) (parent0 : Z) (out_roots : list Z) : outcome bool :=
  match out_roots with
  | [] => Done false
  | r :: rest =>
      node <- get nodes r ;;
      if negb (parent node =? parent0) then Done true
      else parents_differ nodes parent0 rest
  end.

(** [_verify_skin]. *)
Definition _verify_skin (nodes : list FBXNode) (p_skin : FBXSkin) : outcome Error :=
  r <- compute_roots nodes p_skin ;;
  match r with
  | None => Done FAILED
  | Some out_roots =>
      if size out_roots =? 0 then Done FAILED
      else if negb (size out_roots =? size (roots p_skin)) then Done FAILED
      else
        differ <- roots_differ out_roots (roots p_skin) 0 ;;
        if differ then Done FAILED
        else if size out_roots =? 1 then Done OK
        else
          root0 <- get out_roots 0 ;;
          node0 <- get nodes root0 ;;
          differ <- parents_differ nodes (parent node0) (tl out_roots) ;;
          Done (if differ then FAILED else OK)
  end.

(* ================================================================== *)
(** * Numbers: machine integers, [float] and [double] *)
(* ================================================================== *)

(** Conversion to [uint32_t] and the reinterpretation [(int)] of one. *)
Definition to_uint32 (z : Z) : Z := z mod 2 ^ 32.

Definition to_int32 (z : Z) : Z :=
  let u := z mod 2 ^ 32 in
  if u <? 2 ^ 31 then u else u - 2 ^ 32.

(** [double]: binary64. *)
Module F64.
Definition prec : Z := 53.
Definition emax : Z := 1024.
Definition add := SFadd prec emax.
Definition sub := SFsub prec emax.
Definition mul := SFmul prec emax.
Definition div := SFdiv prec emax.
Definition ltb := SFltb.
Definition zero : spec_float := S754_zero false.
(** An integer as a [double] (exact below 2^53). *)
Definition of_Z (z : Z) : spec_float := binary_normalize prec emax z 0 false.
End F64.

(** [float] and [real_t]: binary32. *)
Module F32.
Definition prec : Z := 24.
Definition emax : Z := 128.
Definition add := SFadd prec emax.
Definition sub := SFsub prec emax.
Definition mul := SFmul prec emax.
Definition div := SFdiv prec emax.
Definition ltb := SFltb.
Definition zero : spec_float := S754_zero false.
Definition of_Z (z : Z) : spec_float := binary_normalize prec emax z 0 false.

(** The IEEE-754 interchange encoding of a [float] and its inverse. *)
Definition sign_bit (s : bool) : Z := if s then 2 ^ 31 else 0.

Definition to_bits (x : spec_float) : Z :=
  match x with
  | S754_zero s => sign_bit s
  | S754_infinity s => sign_bit s + 255 * 2 ^ 23
  | S754_nan => 255 * 2 ^ 23 + 2 ^ 22
  | S754_finite s m e =>
      if Zpos m <? 2 ^ 23 then sign_bit s + Zpos m
      else sign_bit s + (e + 150) * 2 ^ 23 + (Zpos m - 2 ^ 23)
  end.

Definition of_bits (b : Z) : spec_float :=
  let s := 2 ^ 31 <=? b in
  let ex := (b / 2 ^ 23) mod 256 in
  let mant := b mod 2 ^ 23 in
  if ex =? 0 then
    match mant with
    | Zpos m => S754_finite s m (-149)
    | _ => S754_zero s
    end
  else if ex =? 255 then
    (if mant =? 0 then S754_infinity s else S754_nan)
  else
    match mant + 2 ^ 23 with
    | Zpos m => S754_finite s m (ex - 150)
    | _ => S754_nan
    end.
End F32.

(** [float(d)]: the narrowing conversion, round to nearest even. *)
Definition float_of_double (d : spec_float) : spec_float :=
  match d with
  | S754_finite s m e => binary_normalize F32.prec F32.emax (cond_Zopp s (Zpos m)) e s
  | _ => d
  end.

(** [double(f)]: the widening conversion, exact. *)
Definition double_of_float (f : spec_float) : spec_float :=
  match f with
  | S754_finite s m e => binary_normalize F64.prec F64.emax (cond_Zopp s (Zpos m)) e s
  | _ => f
  end.

(** The conversion of a [double] to an integer type with values in
    [lo, hi]: truncation toward zero, undefined when the truncated value
    is not representable. *)
Definition trunc_double (d : spec_float) : option Z :=
  match d with
  | S754_zero _ => Some 0
  | S754_finite s m e =>
      Some (cond_Zopp s (if 0 <=? e then Zpos m * 2 ^ e else Zpos m / 2 ^ (- e)))
  | _ => None
  end.

Definition int_of_double (lo hi : Z) (d : spec_float) : outcome Z :=
  match trunc_double d with
  | Some z => if (lo <=? z) && (z <=? hi) then Done z else Undefined
  | None => Undefined
  end.

(** Little-endian bytes of an unsigned [n]-byte value, and back. *)
Fixpoint bytes_of_uint (n : nat) (z : Z) : list Z :=
  match n with
  | O => []
  | S n => z mod 256 :: bytes_of_uint n (z / 256)
  end.

Fixpoint uint_of_bytes (bs : list Z) : Z :=
  match bs with
  | [] => 0
  | b :: r => b + 256 * uint_of_bytes r
  end.

(** The two's-complement reading of an unsigned [bits]-bit pattern, and
    the pattern of a signed value. *)
Definition signed_of (bits : Z) (u : Z) : Z :=
  if u <? 2 ^ (bits - 1) then u else u - 2 ^ bits.

Definition unsigned_of (bits : Z) (z : Z) : Z := z mod 2 ^ bits.

(* ================================================================== *)
(** * Buffer codec *)
(* ================================================================== *)

(** Modelled from the spec: the component type codes of the header
    (5120/5121/5122/5123/5125/5126), which is not among the sources. *)
Definition COMPONENT_TYPE_BYTE : Z := 5120.
Definition COMPONENT_TYPE_UNSIGNED_BYTE : Z := 5121.
Definition COMPONENT_TYPE_SHORT : Z := 5122.
Definition COMPONENT_TYPE_UNSIGNED_SHORT : Z := 5123.
Definition COMPONENT_TYPE_INT : Z := 5125.
Definition COMPONENT_TYPE_FLOAT : Z := 5126.

(** [FBXType], in the order of [_get_type_name] and of the
    [component_count_for_type] tables. *)
Inductive FBXType : Type :=
| TYPE_SCALAR | TYPE_VEC2 | TYPE_VEC3 | TYPE_VEC4
| TYPE_MAT2 | TYPE_MAT3 | TYPE_MAT4.

Definition FBXType_eqb (a b : FBXType) : bool :=
  match a, b with
  | TYPE_SCALAR, TYPE_SCALAR | TYPE_VEC2, TYPE_VEC2 | TYPE_VEC3, TYPE_VEC3
  | TYPE_VEC4, TYPE_VEC4 | TYPE_MAT2, TYPE_MAT2 | TYPE_MAT3, TYPE_MAT3
  | TYPE_MAT4, TYPE_MAT4 => true
  | _, _ => false
  end.

Definition component_count_for_type (t : FBXType) : Z :=
  match t with
  | TYPE_SCALAR => 1 | TYPE_VEC2 => 2 | TYPE_VEC3 => 3 | TYPE_VEC4 => 4
  | TYPE_MAT2 => 4 | TYPE_MAT3 => 9 | TYPE_MAT4 => 16
  end.

Record FBXBufferView : Type := {
  buffer : Z;
  byte_offset : Z;
  byte_length : Z;
  byte_stride : Z
}.

Record FBXAccessor : Type := {
  buffer_view : Z;
  a_byte_offset : Z;
  component_type : Z;
  normalized : bool;
  count : Z;
  type : FBXType;
  sparse_count : Z;
  sparse_indices_buffer_view : Z;
  sparse_indices_byte_offset : Z;
  sparse_indices_component_type : Z;
  sparse_values_buffer_view : Z;
  sparse_values_byte_offset : Z
}.

(** The part of [FBXState] the codec works on; a byte is a [Z] in
    [0, 256). *)
Record FBXState : Type := {
  buffers : list (list Z);
  buffer_views : list FBXBufferView;
  accessors : list FBXAccessor
}.

(** [_get_component_type_size]. *)
Definition _get_component_type_size (p_component_type : Z) : Z :=
  if (p_component_type =? COMPONENT_TYPE_BYTE) || (p_component_type =? COMPONENT_TYPE_UNSIGNED_BYTE) then 1
  else if (p_component_type =? COMPONENT_TYPE_SHORT) || (p_component_type =? COMPONENT_TYPE_UNSIGNED_SHORT) then 2
  else if (p_component_type =? COMPONENT_TYPE_INT) || (p_component_type =? COMPONENT_TYPE_FLOAT) then 4
  else 0.

(** The alignment special cases, written twice in the source (in
    [_encode_buffer_view] and in [_decode_accessor]):
    [(skip_every, skip_bytes)]. *)
Definition skip_table (p_component_type : Z) (p_type : FBXType) : Z * Z :=
  if (p_component_type =? COMPONENT_TYPE_BYTE) || (p_component_type =? COMPONENT_TYPE_UNSIGNED_BYTE) then
    let r := if FBXType_eqb p_type TYPE_MAT2 then (2, 2) else (0, 0) in
    if FBXType_eqb p_type TYPE_MAT3 then (3, 1) else r
  else if (p_component_type =? COMPONENT_TYPE_SHORT) || (p_component_type =? COMPONENT_TYPE_UNSIGNED_SHORT) then
    if FBXType_eqb p_type TYPE_MAT3 then (6, 4) else (0, 0)
  else (0, 0).

(** The [element_size] overrides that [_decode_accessor] adds to them. *)
Definition element_size_for (p_component_type : Z) (p_type : FBXType) : Z :=
  let plain := component_count_for_type p_type * _get_component_type_size p_component_type in
  if (p_component_type =? COMPONENT_TYPE_BYTE) || (p_component_type =? COMPONENT_TYPE_UNSIGNED_BYTE) then
    let r := if FBXType_eqb p_type TYPE_MAT2 then 8 else plain in
    if FBXType_eqb p_type TYPE_MAT3 then 12 else r
  else if (p_component_type =? COMPONENT_TYPE_SHORT) || (p_component_type =? COMPONENT_TYPE_UNSIGNED_SHORT) then
    if FBXType_eqb p_type TYPE_MAT3 then 16 else plain
  else plain.

(** A stride that is not a multiple of 4 is rounded up for vertex data;
    [%] is C++ remainder. *)
Definition align_stride (p_for_vertex : bool) (stride : Z) : Z :=
  if p_for_vertex && negb (Z.rem stride 4 =? 0)
  then stride + (4 - Z.rem stride 4) else stride.

(** The test [skip_every && j > 0 && (j % skip_every) == 0]. *)
Definition skips_before (skip_every j : Z) : bool :=
  negb (skip_every =? 0) && (0 <? j) && (Z.rem j skip_every =? 0).

(** Read [n] bytes at byte address [src] of [buf] through a raw pointer. *)
Definition read_bytes (buf : list Z) (src : Z) (n : nat) : outcome (list Z) :=
  if (src <? 0) || (size buf <? src + Z.of_nat n) then Undefined
  else Done (firstn n (skipn (Z.to_nat src) buf)).

(** The [switch] of the decode loop: one component at [src] as a
    [double].  A component type outside the six cases reads nothing and
    leaves [d = 0]. *)
Definition read_component (buf : list Z) (src : Z) (p_component_type : Z)
    (p_normalized : bool) : outcome spec_float :=
  if p_component_type =? COMPONENT_TYPE_BYTE then
    bs <- read_bytes buf src 1 ;;
    let b := F64.of_Z (signed_of 8 (uint_of_bytes bs)) in
    Done (if p_normalized then F64.div b (F64.of_Z 128) else b)
  else if p_component_type =? COMPONENT_TYPE_UNSIGNED_BYTE then
    bs <- read_bytes buf src 1 ;;
    let b := F64.of_Z (uint_of_bytes bs) in
    Done (if p_normalized then F64.div b (F64.of_Z 255) else b)
  else if p_component_type =? COMPONENT_TYPE_SHORT then
    bs <- read_bytes buf src 2 ;;
    let s := F64.of_Z (signed_of 16 (uint_of_bytes bs)) in
    Done (if p_normalized then F64.div s (F64.of_Z 32768) else s)
  else if p_component_type =? COMPONENT_TYPE_UNSIGNED_SHORT then
    bs <- read_bytes buf src 2 ;;
    let s := F64.of_Z (uint_of_bytes bs) in
    Done (if p_normalized then F64.div s (F64.of_Z 65535) else s)
  else if p_component_type =? COMPONENT_TYPE_INT then
    bs <- read_bytes buf src 4 ;;
    Done (F64.of_Z (signed_of 32 (uint_of_bytes bs)))
  else if p_component_type =? COMPONENT_TYPE_FLOAT then
    bs <- read_bytes buf src 4 ;;
    Done (double_of_float (F32.of_bits (uint_of_bytes bs)))
  else Done F64.zero.

(** The inner [for j] loop: [n] components are left, the next is [j]. *)
Fixpoint decode_components (n : nat) (buf : list Z) (src j : Z)
    (p_skip_every p_skip_bytes p_component_type p_component_size : Z)
    (p_normalized : bool) : outcome (list spec_float) :=
  match n with
  | O => Done []
  | S n =>
      let src := if skips_before p_skip_every j then src + p_skip_bytes else src in
      d <- read_component buf src p_component_type p_normalized ;;
      rest <- decode_components n buf (src + p_component_size) (j + 1)
                p_skip_every p_skip_bytes p_component_type p_component_size p_normalized ;;
      Done (d :: rest)
  end.

(** The outer [for i] loop: [n] elements are left, the next is [i]. *)
Fixpoint decode_elements (n : nat) (buf : list Z) (offset stride i : Z)
    (p_skip_every p_skip_bytes p_component_count p_component_type p_component_size : Z)
    (p_normalized : bool) : outcome (list spec_float) :=
  match n with
  | O => Done []
  | S n =>
      elt <- decode_components (Z.to_nat p_component_count) buf
               (to_uint32 (offset + i * stride)) 0
               p_skip_every p_skip_bytes p_component_type p_component_size p_normalized ;;
      rest <- decode_elements n buf offset stride (i + 1)
                p_skip_every p_skip_bytes p_component_count p_component_type
                p_component_size p_normalized ;;
      Done (elt ++ rest)
  end.

(** The [stride] of [_decode_buffer_view]: the element size, replaced by
    the view's stride when it declares one, then aligned for vertex data.
    [stride] is an [int]: the sum of the alignment wraps around. *)
Definition view_stride (bv : FBXBufferView) (p_element_size : Z) (p_for_vertex : bool) : Z :=
  to_int32 (align_stride p_for_vertex
              (if negb (byte_stride bv =? -1) then byte_stride bv else p_element_size)).

(** Its [buffer_end], [(stride * (p_count - 1)) + p_element_size]: the
    span of [p_count] elements, computed in [int], so a product or sum
    outside [-2^31, 2^31) wraps around. *)
Definition required_span (bv : FBXBufferView) (p_element_size p_count : Z)
    (p_for_vertex : bool) : Z :=
  to_int32 (view_stride bv p_element_size p_for_vertex * (p_count - 1) + p_element_size).

(** [_decode_buffer_view]; the values written through [p_dst] are
    returned next to the error code, none when the call fails. *)
Definition _decode_buffer_view (p_state : FBXState) (p_buffer_view : Z)
    (p_skip_every p_skip_bytes p_element_size p_count : Z) (p_type : FBXType)
    (p_component_count p_component_type p_component_size : Z)
    (p_normalized : bool) (p_byte_offset : Z) (p_for_vertex : bool)
    : outcome (Error * list spec_float) :=
  bv <- get (buffer_views p_state) p_buffer_view ;;
  let stride := view_stride bv p_element_size p_for_vertex in
  if (buffer bv <? 0) || (size (buffers p_state) <=? buffer bv) then Done (ERR_PARSE_ERROR, [])
  else
    let offset := to_uint32 (byte_offset bv + p_byte_offset) in
    buf <- get (buffers p_state) (buffer bv) ;;
    let buffer_end := required_span bv p_element_size p_count p_for_vertex in
    if byte_length bv <? buffer_end then Done (ERR_PARSE_ERROR, [])
    else if size buf <? to_int32 (offset + buffer_end) then Done (ERR_PARSE_ERROR, [])
    else
      vals <- decode_elements (Z.to_nat p_count) buf offset stride 0
                p_skip_every p_skip_bytes p_component_count p_component_type
                p_component_size p_normalized ;;
      Done (OK, vals).

(** A write through a raw pointer into a vector ([dst[k] = x]). *)
Definition ptr_set {A : Type} (v : list A) (i : Z) (x : A) : outcome (list A) :=
  if (i <? 0) || (size v <=? i) then Undefined
  else Done (firstn (Z.to_nat i) v ++ x :: skipn (S (Z.to_nat i)) v).

(** A read through a raw pointer ([w[k]], [*p_src]). *)
Definition ptr_get {A : Type} (v : list A) (i : Z) : outcome A :=
  if i <? 0 then Undefined
  else match nth_error v (Z.to_nat i) with
       | Some a => Done a
       | None => Undefined
       end.

(** [Vector<T>::write[i] = x]: a bad index crashes. *)
Definition write_at {A : Type} (v : list A) (i : Z) (x : A) : outcome (list A) :=
  if (i <? 0) || (size v <=? i) then Crashed
  else Done (firstn (Z.to_nat i) v ++ x :: skipn (S (Z.to_nat i)) v).

(** The scatter loops of the sparse branch of [_decode_accessor]. *)
Fixpoint sparse_copy (n : nat) (dst data : list spec_float)
    (write_offset i component_count j : Z) : outcome (list spec_float) :=
  match n with
  | O => Done dst
  | S n =>
      x <- get data (i * component_count + j) ;;
      dst <- ptr_set dst (write_offset + j) x ;;
      sparse_copy n dst data write_offset i component_count (j + 1)
  end.

Fixpoint sparse_scatter (indices : list spec_float) (dst data : list spec_float)
    (component_count i : Z) : outcome (list spec_float) :=
  match indices with
  | [] => Done dst
  | index :: rest =>
      k <- int_of_double (- 2 ^ 31) (2 ^ 31 - 1) index ;;
      let write_offset := to_int32 (k * component_count) in
      dst <- sparse_copy (Z.to_nat component_count) dst data
               write_offset i component_count 0 ;;
      sparse_scatter rest dst data component_count (i + 1)
  end.

(** The values that [_decode_buffer_view] wrote through [p_dst] into a
    vector that [resize(n)] left with [n] elements ([resize] refuses a
    negative [n] and leaves the vector empty): more values than elements
    are writes outside the vector, fewer leave elements that nothing
    initialised. *)
Definition ptr_fill (n : Z) (vals : list spec_float) : outcome (list spec_float) :=
  if size vals =? Z.max 0 n then Done vals else Undefined.

(** [_decode_accessor]; the empty vector is the failure value.  The
    sizes [component_count * a->count] of [dst_buffer] and
    [component_count * a->sparse_count] of [data], and the bound
    [a->count * component_count] of the zero-filling loop, are [int]
    products and wrap around. *)
Definition _decode_accessor (p_state : FBXState) (p_accessor : Z) (p_for_vertex : bool)
    : outcome (list spec_float) :=
  if (p_accessor <? 0) || (size (accessors p_state) <=? p_accessor) then Done []
  else
    a <- get (accessors p_state) p_accessor ;;
    let component_count := component_count_for_type (type a) in
    let component_size := _get_component_type_size (component_type a) in
    if component_size =? 0 then Done []
    else
      let element_size := element_size_for (component_type a) (type a) in
      let '(skip_every, skip_bytes) := skip_table (component_type a) (type a) in
      let dst_size := to_int32 (component_count * count a) in
      dst <-
        (if 0 <=? buffer_view a then
           if size (buffer_views p_state) <=? buffer_view a then Done None
           else
             '(err, vals) <- _decode_buffer_view p_state (buffer_view a) skip_every skip_bytes
                               element_size (count a) (type a) component_count
                               (component_type a) component_size (normalized a)
                               (a_byte_offset a) p_for_vertex ;;
             match err with
             | OK => dst <- ptr_fill dst_size vals ;; Done (Some dst)
             | _ => Done None
             end
         else Done (Some (repeat F64.zero (Z.to_nat (to_int32 (count a * component_count)))))) ;;
      match dst with
      | None => Done []
      | Some dst =>
          if 0 <? sparse_count a then
            let indices_component_size :=
              _get_component_type_size (sparse_indices_component_type a) in
            '(err, indices) <- _decode_buffer_view p_state (sparse_indices_buffer_view a) 0 0
                                 indices_component_size (sparse_count a) TYPE_SCALAR 1
                                 (sparse_indices_component_type a) indices_component_size
                                 false (sparse_indices_byte_offset a) false ;;
            match err with
            | OK =>
                indices <- ptr_fill (sparse_count a) indices ;;
                '(err, data) <- _decode_buffer_view p_state (sparse_values_buffer_view a)
                                  skip_every skip_bytes element_size (sparse_count a) (type a)
                                  component_count (component_type a) component_size
                                  (normalized a) (sparse_values_byte_offset a) p_for_vertex ;;
                match err with
                | OK =>
                    data <- ptr_fill (to_int32 (component_count * sparse_count a)) data ;;
                    sparse_scatter indices dst data component_count 0
                | _ => Done []
                end
            | _ => Done []
            end
          else Done dst
      end.

(** The conversion [buffer.write[dst_i] = d] (or [d * scale]) of the
    encode loops, as the bit pattern of the element stored. *)
Definition encode_component (p_component_type : Z) (p_normalized : bool)
    (d : spec_float) : outcome Z :=
  if p_component_type =? COMPONENT_TYPE_BYTE then
    z <- int_of_double (-128) 127
           (if p_normalized then F64.mul d (F64.of_Z 128) else d) ;;
    Done (unsigned_of 8 z)
  else if p_component_type =? COMPONENT_TYPE_UNSIGNED_BYTE then
    int_of_double 0 255 (if p_normalized then F64.mul d (F64.of_Z 255) else d)
  else if p_component_type =? COMPONENT_TYPE_SHORT then
    z <- int_of_double (-32768) 32767
           (if p_normalized then F64.mul d (F64.of_Z 32768) else d) ;;
    Done (unsigned_of 16 z)
  else if p_component_type =? COMPONENT_TYPE_UNSIGNED_SHORT then
    int_of_double 0 65535 (if p_normalized then F64.mul d (F64.of_Z 65535) else d)
  else if p_component_type =? COMPONENT_TYPE_INT then
    z <- int_of_double (- 2 ^ 31) (2 ^ 31 - 1) d ;;
    Done (unsigned_of 32 z)
  else Done (F32.to_bits (float_of_double d)).

(** The inner [for j] loop of an encode case: state is the typed buffer,
    the write index [dst_i] and the unread part of [p_src]. *)
Fixpoint encode_components (n : nat) (buf : list Z) (dst_i : Z) (p_src : list spec_float)
    (j skip_every skip_bytes p_component_type : Z) (p_normalized : bool)
    : outcome (list Z * Z * list spec_float) :=
  match n with
  | O => Done (buf, dst_i, p_src)
  | S n =>
      let dst_i := if skips_before skip_every j then dst_i + skip_bytes else dst_i in
      d <- ptr_get p_src 0 ;;
      x <- encode_component p_component_type p_normalized d ;;
      buf <- write_at buf dst_i x ;;
      encode_components n buf (dst_i + 1) (tl p_src) (j + 1)
        skip_every skip_bytes p_component_type p_normalized
  end.

Fixpoint encode_elements (n : nat) (buf : list Z) (dst_i : Z) (p_src : list spec_float)
    (component_count skip_every skip_bytes p_component_type : Z) (p_normalized : bool)
    : outcome (list Z) :=
  match n with
  | O => Done buf
  | S n =>
      '(buf, dst_i, p_src) <- encode_components (Z.to_nat component_count) buf dst_i p_src 0
                                skip_every skip_bytes p_component_type p_normalized ;;
      encode_elements n buf dst_i p_src component_count skip_every skip_bytes
        p_component_type p_normalized
  end.

Definition set_buffer0 (p_state : FBXState) (b : list Z) : FBXState :=
  {| buffers := b :: tl (buffers p_state);
     buffer_views := buffer_views p_state;
     accessors := accessors p_state |}.

Definition add_buffer_view (p_state : FBXState) (bv : FBXBufferView) : FBXState :=
  {| buffers := buffers p_state;
     buffer_views := push_back (buffer_views p_state) bv;
     accessors := accessors p_state |}.

(** [_encode_buffer_view]: the six cases of the [switch] differ in the
    element type of the temporary [buffer] and in the conversion only, so
    they are one definition over [_get_component_type_size] and
    [encode_component].  The temporary vector is sized
    [p_count * component_count] (a negative size leaves it empty) and its
    elements start out as 0.  Returns the error code, the state (the main
    buffer grows before the range checks) and [r_accessor] when set. *)
Definition _encode_buffer_view (p_state : FBXState) (p_src : list spec_float)
    (p_count : Z) (p_type : FBXType) (p_component_type : Z) (p_normalized : bool)
    (p_byte_offset : Z) (p_for_vertex : bool)
    : outcome (Error * FBXState * option Z) :=
  let component_count := component_count_for_type p_type in
  let component_size := _get_component_type_size p_component_type in
  if component_size =? 0 then Done (FAILED, p_state, None)
  else
    let '(skip_every, skip_bytes) := skip_table p_component_type p_type in
    let offset := to_uint32 p_byte_offset in
    gltf_buffer <- get (buffers p_state) 0 ;;
    let stride := align_stride p_for_vertex (_get_component_type_size p_component_type) in
    let buffer_end := stride * (p_count - 1) + _get_component_type_size p_component_type in
    let bv_byte_offset := size gltf_buffer in
    let buf0 := repeat 0 (Z.to_nat (p_count * component_count)) in
    buf <- encode_elements (Z.to_nat p_count) buf0 0 p_src component_count
             skip_every skip_bytes p_component_type p_normalized ;;
    let gltf_buffer := gltf_buffer ++ flat_map (bytes_of_uint (Z.to_nat component_size)) buf in
    let bv_byte_length := size buf * component_size in
    let p_state := set_buffer0 p_state gltf_buffer in
    if bv_byte_length <? buffer_end then Done (ERR_INVALID_DATA, p_state, None)
    else if size gltf_buffer <? to_int32 (offset + buffer_end) then Done (ERR_INVALID_DATA, p_state, None)
    else
      let r_accessor := size (buffer_views p_state) in
      let bv := {| buffer := r_accessor; byte_offset := bv_byte_offset;
                   byte_length := bv_byte_length; byte_stride := -1 |} in
      Done (OK, add_buffer_view p_state bv, Some r_accessor).

(* ================================================================== *)
(** * Mesh assembler: triangle winding *)
(* ================================================================== *)

(** [for (k = 0; k < is; k += 3) SWAP(w[k + 1], w[k + 2])] on the raw
    pointer [w]; [n] iterations are left. *)
Fixpoint swap_loop {A : Type} (n : nat) (w : list A) (k : Z) : outcome (list A) :=
  match n with
  | O => Done w
  | S n =>
      a <- ptr_get w (k + 1) ;;
      b <- ptr_get w (k + 2) ;;
      w <- ptr_set w (k + 1) b ;;
      w <- ptr_set w (k + 2) a ;;
      swap_loop n w (k + 3)
  end.

(** The winding flip of [_parse_meshes] for an indexed triangle
    primitive; the loop runs for k = 0, 3, 6, ... below [is]. *)
Definition flip_winding {A : Type} (indices : list A) : outcome (list A) :=
  let is_ := size indices in
  swap_loop (Z.to_nat ((is_ + 2) / 3)) indices 0.

(** The triple-wise description of the flip. *)
Fixpoint swap_triples {A : Type} (l : list A) : list A :=
  match l with
  | a :: b :: c :: r => a :: c :: b :: swap_triples r
  | _ => l
  end.

(* ================================================================== *)
(** * Animation track converter *)
(* ================================================================== *)

(** [FBXAnimation::Interpolation]. *)
Inductive Interpolation : Type :=
| INTERP_LINEAR
| INTERP_STEP
| INTERP_CATMULLROMSPLINE
| INTERP_CUBIC_SPLINE.

(** [SceneFormatImporterGLTFInterpolate<T>], with the two facilities of
    [T] that [_interpolate_track] uses besides it: the value [T()] and
    [operator+]. *)
Class SceneFormatImporterGLTFInterpolate (T : Type) : Type := {
  T_default : T;
  T_plus : T -> T -> T;
  lerp : T -> T -> spec_float -> T;
  catmull_rom : T -> T -> T -> T -> spec_float -> T;
  bezier : T -> T -> T -> T -> spec_float -> T
}.

(** The primary template at [T = real_t], a [float].  Literals with an
    [f] suffix are [float]s; [1.0] and [3.0] are [double]s, so the last
    factor of the two middle terms of [bezier] and the sum around them are
    computed in [double] and narrowed on return. *)
Definition f32 (z : Z) : spec_float := F32.of_Z z.
Definition f32_half : spec_float := F32.div (f32 1) (f32 2).

Definition real_lerp (a b c : spec_float) : spec_float :=
  F32.add a (F32.mul (F32.sub b a) c).

Definition real_catmull_rom (p0 p1 p2 p3 t : spec_float) : spec_float :=
  let t2 := F32.mul t t in
  let t3 := F32.mul t2 t in
  F32.mul f32_half
    (F32.add
       (F32.add
          (F32.add (F32.mul (f32 2) p1)
                   (F32.mul (F32.add (SFopp p0) p2) t))
          (F32.mul (F32.sub (F32.add (F32.sub (F32.mul (f32 2) p0) (F32.mul (f32 5) p1))
                                     (F32.mul (f32 4) p2)) p3) t2))
       (F32.mul (F32.add (F32.sub (F32.add (SFopp p0) (F32.mul (f32 3) p1))
                                  (F32.mul (f32 3) p2)) p3) t3)).

Definition real_bezier (start control_1 control_2 end_ t : spec_float) : spec_float :=
  let omt := float_of_double (F64.sub (F64.of_Z 1) (double_of_float t)) in
  let omt2 := F32.mul omt omt in
  let omt3 := F32.mul omt2 omt in
  let t2 := F32.mul t t in
  let t3 := F32.mul t2 t in
  float_of_double
    (F64.add
       (F64.add
          (F64.add (double_of_float (F32.mul start omt3))
                   (F64.mul (double_of_float (F32.mul (F32.mul control_1 omt2) t)) (F64.of_Z 3)))
          (F64.mul (double_of_float (F32.mul (F32.mul control_2 omt) t2)) (F64.of_Z 3)))
       (double_of_float (F32.mul end_ t3))).

#[export] Instance real_interpolate : SceneFormatImporterGLTFInterpolate spec_float := {
  T_default := F32.zero;
  T_plus := F32.add;
  lerp := real_lerp;
  catmull_rom := real_catmull_rom;
  bezier := real_bezier
}.

(** The linear scan for the bracketing key: [idx] counts the keys that
    are not later than [p_time]. *)
Fixpoint find_idx (p_times : list spec_float) (p_time : spec_float) (idx : Z) : Z :=
  match p_times with
  | [] => idx
  | t :: rest => if F32.ltb p_time t then idx else find_idx rest p_time (idx + 1)
  end.

(** The size test that opens [_interpolate_track]. *)
Definition values_correspond (p_interp : Interpolation) (n_times n_values : Z) : bool :=
  n_times =? Z.quot n_values (match p_interp with INTERP_CUBIC_SPLINE => 3 | _ => 1 end).

(** The interpolation factor [c]. *)
Definition factor (p_time t0 t1 : spec_float) : spec_float :=
  F32.div (F32.sub p_time t0) (F32.sub t1 t0).

(** The [switch] of [_interpolate_track]. *)
Definition sample_track {T : Type} `{SceneFormatImporterGLTFInterpolate T}
    (p_times : list spec_float) (p_values : list T) (p_time : spec_float)
    (p_interp : Interpolation) : outcome T :=
  let idx := find_idx p_times p_time (-1) in
  match p_interp with
  | INTERP_LINEAR =>
      if idx =? -1 then get p_values 0
      else if size p_times - 1 <=? idx then get p_values (size p_times - 1)
      else
        t0 <- get p_times idx ;;
        t1 <- get p_times (idx + 1) ;;
        a <- get p_values idx ;;
        b <- get p_values (idx + 1) ;;
        Done (lerp a b (factor p_time t0 t1))
  | INTERP_STEP =>
      if idx =? -1 then get p_values 0
      else if size p_times - 1 <=? idx then get p_values (size p_times - 1)
      else get p_values idx
  | INTERP_CATMULLROMSPLINE =>
      if idx =? -1 then get p_values 1
      else if size p_times - 1 <=? idx then get p_values (1 + size p_times - 1)
      else
        t0 <- get p_times idx ;;
        t1 <- get p_times (idx + 1) ;;
        p0 <- get p_values (idx - 1) ;;
        p1 <- get p_values idx ;;
        p2 <- get p_values (idx + 1) ;;
        p3 <- get p_values (idx + 3) ;;
        Done (catmull_rom p0 p1 p2 p3 (factor p_time t0 t1))
  | INTERP_CUBIC_SPLINE =>
      if idx =? -1 then get p_values 1
      else if size p_times - 1 <=? idx then get p_values ((size p_times - 1) * 3 + 1)
      else
        t0 <- get p_times idx ;;
        t1 <- get p_times (idx + 1) ;;
        from <- get p_values (idx * 3 + 1) ;;
        out_tangent <- get p_values (idx * 3 + 2) ;;
        to <- get p_values (idx * 3 + 4) ;;
        in_tangent <- get p_values (idx * 3 + 3) ;;
        Done (bezier from (T_plus from out_tangent) (T_plus to in_tangent) to
                (factor p_time t0 t1))
  end.

(** [_interpolate_track<T>]. *)
Definition _interpolate_track {T : Type} `{SceneFormatImporterGLTFInterpolate T}
    (p_times : list spec_float) (p_values : list T) (p_time : spec_float)
    (p_interp : Interpolation) : outcome T :=
  if size p_values =? 0 then Done T_default
  else if negb (values_correspond p_interp (size p_times) (size p_values))
       then get p_values 0
       else sample_track p_times p_values p_time p_interp.

(** [FBXAnimation::Channel<T>]. *)
Record Channel (T : Type) : Type := {
  interpolation : Interpolation;
  times : list spec_float;
  values : list T
}.

(** [output_count] as [_parse_animations] sets it from the sampler's
    interpolation. *)
Definition output_count (interp : Interpolation) : Z :=
  match interp with
  | INTERP_CATMULLROMSPLINE | INTERP_CUBIC_SPLINE => 3
  | _ => 1
  end.

(** The [weights] branch of [_parse_animations] for a mesh with [wc > 0]
    blend shapes: the inner loop that takes every [wc]-th value, and the
    loop that builds one channel [cf] per blend shape. *)
Fixpoint gather_weights (n : nat) (weights : list spec_float) (wc k l : Z)
    : outcome (list spec_float) :=
  match n with
  | O => Done []
  | S n =>
      w <- get weights (l * wc + k) ;;
      rest <- gather_weights n weights wc k (l + 1) ;;
      Done (w :: rest)
  end.

Fixpoint weight_tracks_loop (n : nat) (interp : Interpolation) (times weights : list spec_float)
    (wc wlen k : Z) : outcome (list (Channel spec_float)) :=
  match n with
  | O => Done []
  | S n =>
      wdata <- gather_weights (Z.to_nat wlen) weights wc k 0 ;;
      rest <- weight_tracks_loop n interp times weights wc wlen (k + 1) ;;
      Done ({| interpolation := interp; times := times; values := wdata |} :: rest)
  end.

(** The size test and the channels built when it passes.
    [expected_value_count] is the [int] product
    [times.size() * output_count * wc], which wraps around; the test
    compares two [int]s.  [None] is the [ERR_CONTINUE_MSG] exit, which
    builds no channel; what it leaves in the track is in
    [store_weight_tracks]. *)
Definition parse_weight_tracks (interp : Interpolation) (times weights : list spec_float)
    (wc : Z) : outcome (option (list (Channel spec_float))) :=
  let expected_value_count := to_int32 (size times * output_count interp * wc) in
  if negb (to_int32 (size weights) =? expected_value_count) then Done None
  else
    let wlen := Z.quot (size weights) wc in
    tracks <- weight_tracks_loop (Z.to_nat wc) interp times weights wc wlen 0 ;;
    Done (Some tracks).

(** [Vector<T>::resize(n)]: the first [n] elements stay, new ones are
    default-constructed ([d]); a negative [n] is refused. *)
Definition resize {A : Type} (v : list A) (n : Z) (d : A) : list A :=
  if n <? 0 then v
  else firstn (Z.to_nat n) v ++ repeat d (Z.to_nat n - length v).

(** [track->weight_tracks.write[k] = cf] for [k = 0, 1, ...]. *)
Fixpoint write_tracks {A : Type} (cfs : list A) (weight_tracks : list A) (k : Z)
    : outcome (list A) :=
  match cfs with
  | [] => Done weight_tracks
  | cf :: rest =>
      weight_tracks <- write_at weight_tracks k cf ;;
      write_tracks rest weight_tracks (k + 1)
  end.

(** What the branch does to [track->weight_tracks]: it is resized to
    [wc] before the size test, so a channel that fails the test leaves
    the resized vector behind; otherwise every element is overwritten.
    The header that declares [Channel] is not among the sources: a
    default-constructed channel has empty [times] and [values] and the
    interpolation [interp0] that the header gives it. *)
Definition store_weight_tracks (interp0 : Interpolation)
    (weight_tracks : list (Channel spec_float))
    (interp : Interpolation) (times weights : list spec_float) (wc : Z)
    : outcome (list (Channel spec_float)) :=
  let fresh := {| interpolation := interp0; times := []; values := [] |} in
  let weight_tracks := resize weight_tracks wc fresh in
  parsed <- parse_weight_tracks interp times weights wc ;;
  match parsed with
  | None => Done weight_tracks
  | Some cfs => write_tracks cfs weight_tracks 0
  end.

(** The three range tests of [_decode_buffer_view] in one predicate: the
    view's buffer index is outside the buffers, the span exceeds the
    declared length of the view, or view offset plus accessor offset plus
    span, in 32-bit arithmetic, exceeds the size of the buffer. *)
Definition view_refused (p_state : FBXState) (bv : FBXBufferView)
    (p_element_size p_count p_byte_offset : Z) (p_for_vertex : bool) : bool :=
  (buffer bv <? 0) || (size (buffers p_state) <=? buffer bv)
  || (byte_length bv <? required_span bv p_element_size p_count p_for_vertex)
  || (size (nth (Z.to_nat (buffer bv)) (buffers p_state) [])
        <? to_int32 (to_uint32 (byte_offset bv + p_byte_offset)
                     + required_span bv p_element_size p_count p_for_vertex)).

(** The scenario documents of the skip-level test: four nodes with the
    indices [j0], [j1], [j2] (the joints, in the order of the skin) and
    [n] (not a joint).  [j0] is a root, [n] is its child, [j2] is the
    child of [n]; [j1] hangs under [p1].  [rev] lists the children of
    every node in descending instead of ascending index order. *)
Definition scenario_parent (j0 j1 j2 n p1 : Z) (i : Z) : Z :=
  if i =? j0 then -1
  else if i =? n then j0
  else if i =? j2 then n
  else p1.

Definition scenario_height (j0 j1 j2 n p1 : Z) (i : Z) : Z :=
  if i =? j0 then 0
  else if i =? n then 1
  else if i =? j2 then 2
  else if p1 =? j0 then 1
  else if p1 =? n then 2
  else 3.

Definition scenario_node (j0 j1 j2 n p1 : Z) (rev : bool) (i : Z) : FBXNode :=
  let kids := filter (fun c => scenario_parent j0 j1 j2 n p1 c =? i) [0; 1; 2; 3] in
  {| parent := scenario_parent j0 j1 j2 n p1 i;
     children := if rev then List.rev kids else kids;
     height := scenario_height j0 j1 j2 n p1 i;
     joint := negb (i =? n) |}.

Definition scenario_nodes (j0 j1 j2 n p1 : Z) (rev : bool) : list FBXNode :=
  map (scenario_node j0 j1 j2 n p1 rev) [0; 1; 2; 3].

Definition scenario_skin (j0 j1 j2 : Z) : FBXSkin :=
  {| joints := [j0; j1; j2]; non_joints := []; roots := [] |}.

(** The indices are a permutation of 0..3 and [p1] is one of the three
    other nodes. *)
Definition scenario_valid (j0 j1 j2 n p1 : Z) : bool :=
  forallb (fun i => existsb (Z.eqb i) [j0; j1; j2; n]) [0; 1; 2; 3]
  && existsb (Z.eqb p1) [j0; n; j2].

(** What the scenario asks of the expansion, as a test. *)
Definition scenario_passes (j0 j1 j2 n p1 : Z) (rev : bool) : bool :=
  match _expand_skin 5 (scenario_nodes j0 j1 j2 n p1 rev) (scenario_skin j0 j1 j2) with
  | Done (OK, skin) =>
      existsb (Z.eqb n) (non_joints skin)
      && match roots skin with [r] => r =? j0 | _ => false end
      && match _verify_skin (scenario_nodes j0 j1 j2 n p1 rev) skin with
         | Done OK => true
         | _ => false
         end
  | _ => false
  end.

(** ** Well-formed node hierarchies *)

Definition node_at (nodes : list FBXNode) (i : Z) : option FBXNode :=
  if i <? 0 then None else nth_error nodes (Z.to_nat i).

(** The hierarchy invariant that [_parse_nodes] and
    [_compute_node_heights] establish on a document whose [children]
    lists form a forest: a node without parent has height 0, any other
    node has an existing parent and sits one level below it, and every
    listed child names the lister as its parent. *)
Definition wf_node (nodes : list FBXNode) (i : Z) (nd : FBXNode) : bool :=
  (0 <=? height nd)
  && (if parent nd =? -1 then height nd =? 0
      else match node_at nodes (parent nd) with
           | Some p => height nd =? height p + 1
           | None => false
           end)
  && forallb (fun c => match node_at nodes c with
                       | Some cn => parent cn =? i
                       | None => false
                       end) (children nd).

Definition wf_nodes (nodes : list FBXNode) : bool :=
  forallb (fun i => match node_at nodes i with
                    | Some nd => wf_node nodes i nd
                    | None => false
                    end)
          (map Z.of_nat (seq 0 (length nodes))).

(** Every height is below the fuel. *)
Definition deep_enough (fuel : nat) (nodes : list FBXNode) : bool :=
  forallb (fun nd => height nd <? Z.of_nat fuel) nodes.

(** The joints of a skin as [_parse_skins] leaves them: existing nodes,
    nothing expanded yet. *)
Definition fresh_skin (nodes : list FBXNode) (p_skin : FBXSkin) : bool :=
  forallb (fun j => (0 <=? j) && (j <? size nodes)) (joints p_skin)
  && match non_joints p_skin with [] => true | _ => false end.

(* ================================================================== *)
(** * Mesh assembler: bone weights *)
(* ================================================================== *)

(** [float total = 0.0; total += w[k + 0]; total += w[k + 1]; ...]: the
    running sum of one tuple of weights, in [float]. *)
Definition weights_total (t : list spec_float) : spec_float :=
  fold_left F32.add t F32.zero.

(** The test [total > 0.0]: the [float] is compared as a [double]. *)
Definition total_positive (total : spec_float) : bool :=
  F64.ltb F64.zero (double_of_float total).

(** What one iteration of the loop makes of the tuple it reads:
    [w[k + j] /= total] for each [j] when the total is positive. *)
Definition normalize_tuple (t : list spec_float) : list spec_float :=
  let total := weights_total t in
  if total_positive total then map (fun w => F32.div w total) t else t.

(** The reads [w[k + 0] ... w[k + n - 1]] and the writes back through
    the raw pointer [w = weights.ptrw()]. *)
Fixpoint read_tuple (w : list spec_float) (k : Z) (n : nat) : outcome (list spec_float) :=
  match n with
  | O => Done []
  | S n =>
      x <- ptr_get w k ;;
      r <- read_tuple w (k + 1) n ;;
      Done (x :: r)
  end.

Fixpoint write_tuple (w : list spec_float) (k : Z) (t : list spec_float)
    : outcome (list spec_float) :=
  match t with
  | [] => Done w
  | x :: r =>
      w <- ptr_set w k x ;;
      write_tuple w (k + 1) r
  end.

(** [for (int k = 0; k < wc; k += group)] with [group] 4 (WEIGHTS_0
    alone) or 8 (WEIGHTS_0 and WEIGHTS_1 merged); [fuel] bounds the
    iterations. *)
Fixpoint normalize_weights (fuel : nat) (group : nat) (w : list spec_float) (k : Z)
    : outcome (list spec_float) :=
  match fuel with
  | O => Diverged
  | S fuel =>
      if k <? size w then
        t <- read_tuple w k group ;;
        let total := weights_total t in
        w <- (if total_positive total
              then write_tuple w k (map (fun x => F32.div x total) t)
              else Done w) ;;
        normalize_weights fuel group w (k + Z.of_nat group)
      else Done w
  end.

(* ================================================================== *)
(** * Mesh assembler: generated indices *)
(* ================================================================== *)

(** The loop of the unindexed triangle branch of [_parse_meshes]:
    [w[k] = k; w[k + 1] = k + 2; w[k + 2] = k + 1] on the raw pointer
    [w]; [n] iterations are left. *)
Fixpoint generate_loop (n : nat) (w : list Z) (k : Z) : outcome (list Z) :=
  match n with
  | O => Done w
  | S n =>
      w <- ptr_set w k k ;;
      w <- ptr_set w (k + 1) (k + 2) ;;
      w <- ptr_set w (k + 2) (k + 1) ;;
      generate_loop n w (k + 3)
  end.

(** The branch itself for [vs] vertices: [None] stands for the return
    of [ERR_PARSE_ERROR]; the vector is resized to [vs] zeros and the
    loop runs for k = 0, 3, 6, ... below [vs]. *)
Definition generate_indices (vs : Z) : outcome (option (list Z)) :=
  if vs =? 0 then Done None
  else
    w <- generate_loop (Z.to_nat ((vs + 2) / 3)) (repeat 0 (Z.to_nat vs)) 0 ;;
    Done (Some w).

(* ================================================================== *)
(** * Node hierarchy: heights and parents *)
(* ================================================================== *)

Definition set_height (nd : FBXNode) (h : Z) : FBXNode :=
  {| parent := parent nd; children := children nd; height := h; joint := joint nd |}.

Definition set_parent (nd : FBXNode) (p : Z) : FBXNode :=
  {| parent := p; children := children nd; height := height nd; joint := joint nd |}.

(** The [while (current_i >= 0)] climb of [_compute_node_heights]:
    [h] is [node->height] so far. *)
Fixpoint climb_height (fuel : nat) (nodes : list FBXNode) (current_i h : Z) : outcome Z :=
  match fuel with
  | O => Diverged
  | S fuel =>
      if 0 <=? current_i then
        nd <- get nodes current_i ;;
        let parent_i := parent nd in
        climb_height fuel nodes parent_i (if 0 <=? parent_i then h + 1 else h)
      else Done h
  end.

(** The [for] loop over the nodes; [n] nodes are left, the next is
    [node_i]. *)
Fixpoint compute_heights_loop (fuel : nat) (n : nat) (nodes : list FBXNode) (node_i : Z)
    (root_nodes : list Z) : outcome (list FBXNode * list Z) :=
  match n with
  | O => Done (nodes, root_nodes)
  | S n =>
      node <- get nodes node_i ;;
      h <- climb_height fuel nodes node_i 0 ;;
      nodes <- write_at nodes node_i (set_height node h) ;;
      let root_nodes := if h =? 0 then push_back root_nodes node_i else root_nodes in
      compute_heights_loop fuel n nodes (node_i + 1) root_nodes
  end.

(** [_compute_node_heights]: the nodes with their heights set, and
    [root_nodes]. *)
Definition _compute_node_heights (fuel : nat) (nodes : list FBXNode)
    : outcome (list FBXNode * list Z) :=
  compute_heights_loop fuel (length nodes) nodes 0 [].

(** The inner loop of [_build_parent_hierachy] over the children of
    [node_i]; the flag is [false] when [ERR_FAIL_INDEX] returns from the
    function, with the nodes as they are at that point. *)
Fixpoint adopt_children (nodes : list FBXNode) (node_i : Z) (kids : list Z)
    : outcome (list FBXNode * bool) :=
  match kids with
  | [] => Done (nodes, true)
  | child_i :: rest =>
      if (child_i <? 0) || (size nodes <=? child_i) then Done (nodes, false)
      else
        child <- get nodes child_i ;;
        if negb (parent child =? -1) then adopt_children nodes node_i rest
        else
          nodes <- write_at nodes child_i (set_parent child node_i) ;;
          adopt_children nodes node_i rest
  end.

(** Its outer loop; [n] nodes are left, the next is [node_i]. *)
Fixpoint build_parents_loop (n : nat) (nodes : list FBXNode) (node_i : Z)
    : outcome (list FBXNode) :=
  match n with
  | O => Done nodes
  | S n =>
      node <- get nodes node_i ;;
      '(nodes, completed) <- adopt_children nodes node_i (children node) ;;
      if completed then build_parents_loop n nodes (node_i + 1) else Done nodes
  end.

(** [_build_parent_hierachy]. *)
Definition _build_parent_hierachy (nodes : list FBXNode) : outcome (list FBXNode) :=
  build_parents_loop (length nodes) nodes 0.

(* ================================================================== *)
(** * Names *)
(* ================================================================== *)

Section Names.
Import Stdlib.Strings.Ascii Stdlib.Strings.String.
Local Open Scope string_scope.

(** [_get_accessor_type_name]. *)
Definition _get_accessor_type_name (p_type : FBXType) : string :=
  match p_type with
  | TYPE_SCALAR => "SCALAR"
  | TYPE_VEC2 => "VEC2"
  | TYPE_VEC3 => "VEC3"
  | TYPE_VEC4 => "VEC4"
  | TYPE_MAT2 => "MAT2"
  | TYPE_MAT3 => "MAT3"
  | TYPE_MAT4 => "MAT4"
  end.

(** [_get_type_from_str]; the last line is [ERR_FAIL_V(TYPE_SCALAR)]. *)
Definition _get_type_from_str (p_string : string) : FBXType :=
  if p_string =? "SCALAR" then TYPE_SCALAR
  else if p_string =? "VEC2" then TYPE_VEC2
  else if p_string =? "VEC3" then TYPE_VEC3
  else if p_string =? "VEC4" then TYPE_VEC4
  else if p_string =? "MAT2" then TYPE_MAT2
  else if p_string =? "MAT3" then TYPE_MAT3
  else if p_string =? "MAT4" then TYPE_MAT4
  else TYPE_SCALAR.

(** [String::replace] for a pattern and a replacement of one character
    each. *)
Fixpoint replace_char (from to : ascii) (s : string) : string :=
  match s with
  | EmptyString => EmptyString
  | String c r => String (if Ascii.eqb c from then to else c) (replace_char from to r)
  end.

(** [_sanitize_bone_name]. *)
Definition _sanitize_bone_name (p_name : string) : string :=
  replace_char "/" "_" (replace_char ":" "_" p_name).

(** [itos]: the decimal digits of an integer. *)
Definition itos (i : Z) : string :=
  DecimalString.NilEmpty.string_of_int (Z.to_int i).

(** The name tried at [index]. *)
Definition candidate (s_name : string) (index : Z) : string :=
  if (1 <? index)%Z then s_name ++ "_" ++ itos index else s_name.

(** The [while (true)] loop of [_gen_unique_bone_name] over the names
    already taken in the skeleton ([unique_names.has]); [index++] on an
    [int] at its largest value is undefined. *)
Fixpoint unique_name_loop (fuel : nat) (unique_names : list string) (s_name : string)
    (index : Z) : outcome string :=
  match fuel with
  | O => Diverged
  | S fuel =>
      let u_name := candidate s_name index in
      if negb (List.existsb (String.eqb u_name) unique_names) then Done u_name
      else if (2 ^ 31 - 1 <=? index)%Z then Undefined
      else unique_name_loop fuel unique_names s_name (index + 1)%Z
  end.

(** [_gen_unique_bone_name] on the name set of the skeleton: the name
    and the set after [unique_names.insert]. *)
Definition _gen_unique_bone_name (fuel : nat) (unique_names : list string) (p_name : string)
    : outcome (string * list string) :=
  let s_name := _sanitize_bone_name p_name in
  let s_name := if s_name =? EmptyString then "bone" else s_name in
  u_name <- unique_name_loop fuel unique_names s_name 1%Z ;;
  Done (u_name, u_name :: unique_names).
End Names.

(* ================================================================== *)
(** * Skeletons *)
(* ================================================================== *)

(** A node together with the [skeleton] field of [FBXNode] that the
    skeleton passes read; [base] holds the fields used so far. *)
Record FBXSkelNode : Type := { base : FBXNode; skeleton : Z }.

(** [FBXSkeleton]: the joints and roots of a skeleton. *)
Module Skel.
Record FBXSkeleton : Type := { joints : list Z; roots : list Z }.

Definition set_roots (s : FBXSkeleton) (r : list Z) : FBXSkeleton :=
  {| joints := joints s; roots := r |}.

Definition set_joints (s : FBXSkeleton) (j : list Z) : FBXSkeleton :=
  {| joints := j; roots := roots s |}.
End Skel.

(** The first loop of [_determine_skeleton_roots]: [n] nodes are left,
    the next is [i]. *)
Fixpoint skeleton_union_pass (n : nat) (nodes : list FBXSkelNode) (p_skel_i i : Z)
    (disjoint_set : DisjointSet.t) : outcome DisjointSet.t :=
  match n with
  | O => Done disjoint_set
  | S n =>
      node <- get nodes i ;;
      if negb (skeleton node =? p_skel_i)
      then skeleton_union_pass n nodes p_skel_i (i + 1) disjoint_set
      else
        let disjoint_set := DisjointSet.insert disjoint_set i in
        disjoint_set <-
          (if 0 <=? parent (base node) then
             pnode <- get nodes (parent (base node)) ;;
             Done (if skeleton pnode =? p_skel_i
                   then DisjointSet.create_union disjoint_set (parent (base node)) i
                   else disjoint_set)
           else Done disjoint_set) ;;
        skeleton_union_pass n nodes p_skel_i (i + 1) disjoint_set
  end.

(** [_determine_skeleton_roots]: the error code and the skeletons, whose
    entry [p_skel_i] has its roots replaced unless the call fails on a
    class without highest node. *)
Definition _determine_skeleton_roots (nodes : list FBXSkelNode)
    (skeletons : list Skel.FBXSkeleton) (p_skel_i : Z)
    : outcome (Error * list Skel.FBXSkeleton) :=
  disjoint_set <- skeleton_union_pass (length nodes) nodes p_skel_i 0 DisjointSet.empty ;;
  skeleton <- get skeletons p_skel_i ;;
  let representatives := DisjointSet.get_representatives disjoint_set in
  r <- highest_of_each (map base nodes) disjoint_set representatives [] ;;
  match r with
  | None => Done (FAILED, skeletons)
  | Some roots =>
      let roots := sort roots in
      skeletons <- write_at skeletons p_skel_i (Skel.set_roots skeleton roots) ;;
      if size roots =? 0 then Done (FAILED, skeletons)
      else if size roots =? 1 then Done (OK, skeletons)
      else
        root0 <- get roots 0 ;;
        node0 <- get nodes root0 ;;
        differ <- parents_differ (map base nodes) (parent (base node0)) (tl roots) ;;
        Done (if differ then FAILED else OK, skeletons)
  end.

Definition set_joint (nd : FBXNode) (j : bool) : FBXNode :=
  {| parent := parent nd; children := children nd; height := height nd; joint := j |}.

(** The first loop of [_reparent_non_joint_skeleton_subtrees]. *)
Fixpoint non_joint_union_pass (nodes : list FBXNode) (p_non_joints todo : list Z)
    (subtree_set : DisjointSet.t) : outcome DisjointSet.t :=
  match todo with
  | [] => Done subtree_set
  | node_i :: rest =>
      let subtree_set := DisjointSet.insert subtree_set node_i in
      node <- get nodes node_i ;;
      let parent_i := parent node in
      subtree_set <-
        (if (0 <=? parent_i) && (0 <=? find p_non_joints parent_i) then
           pnode <- get nodes parent_i ;;
           Done (if negb (joint pnode)
                 then DisjointSet.create_union subtree_set parent_i node_i
                 else subtree_set)
         else Done subtree_set) ;;
      non_joint_union_pass nodes p_non_joints rest subtree_set
  end.

(** Its inner loop over the members of one subtree: each becomes a joint
    of the node list and of the skeleton. *)
Fixpoint make_joints (nodes : list FBXNode) (p_skeleton : Skel.FBXSkeleton)
    (subtree_nodes : list Z) : outcome (list FBXNode * Skel.FBXSkeleton) :=
  match subtree_nodes with
  | [] => Done (nodes, p_skeleton)
  | n :: rest =>
      node <- get nodes n ;;
      nodes <- write_at nodes n (set_joint node true) ;;
      make_joints nodes
        (Skel.set_joints p_skeleton (push_back (Skel.joints p_skeleton) n)) rest
  end.

(** The loop over the subtree roots. *)
Fixpoint make_subtree_joints (nodes : list FBXNode) (p_skeleton : Skel.FBXSkeleton)
    (subtree_set : DisjointSet.t) (non_joint_subtree_roots : list Z)
    : outcome (list FBXNode * Skel.FBXSkeleton) :=
  match non_joint_subtree_roots with
  | [] => Done (nodes, p_skeleton)
  | subtree_root :: rest =>
      '(nodes, p_skeleton) <-
        make_joints nodes p_skeleton (DisjointSet.get_members subtree_set subtree_root) ;;
      make_subtree_joints nodes p_skeleton subtree_set rest
  end.

(** [_reparent_non_joint_skeleton_subtrees]. *)
Definition _reparent_non_joint_skeleton_subtrees (nodes : list FBXNode)
    (p_skeleton : Skel.FBXSkeleton) (p_non_joints : list Z)
    : outcome (Error * list FBXNode * Skel.FBXSkeleton) :=
  subtree_set <- non_joint_union_pass nodes p_non_joints p_non_joints DisjointSet.empty ;;
  let non_joint_subtree_roots := DisjointSet.get_representatives subtree_set in
  '(nodes, p_skeleton) <-
    make_subtree_joints nodes p_skeleton subtree_set non_joint_subtree_roots ;;
  Done (OK, nodes, p_skeleton).

(* ================================================================== *)
(** * Document extensions *)
(* ================================================================== *)

(** [Vector<T>::erase]: the first occurrence is removed. *)
Fixpoint erase (v : list Z) (x : Z) : list Z :=
  match v with
  | [] => []
  | y :: r => if y =? x then r else y :: erase r x
  end.

(** The static [all_document_extensions]; an extension is the address
    its [Ref] holds.  [insert(0, x)] puts [x] in front. *)
Definition register_fbx_document_extension (all_document_extensions : list Z)
    (p_extension : Z) (p_first_priority : bool) : list Z :=
  if find all_document_extensions p_extension =? -1 then
    if p_first_priority then p_extension :: all_document_extensions
    else push_back all_document_extensions p_extension
  else all_document_extensions.

Definition unregister_fbx_document_extension (all_document_extensions : list Z)
    (p_extension : Z) : list Z :=
  erase all_document_extensions p_extension.

Definition unregister_all_fbx_document_extensions (all_document_extensions : list Z)
    : list Z := [].

(* ================================================================== *)
(** * Typed accessor decoders *)
(* ================================================================== *)

(** The loop [ret.write[i] = int(attribs_ptr[i])]. *)
Fixpoint ints_of_doubles (attribs : list spec_float) : outcome (list Z) :=
  match attribs with
  | [] => Done []
  | d :: rest =>
      z <- int_of_double (- 2 ^ 31) (2 ^ 31 - 1) d ;;
      ret <- ints_of_doubles rest ;;
      Done (z :: ret)
  end.

(** [_decode_accessor_as_ints]. *)
Definition _decode_accessor_as_ints (p_state : FBXState) (p_accessor : Z)
    (p_for_vertex : bool) : outcome (list Z) :=
  attribs <- _decode_accessor p_state p_accessor p_for_vertex ;;
  if size attribs =? 0 then Done [] else ints_of_doubles attribs.

(** [_decode_accessor_as_floats]: [float(attribs_ptr[i])]. *)
Definition _decode_accessor_as_floats (p_state : FBXState) (p_accessor : Z)
    (p_for_vertex : bool) : outcome (list spec_float) :=
  attribs <- _decode_accessor p_state p_accessor p_for_vertex ;;
  if size attribs =? 0 then Done [] else Done (map float_of_double attribs).

(* ================================================================== *)
(** * Accessor bounds *)
(* ================================================================== *)

(** The engine macros [MAX] and [MIN] on [double]s:
    [(a > b) ? a : b] and [(a < b) ? a : b]. *)
Definition MAX (m_a m_b : spec_float) : spec_float := if F64.ltb m_b m_a then m_a else m_b.
Definition MIN (m_a m_b : spec_float) : spec_float := if F64.ltb m_a m_b then m_a else m_b.

(** [_filter_number]. *)
Definition _filter_number (p_float : spec_float) : spec_float :=
  match p_float with
  | S754_nan => F64.zero
  | _ => p_float
  end.

(** The first loop of [_calc_accessor_min_max], run when [p_i == 0]. *)
Fixpoint seed_min_max (n : nat) (type_i p_i p_element_count : Z)
    (p_type_max p_attribs p_type_min : list spec_float)
    : outcome (list spec_float * list spec_float) :=
  match n with
  | O => Done (p_type_max, p_type_min)
  | S n =>
      a <- get p_attribs (p_i * p_element_count + type_i) ;;
      p_type_max <- write_at p_type_max type_i a ;;
      a <- get p_attribs (p_i * p_element_count + type_i) ;;
      p_type_min <- write_at p_type_min type_i a ;;
      seed_min_max n (type_i + 1) p_i p_element_count p_type_max p_attribs p_type_min
  end.

(** Its second loop. *)
Fixpoint fold_min_max (n : nat) (type_i p_i p_element_count : Z)
    (p_type_max p_attribs p_type_min : list spec_float)
    : outcome (list spec_float * list spec_float) :=
  match n with
  | O => Done (p_type_max, p_type_min)
  | S n =>
      a <- get p_attribs (p_i * p_element_count + type_i) ;;
      m <- get p_type_max type_i ;;
      p_type_max <- write_at p_type_max type_i (MAX a m) ;;
      a <- get p_attribs (p_i * p_element_count + type_i) ;;
      m <- get p_type_min type_i ;;
      p_type_min <- write_at p_type_min type_i (MIN a m) ;;
      m <- get p_type_max type_i ;;
      p_type_max <- write_at p_type_max type_i (_filter_number m) ;;
      m <- get p_type_min type_i ;;
      p_type_min <- write_at p_type_min type_i (_filter_number m) ;;
      fold_min_max n (type_i + 1) p_i p_element_count p_type_max p_attribs p_type_min
  end.

(** [_calc_accessor_min_max]: the two vectors passed by reference are
    returned. *)
Definition _calc_accessor_min_max (p_i p_element_count : Z)
    (p_type_max p_attribs p_type_min : list spec_float)
    : outcome (list spec_float * list spec_float) :=
  '(p_type_max, p_type_min) <-
    (if p_i =? 0
     then seed_min_max (Z.to_nat p_element_count) 0 p_i p_element_count
            p_type_max p_attribs p_type_min
     else Done (p_type_max, p_type_min)) ;;
  fold_min_max (Z.to_nat p_element_count) 0 p_i p_element_count
    p_type_max p_attribs p_type_min.

(** The calls made by the loops of the [_encode_accessor_as_*]
    functions, one per element [i]; a call reads the components of
    element [i] only, which are final by then. *)
Fixpoint accessor_min_max (n : nat) (i element_count : Z)
    (type_max attribs type_min : list spec_float)
    : outcome (list spec_float * list spec_float) :=
  match n with
  | O => Done (type_max, type_min)
  | S n =>
      '(type_max, type_min) <-
        _calc_accessor_min_max i element_count type_max attribs type_min ;;
      accessor_min_max n (i + 1) element_count type_max attribs type_min
  end.

(* ================================================================== *)
(** * Duplicate skins *)
(* ================================================================== *)

(** One bind of the engine's [Skin]: bone index, bind name and bind
    pose, a [Transform3D] given by its twelve [float] components. *)
Record Bind : Type := {
  bind_bone : Z;
  bind_name : String.string;
  bind_pose : list spec_float
}.

(** [Transform3D::operator!=]: some component compares unequal. *)
Fixpoint xform_neq (a b : list spec_float) : bool :=
  match a, b with
  | [], [] => false
  | x :: a, y :: b => negb (SFeqb x y) || xform_neq a b
  | _, _ => true
  end.

(** The loop of [_skins_are_same] over binds of equal count. *)
Fixpoint binds_are_same (a b : list Bind) : bool :=
  match a, b with
  | [], _ => true
  | x :: a, y :: b =>
      if negb (bind_bone x =? bind_bone y) then false
      else if negb (String.eqb (bind_name x) (bind_name y)) then false
      else if xform_neq (bind_pose x) (bind_pose y) then false
      else binds_are_same a b
  | _ :: _, [] => false
  end.

(** [_skins_are_same]. *)
Definition _skins_are_same (p_skin_a p_skin_b : list Bind) : bool :=
  if negb (size p_skin_a =? size p_skin_b) then false
  else binds_are_same p_skin_a p_skin_b.

(** The inner loop of [_remove_duplicate_skins]: [skins] holds the
    [godot_skin] reference of every skin, [heap] the [Skin] objects the
    references point to; [n] values of [j] are left. *)
Fixpoint remove_duplicates_of (n : nat) (heap : list (list Bind)) (skins : list Z) (i j : Z)
    : outcome (list Z) :=
  match n with
  | O => Done skins
  | S n =>
      skin_i <- get skins i ;;
      skin_j <- get skins j ;;
      a <- get heap skin_i ;;
      b <- get heap skin_j ;;
      skins <- (if _skins_are_same a b then write_at skins j skin_i else Done skins) ;;
      remove_duplicates_of n heap skins i (j + 1)
  end.

(** Its outer loop; [n] values of [i] are left. *)
Fixpoint remove_duplicates_from (n : nat) (heap : list (list Bind)) (skins : list Z) (i : Z)
    : outcome (list Z) :=
  match n with
  | O => Done skins
  | S n =>
      skins <- remove_duplicates_of (Z.to_nat (size skins - (i + 1))) heap skins i (i + 1) ;;
      remove_duplicates_from n heap skins (i + 1)
  end.

(** [_remove_duplicate_skins]. *)
Definition _remove_duplicate_skins (heap : list (list Bind)) (skins : list Z)
    : outcome (list Z) :=
  remove_duplicates_from (length skins) heap skins 0.

(* ================================================================== *)
(** * Properties *)
(* ================================================================== *)

(** ** Containers *)

Lemma size_nonneg : forall (A : Type) (v : list A), 0 <= size v.
Proof. intros; unfold size; lia. Qed.

Lemma size_app : forall (A : Type) (u v : list A), size (u ++ v) = size u + size v.
Proof. intros; unfold size; rewrite length_app; lia. Qed.

Lemma size_cons : forall (A : Type) (x : A) (v : list A), size (x :: v) = 1 + size v.
Proof. intros; unfold size; simpl length; lia. Qed.

Lemma size_nil : forall (A : Type), size (@nil A) = 0.
Proof. reflexivity. Qed.

Lemma ptr_get_app : forall (A : Type) (pre : list A) (x : A) (post : list A),
  ptr_get (pre ++ x :: post) (size pre) = Done x.
Proof.
  intros. unfold ptr_get, size.
  destruct (Z.ltb_spec (Z.of_nat (length pre)) 0); [lia|].
  rewrite Nat2Z.id, nth_error_app2 by lia.
  now rewrite Nat.sub_diag.
Qed.

Lemma ptr_set_app : forall (A : Type) (pre : list A) (x y : A) (post : list A),
  ptr_set (pre ++ x :: post) (size pre) y = Done (pre ++ y :: post).
Proof.
  intros. unfold ptr_set.
  rewrite size_app, size_cons.
  pose proof (size_nonneg pre). pose proof (size_nonneg post).
  destruct (Z.ltb_spec (size pre) 0); [lia|].
  destruct (Z.leb_spec (size pre + (1 + size post)) (size pre)); [lia|].
  cbn [orb]. unfold size. rewrite Nat2Z.id.
  rewrite firstn_app, Nat.sub_diag, firstn_all, firstn_O, app_nil_r.
  replace (S (length pre)) with (length pre + 1)%nat by lia.
  rewrite skipn_app.
  replace (length pre + 1 - length pre)%nat with 1%nat by lia.
  rewrite skipn_all2 by lia. reflexivity.
Qed.

(** ** Triangle winding *)

Lemma swap_triples_length : forall (A : Type) (n : nat) (l : list A),
  (length l <= n)%nat -> length (swap_triples l) = length l.
Proof.
  induction n as [|n IH]; intros l Hl.
  - destruct l; [reflexivity | simpl in Hl; lia].
  - destruct l as [|a [|b [|c r]]]; try reflexivity.
    simpl. rewrite IH; [reflexivity | simpl in Hl; lia].
Qed.

Lemma swap_triples_involutive : forall (A : Type) (n : nat) (l : list A),
  (length l <= n)%nat -> swap_triples (swap_triples l) = l.
Proof.
  induction n as [|n IH]; intros l Hl.
  - destruct l; [reflexivity | simpl in Hl; lia].
  - destruct l as [|a [|b [|c r]]]; try reflexivity.
    simpl. rewrite IH; [reflexivity | simpl in Hl; lia].
Qed.

(** The loop, started at the end of an already flipped prefix, flips the
    [n] triples that follow. *)
Lemma swap_loop_spec : forall (A : Type) (n : nat) (pre l : list A),
  length l = (3 * n)%nat ->
  swap_loop n (pre ++ l) (size pre) = Done (pre ++ swap_triples l).
Proof.
  induction n as [|n IH]; intros pre l Hl.
  - destruct l; [reflexivity | discriminate].
  - destruct l as [|a [|b [|c r]]]; try (simpl in Hl; lia).
    cbn [swap_loop swap_triples].
    assert (E1 : pre ++ a :: b :: c :: r = (pre ++ [a]) ++ b :: c :: r)
      by now rewrite <- app_assoc.
    assert (E2 : pre ++ a :: b :: c :: r = (pre ++ [a; b]) ++ c :: r)
      by now rewrite <- app_assoc.
    assert (S1 : size pre + 1 = size (pre ++ [a]))
      by (rewrite size_app, size_cons, size_nil; lia).
    assert (S2 : size pre + 2 = size (pre ++ [a; b]))
      by (rewrite size_app, !size_cons, size_nil; lia).
    rewrite E1 at 1. rewrite S1, ptr_get_app. cbn [bind].
    rewrite E2 at 1. rewrite S2, ptr_get_app. cbn [bind].
    rewrite E1, ptr_set_app. cbn [bind].
    replace ((pre ++ [a]) ++ c :: c :: r) with ((pre ++ [a; c]) ++ c :: r)
      by (rewrite <- !app_assoc; reflexivity).
    replace (size (pre ++ [a; b])) with (size (pre ++ [a; c]))
      by (rewrite !size_app, !size_cons; reflexivity).
    rewrite ptr_set_app. cbn [bind].
    replace ((pre ++ [a; c]) ++ b :: r) with ((pre ++ [a; c; b]) ++ r)
      by (rewrite <- !app_assoc; reflexivity).
    replace (size pre + 3) with (size (pre ++ [a; c; b]))
      by (rewrite size_app, !size_cons, size_nil; lia).
    rewrite IH by (simpl in Hl; lia).
    rewrite <- app_assoc. reflexivity.
Qed.

Lemma flip_winding_spec : forall (A : Type) (indices : list A),
  size indices mod 3 = 0 ->
  flip_winding indices = Done (swap_triples indices).
Proof.
  intros A indices H. unfold flip_winding.
  pose proof (size_nonneg indices) as Hn.
  assert (Hq : size indices = 3 * (size indices / 3))
    by (pose proof (Z.div_mod (size indices) 3); lia).
  assert (Hit : (size indices + 2) / 3 = size indices / 3).
  { rewrite Hq at 1. rewrite Z.mul_comm, Z.div_add_l by lia.
    change (2 / 3) with 0. lia. }
  rewrite Hit.
  apply (swap_loop_spec (Z.to_nat (size indices / 3)) [] indices).
  unfold size in *. lia.
Qed.

(** C7.  For an index sequence whose length is a multiple of 3 the
    winding flip of [_parse_meshes] runs without leaving the vector,
    swaps the 2nd and 3rd index of every consecutive triple, and flipping
    the result again gives back the original sequence: the flip is an
    involution, so a symmetric flip on the way out restores the
    document's index order. *)
Theorem winding_flip_is_involution : forall (A : Type) (indices : list A),
  size indices mod 3 = 0 ->
  flip_winding indices = Done (swap_triples indices) /\
  (flipped <- flip_winding indices ;; flip_winding flipped) = Done indices.
Proof.
  intros A indices H. split.
  - now apply flip_winding_spec.
  - rewrite flip_winding_spec by assumption. cbn [bind].
    rewrite flip_winding_spec.
    + now rewrite (swap_triples_involutive (n := length indices)).
    + unfold size. rewrite (swap_triples_length (n := length indices)) by lia.
      exact H.
Qed.

Lemma winding_flip_is_involution_witness :
  size [10; 11; 12; 13; 14; 15] mod 3 = 0 /\
  flip_winding [10; 11; 12; 13; 14; 15] = Done [10; 12; 11; 13; 15; 14] /\
  (flipped <- flip_winding [10; 11; 12; 13; 14; 15] ;; flip_winding flipped)
    = Done [10; 11; 12; 13; 14; 15].
Proof.
  split; [reflexivity|].
  apply (@winding_flip_is_involution Z [10; 11; 12; 13; 14; 15]). reflexivity.
Defined.

(** ** Buffer codec: decoding *)

Lemma get_Done_inv : forall (A : Type) (v : list A) (i : Z) (a : A),
  get v i = Done a -> 0 <= i < size v /\ nth_error v (Z.to_nat i) = Some a.
Proof.
  unfold get, size. intros A v i a H.
  destruct (Z.ltb_spec i 0); [discriminate|].
  destruct (nth_error v (Z.to_nat i)) eqn:E; [|discriminate].
  inversion H; subst. split; [|reflexivity].
  assert (Z.to_nat i < length v)%nat by (apply nth_error_Some; congruence). lia.
Qed.

Lemma get_in_range : forall (A : Type) (v : list A) (i : Z),
  0 <= i < size v -> exists a, get v i = Done a /\ nth_error v (Z.to_nat i) = Some a.
Proof.
  unfold get, size. intros A v i H.
  destruct (Z.ltb_spec i 0); [lia|].
  destruct (nth_error v (Z.to_nat i)) eqn:E; [eauto|].
  apply nth_error_None in E. lia.
Qed.

Lemma read_bytes_cases : forall buf src n,
  read_bytes buf src n = Undefined \/ exists bs, read_bytes buf src n = Done bs.
Proof.
  intros. unfold read_bytes.
  destruct ((src <? 0) || (size buf <? src + Z.of_nat n)); eauto.
Qed.

Lemma read_component_cases : forall buf src ct nm,
  read_component buf src ct nm = Undefined \/ exists d, read_component buf src ct nm = Done d.
Proof.
  intros. unfold read_component.
  repeat match goal with
  | |- context [if ?c then _ else _] => destruct c
  | |- context [read_bytes ?b ?s ?n] =>
      destruct (read_bytes_cases b s n) as [-> | [? ->]]; cbn [bind]
  end; eauto.
Qed.

Lemma decode_components_cases : forall n buf src j se sb ct cs nm,
  decode_components n buf src j se sb ct cs nm = Undefined \/
  exists vals, decode_components n buf src j se sb ct cs nm = Done vals /\ length vals = n.
Proof.
  induction n as [|n IH]; intros; cbn [decode_components].
  - right. eauto.
  - match goal with |- context [read_component ?b ?s ?c ?m] =>
      destruct (read_component_cases b s c m) as [-> | [d ->]] end; cbn [bind]; [now left|].
    match goal with |- context [decode_components n ?b ?s ?jj se sb ct cs nm] =>
      destruct (IH b s jj se sb ct cs nm) as [-> | [vals [-> Hl]]] end; cbn [bind]; [now left|].
    right. eexists; split; [reflexivity|]. simpl; congruence.
Qed.

Lemma decode_elements_cases : forall n buf offset stride i se sb cc ct cs nm,
  decode_elements n buf offset stride i se sb cc ct cs nm = Undefined \/
  exists vals, decode_elements n buf offset stride i se sb cc ct cs nm = Done vals
               /\ length vals = (n * Z.to_nat cc)%nat.
Proof.
  induction n as [|n IH]; intros; cbn [decode_elements].
  - right. eauto.
  - match goal with |- context [decode_components ?a ?b ?c ?d ?e ?f ?g ?h ?k] =>
      destruct (decode_components_cases a b c d e f g h k) as [-> | [elt [-> Hl]]] end;
      cbn [bind]; [now left|].
    destruct (IH buf offset stride (i + 1) se sb cc ct cs nm) as [-> | [vals [-> Hv]]];
      cbn [bind]; [now left|].
    right. eexists; split; [reflexivity|]. rewrite length_app. simpl. lia.
Qed.

(** *** 32-bit arithmetic *)

Lemma to_int32_small : forall z, - 2 ^ 31 <= z < 2 ^ 31 -> to_int32 z = z.
Proof.
  intros z Hz. unfold to_int32. cbv zeta.
  change (2 ^ 32) with 4294967296. change (2 ^ 31) with 2147483648 in *.
  destruct (Z.ltb_spec (z mod 4294967296) 2147483648);
    pose proof (Z.div_mod z 4294967296 ltac:(lia));
    pose proof (Z.mod_pos_bound z 4294967296 ltac:(lia)); lia.
Qed.

Lemma to_uint32_small : forall z, 0 <= z < 2 ^ 32 -> to_uint32 z = z.
Proof. intros z Hz. unfold to_uint32. now apply Z.mod_small. Qed.

Lemma to_int32_range : forall z, - 2 ^ 31 <= to_int32 z < 2 ^ 31.
Proof.
  intros z. unfold to_int32. cbv zeta.
  change (2 ^ 32) with 4294967296. change (2 ^ 31) with 2147483648.
  pose proof (Z.mod_pos_bound z 4294967296 ltac:(lia)).
  destruct (Z.ltb_spec (z mod 4294967296) 2147483648); lia.
Qed.

(** A stride and a span that fit an [int] are the numbers the source
    formulas denote. *)
Lemma view_stride_exact : forall bv es fv,
  - 2 ^ 31 <= align_stride fv (if negb (byte_stride bv =? -1) then byte_stride bv else es)
            < 2 ^ 31 ->
  view_stride bv es fv
  = align_stride fv (if negb (byte_stride bv =? -1) then byte_stride bv else es).
Proof. intros bv es fv H. unfold view_stride. now apply to_int32_small. Qed.

Lemma required_span_exact : forall bv es cnt fv,
  - 2 ^ 31 <= view_stride bv es fv * (cnt - 1) + es < 2 ^ 31 ->
  required_span bv es cnt fv = view_stride bv es fv * (cnt - 1) + es.
Proof. intros bv es cnt fv H. unfold required_span. now apply to_int32_small. Qed.

(** *** The range tests *)

(** [_decode_buffer_view] fails with [ERR_PARSE_ERROR] and writes no
    value exactly when one of its three range tests fires; otherwise it
    runs the decode loops. *)
Lemma decode_buffer_view_tests :
  forall p_state p_buffer_view bv se sb p_element_size p_count p_type cc ct cs nm
         p_byte_offset p_for_vertex,
    get (buffer_views p_state) p_buffer_view = Done bv ->
    let result := _decode_buffer_view p_state p_buffer_view se sb p_element_size p_count
                    p_type cc ct cs nm p_byte_offset p_for_vertex in
    (view_refused p_state bv p_element_size p_count p_byte_offset p_for_vertex = true ->
       result = Done (ERR_PARSE_ERROR, [])) /\
    (view_refused p_state bv p_element_size p_count p_byte_offset p_for_vertex = false ->
       exists buf,
         get (buffers p_state) (buffer bv) = Done buf /\
         result
         = (vals <- decode_elements (Z.to_nat p_count) buf
                      (to_uint32 (byte_offset bv + p_byte_offset))
                      (view_stride bv p_element_size p_for_vertex) 0
                      se sb cc ct cs nm ;;
            Done (OK, vals))).
Proof.
  intros p_state p_buffer_view bv se sb p_element_size p_count p_type cc ct cs nm
         p_byte_offset p_for_vertex Hbv result.
  subst result. unfold _decode_buffer_view, view_refused. rewrite Hbv. cbn [bind].
  destruct ((buffer bv <? 0) || (size (buffers p_state) <=? buffer bv)) eqn:Hidx.
  - split; [reflexivity | discriminate].
  - apply orb_false_iff in Hidx. destruct Hidx as [H0 H1].
    apply Z.ltb_ge in H0. apply Z.leb_gt in H1.
    destruct (get_in_range (buffers p_state) (i := buffer bv)) as [buf [Hg Hn]]; [lia|].
    rewrite Hg. cbn [bind orb].
    rewrite (nth_error_nth _ _ _ Hn).
    destruct (byte_length bv <? required_span bv p_element_size p_count p_for_vertex).
    + split; [reflexivity | discriminate].
    + cbn [orb].
      destruct (size buf <? to_int32 (to_uint32 (byte_offset bv + p_byte_offset)
                   + required_span bv p_element_size p_count p_for_vertex)).
      * split; [reflexivity | discriminate].
      * split; [discriminate|]. intros _. exists buf. split; reflexivity.
Qed.

(** *** The decode loops inside the buffer *)

(** The bytes the source pointer advances over the components
    [j, j + 1, ...] of one element: [n] components are left. *)
Fixpoint element_extent (n : nat) (j p_skip_every p_skip_bytes p_component_size : Z) : Z :=
  match n with
  | O => 0
  | S n => (if skips_before p_skip_every j then p_skip_bytes else 0) + p_component_size
           + element_extent n (j + 1) p_skip_every p_skip_bytes p_component_size
  end.

Lemma element_extent_nonneg : forall n j se sb cs,
  0 <= sb -> 0 <= cs -> 0 <= element_extent n j se sb cs.
Proof.
  induction n as [|n IH]; intros j se sb cs Hsb Hcs; cbn [element_extent]; [lia|].
  specialize (IH (j + 1) se sb cs Hsb Hcs). destruct (skips_before se j); lia.
Qed.

Lemma read_bytes_inside : forall buf src n,
  0 <= src -> src + Z.of_nat n <= size buf ->
  read_bytes buf src n = Done (firstn n (skipn (Z.to_nat src) buf)).
Proof.
  intros buf src n H0 H1. unfold read_bytes.
  destruct (Z.ltb_spec src 0); [lia|].
  destruct (Z.ltb_spec (size buf) (src + Z.of_nat n)); [lia | reflexivity].
Qed.

Lemma read_component_inside : forall buf src ct nm,
  0 <= src -> src + _get_component_type_size ct <= size buf ->
  exists d, read_component buf src ct nm = Done d.
Proof.
  intros buf src ct nm H0 H1. unfold read_component, _get_component_type_size in *.
  destruct (Z.eqb_spec ct COMPONENT_TYPE_BYTE) as [-> | ?].
  { cbn in H1. rewrite read_bytes_inside by (cbn; lia). cbn [bind]. eauto. }
  destruct (Z.eqb_spec ct COMPONENT_TYPE_UNSIGNED_BYTE) as [-> | ?].
  { cbn in H1. rewrite read_bytes_inside by (cbn; lia). cbn [bind]. eauto. }
  destruct (Z.eqb_spec ct COMPONENT_TYPE_SHORT) as [-> | ?].
  { cbn in H1. rewrite read_bytes_inside by (cbn; lia). cbn [bind]. eauto. }
  destruct (Z.eqb_spec ct COMPONENT_TYPE_UNSIGNED_SHORT) as [-> | ?].
  { cbn in H1. rewrite read_bytes_inside by (cbn; lia). cbn [bind]. eauto. }
  destruct (Z.eqb_spec ct COMPONENT_TYPE_INT) as [-> | ?].
  { cbn in H1. rewrite read_bytes_inside by (cbn; lia). cbn [bind]. eauto. }
  destruct (Z.eqb_spec ct COMPONENT_TYPE_FLOAT) as [-> | ?].
  { cbn in H1. rewrite read_bytes_inside by (cbn; lia). cbn [bind]. eauto. }
  eauto.
Qed.

Lemma decode_components_inside : forall n buf src j se sb ct nm,
  0 <= src -> 0 <= sb ->
  src + element_extent n j se sb (_get_component_type_size ct) <= size buf ->
  exists vals,
    decode_components n buf src j se sb ct (_get_component_type_size ct) nm = Done vals /\
    length vals = n.
Proof.
  induction n as [|n IH]; intros buf src j se sb ct nm H0 Hsb H1;
    cbn [decode_components element_extent] in *.
  - eauto.
  - assert (Hcs : 0 <= _get_component_type_size ct).
    { unfold _get_component_type_size.
      repeat match goal with |- context [if ?c then _ else _] => destruct c end; lia. }
    pose proof (@element_extent_nonneg n (j + 1) se sb _ Hsb Hcs) as He.
    set (src' := if skips_before se j then src + sb else src).
    assert (Hs' : src <= src' /\ src' + _get_component_type_size ct
                    + element_extent n (j + 1) se sb (_get_component_type_size ct)
                    <= size buf)
      by (unfold src'; destruct (skips_before se j); lia).
    destruct (@read_component_inside buf src' ct nm) as [d ->]; [lia | lia |].
    cbn [bind].
    destruct (IH buf (src' + _get_component_type_size ct) (j + 1) se sb ct nm)
      as [vals [-> Hl]]; [lia | lia | lia |].
    cbn [bind]. eexists. split; [reflexivity|]. cbn. congruence.
Qed.

Lemma decode_elements_inside : forall n buf offset stride i se sb cc ct nm,
  0 <= offset -> 0 <= stride -> 0 <= i -> 0 <= sb ->
  (n <> O ->
   offset + (i + Z.of_nat n - 1) * stride < 2 ^ 32 /\
   offset + (i + Z.of_nat n - 1) * stride
   + element_extent (Z.to_nat cc) 0 se sb (_get_component_type_size ct) <= size buf) ->
  exists vals,
    decode_elements n buf offset stride i se sb cc ct (_get_component_type_size ct) nm
    = Done vals /\
    length vals = (n * Z.to_nat cc)%nat.
Proof.
  induction n as [|n IH]; intros buf offset stride i se sb cc ct nm
    Hoff Hst Hi Hsb Hfit; cbn [decode_elements].
  - eauto.
  - destruct (Hfit ltac:(discriminate)) as [Hmax Hin].
    assert (Hcs : 0 <= _get_component_type_size ct).
    { unfold _get_component_type_size.
      repeat match goal with |- context [if ?c then _ else _] => destruct c end; lia. }
    pose proof (@element_extent_nonneg (Z.to_nat cc) 0 se sb _ Hsb Hcs) as He.
    assert (Hpos : 0 <= offset + i * stride) by nia.
    assert (Hle : offset + i * stride <= offset + (i + Z.of_nat (S n) - 1) * stride) by nia.
    rewrite to_uint32_small by lia.
    destruct (@decode_components_inside (Z.to_nat cc) buf (offset + i * stride) 0 se sb ct nm)
      as [elt [-> Hl]]; [lia | lia | lia |].
    cbn [bind].
    destruct (IH buf offset stride (i + 1) se sb cc ct nm) as [vals [-> Hv]];
      [lia | lia | lia | lia | |].
    { intros _. replace (i + 1 + Z.of_nat n - 1) with (i + Z.of_nat (S n) - 1) by lia.
      split; assumption. }
    cbn [bind]. eexists. split; [reflexivity|]. rewrite length_app. cbn. lia.
Qed.

(** The success half of the range tests: when none of them fires, no
    [int] expression wraps, the stride is not negative and the components
    of one element end within the element size, every read is inside the
    buffer and the call returns [OK] with count times component-count
    values. *)
Lemma decode_buffer_view_succeeds :
  forall p_state p_buffer_view bv se sb p_element_size p_count p_type cc ct nm
         p_byte_offset p_for_vertex,
    get (buffer_views p_state) p_buffer_view = Done bv ->
    view_refused p_state bv p_element_size p_count p_byte_offset p_for_vertex = false ->
    0 <= byte_offset bv + p_byte_offset ->
    0 <= view_stride bv p_element_size p_for_vertex ->
    0 <= sb ->
    element_extent (Z.to_nat cc) 0 se sb (_get_component_type_size ct) <= p_element_size ->
    byte_offset bv + p_byte_offset
    + view_stride bv p_element_size p_for_vertex * (p_count - 1) + p_element_size < 2 ^ 31 ->
    exists vals,
      _decode_buffer_view p_state p_buffer_view se sb p_element_size p_count
        p_type cc ct (_get_component_type_size ct) nm p_byte_offset p_for_vertex
      = Done (OK, vals) /\
      length vals = (Z.to_nat p_count * Z.to_nat cc)%nat.
Proof.
  intros p_state p_buffer_view bv se sb es cnt p_type cc ct nm off fv
    Hbv Href Hoff Hst Hsb Hext Hmax.
  destruct (@decode_buffer_view_tests p_state p_buffer_view bv se sb es cnt p_type cc ct
              (_get_component_type_size ct) nm off fv Hbv) as [_ Hrun].
  destruct (Hrun Href) as [buf [Hbuf ->]].
  destruct (Z.to_nat cnt) as [|n] eqn:En.
  { cbn [decode_elements bind]. eexists. split; reflexivity. }
  assert (Hcnt : 1 <= cnt) by lia.
  assert (Hcs : 0 <= _get_component_type_size ct).
  { unfold _get_component_type_size.
    repeat match goal with |- context [if ?c then _ else _] => destruct c end; lia. }
  pose proof (@element_extent_nonneg (Z.to_nat cc) 0 se sb _ Hsb Hcs) as He.
  set (stride := view_stride bv es fv) in *.
  unfold view_refused in Href.
  apply orb_false_iff in Href. destruct Href as [Href Hb].
  apply orb_false_iff in Href. destruct Href as [Href _].
  apply orb_false_iff in Href. destruct Href as [Hlo Hhi].
  apply Z.ltb_ge in Hlo. apply Z.leb_gt in Hhi.
  destruct (get_in_range (buffers p_state) (i := buffer bv)) as [buf' [Hg Hn]]; [lia|].
  rewrite Hbuf in Hg. inversion Hg; subst buf'.
  rewrite (nth_error_nth _ _ _ Hn) in Hb. apply Z.ltb_ge in Hb.
  assert (Hspan : 0 <= stride * (cnt - 1) + es) by nia.
  rewrite required_span_exact in Hb by (fold stride; lia). fold stride in Hb.
  rewrite to_uint32_small in Hb by lia.
  rewrite to_int32_small in Hb by lia.
  rewrite to_uint32_small by lia.
  destruct (@decode_elements_inside (S n) buf (byte_offset bv + off) stride 0
              se sb cc ct nm) as [vals [-> Hl]]; [lia | lia | lia | lia | |].
  { intros _. replace (0 + Z.of_nat (S n) - 1) with (cnt - 1) by lia. split; nia. }
  cbn [bind]. exists vals. split; [reflexivity | exact Hl].
Qed.

Definition range_example_state : FBXState :=
  {| buffers := [[1; 2; 3; 4; 5; 6; 7; 8; 9; 10; 11; 12; 13; 14; 15; 16]];
     buffer_views := [{| buffer := 0; byte_offset := 0; byte_length := 4; byte_stride := -1 |}];
     accessors := [] |}.

(** X29.  The range tests of [_decode_buffer_view] for a view whose
    buffer exists, when no [int] expression wraps (the stride is not
    negative, there is at least one element, view offset plus accessor
    offset plus span stays below 2^31) and the components of one element
    end within the element size.  The call returns [ERR_PARSE_ERROR] and
    no value when the span, stride times (count - 1) plus element size,
    exceeds the declared length of the view, or when view offset plus
    accessor offset plus span exceeds the size of the buffer; otherwise it
    returns [OK] with count times component-count values.  The accessor
    offset takes part in the second test only. *)
Theorem decode_buffer_view_range_tests :
  forall p_state p_buffer_view bv buf se sb p_element_size p_count p_type cc ct nm
         p_byte_offset p_for_vertex,
    get (buffer_views p_state) p_buffer_view = Done bv ->
    get (buffers p_state) (buffer bv) = Done buf ->
    let stride := view_stride bv p_element_size p_for_vertex in
    let span := stride * (p_count - 1) + p_element_size in
    let result := _decode_buffer_view p_state p_buffer_view se sb p_element_size p_count
                    p_type cc ct (_get_component_type_size ct) nm p_byte_offset
                    p_for_vertex in
    0 <= stride -> 1 <= p_count -> 0 <= sb ->
    element_extent (Z.to_nat cc) 0 se sb (_get_component_type_size ct) <= p_element_size ->
    0 <= byte_offset bv + p_byte_offset ->
    byte_offset bv + p_byte_offset + span < 2 ^ 31 ->
    (byte_length bv < span \/ size buf < byte_offset bv + p_byte_offset + span ->
       result = Done (ERR_PARSE_ERROR, [])) /\
    (span <= byte_length bv -> byte_offset bv + p_byte_offset + span <= size buf ->
       exists vals, result = Done (OK, vals) /\
                    length vals = (Z.to_nat p_count * Z.to_nat cc)%nat).
Proof.
  intros p_state p_buffer_view bv buf se sb es cnt p_type cc ct nm off fv
    Hbv Hbuf stride span result Hst Hcnt Hsb Hext Hoff Hmax.
  assert (Hcs : 0 <= _get_component_type_size ct).
  { unfold _get_component_type_size.
    repeat match goal with |- context [if ?c then _ else _] => destruct c end; lia. }
  pose proof (@element_extent_nonneg (Z.to_nat cc) 0 se sb _ Hsb Hcs) as He.
  assert (Hspan : 0 <= span < 2 ^ 31) by (unfold span; nia).
  destruct (get_Done_inv _ _ Hbuf) as [[Hlo Hhi] Hn].
  assert (Href : view_refused p_state bv es cnt off fv
                 = (byte_length bv <? span) || (size buf <? byte_offset bv + off + span)).
  { unfold view_refused.
    destruct (Z.ltb_spec (buffer bv) 0); [lia|].
    destruct (Z.leb_spec (size (buffers p_state)) (buffer bv)); [lia|].
    cbn [orb]. rewrite (nth_error_nth _ _ _ Hn).
    rewrite required_span_exact by (fold stride; fold span; lia).
    fold stride. fold span.
    rewrite to_uint32_small by lia. rewrite to_int32_small by lia.
    reflexivity. }
  split.
  - intros Hbad.
    apply (proj1 (@decode_buffer_view_tests p_state p_buffer_view bv se sb es cnt p_type cc ct
                    (_get_component_type_size ct) nm off fv Hbv)).
    rewrite Href. apply orb_true_iff.
    destruct Hbad as [H | H]; [left; apply Z.ltb_lt | right; apply Z.ltb_lt]; exact H.
  - intros H1 H2.
    apply (@decode_buffer_view_succeeds p_state p_buffer_view bv se sb es cnt p_type cc ct nm
             off fv Hbv); try assumption.
    + rewrite Href. apply orb_false_iff. split; apply Z.ltb_ge; assumption.
    + fold stride. fold span. lia.
Qed.

Lemma decode_buffer_view_range_tests_witness :
  _decode_buffer_view range_example_state 0 0 0 4 2 TYPE_VEC4 4
    COMPONENT_TYPE_UNSIGNED_BYTE (_get_component_type_size COMPONENT_TYPE_UNSIGNED_BYTE)
    false 0 false = Done (ERR_PARSE_ERROR, []) /\
  exists vals,
    _decode_buffer_view range_example_state 0 0 0 4 1 TYPE_VEC4 4
      COMPONENT_TYPE_UNSIGNED_BYTE (_get_component_type_size COMPONENT_TYPE_UNSIGNED_BYTE)
      false 4 false = Done (OK, vals) /\
    length vals = (Z.to_nat 1 * Z.to_nat 4)%nat.
Proof.
  split.
  - apply (proj1 (@decode_buffer_view_range_tests range_example_state 0
                    {| buffer := 0; byte_offset := 0; byte_length := 4; byte_stride := -1 |}
                    [1; 2; 3; 4; 5; 6; 7; 8; 9; 10; 11; 12; 13; 14; 15; 16]
                    0 0 4 2 TYPE_VEC4 4 COMPONENT_TYPE_UNSIGNED_BYTE false 0 false
                    eq_refl eq_refl
                    ltac:(vm_compute; discriminate) ltac:(lia) ltac:(lia)
                    ltac:(vm_compute; discriminate) ltac:(vm_compute; discriminate)
                    ltac:(vm_compute; reflexivity))).
    left. vm_compute. reflexivity.
  - apply (proj2 (@decode_buffer_view_range_tests range_example_state 0
                    {| buffer := 0; byte_offset := 0; byte_length := 4; byte_stride := -1 |}
                    [1; 2; 3; 4; 5; 6; 7; 8; 9; 10; 11; 12; 13; 14; 15; 16]
                    0 0 4 1 TYPE_VEC4 4 COMPONENT_TYPE_UNSIGNED_BYTE false 4 false
                    eq_refl eq_refl
                    ltac:(vm_compute; discriminate) ltac:(lia) ltac:(lia)
                    ltac:(vm_compute; discriminate) ltac:(vm_compute; discriminate)
                    ltac:(vm_compute; reflexivity))).
    + vm_compute. discriminate.
    + vm_compute. discriminate.
Defined.

(** C8.  The test against the declared length of the view leaves the
    accessor's byte offset out.  A view of declared length 4 in a buffer
    of 16 bytes, read at accessor offset 4 with a span of 4 bytes, ends
    at byte 8 of the view, beyond its length, so the claim asks for a
    range error; the decode succeeds and returns the four bytes that
    follow the view.  The test against the buffer does add the offset:
    the same read at offset 13 is refused, and at offset 0 the view
    decodes to its own four bytes. *)
Theorem decode_buffer_view_reads_past_view :
  let bv := {| buffer := 0; byte_offset := 0; byte_length := 4; byte_stride := -1 |} in
  get (buffer_views range_example_state) 0 = Done bv /\
  required_span bv 4 1 false = 4 /\
  byte_length bv < 4 + required_span bv 4 1 false /\
  _decode_buffer_view range_example_state 0 0 0 4 1 TYPE_VEC4 4
    COMPONENT_TYPE_UNSIGNED_BYTE 1 false 4 false
  = Done (OK, [F64.of_Z 5; F64.of_Z 6; F64.of_Z 7; F64.of_Z 8]) /\
  _decode_buffer_view range_example_state 0 0 0 4 1 TYPE_VEC4 4
    COMPONENT_TYPE_UNSIGNED_BYTE 1 false 0 false
  = Done (OK, [F64.of_Z 1; F64.of_Z 2; F64.of_Z 3; F64.of_Z 4]) /\
  _decode_buffer_view range_example_state 0 0 0 4 1 TYPE_VEC4 4
    COMPONENT_TYPE_UNSIGNED_BYTE 1 false 13 false
  = Done (ERR_PARSE_ERROR, []).
Proof. cbv zeta. repeat split; vm_compute; reflexivity. Qed.

(** The span is an [int]: with a stride of 2^30 and 5 elements the
    product wraps to 0, both range tests pass on a buffer of 16 bytes and
    the second element is read far outside it. *)
Example decode_buffer_view_span_wraps :
  let st := {| buffers := [[1; 2; 3; 4; 5; 6; 7; 8; 9; 10; 11; 12; 13; 14; 15; 16]];
               buffer_views := [{| buffer := 0; byte_offset := 0; byte_length := 16;
                                   byte_stride := 2 ^ 30 |}];
               accessors := [] |} in
  required_span {| buffer := 0; byte_offset := 0; byte_length := 16; byte_stride := 2 ^ 30 |}
    4 5 false = 4 /\
  _decode_buffer_view st 0 0 0 4 5 TYPE_VEC4 4 COMPONENT_TYPE_UNSIGNED_BYTE 1 false 0 false
  = Undefined.
Proof. cbv zeta. split; vm_compute; reflexivity. Qed.

(** ** Accessor layer *)

(** C10, as amended.  An accessor without a buffer view and without
    sparse data decodes to count times component-count zeros, provided
    its component type is one of the six known ones, its count is not
    negative and the number of values fits an [int]. *)
Theorem decode_accessor_without_view_zero_fills :
  forall p_state p_accessor a p_for_vertex,
    get (accessors p_state) p_accessor = Done a ->
    buffer_view a < 0 ->
    sparse_count a = 0 ->
    _get_component_type_size (component_type a) <> 0 ->
    0 <= count a ->
    count a * component_count_for_type (type a) < 2 ^ 31 ->
    let zeros := repeat F64.zero (Z.to_nat (count a * component_count_for_type (type a))) in
    _decode_accessor p_state p_accessor p_for_vertex = Done zeros /\
    size zeros = count a * component_count_for_type (type a).
Proof.
  intros p_state p_accessor a fv Ha Hbv Hsp Hcs Hc Hfit zeros. subst zeros.
  destruct (get_Done_inv _ _ Ha) as [[Hlo Hhi] _].
  assert (Hcc : 0 <= component_count_for_type (type a)) by (destruct (type a); simpl; lia).
  split.
  - unfold _decode_accessor.
    destruct (Z.ltb_spec p_accessor 0); [lia|].
    destruct (Z.leb_spec (size (accessors p_state)) p_accessor); [lia|].
    cbn [orb]. rewrite Ha. cbn [bind].
    destruct (Z.eqb_spec (_get_component_type_size (component_type a)) 0); [contradiction|].
    destruct (skip_table (component_type a) (type a)) as [skip_every skip_bytes].
    cbv zeta.
    destruct (Z.leb_spec 0 (buffer_view a)); [lia|].
    cbn [bind]. rewrite Hsp. cbn.
    rewrite to_int32_small by nia. reflexivity.
  - unfold size. rewrite repeat_length. rewrite Z2Nat.id; nia.
Qed.

Definition zero_fill_accessor : FBXAccessor :=
  {| buffer_view := -1; a_byte_offset := 0; component_type := COMPONENT_TYPE_FLOAT;
     normalized := false; count := 2; type := TYPE_VEC3; sparse_count := 0;
     sparse_indices_buffer_view := 0; sparse_indices_byte_offset := 0;
     sparse_indices_component_type := 0; sparse_values_buffer_view := 0;
     sparse_values_byte_offset := 0 |}.

Lemma decode_accessor_without_view_zero_fills_witness :
  _decode_accessor {| buffers := []; buffer_views := []; accessors := [zero_fill_accessor] |}
    0 true = Done (repeat F64.zero 6) /\
  size (repeat F64.zero 6) = 6.
Proof.
  apply (@decode_accessor_without_view_zero_fills
           {| buffers := []; buffer_views := []; accessors := [zero_fill_accessor] |}
           0 zero_fill_accessor true).
  - reflexivity.
  - simpl; lia.
  - reflexivity.
  - vm_compute; discriminate.
  - simpl; lia.
  - simpl; lia.
Defined.

Definition untyped_accessor : FBXAccessor :=
  {| buffer_view := -1; a_byte_offset := 0; component_type := 0;
     normalized := false; count := 2; type := TYPE_SCALAR; sparse_count := 0;
     sparse_indices_buffer_view := 0; sparse_indices_byte_offset := 0;
     sparse_indices_component_type := 0; sparse_values_buffer_view := 0;
     sparse_values_byte_offset := 0 |}.

(** C10, the claim as stated fails: an accessor without view and sparse
    data whose component type is not one of the six known ones leaves
    through [ERR_FAIL_COND_V(component_size == 0, ...)] with the empty
    vector, not with its 2 x 1 zeros. *)
Lemma decode_accessor_without_view_counterexample :
  buffer_view untyped_accessor < 0 /\
  sparse_count untyped_accessor = 0 /\
  count untyped_accessor * component_count_for_type (type untyped_accessor) = 2 /\
  _decode_accessor {| buffers := []; buffer_views := []; accessors := [untyped_accessor] |}
    0 false = Done [].
Proof. repeat split; reflexivity. Qed.

(** The number of values is an [int] product: for 2^28 MAT4 elements it
    wraps to 0 and the accessor decodes to the empty vector. *)
Example decode_accessor_count_wraps :
  _decode_accessor
    {| buffers := []; buffer_views := [];
       accessors := [{| buffer_view := -1; a_byte_offset := 0;
                        component_type := COMPONENT_TYPE_FLOAT; normalized := false;
                        count := 2 ^ 28; type := TYPE_MAT4; sparse_count := 0;
                        sparse_indices_buffer_view := 0; sparse_indices_byte_offset := 0;
                        sparse_indices_component_type := 0; sparse_values_buffer_view := 0;
                        sparse_values_byte_offset := 0 |}] |}
    0 false = Done [].
Proof. vm_compute. reflexivity. Qed.

(** ** Buffer codec: the alignment special cases *)

(** The skip table, as both [_decode_accessor] and [_encode_buffer_view]
    spell it. *)
Lemma skip_table_values :
  (forall ct, ct = COMPONENT_TYPE_BYTE \/ ct = COMPONENT_TYPE_UNSIGNED_BYTE ->
     skip_table ct TYPE_MAT2 = (2, 2) /\ skip_table ct TYPE_MAT3 = (3, 1) /\
     element_size_for ct TYPE_MAT2 = 8 /\ element_size_for ct TYPE_MAT3 = 12) /\
  (forall ct, ct = COMPONENT_TYPE_SHORT \/ ct = COMPONENT_TYPE_UNSIGNED_SHORT ->
     skip_table ct TYPE_MAT3 = (6, 4) /\ element_size_for ct TYPE_MAT3 = 16).
Proof.
  split; intros ct [-> | ->]; repeat split; reflexivity.
Qed.

(** The unsigned 16-bit value stored little-endian at byte [p]. *)
Definition u16_at (buf : list Z) (p : Z) : Z :=
  nth (Z.to_nat p) buf 0 + 256 * nth (Z.to_nat (p + 1)) buf 0.

Lemma skipn_two : forall (buf : list Z) (n : nat),
  (n + 2 <= length buf)%nat ->
  skipn n buf = nth n buf 0 :: nth (S n) buf 0 :: skipn (n + 2) buf.
Proof.
  induction buf as [|x buf IH]; intros n Hn; simpl in Hn.
  - lia.
  - destruct n as [|n].
    + destruct buf; [simpl in Hn; lia | reflexivity].
    + simpl. rewrite (IH n) by lia. reflexivity.
Qed.

Lemma read_bytes_2 : forall buf src,
  0 <= src -> src + 2 <= size buf ->
  exists bs, read_bytes buf src 2 = Done bs /\ uint_of_bytes bs = u16_at buf src.
Proof.
  intros buf src H0 H1. unfold read_bytes, u16_at.
  destruct (Z.ltb_spec src 0); [lia|].
  change (Z.of_nat 2) with 2.
  destruct (Z.ltb_spec (size buf) (src + 2)); [lia|].
  cbn [orb]. eexists; split; [reflexivity|].
  unfold size in H1.
  rewrite (skipn_two buf (Z.to_nat src)) by lia.
  replace (Z.to_nat (src + 1)) with (S (Z.to_nat src)) by lia.
  cbn [firstn uint_of_bytes]. lia.
Qed.

(** C5, decode side.  An unsigned-short MAT3 accessor of one element
    passes the range tests with an element size of 16 bytes and yields
    nine values: six consecutive shorts, then, 4 bytes further, three
    more, read at bytes 16, 18 and 20 from the start of the element. *)
Lemma decode_ushort_mat3_layout :
  forall p_state p_accessor a bv buf p_for_vertex,
    get (accessors p_state) p_accessor = Done a ->
    component_type a = COMPONENT_TYPE_UNSIGNED_SHORT ->
    type a = TYPE_MAT3 -> count a = 1 -> normalized a = false -> sparse_count a = 0 ->
    0 <= buffer_view a ->
    get (buffer_views p_state) (buffer_view a) = Done bv ->
    get (buffers p_state) (buffer bv) = Done buf ->
    16 <= byte_length bv ->
    0 <= byte_offset bv + a_byte_offset a ->
    byte_offset bv + a_byte_offset a + 22 <= size buf ->
    size buf < 2 ^ 31 ->
    _decode_accessor p_state p_accessor p_for_vertex
    = Done (map (fun p => F64.of_Z (u16_at buf (byte_offset bv + a_byte_offset a + p)))
                [0; 2; 4; 6; 8; 10; 16; 18; 20]).
Proof.
  intros p_state p_accessor a bv buf fv Ha Hct Hty Hcnt Hnm Hsp Hv Hbv Hbuf Hlen Hoff Hsz Hmax.
  destruct (get_Done_inv _ _ Ha) as [[? ?] _].
  destruct (get_Done_inv _ _ Hbv) as [[? ?] _].
  destruct (get_Done_inv _ _ Hbuf) as [[? ?] _].
  unfold _decode_accessor.
  destruct (Z.ltb_spec p_accessor 0); [lia|].
  destruct (Z.leb_spec (size (accessors p_state)) p_accessor); [lia|].
  cbn [orb]. rewrite Ha. cbn [bind]. rewrite Hct, Hty, Hcnt, Hnm, Hsp.
  change (_get_component_type_size COMPONENT_TYPE_UNSIGNED_SHORT) with 2.
  change (component_count_for_type TYPE_MAT3) with 9.
  change (element_size_for COMPONENT_TYPE_UNSIGNED_SHORT TYPE_MAT3) with 16.
  change (skip_table COMPONENT_TYPE_UNSIGNED_SHORT TYPE_MAT3) with (6, 4).
  cbv iota beta. change (2 =? 0) with false. cbv iota.
  destruct (Z.leb_spec 0 (buffer_view a)); [|lia].
  destruct (Z.leb_spec (size (buffer_views p_state)) (buffer_view a)); [lia|].
  unfold _decode_buffer_view. rewrite Hbv. cbn [bind].
  destruct (Z.ltb_spec (buffer bv) 0); [lia|].
  destruct (Z.leb_spec (size (buffers p_state)) (buffer bv)); [lia|].
  cbn [orb]. rewrite Hbuf. cbn [bind].
  unfold required_span. rewrite Z.sub_diag, Z.mul_0_r, Z.add_0_l.
  change (to_int32 16) with 16.
  destruct (Z.ltb_spec (byte_length bv) 16); [lia|].
  set (off := byte_offset bv + a_byte_offset a) in *.
  assert (Hu : to_uint32 off = off) by (unfold to_uint32; apply Z.mod_small; lia).
  rewrite Hu.
  assert (Hi : to_int32 (off + 16) = off + 16).
  { unfold to_int32. rewrite Z.mod_small by lia.
    destruct (Z.ltb_spec (off + 16) (2 ^ 31)); lia. }
  rewrite Hi.
  destruct (Z.ltb_spec (size buf) (off + 16)); [lia|].
  cbv zeta.
  change (Z.to_nat 1) with 1%nat.
  cbn [decode_elements]. rewrite Z.mul_0_l, Z.add_0_r, Hu.
  change (Z.to_nat 9) with 9%nat.
  cbn [decode_components].
  unfold read_component.
  change (COMPONENT_TYPE_UNSIGNED_SHORT =? COMPONENT_TYPE_BYTE) with false.
  change (COMPONENT_TYPE_UNSIGNED_SHORT =? COMPONENT_TYPE_UNSIGNED_BYTE) with false.
  change (COMPONENT_TYPE_UNSIGNED_SHORT =? COMPONENT_TYPE_SHORT) with false.
  change (COMPONENT_TYPE_UNSIGNED_SHORT =? COMPONENT_TYPE_UNSIGNED_SHORT) with true.
  cbv iota.
  change (skips_before 6 0) with false. change (skips_before 6 (0 + 1)) with false.
  change (skips_before 6 (0 + 1 + 1)) with false.
  change (skips_before 6 (0 + 1 + 1 + 1)) with false.
  change (skips_before 6 (0 + 1 + 1 + 1 + 1)) with false.
  change (skips_before 6 (0 + 1 + 1 + 1 + 1 + 1)) with false.
  change (skips_before 6 (0 + 1 + 1 + 1 + 1 + 1 + 1)) with true.
  change (skips_before 6 (0 + 1 + 1 + 1 + 1 + 1 + 1 + 1)) with false.
  change (skips_before 6 (0 + 1 + 1 + 1 + 1 + 1 + 1 + 1 + 1)) with false.
  cbv iota.
  repeat match goal with
  | |- context [read_bytes buf ?s 2] =>
      let bs := fresh "bs" in
      let Hbs := fresh "Hbs" in
      destruct (@read_bytes_2 buf s) as [bs [-> Hbs]];
      [lia | lia | cbn [bind]; rewrite Hbs; clear Hbs]
  end.
  change (0 <? 0) with false. cbv iota. cbn [app map].
  change (to_int32 (9 * 1)) with 9. unfold ptr_fill.
  match goal with |- context [size ?l =? Z.max 0 9] =>
    change (size l =? Z.max 0 9) with true end.
  cbv iota. cbn [bind].
  apply f_equal.
  repeat (apply f_equal2; [apply f_equal; apply f_equal; lia | ]).
  reflexivity.
Qed.

Definition mat3_example_state : FBXState :=
  {| buffers := [[1; 0; 2; 0; 3; 0; 4; 0; 5; 0; 6; 0; 99; 99; 99; 99; 7; 0; 8; 0; 9; 0]];
     buffer_views := [{| buffer := 0; byte_offset := 0; byte_length := 22; byte_stride := -1 |}];
     accessors := [{| buffer_view := 0; a_byte_offset := 0;
                      component_type := COMPONENT_TYPE_UNSIGNED_SHORT;
                      normalized := false; count := 1; type := TYPE_MAT3; sparse_count := 0;
                      sparse_indices_buffer_view := 0; sparse_indices_byte_offset := 0;
                      sparse_indices_component_type := 0; sparse_values_buffer_view := 0;
                      sparse_values_byte_offset := 0 |}] |}.

Example decode_ushort_mat3_example :
  _decode_accessor mat3_example_state 0 false
  = Done (map F64.of_Z [1; 2; 3; 4; 5; 6; 7; 8; 9]).
Proof. vm_compute. reflexivity. Qed.

(** C5, encode side.  [_encode_buffer_view] applies the same skips to
    the write index of a temporary vector that it sized for the unpadded
    components, so for each of the three padded layouts the first write
    after a skip is outside the vector and the engine stops on
    [CRASH_BAD_INDEX]: no padded matrix is ever encoded.  For shorts the
    skip moreover counts 4 elements of 2 bytes, not 4 bytes. *)
Theorem encode_padded_matrix_crashes :
  let p_state := {| buffers := [[]]; buffer_views := []; accessors := [] |} in
  _encode_buffer_view p_state (map F64.of_Z [1; 2; 3; 4]) 1 TYPE_MAT2
    COMPONENT_TYPE_BYTE false 0 false = Crashed /\
  _encode_buffer_view p_state (map F64.of_Z [1; 2; 3; 4; 5; 6; 7; 8; 9]) 1 TYPE_MAT3
    COMPONENT_TYPE_UNSIGNED_BYTE false 0 false = Crashed /\
  _encode_buffer_view p_state (map F64.of_Z [1; 2; 3; 4; 5; 6; 7; 8; 9]) 1 TYPE_MAT3
    COMPONENT_TYPE_UNSIGNED_SHORT false 0 false = Crashed /\
  _encode_buffer_view p_state (map F64.of_Z [1; 2; 3; 4; 5; 6; 7; 8]) 2 TYPE_MAT2
    COMPONENT_TYPE_UNSIGNED_BYTE false 0 false = Crashed.
Proof. repeat split; vm_compute; reflexivity. Qed.

(** ** Buffer codec: round trip *)

(** A round trip that works: the first view encoded into a fresh state,
    with 4-byte components. *)
Example float_round_trip_example :
  let p_state := {| buffers := [[]]; buffer_views := []; accessors := [] |} in
  ('(err, p_state, _) <- _encode_buffer_view p_state (map F64.of_Z [1; 2; 3; 4; 5; 6]) 2
                           TYPE_VEC3 COMPONENT_TYPE_FLOAT false 0 true ;;
   _decode_buffer_view p_state 0 0 0 12 2 TYPE_VEC3 3 COMPONENT_TYPE_FLOAT 4 false 0 true)
  = Done (OK, map F64.of_Z [1; 2; 3; 4; 5; 6]).
Proof. vm_compute. reflexivity. Qed.

(** C2.  Encoding does not round-trip for every layout.  (1) With the
    for-vertex flag, two unsigned-short VEC3 elements are written tightly
    packed (12 bytes) while the decoder steps by the stride aligned to 8,
    needs 14 bytes and refuses the view.  (2) With the for-vertex flag and
    1-byte scalars the encoder's own range test fails, its stride being
    the aligned component size.  (3) The encoder stores the index of the
    new view in the view's [buffer] field, so a second view encoded into
    a state with one buffer cannot be decoded at all. *)
Theorem encode_decode_round_trip_fails :
  let p_state := {| buffers := [[]]; buffer_views := []; accessors := [] |} in
  ('(err, p_state, _) <- _encode_buffer_view p_state (map F64.of_Z [1; 2; 3; 4; 5; 6]) 2
                           TYPE_VEC3 COMPONENT_TYPE_UNSIGNED_SHORT false 0 true ;;
   '(err', vals) <- _decode_buffer_view p_state 0 0 0 6 2 TYPE_VEC3 3
                      COMPONENT_TYPE_UNSIGNED_SHORT 2 false 0 true ;;
   Done (err, err', vals))
  = Done (OK, ERR_PARSE_ERROR, []) /\
  ('(err, _, r_accessor) <- _encode_buffer_view p_state (map F64.of_Z [1; 2]) 2
                              TYPE_SCALAR COMPONENT_TYPE_UNSIGNED_BYTE false 0 true ;;
   Done (err, r_accessor))
  = Done (ERR_INVALID_DATA, None) /\
  ('(_, p_state, _) <- _encode_buffer_view p_state (map F64.of_Z [1; 2]) 2
                         TYPE_SCALAR COMPONENT_TYPE_FLOAT false 0 false ;;
   '(err, p_state, r_accessor) <- _encode_buffer_view p_state (map F64.of_Z [3; 4]) 2
                         TYPE_SCALAR COMPONENT_TYPE_FLOAT false 8 false ;;
   '(err', vals) <- _decode_buffer_view p_state 1 0 0 4 2 TYPE_SCALAR 1
                      COMPONENT_TYPE_FLOAT 4 false 0 false ;;
   Done (err, r_accessor, err', vals))
  = Done (OK, Some 1, ERR_PARSE_ERROR, []).
Proof. repeat split; vm_compute; reflexivity. Qed.

(** ** Animation: the size test of the sampler *)

Lemma gather_weights_total : forall n weights wc k l,
  0 <= k < wc -> 0 <= l -> (l + Z.of_nat n) * wc <= size weights ->
  exists ws, gather_weights n weights wc k l = Done ws /\ length ws = n.
Proof.
  induction n as [|n IH]; intros weights wc k l Hk Hl Hsz; cbn [gather_weights].
  - eauto.
  - destruct (get_in_range weights (i := l * wc + k)) as [w [-> _]]; [nia|].
    cbn [bind].
    destruct (IH weights wc k (l + 1)) as [ws [-> Hws]]; [lia | lia | nia |].
    cbn [bind]. eexists; split; [reflexivity | simpl; congruence].
Qed.

Lemma weight_tracks_loop_total : forall n interp keys weights wc wlen k,
  0 <= k -> k + Z.of_nat n <= wc -> 0 <= wlen -> wlen * wc <= size weights ->
  exists tracks,
    weight_tracks_loop n interp keys weights wc wlen k = Done tracks /\
    length tracks = n /\
    Forall (fun ch => interpolation ch = interp /\ times ch = keys
                      /\ size (values ch) = wlen) tracks.
Proof.
  induction n as [|n IH]; intros interp keys weights wc wlen k Hk Hn Hw Hsz;
    cbn [weight_tracks_loop].
  - eexists; repeat split; constructor.
  - destruct (gather_weights_total (Z.to_nat wlen) weights (wc := wc) (k := k) (l := 0))
      as [ws [-> Hws]]; [lia | lia | rewrite Z2Nat.id by lia; lia |].
    cbn [bind].
    destruct (IH interp keys weights wc wlen (k + 1)) as [tr [-> [Hl Hf]]]; try lia.
    cbn [bind]. eexists; split; [reflexivity|]. split; [simpl; congruence|].
    constructor; [|assumption]. cbn. repeat split. unfold size. lia.
Qed.

Lemma write_tracks_all : forall (A : Type) (cfs pre old : list A),
  length old = length cfs ->
  write_tracks cfs (pre ++ old) (size pre) = Done (pre ++ cfs).
Proof.
  intros A cfs. induction cfs as [|cf cfs IH]; intros pre old Hlen; cbn [write_tracks].
  - destruct old; [reflexivity | discriminate Hlen].
  - destruct old as [|o old]; [discriminate Hlen|].
    unfold write_at. pose proof (size_nonneg pre) as Hp.
    destruct (Z.ltb_spec (size pre) 0); [lia|].
    rewrite size_app, size_cons. pose proof (size_nonneg old).
    destruct (Z.leb_spec (size pre + (1 + size old)) (size pre)); [lia|].
    cbn [orb bind]. unfold size at 1 2. rewrite Nat2Z.id.
    rewrite firstn_app, firstn_all, Nat.sub_diag. cbn [firstn]. rewrite app_nil_r.
    replace (S (length pre)) with (length pre + 1)%nat by lia.
    rewrite skipn_app, skipn_all2 by lia.
    replace (length pre + 1 - length pre)%nat with 1%nat by lia. cbn [skipn app].
    replace (pre ++ cf :: old) with ((pre ++ [cf]) ++ old)
      by (rewrite <- app_assoc; reflexivity).
    replace (size pre + 1) with (size (pre ++ [cf]))
      by (rewrite size_app, size_cons, size_nil; lia).
    rewrite IH by (cbn in Hlen; lia). rewrite <- app_assoc. reflexivity.
Qed.

Lemma resize_length : forall (A : Type) (v : list A) (n : Z) (d : A),
  0 <= n -> length (resize v n d) = Z.to_nat n.
Proof.
  intros A v n d Hn. unfold resize. destruct (Z.ltb_spec n 0); [lia|].
  rewrite length_app, length_firstn, repeat_length. lia.
Qed.

(** C4, as amended.  For CUBICSPLINE the sampler takes times and values
    as corresponding exactly when there is at least one value and the
    number of times equals the number of values divided by 3 in integer
    division: a channel with three values per key is sampled, and so is
    one with one or two surplus values; with no value the call returns
    [T()], with any other mismatch the first value.  On the parsing side,
    for sizes whose product fits an [int], a CATMULLROMSPLINE or
    CUBICSPLINE weight channel is turned into tracks only when the output
    holds 3 values per key and blend shape, and every track made from it
    holds exactly 3 values per key; a channel of another size leaves the
    track's [weight_tracks] as the resize before the test made them.
    (What the sampler does with a CATMULLROMSPLINE channel is not part of
    this statement.) *)
Theorem spline_channel_value_count :
  (forall (T : Type) (I : SceneFormatImporterGLTFInterpolate T)
          (p_times : list spec_float) (p_values : list T) (p_time : spec_float),
     (size p_values = 0 ->
        _interpolate_track p_times p_values p_time INTERP_CUBIC_SPLINE = Done T_default) /\
     (0 < size p_values -> size p_times <> size p_values / 3 ->
        _interpolate_track p_times p_values p_time INTERP_CUBIC_SPLINE = get p_values 0) /\
     (0 < size p_values -> size p_times = size p_values / 3 ->
        _interpolate_track p_times p_values p_time INTERP_CUBIC_SPLINE
        = sample_track p_times p_values p_time INTERP_CUBIC_SPLINE) /\
     (0 < size p_values -> size p_values = 3 * size p_times ->
        _interpolate_track p_times p_values p_time INTERP_CUBIC_SPLINE
        = sample_track p_times p_values p_time INTERP_CUBIC_SPLINE)) /\
  (forall interp0 weight_tracks interp keys weights wc,
     interp = INTERP_CATMULLROMSPLINE \/ interp = INTERP_CUBIC_SPLINE ->
     0 < wc ->
     size keys * 3 * wc < 2 ^ 31 ->
     size weights < 2 ^ 31 ->
     (size weights <> size keys * 3 * wc ->
        parse_weight_tracks interp keys weights wc = Done None /\
        store_weight_tracks interp0 weight_tracks interp keys weights wc
        = Done (resize weight_tracks wc
                  {| interpolation := interp0; times := []; values := [] |})) /\
     (size weights = size keys * 3 * wc ->
        exists tracks,
          parse_weight_tracks interp keys weights wc = Done (Some tracks) /\
          store_weight_tracks interp0 weight_tracks interp keys weights wc = Done tracks /\
          size tracks = wc /\
          Forall (fun ch => interpolation ch = interp /\
                            size (values ch) = 3 * size (times ch)) tracks)).
Proof.
  split.
  - intros T I p_times p_values p_time.
    pose proof (size_nonneg p_values) as Hv.
    unfold _interpolate_track, values_correspond.
    rewrite Z.quot_div_nonneg by lia.
    repeat split.
    + intros ->. reflexivity.
    + intros Hpos Hne.
      destruct (Z.eqb_spec (size p_values) 0); [lia|].
      destruct (Z.eqb_spec (size p_times) (size p_values / 3)); [contradiction | reflexivity].
    + intros Hpos He.
      destruct (Z.eqb_spec (size p_values) 0); [lia|].
      destruct (Z.eqb_spec (size p_times) (size p_values / 3)); [reflexivity | contradiction].
    + intros Hpos He.
      destruct (Z.eqb_spec (size p_values) 0); [lia|].
      destruct (Z.eqb_spec (size p_times) (size p_values / 3)) as [|Hne]; [reflexivity|].
      exfalso. apply Hne. rewrite He, Z.mul_comm, Z.div_mul; lia.
  - intros interp0 weight_tracks interp keys weights wc Hi Hwc Hfit Hw.
    assert (Ho : output_count interp = 3) by (destruct Hi as [-> | ->]; reflexivity).
    pose proof (size_nonneg keys) as Ht. pose proof (size_nonneg weights) as Hw0.
    assert (Hp0 : 0 <= size keys * 3 * wc) by nia.
    unfold store_weight_tracks, parse_weight_tracks. cbv zeta. rewrite Ho.
    rewrite (@to_int32_small (size weights)) by lia.
    rewrite (@to_int32_small (size keys * 3 * wc)) by lia.
    split.
    + intros Hne.
      destruct (Z.eqb_spec (size weights) (size keys * 3 * wc)); [contradiction|].
      cbn [negb bind]. split; reflexivity.
    + intros He.
      destruct (Z.eqb_spec (size weights) (size keys * 3 * wc)); [|contradiction].
      cbn [negb].
      assert (Hq : Z.quot (size weights) wc = 3 * size keys).
      { rewrite Z.quot_div_nonneg by nia.
        rewrite He. rewrite Z.div_mul by lia. lia. }
      rewrite Hq.
      destruct (weight_tracks_loop_total (Z.to_nat wc) interp keys weights
                  (wc := wc) (wlen := 3 * size keys) (k := 0))
        as [tracks [-> [Hl Hf]]]; try lia.
      cbn [bind]. exists tracks. split; [reflexivity|]. split; [|split].
      * pose proof (write_tracks_all tracks []
                      (resize weight_tracks wc
                         {| interpolation := interp0; times := []; values := [] |})) as Hwr.
        cbn [app] in Hwr. change (size (@nil (Channel spec_float))) with 0 in Hwr.
        apply Hwr. rewrite resize_length by lia. lia.
      * unfold size. lia.
      * eapply Forall_impl; [|exact Hf]. cbn. intros ch [H1 [H2 H3]].
        split; [assumption|]. rewrite H2. assumption.
Qed.

Definition spline_times : list spec_float := [f32 0; f32 1].
Definition spline_values : list spec_float := [f32 5; f32 10; f32 7; f32 3; f32 20; f32 9].

Lemma spline_channel_value_count_witness :
  _interpolate_track spline_times spline_values (f32 1) INTERP_CUBIC_SPLINE
  = sample_track spline_times spline_values (f32 1) INTERP_CUBIC_SPLINE /\
  (parse_weight_tracks INTERP_CUBIC_SPLINE spline_times spline_values 2 = Done None /\
   store_weight_tracks INTERP_LINEAR [] INTERP_CUBIC_SPLINE spline_times spline_values 2
   = Done (resize [] 2 {| interpolation := INTERP_LINEAR; times := []; values := [] |})) /\
  exists tracks,
    parse_weight_tracks INTERP_CATMULLROMSPLINE spline_times
      (spline_values ++ spline_values) 2 = Done (Some tracks) /\
    store_weight_tracks INTERP_LINEAR [] INTERP_CATMULLROMSPLINE spline_times
      (spline_values ++ spline_values) 2 = Done tracks /\
    size tracks = 2 /\
    Forall (fun ch => interpolation ch = INTERP_CATMULLROMSPLINE /\
                      size (values ch) = 3 * size (times ch)) tracks.
Proof.
  split; [|split].
  - apply (proj1 spline_channel_value_count spec_float real_interpolate
             spline_times spline_values (f32 1)); reflexivity.
  - apply (proj2 spline_channel_value_count INTERP_LINEAR [] INTERP_CUBIC_SPLINE spline_times
             spline_values 2);
      [right; reflexivity | lia | vm_compute; reflexivity | vm_compute; reflexivity
      | vm_compute; discriminate].
  - apply (proj2 spline_channel_value_count INTERP_LINEAR [] INTERP_CATMULLROMSPLINE
             spline_times (spline_values ++ spline_values) 2);
      [left; reflexivity | lia | vm_compute; reflexivity | vm_compute; reflexivity
      | reflexivity].
Defined.

(** C4, the claim as stated fails: a CUBICSPLINE channel of 2 keys
    with 7 values (not 3 x 2) passes the size test and is sampled, here
    at the last key, where the sampler returns the centre value 20 of the
    second triplet and not the first value 5. *)
Lemma spline_channel_value_count_counterexample :
  size (spline_values ++ [f32 42]) <> 3 * size spline_times /\
  values_correspond INTERP_CUBIC_SPLINE (size spline_times)
    (size (spline_values ++ [f32 42])) = true /\
  _interpolate_track spline_times (spline_values ++ [f32 42]) (f32 1) INTERP_CUBIC_SPLINE
    = Done (f32 20) /\
  get (spline_values ++ [f32 42]) 0 = Done (f32 5).
Proof. repeat split; try (vm_compute; reflexivity). vm_compute. discriminate. Qed.

(** The sampler's size test divides by 3 for CUBICSPLINE only: a
    CATMULLROMSPLINE channel with the three values per key that the
    parser asks for is answered with its first value at every time. *)
Lemma catmull_rom_channel_falls_back :
  forall p_time,
    _interpolate_track spline_times spline_values p_time INTERP_CATMULLROMSPLINE
    = Done (f32 5).
Proof. intros. reflexivity. Qed.

(** ** Skin expansion: the skip-level scenario *)

Lemma scenario_passes_everywhere :
  forallb (fun j0 => forallb (fun j1 => forallb (fun j2 => forallb (fun n =>
  forallb (fun p1 => forallb (fun rev =>
    negb (scenario_valid j0 j1 j2 n p1) || scenario_passes j0 j1 j2 n p1 rev)
  [true; false]) [0; 1; 2; 3]) [0; 1; 2; 3]) [0; 1; 2; 3]) [0; 1; 2; 3]) [0; 1; 2; 3] = true.
Proof. vm_compute. reflexivity. Qed.

Lemma scenario_valid_range : forall j0 j1 j2 n p1,
  scenario_valid j0 j1 j2 n p1 = true ->
  In j0 [0; 1; 2; 3] /\ In j1 [0; 1; 2; 3] /\ In j2 [0; 1; 2; 3] /\ In n [0; 1; 2; 3]
  /\ In p1 [0; 1; 2; 3].
Proof.
  intros j0 j1 j2 n p1 H. unfold scenario_valid in H.
  apply andb_true_iff in H. destruct H as [Hperm Hp1].
  cbn [forallb existsb] in Hperm. cbn [existsb] in Hp1.
  repeat rewrite andb_true_iff in Hperm. repeat rewrite orb_true_iff in Hperm.
  repeat rewrite orb_true_iff in Hp1. repeat rewrite Z.eqb_eq in *.
  cbn [In]. lia.
Qed.

(** The four-node documents of the scenario, whichever indices the
    nodes carry, wherever under joint 0 joint 1 hangs and in whichever
    order children are listed: [_expand_skin] succeeds, the intermediate
    node [n] ends up in the skin's [non_joints], the resolved roots are
    exactly the node of joint 0, and [_verify_skin] accepts the result. *)
Lemma skip_level_scenarios_pass :
  forall j0 j1 j2 n p1 rev,
    scenario_valid j0 j1 j2 n p1 = true ->
    exists skin,
      _expand_skin 5 (scenario_nodes j0 j1 j2 n p1 rev) (scenario_skin j0 j1 j2)
        = Done (OK, skin) /\
      In n (non_joints skin) /\
      roots skin = [j0] /\
      _verify_skin (scenario_nodes j0 j1 j2 n p1 rev) skin = Done OK.
Proof.
  intros j0 j1 j2 n p1 rev Hv.
  assert (Hp : scenario_passes j0 j1 j2 n p1 rev = true).
  { destruct (scenario_valid_range _ _ _ _ _ Hv) as [H0 [H1 [H2 [H3 H4]]]].
    pose proof scenario_passes_everywhere as Hall.
    rewrite forallb_forall in Hall. specialize (Hall j0 H0).
    rewrite forallb_forall in Hall. specialize (Hall j1 H1).
    rewrite forallb_forall in Hall. specialize (Hall j2 H2).
    rewrite forallb_forall in Hall. specialize (Hall n H3).
    rewrite forallb_forall in Hall. specialize (Hall p1 H4).
    rewrite forallb_forall in Hall.
    specialize (Hall rev ltac:(destruct rev; cbn; auto)).
    rewrite Hv in Hall. exact Hall. }
  unfold scenario_passes in Hp.
  destruct (_expand_skin 5 (scenario_nodes j0 j1 j2 n p1 rev) (scenario_skin j0 j1 j2))
    as [[[] skin] | | |]; try discriminate Hp.
  exists skin. split; [reflexivity|].
  apply andb_true_iff in Hp. destruct Hp as [Hp Hver].
  apply andb_true_iff in Hp. destruct Hp as [Hin Hroots].
  split; [|split].
  - apply existsb_exists in Hin. destruct Hin as [x [Hx He]].
    apply Z.eqb_eq in He. now subst x.
  - destruct (roots skin) as [|r [|? ?]]; try discriminate Hroots.
    apply Z.eqb_eq in Hroots. now subst r.
  - destruct (_verify_skin (scenario_nodes j0 j1 j2 n p1 rev) skin) as [[]| | |];
      try discriminate Hver. reflexivity.
Qed.

Example skip_level_expansion_trace :
  scenario_nodes 0 1 2 3 0 false
  = [ {| parent := -1; children := [1; 3]; height := 0; joint := true |};
      {| parent := 0; children := []; height := 1; joint := true |};
      {| parent := 3; children := []; height := 2; joint := true |};
      {| parent := 0; children := [2]; height := 1; joint := false |} ] /\
  _expand_skin 5 (scenario_nodes 0 1 2 3 0 false) (scenario_skin 0 1 2)
  = Done (OK, {| joints := [0; 1; 2]; non_joints := [3; 0]; roots := [0] |}).
Proof. split; reflexivity. Qed.

(** ** Disjoint sets *)

Unset Implicit Arguments.
Import DisjointSet.

Definition keys (ds : DisjointSet.t) : list Z := map object ds.

(** The representation invariant: keys are distinct and every recorded
    representative is a key that represents itself. *)
Definition ds_ok (ds : DisjointSet.t) : Prop :=
  NoDup (keys ds) /\
  forall e, In e ds -> In (root e) (keys ds) /\ root_of ds (root e) = root e.

Lemma has_true_iff : forall ds k, has ds k = true <-> In k (keys ds).
Proof.
  intros ds k. unfold has, keys. rewrite existsb_exists, in_map_iff.
  split; intros [e [H1 H2]].
  - exists e. apply Z.eqb_eq in H2. tauto.
  - exists e. rewrite Z.eqb_eq. tauto.
Qed.

Lemma has_false_iff : forall ds k, has ds k = false <-> ~ In k (keys ds).
Proof.
  intros ds k. rewrite <- has_true_iff. destruct (has ds k); split; congruence.
Qed.

Lemma root_of_app : forall ds1 ds2 k,
  root_of (ds1 ++ ds2) k = if has ds1 k then root_of ds1 k else root_of ds2 k.
Proof.
  induction ds1 as [|e ds1 IH]; intros ds2 k; cbn [app root_of has existsb].
  - reflexivity.
  - destruct (object e =? k); cbn [orb]; [reflexivity|]. apply IH.
Qed.

Lemma root_of_not_key : forall ds k, ~ In k (keys ds) -> root_of ds k = k.
Proof.
  induction ds as [|e ds IH]; intros k Hk; cbn [root_of]; [reflexivity|].
  cbn in Hk. destruct (Z.eqb_spec (object e) k); [tauto|]. apply IH. tauto.
Qed.

Lemma root_of_elem : forall ds e,
  NoDup (keys ds) -> In e ds -> root_of ds (object e) = root e.
Proof.
  induction ds as [|e0 ds IH]; intros e Hnd Hin; [contradiction|].
  cbn [root_of]. cbn in Hnd. inversion Hnd as [|? ? Hni Hnd']; subst.
  destruct Hin as [-> | Hin].
  - now rewrite Z.eqb_refl.
  - destruct (Z.eqb_spec (object e0) (object e)) as [E|_].
    + exfalso. apply Hni. rewrite E. now apply in_map.
    + now apply IH.
Qed.

Lemma key_elem : forall ds k, In k (keys ds) ->
  exists e, In e ds /\ object e = k.
Proof.
  intros ds k H. unfold keys in H. apply in_map_iff in H.
  destruct H as [e [H1 H2]]. eauto.
Qed.

Lemma root_of_is_rep : forall ds k, ds_ok ds -> In k (keys ds) ->
  In (root_of ds k) (keys ds) /\ root_of ds (root_of ds k) = root_of ds k.
Proof.
  intros ds k [Hnd Hr] Hk.
  destruct (key_elem _ _ Hk) as [e [He <-]].
  rewrite (root_of_elem _ _ Hnd He). now apply Hr.
Qed.

Lemma keys_insert : forall ds k x,
  In x (keys (insert ds k)) <-> In x (keys ds) \/ x = k.
Proof.
  intros ds k x. unfold insert.
  destruct (has ds k) eqn:E.
  - apply has_true_iff in E. split; [tauto|]. intros [H | ->]; assumption.
  - unfold keys. rewrite map_app, in_app_iff. cbn. intuition congruence.
Qed.

Lemma root_of_insert_old : forall ds k x,
  In x (keys ds) -> root_of (insert ds k) x = root_of ds x.
Proof.
  intros ds k x Hx. unfold insert. destruct (has ds k); [reflexivity|].
  rewrite root_of_app. apply has_true_iff in Hx. now rewrite Hx.
Qed.

Lemma root_of_insert_new : forall ds k,
  ~ In k (keys ds) -> root_of (insert ds k) k = k.
Proof.
  intros ds k Hk. unfold insert.
  apply has_false_iff in Hk. rewrite Hk, root_of_app, Hk.
  cbn. now rewrite Z.eqb_refl.
Qed.

Lemma ds_ok_empty : ds_ok empty.
Proof. split; [constructor | intros e []]. Qed.

Lemma ds_ok_insert : forall ds k, ds_ok ds -> ds_ok (insert ds k).
Proof.
  intros ds k [Hnd Hr]. unfold insert. destruct (has ds k) eqn:E; [now split|].
  apply has_false_iff in E. split.
  - unfold keys. rewrite map_app. cbn.
    apply NoDup_app; [assumption | constructor; [intros [] | constructor] |].
    intros a Ha [<- | []]. contradiction.
  - intros e He. apply in_app_iff in He. destruct He as [He | [<- | []]].
    + destruct (Hr e He) as [H1 H2]. split.
      * unfold keys. rewrite map_app, in_app_iff. now left.
      * rewrite root_of_app. apply has_true_iff in H1. now rewrite H1.
    + cbn [root object]. split.
      * unfold keys. rewrite map_app, in_app_iff. right. cbn. now left.
      * rewrite root_of_app. apply has_false_iff in E. rewrite E.
        cbn. now rewrite Z.eqb_refl.
Qed.

Lemma keys_merge : forall ds x y b, keys (merge ds x y b) = keys ds.
Proof.
  intros. unfold keys, merge. rewrite map_map. reflexivity.
Qed.

Lemma root_of_merge : forall ds x y b k,
  In k (keys ds) ->
  root_of (merge ds x y b) k = if root_of ds k =? y then x else root_of ds k.
Proof.
  induction ds as [|e ds IH]; intros x y b k Hk; [contradiction|].
  cbn [merge map root_of object root].
  destruct (Z.eqb_spec (object e) k) as [E|E]; [reflexivity|].
  apply IH. destruct Hk as [Hk | Hk]; [contradiction | assumption].
Qed.

Lemma ds_ok_merge : forall ds x y b,
  ds_ok ds -> In x (keys ds) -> root_of ds x = x -> x <> y ->
  ds_ok (merge ds x y b).
Proof.
  intros ds x y b [Hnd Hr] Hx Hxx Hxy. split.
  - now rewrite keys_merge.
  - intros e' He'. unfold merge in He'. apply in_map_iff in He'.
    destruct He' as [e [<- He]]. cbn [root]. rewrite keys_merge.
    destruct (Hr e He) as [H1 H2].
    destruct (Z.eqb_spec (root e) y) as [E|E].
    + split; [assumption|]. rewrite root_of_merge by assumption.
      rewrite Hxx. destruct (Z.eqb_spec x y); [contradiction | reflexivity].
    + split; [assumption|]. rewrite root_of_merge by assumption.
      rewrite H2. destruct (Z.eqb_spec (root e) y); [contradiction | reflexivity].
Qed.

Lemma keys_create_union : forall ds a b x,
  In x (keys (create_union ds a b)) <-> In x (keys ds) \/ x = a \/ x = b.
Proof.
  intros ds a b x. unfold create_union.
  assert (H : In x (keys (insert (insert ds a) b)) <-> In x (keys ds) \/ x = a \/ x = b)
    by (rewrite !keys_insert; tauto).
  destruct (_ =? _); [exact H|].
  destruct (_ <? _); rewrite keys_merge; exact H.
Qed.

Lemma ds_ok_create_union : forall ds a b, ds_ok ds -> ds_ok (create_union ds a b).
Proof.
  intros ds a b Hok. unfold create_union.
  set (ds1 := insert (insert ds a) b).
  assert (Hok1 : ds_ok ds1) by (apply ds_ok_insert, ds_ok_insert, Hok).
  assert (Ha : In a (keys ds1)) by (unfold ds1; rewrite !keys_insert; tauto).
  assert (Hb : In b (keys ds1)) by (unfold ds1; rewrite !keys_insert; tauto).
  destruct (root_of_is_rep _ _ Hok1 Ha) as [Ha1 Ha2].
  destruct (root_of_is_rep _ _ Hok1 Hb) as [Hb1 Hb2].
  destruct (Z.eqb_spec (root_of ds1 a) (root_of ds1 b)) as [E|E]; [assumption|].
  destruct (_ <? _); apply ds_ok_merge; auto.
Qed.

(** After [create_union a b] the two keys share their representative. *)
Lemma create_union_joins : forall ds a b, ds_ok ds ->
  root_of (create_union ds a b) a = root_of (create_union ds a b) b.
Proof.
  intros ds a b Hok. unfold create_union.
  set (ds1 := insert (insert ds a) b).
  assert (Ha : In a (keys ds1)) by (unfold ds1; rewrite !keys_insert; tauto).
  assert (Hb : In b (keys ds1)) by (unfold ds1; rewrite !keys_insert; tauto).
  destruct (Z.eqb_spec (root_of ds1 a) (root_of ds1 b)) as [E|E]; [assumption|].
  destruct (_ <? _); rewrite !root_of_merge by assumption;
    repeat match goal with |- context [?u =? ?v] => destruct (Z.eqb_spec u v) end;
    congruence.
Qed.

(** Keys that share a representative keep sharing one. *)
Lemma insert_keeps_class : forall ds k x y,
  In x (keys ds) -> In y (keys ds) -> root_of ds x = root_of ds y ->
  root_of (insert ds k) x = root_of (insert ds k) y.
Proof. intros. now rewrite !root_of_insert_old. Qed.

Lemma create_union_keeps_class : forall ds a b x y,
  In x (keys ds) -> In y (keys ds) -> root_of ds x = root_of ds y ->
  root_of (create_union ds a b) x = root_of (create_union ds a b) y.
Proof.
  intros ds a b x y Hx Hy E. unfold create_union.
  set (ds1 := insert (insert ds a) b).
  assert (Hx1 : In x (keys ds1)) by (unfold ds1; rewrite !keys_insert; tauto).
  assert (Hy1 : In y (keys ds1)) by (unfold ds1; rewrite !keys_insert; tauto).
  assert (E1 : root_of ds1 x = root_of ds1 y)
    by (unfold ds1; rewrite !root_of_insert_old; rewrite ?keys_insert; tauto).
  destruct (_ =? _); [assumption|].
  destruct (_ <? _); rewrite !root_of_merge by assumption; now rewrite E1.
Qed.

(** Soundness with respect to any equivalence [R] that relates the keys
    united: every key is related to its representative. *)
Section Soundness.
Variable R : Z -> Z -> Prop.
Hypothesis R_refl : forall x, R x x.
Hypothesis R_sym : forall x y, R x y -> R y x.
Hypothesis R_trans : forall x y z, R x y -> R y z -> R x z.

Definition ds_sound (ds : DisjointSet.t) : Prop :=
  forall k, In k (keys ds) -> R k (root_of ds k).

Lemma ds_sound_empty : ds_sound empty.
Proof. intros k []. Qed.

Lemma ds_sound_insert : forall ds k, ds_sound ds -> ds_sound (insert ds k).
Proof.
  intros ds k Hs x Hx.
  destruct (in_dec Z.eq_dec x (keys ds)) as [Hin | Hni].
  - rewrite root_of_insert_old by assumption. now apply Hs.
  - apply keys_insert in Hx. destruct Hx as [Hx | ->]; [contradiction|].
    rewrite root_of_insert_new by assumption. apply R_refl.
Qed.

Lemma ds_sound_create_union : forall ds a b,
  ds_sound ds -> R a b -> ds_sound (create_union ds a b).
Proof.
  intros ds a b Hs Hab. unfold create_union.
  set (ds1 := insert (insert ds a) b).
  assert (Hs1 : ds_sound ds1) by (apply ds_sound_insert, ds_sound_insert, Hs).
  assert (Ha : In a (keys ds1)) by (unfold ds1; rewrite !keys_insert; tauto).
  assert (Hb : In b (keys ds1)) by (unfold ds1; rewrite !keys_insert; tauto).
  assert (Hrr : R (root_of ds1 a) (root_of ds1 b)).
  { apply R_trans with a; [apply R_sym, Hs1, Ha|].
    apply R_trans with b; [exact Hab | apply Hs1, Hb]. }
  destruct (_ =? _); [assumption|].
  destruct (_ <? _); intros k Hk; rewrite keys_merge in Hk;
    rewrite root_of_merge by assumption;
    match goal with |- context [?u =? ?v] => destruct (Z.eqb_spec u v) as [E|E] end;
    try (now apply Hs1);
    (apply R_trans with (root_of ds1 k); [now apply Hs1|]); rewrite E; auto.
Qed.
End Soundness.

Lemma in_representatives : forall ds r, ds_ok ds ->
  (In r (get_representatives ds) <-> In r (keys ds) /\ root_of ds r = r).
Proof.
  intros ds r [Hnd Hr]. unfold get_representatives.
  rewrite in_map_iff. split.
  - intros [e [<- He]]. apply filter_In in He. destruct He as [He Heq].
    apply Z.eqb_eq in Heq. split; [now apply in_map|].
    rewrite (root_of_elem _ _ Hnd He). exact Heq.
  - intros [Hk Hroot]. destruct (key_elem _ _ Hk) as [e [He <-]].
    exists e. split; [reflexivity|]. apply filter_In. split; [assumption|].
    apply Z.eqb_eq. now rewrite <- (root_of_elem _ _ Hnd He).
Qed.

Lemma representatives_NoDup : forall ds, ds_ok ds -> NoDup (get_representatives ds).
Proof.
  intros ds [Hnd _]. unfold get_representatives. unfold keys in Hnd.
  induction ds as [|e ds IH]; cbn [filter map]; [constructor|].
  cbn in Hnd. inversion Hnd as [|? ? Hni Hnd']; subst.
  destruct (root e =? object e); [|now apply IH].
  cbn [map]. constructor; [|now apply IH].
  intros Hin. apply Hni. apply in_map_iff in Hin. destruct Hin as [e' [E He']].
  apply filter_In in He'. rewrite <- E. apply in_map. tauto.
Qed.

Lemma in_members : forall ds r x, ds_ok ds -> In r (get_representatives ds) ->
  (In x (get_members ds r) <-> In x (keys ds) /\ root_of ds x = r).
Proof.
  intros ds r x Hok Hr. pose proof Hok as [Hnd _].
  apply in_representatives in Hr; [|assumption]. destruct Hr as [Hk Hroot].
  unfold get_members. apply has_true_iff in Hk. rewrite Hk, Hroot, Z.eqb_refl.
  cbn [andb]. rewrite in_map_iff. split.
  - intros [e [<- He]]. apply filter_In in He. destruct He as [He Heq].
    apply Z.eqb_eq in Heq. split; [now apply in_map|].
    now rewrite (root_of_elem _ _ Hnd He).
  - intros [Hx Hrx]. destruct (key_elem _ _ Hx) as [e [He <-]].
    exists e. split; [reflexivity|]. apply filter_In. split; [assumption|].
    apply Z.eqb_eq. now rewrite <- (root_of_elem _ _ Hnd He).
Qed.

(** ** Node hierarchies *)

Definition parent_of (nodes : list FBXNode) (i : Z) : Z :=
  match node_at nodes i with Some nd => parent nd | None => -1 end.

Definition height_of (nodes : list FBXNode) (i : Z) : Z :=
  match node_at nodes i with Some nd => height nd | None => 0 end.

Definition valid (nodes : list FBXNode) (i : Z) : Prop := 0 <= i < size nodes.

Lemma get_node_at : forall (nodes : list FBXNode) i nd,
  get nodes i = Done nd <-> node_at nodes i = Some nd.
Proof.
  intros. unfold get, node_at. destruct (i <? 0); [split; discriminate|].
  destruct (nth_error nodes (Z.to_nat i)); split; congruence.
Qed.

Lemma valid_node_at : forall nodes i, valid nodes i ->
  exists nd, node_at nodes i = Some nd /\ get nodes i = Done nd.
Proof.
  intros nodes i H. destruct (get_in_range nodes (i := i) H) as [nd [Hg _]].
  exists nd. split; [now apply get_node_at | assumption].
Qed.

Lemma node_at_valid : forall nodes i nd, node_at nodes i = Some nd -> valid nodes i.
Proof.
  intros nodes i nd H. apply get_node_at in H.
  destruct (get_Done_inv _ _ H) as [Hr _]. exact Hr.
Qed.

Lemma get_valid : forall nodes i, valid nodes i ->
  get nodes i = match node_at nodes i with Some nd => Done nd | None => Crashed end.
Proof.
  intros nodes i H. destruct (valid_node_at _ _ H) as [nd [-> ->]]. reflexivity.
Qed.

Section Forest.
Variable nodes : list FBXNode.
Hypothesis Hwf : wf_nodes nodes = true.

Let par := parent_of nodes.
Let hgt := height_of nodes.

Lemma wf_at : forall i nd, node_at nodes i = Some nd -> wf_node nodes i nd = true.
Proof.
  intros i nd H. unfold wf_nodes in Hwf. rewrite forallb_forall in Hwf.
  pose proof (node_at_valid _ _ _ H) as [H0 H1]. unfold size in H1.
  specialize (Hwf i). rewrite H in Hwf. apply Hwf.
  apply in_map_iff. exists (Z.to_nat i). split; [lia|].
  apply in_seq. lia.
Qed.

Lemma height_nonneg : forall i, 0 <= hgt i.
Proof.
  intros i. unfold hgt, height_of. destruct (node_at nodes i) eqn:E; [|lia].
  pose proof (wf_at _ _ E) as H. unfold wf_node in H.
  repeat (apply andb_true_iff in H; destruct H as [H ?]). lia.
Qed.

(** A valid node is a root of height 0 or sits below a valid parent. *)
Lemma parent_cases : forall i, valid nodes i ->
  (par i = -1 /\ hgt i = 0) \/ (valid nodes (par i) /\ hgt i = hgt (par i) + 1).
Proof.
  intros i Hv. destruct (valid_node_at _ _ Hv) as [nd [E _]].
  pose proof (wf_at _ _ E) as H. unfold wf_node in H.
  apply andb_true_iff in H. destruct H as [H _].
  apply andb_true_iff in H. destruct H as [_ H].
  unfold par, hgt, parent_of, height_of. rewrite E.
  destruct (Z.eqb_spec (parent nd) (-1)) as [Ep|Ep].
  - left. split; [assumption | lia].
  - right. destruct (node_at nodes (parent nd)) eqn:E2; [|discriminate].
    split; [eapply node_at_valid; eassumption | lia].
Qed.

Lemma parent_valid_of_height : forall i, valid nodes i -> 0 < hgt i -> valid nodes (par i).
Proof.
  intros i Hv Hh. destruct (parent_cases i Hv) as [[_ H] | [H _]]; [lia | assumption].
Qed.

Lemma parent_height : forall i, valid nodes i -> valid nodes (par i) ->
  hgt i = hgt (par i) + 1.
Proof.
  intros i Hv Hp. destruct (parent_cases i Hv) as [[H _] | [_ H]]; [|assumption].
  unfold valid in Hp. lia.
Qed.

Lemma children_spec : forall i nd c, node_at nodes i = Some nd -> In c (children nd) ->
  valid nodes c /\ par c = i.
Proof.
  intros i nd c E Hc. pose proof (wf_at _ _ E) as H. unfold wf_node in H.
  apply andb_true_iff in H. destruct H as [_ H].
  rewrite forallb_forall in H. specialize (H c Hc).
  unfold par, parent_of. destruct (node_at nodes c) eqn:E2; [|discriminate].
  split; [eapply node_at_valid; eassumption | lia].
Qed.

(** *** Connection inside a set of nodes *)

Variable S : list Z.

(** [anc x z]: [z] is reached from [x] by climbing parent links that
    stay in [S]. *)
Inductive anc : Z -> Z -> Prop :=
| anc_refl : forall x, anc x x
| anc_step : forall x z, In x S -> In (par x) S -> anc (par x) z -> anc x z.

(** [conn]: the equivalence generated by the parent links inside [S]. *)
Inductive conn : Z -> Z -> Prop :=
| conn_refl : forall x, conn x x
| conn_up : forall x, In x S -> In (par x) S -> conn x (par x)
| conn_sym : forall x y, conn x y -> conn y x
| conn_trans : forall x y z, conn x y -> conn y z -> conn x z.

Definition top (t : Z) : Prop := In t S /\ ~ In (par t) S.

Lemma anc_trans : forall x y z, anc x y -> anc y z -> anc x z.
Proof.
  intros x y z H. induction H as [x | x y' Hx Hp _ IH]; intros Hz; [assumption|].
  apply anc_step; auto.
Qed.

Lemma anc_linear : forall x a b, anc x a -> anc x b -> anc a b \/ anc b a.
Proof.
  intros x a b Ha. revert b.
  induction Ha as [x | x a Hx Hp Ha IH]; intros b Hb.
  - now left.
  - inversion Hb as [|? ? _ _ Hb']; subst.
    + right. now apply anc_step.
    + now apply IH.
Qed.

Lemma conn_common : forall x y, conn x y -> exists z, anc x z /\ anc y z.
Proof.
  intros x y H. induction H as [x | x Hx Hp | x y _ [z [H1 H2]]
                               | x y w _ [z1 [H1 H2]] _ [z2 [H3 H4]]].
  - exists x. split; apply anc_refl.
  - exists (par x). split; [apply anc_step; auto; apply anc_refl | apply anc_refl].
  - exists z. tauto.
  - destruct (anc_linear _ _ _ H2 H3) as [H | H].
    + exists z2. split; [|assumption]. eapply anc_trans; eassumption.
    + exists z1. split; [assumption|]. eapply anc_trans; eassumption.
Qed.

Lemma top_anc : forall t z, ~ In (par t) S -> anc t z -> z = t.
Proof. intros t z Hn H. inversion H; subst; [reflexivity | contradiction]. Qed.

(** A class of [conn] holds at most one top. *)
Lemma conn_tops_eq : forall x y, conn x y -> top x -> top y -> x = y.
Proof.
  intros x y H [_ Hx] [_ Hy]. destruct (conn_common _ _ H) as [z [H1 H2]].
  apply top_anc in H1; [|assumption]. apply top_anc in H2; [|assumption]. congruence.
Qed.
End Forest.

Lemma conn_mono : forall nodes S S' x y,
  incl S S' -> conn nodes S x y -> conn nodes S' x y.
Proof.
  intros nodes S S' x y Hi H. induction H.
  - apply conn_refl.
  - apply conn_up; auto.
  - now apply conn_sym.
  - eapply conn_trans; eassumption.
Qed.

(** [top] only depends on the elements of the set. *)
Lemma top_ext : forall nodes S S' t,
  (forall x, In x S <-> In x S') -> top nodes S t -> top nodes S' t.
Proof.
  intros nodes S S' t H [H1 H2]. split; [now apply H | now rewrite <- H].
Qed.

(** ** [Vector::find] *)

Lemma find_from_range : forall v x i,
  find_from v x i = -1 \/ i <= find_from v x i.
Proof.
  induction v as [|y v IH]; intros x i; cbn [find_from]; [now left|].
  destruct (y =? x); [right; lia|].
  destruct (IH x (i + 1)); [now left | right; lia].
Qed.

Lemma find_from_In : forall v x i, 0 <= i ->
  (0 <= find_from v x i <-> In x v).
Proof.
  induction v as [|y v IH]; intros x i Hi; cbn [find_from].
  - split; [lia | intros []].
  - destruct (Z.eqb_spec y x) as [E|E].
    + split; [intros _; now left | intros _; lia].
    + rewrite IH by lia. cbn. intuition congruence.
Qed.

Lemma find_In : forall v x, 0 <= find v x <-> In x v.
Proof. intros. unfold find. apply find_from_In. lia. Qed.

Lemma find_not_In : forall v x, find v x < 0 <-> ~ In x v.
Proof. intros. rewrite <- find_In. lia. Qed.

(** ** The union pass *)

Section UnionPass.
Variable nodes : list FBXNode.
Variable all : list Z.
Hypothesis all_valid : forall x, In x all -> valid nodes x.

Let par := parent_of nodes.

(** What holds of the disjoint set once the nodes [P] are processed. *)
Definition pass_inv (ds : DisjointSet.t) (P : list Z) : Prop :=
  ds_ok ds /\
  (forall k, In k (keys ds) -> In k all) /\
  ds_sound (conn nodes all) ds /\
  (forall x, In x P ->
     In x (keys ds) /\
     (In (par x) all ->
        In (par x) (keys ds) /\ root_of ds x = root_of ds (par x))).

Definition pass_step (ds : DisjointSet.t) (x : Z) : DisjointSet.t :=
  let ds := insert ds x in
  if 0 <=? find all (par x) then create_union ds (par x) x else ds.

Lemma pass_step_keys : forall ds x k, In k (keys ds) -> In k (keys (pass_step ds x)).
Proof.
  intros ds x k Hk. unfold pass_step.
  destruct (0 <=? find all (par x)).
  - apply keys_create_union. left. apply keys_insert. now left.
  - apply keys_insert. now left.
Qed.

Lemma pass_step_class : forall ds x a b,
  In a (keys ds) -> In b (keys ds) -> root_of ds a = root_of ds b ->
  root_of (pass_step ds x) a = root_of (pass_step ds x) b.
Proof.
  intros ds x a b Ha Hb E. unfold pass_step.
  destruct (0 <=? find all (par x)).
  - apply create_union_keeps_class.
    + apply keys_insert; now left.
    + apply keys_insert; now left.
    + now apply insert_keeps_class.
  - now apply insert_keeps_class.
Qed.

Lemma pass_step_inv : forall ds P x,
  pass_inv ds P -> In x all -> pass_inv (pass_step ds x) (x :: P).
Proof.
  intros ds P x [Hok [Hk [Hs Hp]]] Hx.
  assert (Hok1 : ds_ok (insert ds x)) by now apply ds_ok_insert.
  assert (Hs1 : ds_sound (conn nodes all) (insert ds x)).
  { apply ds_sound_insert; [exact (conn_refl nodes all) | assumption]. }
  split; [|split; [|split]].
  - unfold pass_step. destruct (0 <=? find all (par x)); [|assumption].
    now apply ds_ok_create_union.
  - intros k Hin. unfold pass_step in Hin.
    destruct (Z.leb_spec 0 (find all (par x))) as [Hf|Hf].
    + apply keys_create_union in Hin. rewrite keys_insert in Hin.
      destruct Hin as [[Hin | ->] | [-> | ->]]; auto.
      now apply find_In.
    + apply keys_insert in Hin. destruct Hin as [Hin | ->]; auto.
  - unfold pass_step.
    destruct (Z.leb_spec 0 (find all (par x))) as [Hf|Hf]; [|assumption].
    apply (ds_sound_create_union (conn nodes all) (conn_refl nodes all)
             (conn_sym nodes all) (conn_trans nodes all)); [assumption|].
    apply conn_sym, conn_up; [assumption | now apply find_In].
  - intros y [<- | Hy].
    + split.
      * unfold pass_step. destruct (0 <=? find all (par x)).
        -- apply keys_create_union. tauto.
        -- apply keys_insert. tauto.
      * intros Hpar. unfold pass_step.
        destruct (Z.leb_spec 0 (find all (par x))) as [Hf|Hf].
        -- split; [apply keys_create_union; tauto|].
           symmetry. now apply create_union_joins.
        -- apply find_In in Hpar. lia.
    + destruct (Hp y Hy) as [H1 H2]. split; [now apply pass_step_keys|].
      intros Hpar. destruct (H2 Hpar) as [H3 H4].
      split; [now apply pass_step_keys | now apply pass_step_class].
Qed.

Lemma union_pass_spec : forall todo ds P,
  incl todo all -> pass_inv ds P ->
  exists ds', union_pass nodes all todo ds = Done ds' /\ pass_inv ds' (rev todo ++ P).
Proof.
  induction todo as [|x todo IH]; intros ds P Hin Hinv; cbn [union_pass].
  - exists ds. split; [reflexivity | assumption].
  - assert (Hx : In x all) by (apply Hin; now left).
    destruct (valid_node_at _ _ (all_valid x Hx)) as [nd [Hnd ->]]. cbn [bind].
    assert (Hp : parent nd = par x) by (unfold par, parent_of; now rewrite Hnd).
    rewrite Hp.
    destruct (IH (pass_step ds x) (x :: P)) as [ds' [Hr Hinv']].
    + intros y Hy. apply Hin. now right.
    + now apply pass_step_inv.
    + exists ds'. split; [exact Hr|].
      cbn [rev]. rewrite <- app_assoc. exact Hinv'.
Qed.

Lemma pass_inv_empty : pass_inv empty [].
Proof.
  split; [apply ds_ok_empty|]. split; [intros k []|].
  split; [apply ds_sound_empty | intros x []].
Qed.

(** The pass over the whole list. *)
Lemma union_pass_all :
  exists ds, union_pass nodes all all empty = Done ds /\
    ds_ok ds /\
    (forall k, In k (keys ds) <-> In k all) /\
    (forall k, In k all -> conn nodes all k (root_of ds k)) /\
    (forall x, In x all -> In (par x) all -> root_of ds x = root_of ds (par x)).
Proof.
  destruct (union_pass_spec all empty [] (incl_refl _) pass_inv_empty)
    as [ds [Hr [Hok [Hk [Hs Hp]]]]].
  rewrite app_nil_r in Hp.
  assert (Hall : forall x, In x all -> In x (keys ds)).
  { intros x Hx. apply Hp. now apply in_rev in Hx. }
  exists ds. split; [exact Hr|]. split; [exact Hok|]. split; [|split].
  - intros k. split; auto.
  - intros k Hk'. apply Hs. auto.
  - intros x Hx Hpar. apply (Hp x); [now apply in_rev in Hx | assumption].
Qed.
End UnionPass.

(** ** [Vector::sort] *)

Lemma sort_insert_perm : forall x v, Permutation (sort_insert x v) (x :: v).
Proof.
  induction v as [|y v IH]; cbn [sort_insert]; [reflexivity|].
  destruct (x <=? y); [reflexivity|].
  rewrite IH. apply perm_swap.
Qed.

Lemma sort_perm : forall v, Permutation (sort v) v.
Proof.
  induction v as [|x v IH]; cbn [sort]; [reflexivity|].
  rewrite sort_insert_perm. now constructor.
Qed.

Lemma sort_insert_sorted : forall x v,
  StronglySorted Z.le v -> StronglySorted Z.le (sort_insert x v).
Proof.
  induction v as [|y v IH]; intros Hs; cbn [sort_insert].
  - repeat constructor.
  - inversion Hs as [|? ? Hs' Hall]; subst.
    destruct (Z.leb_spec x y).
    + constructor; [assumption|]. constructor; [assumption|].
      eapply Forall_impl; [|exact Hall]. cbn. intros; lia.
    + constructor; [now apply IH|].
      rewrite sort_insert_perm.
      constructor; [lia | assumption].
Qed.

Lemma sort_sorted : forall v, StronglySorted Z.le (sort v).
Proof.
  induction v as [|x v IH]; cbn [sort]; [constructor | now apply sort_insert_sorted].
Qed.

Lemma sorted_perm_eq : forall l1 l2,
  StronglySorted Z.le l1 -> StronglySorted Z.le l2 -> Permutation l1 l2 -> l1 = l2.
Proof.
  induction l1 as [|a l1 IH]; intros l2 H1 H2 Hp.
  - apply Permutation_nil in Hp. now subst.
  - destruct l2 as [|b l2].
    + apply Permutation_sym, Permutation_nil in Hp. discriminate.
    + inversion H1 as [|? ? H1' Ha]; subst. inversion H2 as [|? ? H2' Hb]; subst.
      assert (E : a = b).
      { assert (Hab : In a (b :: l2)) by (eapply Permutation_in; [exact Hp | now left]).
        assert (Hba : In b (a :: l1))
          by (eapply Permutation_in; [symmetry; exact Hp | now left]).
        rewrite Forall_forall in Ha, Hb.
        destruct Hab as [E | Hab]; [congruence|].
        destruct Hba as [E | Hba]; [congruence|].
        specialize (Ha _ Hba). specialize (Hb _ Hab). lia. }
      subst b. f_equal. apply IH; auto. eapply Permutation_cons_inv; exact Hp.
Qed.


(** ** Root computation *)

Section Roots.
Variable nodes : list FBXNode.
Hypothesis Hwf : wf_nodes nodes = true.

Let par := parent_of nodes.
Let hgt := height_of nodes.

Lemma find_highest_loop_spec : forall sub seen highest best,
  (forall x, In x sub -> valid nodes x) ->
  ((seen = [] /\ highest = -1 /\ best = -1) \/
   (In best seen /\ highest = hgt best /\ forall y, In y seen -> hgt best <= hgt y)) ->
  exists b, _find_highest_node_loop nodes sub highest best = Done b /\
    ((seen ++ sub = [] /\ b = -1) \/
     (In b (seen ++ sub) /\ forall y, In y (seen ++ sub) -> hgt b <= hgt y)).
Proof.
  induction sub as [|x sub IH]; intros seen highest best Hv Hst;
    cbn [_find_highest_node_loop].
  - exists best. split; [reflexivity|]. rewrite app_nil_r.
    destruct Hst as [[-> [_ ->]] | [H1 [_ H2]]]; [now left | now right].
  - destruct (valid_node_at _ _ (Hv x (or_introl eq_refl))) as [nd [Hnd ->]].
    cbn [bind].
    assert (Hh : height nd = hgt x) by (unfold hgt, height_of; now rewrite Hnd).
    rewrite Hh.
    assert (Hsub : forall y, In y sub -> valid nodes y) by (intros; apply Hv; now right).
    replace (seen ++ x :: sub) with ((seen ++ [x]) ++ sub)
      by (rewrite <- app_assoc; reflexivity).
    destruct Hst as [[-> [-> ->]] | [H1 [-> H2]]].
    + cbn [Z.eqb orb]. change (-1 =? -1) with true. cbn [orb].
      apply IH; [assumption|]. right. cbn.
      split; [now left|]. split; [reflexivity|]. intros y [<- | []]. lia.
    + pose proof (height_nonneg nodes Hwf best) as Hb. fold hgt in Hb.
      destruct (Z.eqb_spec (hgt best) (-1)); [lia|]. cbn [orb].
      destruct (Z.ltb_spec (hgt x) (hgt best)).
      * apply IH; [assumption|]. right.
        split; [apply in_app_iff; right; now left|]. split; [reflexivity|].
        intros y Hy. apply in_app_iff in Hy. destruct Hy as [Hy | [<- | []]].
        -- specialize (H2 y Hy). lia.
        -- lia.
      * apply IH; [assumption|]. right.
        split; [apply in_app_iff; now left|]. split; [reflexivity|].
        intros y Hy. apply in_app_iff in Hy. destruct Hy as [Hy | [<- | []]].
        -- now apply H2.
        -- lia.
Qed.

Lemma find_highest_spec : forall sub x0,
  (forall x, In x sub -> valid nodes x) -> In x0 sub ->
  exists b, _find_highest_node nodes sub = Done b /\
    In b sub /\ forall y, In y sub -> hgt b <= hgt y.
Proof.
  intros sub x0 Hv H0. unfold _find_highest_node.
  destruct (find_highest_loop_spec sub [] (-1) (-1) Hv) as [b [Hr Hb]]; [now left|].
  exists b. split; [exact Hr|]. cbn [app] in Hb.
  destruct Hb as [[-> _] | Hb]; [contradiction | exact Hb].
Qed.

Variable S : list Z.
Hypothesis S_valid : forall x, In x S -> valid nodes x.
Variable ds : DisjointSet.t.
Hypothesis ds_good : ds_ok ds.
Hypothesis ds_keys : forall k, In k (keys ds) <-> In k S.
Hypothesis ds_conn : forall k, In k S -> conn nodes S k (root_of ds k).
Hypothesis ds_link : forall x, In x S -> In (par x) S -> root_of ds x = root_of ds (par x).

(** [h] is the highest node of the class of [r]. *)
Definition highest_in_class (r h : Z) : Prop :=
  In h S /\ root_of ds h = r /\
  forall y, In y S -> root_of ds y = r -> hgt h <= hgt y.

Lemma highest_is_top : forall r h, highest_in_class r h -> top nodes S h.
Proof.
  intros r h [Hh [Hr Hmin]]. split; [assumption|]. intros Hp.
  pose proof (ds_link h Hh Hp) as E.
  assert (Hle : hgt h <= hgt (par h)) by (apply Hmin; [assumption | congruence]).
  pose proof (parent_height nodes Hwf h (S_valid _ Hh) (S_valid _ Hp)) as Hph.
  fold hgt par in Hph. lia.
Qed.

Lemma top_is_highest : forall t h,
  top nodes S t -> highest_in_class (root_of ds t) h -> h = t.
Proof.
  intros t h Ht Hh. pose proof (highest_is_top _ _ Hh) as Hth.
  destruct Hh as [Hh [Hr _]]. destruct Ht as [Ht Hnp].
  apply (conn_tops_eq nodes S); [|assumption | now split].
  apply conn_trans with (root_of ds t).
  - rewrite <- Hr. now apply ds_conn.
  - apply conn_sym. now apply ds_conn.
Qed.

Lemma highest_of_each_spec : forall owners acc,
  (forall r, In r owners -> In r (get_representatives ds)) ->
  exists hs, highest_of_each nodes ds owners acc = Done (Some (acc ++ hs)) /\
             Forall2 highest_in_class owners hs.
Proof.
  induction owners as [|r owners IH]; intros acc Hrep; cbn [highest_of_each].
  - exists []. rewrite app_nil_r. split; [reflexivity | constructor].
  - assert (Hr : In r (get_representatives ds)) by (apply Hrep; now left).
    pose proof Hr as Hr'. apply in_representatives in Hr'; [|assumption].
    destruct Hr' as [Hrk Hrr].
    assert (Hmem : In r (get_members ds r)) by (apply in_members; auto).
    destruct (find_highest_spec (get_members ds r) r) as [b [-> [Hb Hmin]]];
      [|assumption|].
    { intros x Hx. apply in_members in Hx; [|assumption|assumption].
      apply S_valid, ds_keys. tauto. }
    cbn [bind].
    apply in_members in Hb; [|assumption|assumption]. destruct Hb as [Hbk Hbr].
    assert (Hbv : valid nodes b) by (apply S_valid, ds_keys; assumption).
    destruct (Z.ltb_spec b 0); [unfold valid in Hbv; lia|].
    destruct (IH (push_back acc b)) as [hs [-> Hf]].
    { intros; apply Hrep; now right. }
    exists (b :: hs). unfold push_back. rewrite <- app_assoc. split; [reflexivity|].
    constructor; [|assumption].
    split; [now apply ds_keys|]. split; [assumption|].
    intros y Hy Hyr. apply Hmin. apply in_members; [assumption|assumption|].
    split; [now apply ds_keys | assumption].
Qed.

Lemma highest_list_facts : forall owners hs,
  NoDup owners -> (forall r, In r owners <-> In r (get_representatives ds)) ->
  Forall2 highest_in_class owners hs ->
  NoDup hs /\ forall t, In t hs <-> top nodes S t.
Proof.
  intros owners hs Hnd Hown Hf. split.
  - clear Hown. induction Hf as [|r h owners hs Hrh Hf IH]; [constructor|].
    inversion Hnd as [|? ? Hni Hnd']; subst. constructor; [|now apply IH].
    intros Hin. apply Hni. clear IH Hnd Hnd' Hni.
    induction Hf as [|r' h' owners hs Hrh' Hf IH]; [contradiction|].
    destruct Hin as [-> | Hin]; [|right; now apply IH].
    left. destruct Hrh as [_ [<- _]]. destruct Hrh' as [_ [<- _]]. reflexivity.
  - intros t. split.
    + intros Hin. clear Hnd Hown.
      induction Hf as [|r h owners hs Hrh Hf IH]; [contradiction|].
      destruct Hin as [<- | Hin]; [eapply highest_is_top; eassumption | now apply IH].
    + intros Ht.
      assert (Hr : In (root_of ds t) owners).
      { apply Hown. apply in_representatives; [assumption|].
        destruct Ht as [Ht _]. apply ds_keys in Ht.
        now apply root_of_is_rep. }
      clear Hnd Hown.
      induction Hf as [|r h owners hs Hrh Hf IH]; [contradiction|].
      destruct Hr as [-> | Hr]; [|right; now apply IH].
      left. now apply top_is_highest.
Qed.
End Roots.

(** [compute_roots] returns the tops of joints and non-joints, without
    duplicates, sorted. *)
Lemma compute_roots_spec : forall nodes skin,
  wf_nodes nodes = true ->
  (forall x, In x (joints skin ++ non_joints skin) -> valid nodes x) ->
  exists l, compute_roots nodes skin = Done (Some (sort l)) /\
            NoDup l /\
            (forall t, In t l <-> top nodes (joints skin ++ non_joints skin) t) /\
            length l = length (get_representatives
                                 (match union_pass nodes (joints skin ++ non_joints skin)
                                          (joints skin ++ non_joints skin) empty with
                                  | Done ds => ds | _ => empty end)).
Proof.
  intros nodes skin Hwf Hv. unfold compute_roots.
  set (S := joints skin ++ non_joints skin) in *.
  destruct (union_pass_all nodes S Hv) as [ds [-> [Hok [Hk [Hc Hl]]]]]. cbn [bind].
  destruct (highest_of_each_spec nodes Hwf S Hv ds Hok Hk (get_representatives ds) [])
    as [hs [-> Hf]]; [auto|].
  cbn [bind app option_map].
  destruct (highest_list_facts nodes Hwf S Hv ds Hok Hk Hc Hl
              (get_representatives ds) hs) as [Hnd Htop].
  - now apply representatives_NoDup.
  - tauto.
  - assumption.
  - exists hs. split; [reflexivity|]. split; [assumption|]. split; [assumption|].
    symmetry. eapply Forall2_length. eassumption.
Qed.

(** ** Levelling the roots of a multi-rooted skin *)

Definition skin_nodes (skin : FBXSkin) : list Z := joints skin ++ non_joints skin.

Lemma mark_nodes : forall node skin index x,
  In x (skin_nodes (mark node skin index)) <-> In x (skin_nodes skin) \/ x = index.
Proof.
  intros node skin index x. unfold mark, skin_nodes, push_back.
  destruct (joint node && (find (joints skin) index <? 0)).
  - cbn [joints non_joints set_joints]. rewrite !in_app_iff. cbn. intuition.
  - destruct (Z.ltb_spec (find (non_joints skin) index) 0) as [Hf|Hf].
    + cbn [joints non_joints set_non_joints]. rewrite !in_app_iff. cbn. intuition.
    + apply find_In in Hf. rewrite !in_app_iff. intuition (subst; auto).
Qed.

Section Levelling.
Variable nodes : list FBXNode.
Hypothesis Hwf : wf_nodes nodes = true.

Let par := parent_of nodes.
Let hgt := height_of nodes.

(** The invariant of the two climbing loops: the current roots are
    nodes of the skin and every node of the skin is connected to one of
    them. *)
Definition lev_inv (S R : list Z) : Prop :=
  (forall x, In x S -> valid nodes x) /\
  (forall r, In r R -> In r S) /\
  (forall x, In x S -> exists r, In r R /\ conn nodes S x r).

Lemma lev_inv_climb : forall S S' pre r post,
  lev_inv S (pre ++ r :: post) -> valid nodes (par r) ->
  (forall x, In x S' <-> In x S \/ x = par r) ->
  lev_inv S' (pre ++ par r :: post).
Proof.
  intros S S' pre r post [Hv [Hr Hc]] Hp HS'.
  assert (Hincl : incl S S') by (intros x Hx; apply HS'; now left).
  assert (HrS : In r S) by (apply Hr, in_app_iff; right; now left).
  split; [|split].
  - intros x Hx. apply HS' in Hx. destruct Hx as [Hx | ->]; auto.
  - intros r' Hr'. apply HS'. apply in_app_iff in Hr'.
    destruct Hr' as [Hr' | [<- | Hr']]; [left | now right | left];
      apply Hr, in_app_iff; [now left | right; now right].
  - intros x Hx. apply HS' in Hx. destruct Hx as [Hx | ->].
    + destruct (Hc x Hx) as [r' [Hr' Hconn]].
      apply (conn_mono nodes S S' _ _ Hincl) in Hconn.
      apply in_app_iff in Hr'. destruct Hr' as [Hr' | [<- | Hr']].
      * exists r'. split; [apply in_app_iff; now left | assumption].
      * exists (par r). split; [apply in_app_iff; right; now left|].
        eapply conn_trans; [exact Hconn|].
        apply conn_up; [now apply Hincl | apply HS'; now right].
      * exists r'. split; [apply in_app_iff; right; now right | assumption].
    + exists (par r). split; [apply in_app_iff; right; now left | apply conn_refl].
Qed.

Lemma min_root_height_spec : forall rs m0,
  (forall r, In r rs -> valid nodes r) -> m0 = -1 \/ 0 <= m0 ->
  exists m, min_root_height nodes rs m0 = Done m /\
    ((m0 = -1 /\ rs = [] /\ m = -1) \/
     (0 <= m /\ (forall r, In r rs -> m <= hgt r) /\ (0 <= m0 -> m <= m0))).
Proof.
  induction rs as [|r rs IH]; intros m0 Hv Hm; cbn [min_root_height].
  - exists m0. split; [reflexivity|]. destruct Hm as [-> | Hm]; [left; auto|].
    right. split; [assumption|]. split; [intros r []|lia].
  - destruct (valid_node_at _ _ (Hv r (or_introl eq_refl))) as [nd [Hnd ->]].
    cbn [bind].
    assert (Hh : height nd = hgt r) by (unfold hgt, height_of; now rewrite Hnd).
    rewrite Hh. pose proof (height_nonneg nodes Hwf r) as Hr0. fold hgt in Hr0.
    assert (Hv' : forall x, In x rs -> valid nodes x) by (intros; apply Hv; now right).
    destruct ((m0 =? -1) || (hgt r <? m0)) eqn:E.
    + destruct (IH (hgt r) Hv' (or_intror Hr0)) as [m [-> Hspec]].
      exists m. split; [reflexivity|]. right.
      destruct Hspec as [[? _] | [H1 [H2 H3]]]; [lia|].
      split; [assumption|]. split.
      * intros x [<- | Hx]; [lia | now apply H2].
      * intros Hm0. apply orb_true_iff in E. destruct E as [E | E]; lia.
    + apply orb_false_iff in E. destruct E as [E1 E2].
      assert (Hm0 : 0 <= m0) by lia.
      destruct (IH m0 Hv' (or_intror Hm0)) as [m [-> Hspec]].
      exists m. split; [reflexivity|]. right.
      destruct Hspec as [[? _] | [H1 [H2 H3]]]; [lia|].
      split; [assumption|]. split.
      * intros x [<- | Hx]; [lia | now apply H2].
      * assumption.
Qed.

Lemma climb_to_height_spec : forall fuel skin pre cur post m,
  lev_inv (skin_nodes skin) (pre ++ cur :: post) ->
  hgt cur < Z.of_nat fuel -> 0 <= m -> m <= hgt cur ->
  exists skin' cur',
    climb_to_height fuel nodes skin cur m = Done (skin', cur') /\
    lev_inv (skin_nodes skin') (pre ++ cur' :: post) /\
    hgt cur' = m /\
    (forall x, In x (skin_nodes skin) -> In x (skin_nodes skin')).
Proof.
  induction fuel as [|fuel IH]; intros skin pre cur post m Hinv Hf Hm Hle.
  - pose proof (height_nonneg nodes Hwf cur). fold hgt in H. lia.
  - cbn [climb_to_height].
    assert (Hcv : valid nodes cur).
    { destruct Hinv as [Hv [Hr _]]. apply Hv, Hr, in_app_iff. right. now left. }
    destruct (valid_node_at _ _ Hcv) as [nd [Hnd ->]]. cbn [bind].
    assert (Hh : height nd = hgt cur) by (unfold hgt, height_of; now rewrite Hnd).
    assert (Hp : parent nd = par cur) by (unfold par, parent_of; now rewrite Hnd).
    rewrite Hh, Hp.
    destruct (Z.ltb_spec m (hgt cur)) as [Hlt|Hge].
    + assert (Hpv : valid nodes (par cur))
        by (apply (parent_valid_of_height nodes Hwf); [assumption | fold hgt; lia]).
      destruct (valid_node_at _ _ Hpv) as [pnd [_ ->]]. cbn [bind].
      pose proof (parent_height nodes Hwf cur Hcv Hpv) as Hph. fold hgt par in Hph.
      destruct (IH (mark pnd skin (par cur)) pre (par cur) post m)
        as [skin' [cur' [-> [Hinv' [Hh' Hmono]]]]]; try lia.
      { eapply lev_inv_climb; [exact Hinv | exact Hpv | apply mark_nodes]. }
      exists skin', cur'. split; [reflexivity|]. split; [assumption|].
      split; [assumption|].
      intros x Hx. apply Hmono, mark_nodes. now left.
    + exists skin, cur. split; [reflexivity|]. split; [assumption|].
      split; [lia | auto].
Qed.

Lemma level_roots_spec : forall fuel rs skin pre m,
  lev_inv (skin_nodes skin) (pre ++ rs) ->
  (forall r, In r rs -> hgt r < Z.of_nat fuel /\ m <= hgt r) -> 0 <= m ->
  exists skin' rs',
    level_roots fuel nodes skin rs m = Done (skin', rs') /\
    lev_inv (skin_nodes skin') (pre ++ rs') /\
    (forall r, In r rs' -> hgt r = m) /\
    length rs' = length rs /\
    (forall x, In x (skin_nodes skin) -> In x (skin_nodes skin')).
Proof.
  induction rs as [|r rs IH]; intros skin pre m Hinv Hh Hm; cbn [level_roots].
  - exists skin, []. split; [reflexivity|]. split; [assumption|].
    split; [intros r []|]. split; [reflexivity | auto].
  - destruct (Hh r (or_introl eq_refl)) as [Hf Hle].
    destruct (climb_to_height_spec fuel skin pre r rs m Hinv Hf Hm Hle)
      as [skin1 [cur [-> [Hinv1 [Hcur Hmono1]]]]]. cbn [bind].
    destruct (IH skin1 (pre ++ [cur]) m) as [skin2 [rs' [-> [Hinv2 [Hrs' [Hlen Hmono2]]]]]].
    + rewrite <- app_assoc. exact Hinv1.
    + intros x Hx. apply Hh. now right.
    + assumption.
    + cbn [bind]. exists skin2, (cur :: rs'). split; [reflexivity|].
      rewrite <- app_assoc in Hinv2. split; [exact Hinv2|].
      split; [intros x [<- | Hx]; auto|].
      split; [cbn; congruence | auto].
Qed.

Lemma all_same_parent_spec : forall rs fp,
  (forall r, In r rs -> valid nodes r) ->
  exists b, all_same_parent nodes fp rs = Done b /\
            (b = true <-> forall r, In r rs -> par r = fp).
Proof.
  induction rs as [|r rs IH]; intros fp Hv; cbn [all_same_parent].
  - exists true. split; [reflexivity|]. split; [intros _ r [] | reflexivity].
  - destruct (valid_node_at _ _ (Hv r (or_introl eq_refl))) as [nd [Hnd ->]].
    cbn [bind].
    assert (Hp : parent nd = par r) by (unfold par, parent_of; now rewrite Hnd).
    rewrite Hp.
    destruct (IH fp) as [b [-> Hb]]; [intros; apply Hv; now right|]. cbn [bind].
    eexists. split; [reflexivity|].
    rewrite andb_true_iff, Z.eqb_eq, Hb. split.
    + intros [H1 H2] x [<- | Hx]; auto.
    + intros H. split; [symmetry; apply H; now left | intros; apply H; now right].
Qed.

Lemma climb_all_spec : forall rs skin pre h,
  lev_inv (skin_nodes skin) (pre ++ rs) ->
  (forall r, In r rs -> hgt r = h) -> 0 < h ->
  exists skin' rs',
    climb_all nodes skin rs = Done (skin', rs') /\
    lev_inv (skin_nodes skin') (pre ++ rs') /\
    (forall r, In r rs' -> hgt r = h - 1) /\
    length rs' = length rs /\
    (forall x, In x (skin_nodes skin) -> In x (skin_nodes skin')).
Proof.
  induction rs as [|r rs IH]; intros skin pre h Hinv Hh Hpos; cbn [climb_all].
  - exists skin, []. split; [reflexivity|]. split; [assumption|].
    split; [intros r []|]. split; [reflexivity | auto].
  - assert (Hrv : valid nodes r).
    { destruct Hinv as [Hv [Hr _]]. apply Hv, Hr, in_app_iff. right. now left. }
    destruct (valid_node_at _ _ Hrv) as [nd [Hnd ->]]. cbn [bind].
    assert (Hp : parent nd = par r) by (unfold par, parent_of; now rewrite Hnd).
    rewrite Hp.
    pose proof (Hh r (or_introl eq_refl)) as Hhr.
    assert (Hpv : valid nodes (par r))
      by (apply (parent_valid_of_height nodes Hwf); [assumption | fold hgt; lia]).
    destruct (valid_node_at _ _ Hpv) as [pnd [_ ->]]. cbn [bind].
    pose proof (parent_height nodes Hwf r Hrv Hpv) as Hph. fold hgt par in Hph.
    destruct (IH (mark pnd skin (par r)) (pre ++ [par r]) h)
      as [skin' [rs' [-> [Hinv' [Hrs' [Hlen Hmono]]]]]].
    + rewrite <- app_assoc.
      eapply lev_inv_climb; [exact Hinv | exact Hpv | apply mark_nodes].
    + intros x Hx. apply Hh. now right.
    + assumption.
    + cbn [bind]. exists skin', (par r :: rs'). split; [reflexivity|].
      rewrite <- app_assoc in Hinv'. split; [exact Hinv'|].
      split; [intros x [<- | Hx]; [lia | auto]|].
      split; [cbn; congruence|].
      intros x Hx. apply Hmono, mark_nodes. now left.
Qed.

Lemma climb_until_same_spec : forall fuel skin rs h,
  lev_inv (skin_nodes skin) rs -> rs <> [] ->
  (forall r, In r rs -> hgt r = h) -> h < Z.of_nat fuel ->
  exists skin' rs',
    climb_until_same fuel nodes skin rs = Done (skin', rs') /\
    lev_inv (skin_nodes skin') rs' /\ rs' <> [] /\
    (forall x, In x (skin_nodes skin) -> In x (skin_nodes skin')) /\
    exists P, forall r, In r rs' -> par r = P.
Proof.
  induction fuel as [|fuel IH]; intros skin rs h Hinv Hne Hh Hf.
  - destruct rs as [|r rs]; [contradiction|].
    pose proof (height_nonneg nodes Hwf r) as H0. fold hgt in H0.
    specialize (Hh r (or_introl eq_refl)). lia.
  - destruct rs as [|r0 rs]; [contradiction|].
    cbn [climb_until_same]. change (get (r0 :: rs) 0) with (Done r0). cbn [bind tl].
    assert (Hv : forall r, In r (r0 :: rs) -> valid nodes r).
    { destruct Hinv as [Hv [Hr _]]. intros; apply Hv, Hr; assumption. }
    destruct (valid_node_at _ _ (Hv r0 (or_introl eq_refl))) as [nd [Hnd ->]].
    cbn [bind].
    assert (Hp : parent nd = par r0) by (unfold par, parent_of; now rewrite Hnd).
    rewrite Hp.
    destruct (all_same_parent_spec rs (par r0)) as [b [-> Hb]];
      [intros; apply Hv; now right|]. cbn [bind].
    destruct b.
    + exists skin, (r0 :: rs). split; [reflexivity|]. split; [assumption|].
      split; [discriminate|]. split; [auto|]. exists (par r0).
      intros r [<- | Hr]; [reflexivity | now apply Hb].
    + assert (Hpos : 0 < h).
      { pose proof (height_nonneg nodes Hwf r0) as H0. fold hgt in H0.
        pose proof (Hh r0 (or_introl eq_refl)) as Hh0.
        destruct (Z.eq_dec h 0) as [E0|]; [|lia]. exfalso.
        assert (Hall : forall r, In r (r0 :: rs) -> par r = -1).
        { intros r Hr. destruct (parent_cases nodes Hwf r (Hv r Hr)) as [[H1 _] | [_ H2]].
          - exact H1.
          - fold hgt par in H2. pose proof (height_nonneg nodes Hwf (par r)) as H3.
            fold hgt in H3. specialize (Hh r Hr). lia. }
        assert (Hc : false = true); [|discriminate].
        apply Hb. intros r Hr. rewrite (Hall r0 (or_introl eq_refl)).
        apply Hall. now right. }
      destruct (climb_all_spec (r0 :: rs) skin [] h Hinv Hh Hpos)
        as [skin1 [rs1 [-> [Hinv1 [Hh1 [Hlen Hmono1]]]]]]. cbn [bind].
      cbn [app] in Hinv1.
      destruct (IH skin1 rs1 (h - 1))
        as [skin' [rs' [-> [Hinv' [Hne' [Hmono' HP]]]]]]; try assumption.
      * destruct rs1; [discriminate | discriminate].
      * lia.
      * exists skin', rs'. split; [reflexivity|]. split; [assumption|].
        split; [assumption|]. split; [auto | assumption].
Qed.

(** With levelled roots under one parent, all tops of the skin have
    that parent, or there is a single top. *)
Lemma tops_share_parent : forall S R P,
  lev_inv S R -> (forall r, In r R -> par r = P) ->
  forall t1 t2, top nodes S t1 -> top nodes S t2 -> par t1 = par t2.
Proof.
  intros S R P [Hv [Hr Hc]] HP t1 t2 Ht1 Ht2.
  destruct (Hc t1 (proj1 Ht1)) as [r1 [Hr1 Hc1]].
  destruct (Hc t2 (proj1 Ht2)) as [r2 [Hr2 Hc2]].
  destruct (in_dec Z.eq_dec P S) as [HPin | HPout].
  - assert (Hcp : forall r, In r R -> conn nodes S r P).
    { intros r Hin. rewrite <- (HP r Hin). apply conn_up; [now apply Hr|].
      fold par. now rewrite (HP r Hin). }
    f_equal. apply (conn_tops_eq nodes S); try assumption.
    apply conn_trans with P.
    + eapply conn_trans; [exact Hc1 | now apply Hcp].
    + apply conn_sym. eapply conn_trans; [exact Hc2 | now apply Hcp].
  - assert (Htop : forall r, In r R -> top nodes S r).
    { intros r Hin. split; [now apply Hr|]. fold par. now rewrite (HP r Hin). }
    assert (E1 : t1 = r1) by (apply (conn_tops_eq nodes S); auto).
    assert (E2 : t2 = r2) by (apply (conn_tops_eq nodes S); auto).
    subst. now rewrite (HP r1 Hr1), (HP r2 Hr2).
Qed.
End Levelling.

(** ** The marking pass and the verification *)

Lemma deep_enough_height : forall fuel nodes i,
  deep_enough fuel nodes = true -> valid nodes i -> height_of nodes i < Z.of_nat fuel.
Proof.
  intros fuel nodes i Hd Hv. unfold deep_enough in Hd. rewrite forallb_forall in Hd.
  destruct (valid_node_at _ _ Hv) as [nd [Hnd Hg]].
  unfold height_of. rewrite Hnd.
  destruct (get_Done_inv _ _ Hg) as [_ Hn]. apply nth_error_In in Hn.
  specialize (Hd nd Hn). lia.
Qed.

Lemma fresh_skin_spec : forall nodes skin, fresh_skin nodes skin = true ->
  non_joints skin = [] /\ forall j, In j (joints skin) -> valid nodes j.
Proof.
  intros nodes skin H. unfold fresh_skin in H. apply andb_true_iff in H.
  destruct H as [H1 H2]. split.
  - destruct (non_joints skin); [reflexivity | discriminate].
  - intros j Hj. rewrite forallb_forall in H1. specialize (H1 j Hj).
    unfold valid. lia.
Qed.

Section Expansion.
Variable nodes : list FBXNode.
Hypothesis Hwf : wf_nodes nodes = true.

Let par := parent_of nodes.
Let hgt := height_of nodes.

Lemma same_parent_same_height : forall a b,
  valid nodes a -> valid nodes b -> par a = par b -> hgt a = hgt b.
Proof.
  intros a b Ha Hb E.
  subst par hgt. cbv beta in *.
  destruct (parent_cases nodes Hwf a Ha) as [[A1 A2] | [A1 A2]];
  destruct (parent_cases nodes Hwf b Hb) as [[B1 B2] | [B1 B2]];
    unfold valid in *; try lia.
  rewrite A2, B2, E. reflexivity.
Qed.

Lemma exists_top : forall S n x,
  (forall y, In y S -> valid nodes y) -> hgt x <= Z.of_nat n -> In x S ->
  exists t, top nodes S t.
Proof.
  intros S n. induction n as [|n IH]; intros x Hv Hh Hx.
  - exists x. split; [assumption|]. intros Hp.
    pose proof (parent_height nodes Hwf x (Hv _ Hx) (Hv _ Hp)) as E.
    pose proof (height_nonneg nodes Hwf (parent_of nodes x)).
    subst hgt par. cbv beta in *. lia.
  - destruct (in_dec Z.eq_dec (par x) S) as [Hp | Hp].
    + apply (IH (par x)); try assumption.
      pose proof (parent_height nodes Hwf x (Hv _ Hx) (Hv _ Hp)) as E.
      fold hgt par in E. lia.
    + exists x. now split.
Qed.

(** The state before the first climb. *)
Lemma initial_lev_inv : forall skin,
  fresh_skin nodes skin = true ->
  exists ds, union_pass nodes (joints skin) (joints skin) empty = Done ds /\
    lev_inv nodes (skin_nodes skin) (get_representatives ds) /\
    (joints skin <> [] -> get_representatives ds <> []).
Proof.
  intros skin Hfresh. destruct (fresh_skin_spec _ _ Hfresh) as [Hnj Hv].
  destruct (union_pass_all nodes (joints skin) Hv) as [ds [Hr [Hok [Hk [Hc Hl]]]]].
  exists ds. split; [exact Hr|].
  unfold skin_nodes. rewrite Hnj, app_nil_r. split.
  - split; [exact Hv|]. split.
    + intros r Hin. apply in_representatives in Hin; [|assumption]. apply Hk. tauto.
    + intros x Hx. exists (root_of ds x). split; [|now apply Hc].
      apply in_representatives; [assumption|]. apply root_of_is_rep; [assumption|].
      now apply Hk.
  - intros Hne. destruct (joints skin) as [|j js] eqn:E; [contradiction|].
    assert (Hj : In j (keys ds)) by (apply Hk; now left).
    destruct (root_of_is_rep _ _ Hok Hj) as [H1 H2].
    intros Hnil.
    assert (Hin : In (root_of ds j) (get_representatives ds))
      by (apply in_representatives; auto).
    rewrite Hnil in Hin. contradiction.
Qed.

Lemma multiroot_spec : forall fuel skin,
  fresh_skin nodes skin = true -> deep_enough fuel nodes = true ->
  exists skin' rs',
    _capture_nodes_for_multirooted_skin fuel nodes skin = Done (skin', rs') /\
    (forall x, In x (skin_nodes skin') -> valid nodes x) /\
    (forall x, In x (skin_nodes skin) -> In x (skin_nodes skin')) /\
    (forall t1 t2, top nodes (skin_nodes skin') t1 -> top nodes (skin_nodes skin') t2 ->
                   par t1 = par t2).
Proof.
  intros fuel skin Hfresh Hdeep.
  destruct (initial_lev_inv skin Hfresh) as [ds [Hup [Hinv Hne]]].
  unfold _capture_nodes_for_multirooted_skin, initial_roots. rewrite Hup. cbn [bind].
  set (reps := get_representatives ds) in *.
  destruct (Z.leb_spec (size reps) 1) as [Hsmall | Hbig].
  - exists skin, reps. split; [reflexivity|]. split; [apply Hinv|]. split; [auto|].
    apply (tops_share_parent nodes (skin_nodes skin) reps (par (hd 0 reps)) Hinv).
    destruct reps as [|r [|r' reps']]; cbn in *.
    + intros r [].
    + intros r0 [<- | []]. reflexivity.
    + unfold size in Hsmall. cbn in Hsmall. lia.
  - assert (Hrv : forall r, In r reps -> valid nodes r).
    { destruct Hinv as [Hv [Hr _]]. intros; apply Hv, Hr; assumption. }
    destruct (min_root_height_spec nodes Hwf reps (-1) Hrv (or_introl eq_refl))
      as [m [-> Hm]]. cbn [bind].
    destruct Hm as [[_ [Hnil _]] | [Hm0 [Hmin _]]].
    { rewrite Hnil in Hbig. unfold size in Hbig. cbn in Hbig. lia. }
    destruct (level_roots_spec nodes Hwf fuel reps skin [] m Hinv)
      as [skin1 [rs1 [-> [Hinv1 [Hh1 [Hlen1 Hmono1]]]]]]; [|assumption|].
    { intros r Hr. split; [apply deep_enough_height; auto | now apply Hmin]. }
    cbn [bind app] in *.
    assert (Hne1 : rs1 <> []).
    { intros ->. destruct reps; [unfold size in Hbig; cbn in Hbig; lia | discriminate]. }
    destruct (climb_until_same_spec nodes Hwf fuel skin1 rs1 m Hinv1 Hne1 Hh1)
      as [skin2 [rs2 [-> [Hinv2 [Hne2 [Hmono2 [P HP]]]]]]].
    { destruct rs1 as [|r rs1]; [contradiction|].
      rewrite <- (Hh1 r (or_introl eq_refl)).
      apply deep_enough_height; [assumption|].
      destruct Hinv1 as [Hv [Hr _]]. apply Hv, Hr. now left. }
    exists skin2, rs2. split; [reflexivity|]. split; [apply Hinv2|]. split.
    + auto.
    + exact (tops_share_parent nodes (skin_nodes skin2) rs2 P Hinv2 HP).
Qed.
End Expansion.

Section Marking.
Variable nodes : list FBXNode.
Hypothesis Hwf : wf_nodes nodes = true.

Let par := parent_of nodes.
Let hgt := height_of nodes.

Variable S0 : list Z.
Variable h : Z.
Hypothesis below_closed : forall c, In c S0 -> h < hgt c -> In (par c) S0.

(** The marking pass keeps the skin's set of nodes. *)
Definition same_set (skin : FBXSkin) : Prop :=
  forall y, In y (skin_nodes skin) <-> In y S0.

Lemma capture_children_spec :
  forall (rec : FBXSkin -> Z -> outcome (FBXSkin * bool)) (x : Z),
    (forall s c, same_set s -> valid nodes c -> par c = x ->
       exists s' b, rec s c = Done (s', b) /\ same_set s' /\ (b = true -> In c S0)) ->
    forall cs s b,
      (forall c, In c cs -> valid nodes c /\ par c = x) ->
      same_set s ->
      (b = true -> exists c, par c = x /\ valid nodes c /\ In c S0) ->
      exists s' b',
        fold_left
          (fun acc child =>
             '(skin, found) <- acc ;;
             '(skin, b) <- rec skin child ;;
             Done (skin, found || b))
          cs (Done (s, b)) = Done (s', b') /\
        same_set s' /\
        (b' = true -> exists c, par c = x /\ valid nodes c /\ In c S0).
Proof.
  intros rec x Hrec. induction cs as [|c cs IH]; intros s b Hcs Hs Hb; cbn [fold_left].
  - exists s, b. split; [reflexivity|]. split; assumption.
  - destruct (Hcs c (or_introl eq_refl)) as [Hcv Hcp].
    destruct (Hrec s c Hs Hcv Hcp) as [s1 [b1 [Hr [Hs1 Hb1]]]].
    cbn [bind]. rewrite Hr. cbn [bind].
    apply IH; [intros; apply Hcs; now right | assumption|].
    intros Hor. apply orb_true_iff in Hor. destruct Hor as [Hor | Hor]; [auto|].
    exists c. auto.
Qed.

Lemma capture_spec : forall fuel skin x,
  same_set skin -> valid nodes x -> h <= hgt x ->
  (forall y, valid nodes y -> hgt y < hgt x + Z.of_nat fuel) ->
  exists skin' b,
    _capture_nodes_in_skin fuel nodes skin x = Done (skin', b) /\
    same_set skin' /\ (b = true -> In x S0).
Proof.
  induction fuel as [|fuel IH]; intros skin x Hs Hx Hh Hf.
  - specialize (Hf x Hx). lia.
  - cbn [_capture_nodes_in_skin].
    destruct (valid_node_at _ _ Hx) as [nd [Hnd ->]]. cbn [bind].
    destruct (capture_children_spec (_capture_nodes_in_skin fuel nodes) x)
      with (cs := children nd) (s := skin) (b := false)
      as [s1 [found [-> [Hs1 Hfound]]]].
    + intros s c Hsc Hcv Hcp. apply IH; try assumption.
      * pose proof (parent_height nodes Hwf c Hcv) as E. fold par hgt in E.
        rewrite Hcp in E. specialize (E Hx). lia.
      * intros y Hy. specialize (Hf y Hy).
        pose proof (parent_height nodes Hwf c Hcv) as E. fold par hgt in E.
        rewrite Hcp in E. specialize (E Hx). lia.
    + intros c Hc. apply (children_spec nodes Hwf x nd c Hnd Hc).
    + assumption.
    + discriminate.
    + cbn [bind].
      assert (Hs2 : same_set (if found then mark nd s1 x else s1)).
      { destruct found; [|assumption].
        destruct (Hfound eq_refl) as [c [Hcp [Hcv Hc]]].
        assert (HxS : In x S0).
        { rewrite <- Hcp. apply below_closed; [assumption|].
          pose proof (parent_height nodes Hwf c Hcv) as E. fold par hgt in E.
          rewrite Hcp in E. specialize (E Hx). lia. }
        intros y. rewrite mark_nodes. rewrite (Hs1 y).
        split; [intros [H | ->]; assumption | tauto]. }
      eexists _, _. split; [reflexivity|]. split; [exact Hs2|].
      intros Hb. apply Z.ltb_lt in Hb. apply Hs2.
      unfold skin_nodes. apply in_app_iff. left. apply find_In. lia.
Qed.

Lemma capture_from_roots_spec : forall fuel rs skin,
  same_set skin ->
  (forall r, In r rs -> valid nodes r /\ h <= hgt r) ->
  (forall y, valid nodes y -> hgt y < Z.of_nat fuel) ->
  exists skin', capture_from_roots fuel nodes skin rs = Done skin' /\ same_set skin'.
Proof.
  intros fuel. induction rs as [|r rs IH]; intros skin Hs Hrs Hf; cbn [capture_from_roots].
  - exists skin. split; [reflexivity | assumption].
  - destruct (Hrs r (or_introl eq_refl)) as [Hrv Hrh].
    destruct (capture_spec fuel skin r Hs Hrv Hrh) as [s1 [b [-> [Hs1 _]]]].
    + intros y Hy. specialize (Hf y Hy).
      pose proof (height_nonneg nodes Hwf r) as H0. fold hgt in H0. lia.
    + cbn [bind]. apply IH; [assumption | intros; apply Hrs; now right | assumption].
Qed.
End Marking.

Lemma get_app_mid : forall (A : Type) (pre : list A) (x : A) (post : list A),
  get (pre ++ x :: post) (size pre) = Done x.
Proof.
  intros. unfold get, size.
  destruct (Z.ltb_spec (Z.of_nat (length pre)) 0); [lia|].
  rewrite Nat2Z.id, nth_error_app2 by lia. now rewrite Nat.sub_diag.
Qed.



(** ** Expansion of a multi-rooted skin *)



(** Two joints in different branches, three levels apart: the deeper
    root climbs to the level of the other, then both climb until they
    meet under node 0. *)
Example levelling_trace :
  let nodes :=
    [ {| parent := -1; children := [1; 2]; height := 0; joint := false |};
      {| parent := 0; children := [3]; height := 1; joint := false |};
      {| parent := 0; children := [4]; height := 1; joint := false |};
      {| parent := 1; children := []; height := 2; joint := true |};
      {| parent := 2; children := [5]; height := 2; joint := false |};
      {| parent := 4; children := [6]; height := 3; joint := false |};
      {| parent := 5; children := []; height := 4; joint := true |} ] in
  let skin := {| joints := [3; 6]; non_joints := []; roots := [] |} in
  wf_nodes nodes = true /\
  initial_roots nodes skin = Done [3; 6] /\
  _expand_skin 5 nodes skin
  = Done (OK, {| joints := [3; 6]; non_joints := [5; 4; 1; 2]; roots := [1; 2] |}).
Proof. repeat split; vm_compute; reflexivity. Qed.

(** ** Floating-point facts *)

(** *** Rounding a number that is already representable *)

Lemma iter_pos_iter : forall (A : Type) (f : A -> A) (p : positive) (x : A),
  iter_pos f p x = Pos.iter f x p.
Proof.
  intros A f. induction p as [p IH | p IH |]; intros x; cbn [iter_pos Pos.iter].
  - rewrite !IH. now rewrite !Pos.iter_swap.
  - now rewrite !IH.
  - reflexivity.
Qed.

Lemma shr_exact : forall (p m : positive),
  Pos.iter shr_1 {| shr_m := Zpos (Pos.iter xO m p); shr_r := false; shr_s := false |} p
  = {| shr_m := Zpos m; shr_r := false; shr_s := false |}.
Proof.
  intros p. induction p as [|p IH] using Pos.peano_ind; intros m.
  - reflexivity.
  - rewrite (Pos.iter_succ p _ xO m), Pos.iter_succ_r. cbn [shr_1 orb]. apply IH.
Qed.

Lemma digits_shift : forall (p m : positive),
  digits2_pos (Pos.iter xO m p) = (digits2_pos m + p)%positive.
Proof.
  intros p. induction p as [|p IH] using Pos.peano_ind; intros m.
  - cbn. now rewrite Pos.add_1_r.
  - rewrite Pos.iter_succ. cbn [digits2_pos]. rewrite IH. now rewrite Pos.add_succ_r.
Qed.

Section ExactRounding.
Variables prec emax : Z.

Lemma bounded_inv : forall m e, bounded prec emax m e = true ->
  fexp prec emax (Zpos (digits2_pos m) + e) = e /\ e <= emax - prec.
Proof.
  intros m e H. unfold bounded, canonical_mantissa in H.
  apply andb_true_iff in H. destruct H as [H1 H2].
  apply Z.eqb_eq in H1. apply Z.leb_le in H2. now split.
Qed.

(** A canonical mantissa and exponent are left alone by the rounding. *)
Lemma round_exact : forall s m e, bounded prec emax m e = true ->
  binary_round_aux prec emax s (Zpos m) e loc_Exact = S754_finite s m e.
Proof.
  intros s m e H. destruct (bounded_inv m e H) as [Hc He].
  unfold binary_round_aux, shr_fexp. cbn [Zdigits2 shr_record_of_loc].
  rewrite Hc, Z.sub_diag. cbn [shr shr_m loc_of_shr_record round_nearest_even].
  cbn [Zdigits2 shr_record_of_loc]. rewrite Hc, Z.sub_diag. cbn [shr shr_m].
  apply Z.leb_le in He. now rewrite He.
Qed.

(** So is a canonical number written with [p] more binary digits. *)
Lemma round_exact_shifted : forall s m e p, bounded prec emax m e = true ->
  binary_round_aux prec emax s (Zpos (Pos.iter xO m p)) (e - Zpos p) loc_Exact
  = S754_finite s m e.
Proof.
  intros s m e p H. destruct (bounded_inv m e H) as [Hc He].
  unfold binary_round_aux, shr_fexp. cbn [Zdigits2 shr_record_of_loc].
  rewrite digits_shift.
  replace (Zpos (digits2_pos m + p) + (e - Zpos p)) with (Zpos (digits2_pos m) + e)
    by (rewrite Pos2Z.inj_add; lia).
  rewrite Hc. replace (e - (e - Zpos p)) with (Zpos p) by lia.
  cbn [shr]. rewrite iter_pos_iter, shr_exact.
  cbn [shr_m loc_of_shr_record round_nearest_even].
  replace (e - Zpos p + Zpos p) with e by lia.
  cbn [Zdigits2 shr_record_of_loc]. rewrite Hc, Z.sub_diag. cbn [shr shr_m].
  apply Z.leb_le in He. now rewrite He.
Qed.
End ExactRounding.

(** *** [float] values *)

(** A finite [float]: a zero or a canonical binary32 number. *)
Definition finite32 (x : spec_float) : bool :=
  match x with
  | S754_zero _ => true
  | S754_finite _ m e => bounded F32.prec F32.emax m e
  | _ => false
  end.

Definition is_zero (x : spec_float) : bool :=
  match x with S754_zero _ => true | _ => false end.

Definition f32_one : spec_float := S754_finite false 8388608 (-23).

Lemma f32_one_eq : f32 1 = f32_one.
Proof. reflexivity. Qed.

(** [x * 1.0f = x]. *)
Lemma mul_one : forall x, finite32 x = true -> F32.mul x f32_one = x.
Proof.
  intros [s | s' | | s m e] H; try discriminate H.
  - cbn. now rewrite xorb_false_r.
  - unfold F32.mul, f32_one, SFmul. rewrite xorb_false_r.
    replace (m * 8388608)%positive with (Pos.iter xO m 23)
      by (rewrite Pos.mul_comm; reflexivity).
    change (e + -23) with (e - Zpos 23).
    now apply round_exact_shifted.
Qed.

(** A finite value times a zero is a zero. *)
Lemma mul_zero : forall x t, finite32 x = true -> is_zero t = true ->
  is_zero (F32.mul x t) = true.
Proof.
  intros [s | s1 | | s m e] [s' | s' | | s' m' e'] H Ht; try discriminate; reflexivity.
Qed.

Lemma mul_zero_l : forall t x, finite32 x = true -> is_zero t = true ->
  is_zero (F32.mul t x) = true.
Proof.
  intros [s' | s' | | s' m' e'] [s | s1 | | s m e] H Ht; try discriminate; reflexivity.
Qed.

(** Widening keeps the value: the mantissa gets 29 or more digits. *)
Lemma double_of_float_finite : forall s m e, bounded F32.prec F32.emax m e = true ->
  exists p, double_of_float (S754_finite s m e)
            = S754_finite s (Pos.iter xO m p) (e - Zpos p).
Proof.
  intros s m e H. destruct (bounded_inv F32.prec F32.emax m e H) as [Hc He].
  unfold fexp, emin, F32.prec, F32.emax in Hc. unfold F32.prec, F32.emax in He.
  unfold double_of_float.
  assert (Hn : binary_normalize F64.prec F64.emax (cond_Zopp s (Zpos m)) e s
               = binary_round F64.prec F64.emax s m e) by (destruct s; reflexivity).
  rewrite Hn. unfold binary_round, shl_align.
  set (ex' := fexp F64.prec F64.emax (Zpos (digits2_pos m) + e)).
  assert (Hex : ex' = fexp F64.prec F64.emax (Zpos (digits2_pos m) + e)) by reflexivity.
  unfold fexp, emin, F64.prec, F64.emax in Hex.
  assert (Hlt : ex' < e) by lia.
  destruct (ex' - e) as [|d|d] eqn:Ed; try lia.
  exists d. replace ex' with (e - Zpos d) by lia.
  apply round_exact.
  unfold bounded, canonical_mantissa. rewrite digits_shift.
  replace (Zpos (digits2_pos m + d) + (e - Zpos d)) with (Zpos (digits2_pos m) + e)
    by (rewrite Pos2Z.inj_add; lia).
  fold ex'. apply andb_true_iff. split.
  - apply Z.eqb_eq. lia.
  - apply Z.leb_le. unfold F64.prec, F64.emax. lia.
Qed.

(** Narrowing a widened [float] gives it back. *)
Lemma narrow_widen : forall x, finite32 x = true ->
  float_of_double (double_of_float x) = x.
Proof.
  intros [s | s' | | s m e] H; try discriminate H; try reflexivity.
  cbn [finite32] in H.
  destruct (double_of_float_finite s m e H) as [p ->].
  destruct (bounded_inv F32.prec F32.emax m e H) as [Hc He].
  unfold float_of_double.
  assert (Hn : binary_normalize F32.prec F32.emax
                 (cond_Zopp s (Zpos (Pos.iter xO m p))) (e - Zpos p) s
               = binary_round F32.prec F32.emax s (Pos.iter xO m p) (e - Zpos p))
    by (destruct s; reflexivity).
  rewrite Hn. unfold binary_round, shl_align. rewrite digits_shift.
  replace (Zpos (digits2_pos m + p) + (e - Zpos p)) with (Zpos (digits2_pos m) + e)
    by (rewrite Pos2Z.inj_add; lia).
  rewrite Hc. replace (e - (e - Zpos p)) with (Zpos p) by lia.
  now apply round_exact_shifted.
Qed.

(** [x - x = +0] for a finite [x]. *)
Lemma sub_self : forall x, finite32 x = true -> F32.sub x x = S754_zero false.
Proof.
  intros [s | s' | | s m e] H; try discriminate H.
  - destruct s; reflexivity.
  - unfold F32.sub, SFsub. rewrite Z.sub_diag. reflexivity.
Qed.

(** The span between two keys is usable as a divisor. *)
Definition nonzero_span (d : spec_float) : bool :=
  match d with
  | S754_finite _ _ _ | S754_infinity _ => true
  | _ => false
  end.

Lemma div_zero : forall d, nonzero_span d = true ->
  is_zero (F32.div (S754_zero false) d) = true.
Proof. intros [s | s' | | s m e] H; try discriminate H; reflexivity. Qed.

(** Two results denote the same number: they are equal, or both are
    zeros (of either sign). *)
Definition same_number (r v : spec_float) : Prop :=
  r = v \/ (is_zero r = true /\ is_zero v = true).

(** The Bezier blend at factor zero returns its start point when the
    four points are finite. *)
Lemma real_bezier_at_zero : forall start control_1 control_2 end_ t,
  finite32 start = true -> finite32 control_1 = true ->
  finite32 control_2 = true -> finite32 end_ = true ->
  is_zero t = true ->
  same_number (real_bezier start control_1 control_2 end_ t) start.
Proof.
  intros start c1 c2 end_ t Hs H1 H2 He Ht.
  destruct t as [sz | | |]; try discriminate Ht.
  unfold real_bezier. cbv zeta.
  replace (float_of_double (F64.sub (F64.of_Z 1) (double_of_float (S754_zero sz))))
    with f32_one by (destruct sz; reflexivity).
  change (F32.mul f32_one f32_one) with f32_one.
  change (F32.mul f32_one f32_one) with f32_one.
  rewrite (mul_one start Hs), (mul_one c1 H1), (mul_one c2 H2).
  assert (Z1 : is_zero (F32.mul c1 (S754_zero sz)) = true) by now apply mul_zero.
  assert (Z2 : is_zero (F32.mul c2 (F32.mul (S754_zero sz) (S754_zero sz))) = true)
    by now apply mul_zero.
  assert (Z3 : is_zero (F32.mul end_ (F32.mul (F32.mul (S754_zero sz) (S754_zero sz))
                                        (S754_zero sz))) = true)
    by now apply mul_zero.
  destruct (F32.mul c1 (S754_zero sz)) as [s1 | | |]; try discriminate Z1.
  destruct (F32.mul c2 _) as [s2 | | |]; try discriminate Z2.
  destruct (F32.mul end_ _) as [s3 | | |]; try discriminate Z3.
  destruct start as [s | s' | | s m e]; try discriminate Hs.
  - right. split; [|reflexivity]. destruct s, s1, s2, s3; reflexivity.
  - left. cbn [finite32] in Hs.
    destruct (double_of_float_finite s m e Hs) as [p Hp].
    rewrite <- (narrow_widen (S754_finite s m e) Hs) at 2.
    rewrite Hp. reflexivity.
Qed.

(** *** The order of [float] values *)

Ltac order_cases :=
  repeat match goal with
  | H : context [Pos.compare_cont Eq ?a ?b] |- _ =>
      change (Pos.compare_cont Eq a b) with (Pos.compare a b) in H
  | |- context [Pos.compare_cont Eq ?a ?b] =>
      change (Pos.compare_cont Eq a b) with (Pos.compare a b)
  end;
  repeat match goal with
  | H : context [Z.compare ?a ?b] |- _ => destruct (Z.compare_spec a b); cbn in H
  | |- context [Z.compare ?a ?b] => destruct (Z.compare_spec a b); cbn
  | H : context [Pos.compare ?a ?b] |- _ => destruct (Pos.compare_spec a b); cbn in H
  | |- context [Pos.compare ?a ?b] => destruct (Pos.compare_spec a b); cbn
  end.

(** A time at or after the last of two increasing keys is before
    neither of them. *)
Lemma not_before_keys : forall t0 t1 p,
  F32.ltb t0 t1 = true -> SFleb t1 p = true ->
  F32.ltb p t0 = false /\ F32.ltb p t1 = false.
Proof.
  intros t0 t1 p H01 H1p. unfold F32.ltb, SFltb, SFleb in *.
  destruct t0 as [s0 | s0 | | s0 m0 e0], t1 as [s1 | s1 | | s1 m1 e1],
           p as [sp | sp | | sp mp ep];
    try destruct s0; try destruct s1; try destruct sp;
    cbn in H01, H1p |- *; try discriminate;
    try (split; reflexivity);
    order_cases; try discriminate; try (split; reflexivity);
    exfalso; lia.
Qed.

Lemma ltb_irrefl : forall t, F32.ltb t t = false.
Proof.
  intros t. unfold F32.ltb, SFltb.
  destruct t as [s | s | | s m e]; try destruct s; cbn; try reflexivity;
    rewrite Z.compare_refl; change (Pos.compare_cont Eq m m) with (Pos.compare m m);
    rewrite Pos.compare_refl; reflexivity.
Qed.

(** ** Sampling a CUBICSPLINE channel of two keys *)

Section TwoKeys.
Variables t0 t1 a0 v0 b0 a1 v1 b1 : spec_float.

Lemma two_keys_after : forall p,
  F32.ltb p t0 = false -> F32.ltb p t1 = false ->
  _interpolate_track [t0; t1] [a0; v0; b0; a1; v1; b1] p INTERP_CUBIC_SPLINE = Done v1.
Proof.
  intros p H0 H1. unfold _interpolate_track, sample_track. cbn [find_idx].
  rewrite H0, H1. reflexivity.
Qed.

Lemma two_keys_before : forall p,
  F32.ltb p t0 = true ->
  _interpolate_track [t0; t1] [a0; v0; b0; a1; v1; b1] p INTERP_CUBIC_SPLINE = Done v0.
Proof.
  intros p H0. unfold _interpolate_track, sample_track. cbn [find_idx].
  rewrite H0. reflexivity.
Qed.

Lemma two_keys_between : forall p,
  F32.ltb p t0 = false -> F32.ltb p t1 = true ->
  _interpolate_track [t0; t1] [a0; v0; b0; a1; v1; b1] p INTERP_CUBIC_SPLINE
  = Done (real_bezier v0 (F32.add v0 b0) (F32.add v1 a1) v1 (factor p t0 t1)).
Proof.
  intros p H0 H1. unfold _interpolate_track, sample_track. cbn [find_idx].
  rewrite H0, H1. reflexivity.
Qed.
End TwoKeys.

(** *** Rounding a non-zero number above the smallest exponent *)

Lemma shr_keeps_positive : forall (n m : positive) (r s : bool),
  (n < digits2_pos m)%positive ->
  exists m', shr_m (Pos.iter shr_1 {| shr_m := Zpos m; shr_r := r; shr_s := s |} n) = Zpos m'.
Proof.
  intros n. induction n as [|n IH] using Pos.peano_ind; intros m r s Hn.
  - destruct m as [q | q |]; cbn in Hn |- *; [now exists q | now exists q | lia].
  - rewrite Pos.iter_succ_r.
    destruct m as [q | q |]; cbn [digits2_pos] in Hn; [| | lia];
      cbn [shr_1]; apply IH; lia.
Qed.

Section NonZeroRounding.
Variables prec emax : Z.
Hypothesis Hprec : 0 < prec.

Lemma shr_fexp_positive : forall m e l, emin prec emax <= e ->
  exists m', shr_m (fst (shr_fexp prec emax (Zpos m) e l)) = Zpos m' /\
             emin prec emax <= snd (shr_fexp prec emax (Zpos m) e l).
Proof.
  intros m e l He. unfold shr_fexp. cbn [Zdigits2].
  assert (Hrec : exists r s, shr_record_of_loc (Zpos m) l
                             = {| shr_m := Zpos m; shr_r := r; shr_s := s |}).
  { destruct l as [|[| |]]; cbn; eauto. }
  destruct Hrec as [r [s ->]].
  destruct (fexp prec emax (Zpos (digits2_pos m) + e) - e) as [|n|n] eqn:En;
    cbn [shr fst snd shr_m].
  - eauto.
  - rewrite iter_pos_iter.
    assert (Hn : (n < digits2_pos m)%positive) by (unfold fexp in En; lia).
    destruct (shr_keeps_positive n m r s Hn) as [m' Hm']. exists m'. split; [exact Hm' | lia].
  - eauto.
Qed.

Lemma round_nearest_even_positive : forall m l,
  exists m', round_nearest_even (Zpos m) l = Zpos m'.
Proof.
  intros m l. destruct l as [|[| |]]; cbn [round_nearest_even]; eauto.
  - destruct (Z.even (Zpos m)); cbn; eauto.
  - cbn; eauto.
Qed.

Lemma binary_round_aux_nonzero : forall s m e l, emin prec emax <= e ->
  nonzero_span (binary_round_aux prec emax s (Zpos m) e l) = true.
Proof.
  intros s m e l He. unfold binary_round_aux.
  destruct (shr_fexp_positive m e l He) as [m1 [Hm1 He1]].
  destruct (shr_fexp prec emax (Zpos m) e l) as [mrs1 e1]. cbn [fst snd] in Hm1, He1.
  rewrite Hm1.
  destruct (round_nearest_even_positive m1 (loc_of_shr_record mrs1)) as [m2 ->].
  destruct (shr_fexp_positive m2 e1 loc_Exact He1) as [m3 [Hm3 He3]].
  destruct (shr_fexp prec emax (Zpos m2) e1 loc_Exact) as [mrs2 e2]. cbn [fst snd] in Hm3.
  rewrite Hm3. destruct (e2 <=? emax - prec); reflexivity.
Qed.

Lemma binary_round_nonzero : forall s m e, emin prec emax <= e ->
  nonzero_span (binary_round prec emax s m e) = true.
Proof.
  intros s m e He. unfold binary_round, shl_align.
  destruct (fexp prec emax (Zpos (digits2_pos m) + e) - e) as [|d|d] eqn:Ed.
  - now apply binary_round_aux_nonzero.
  - now apply binary_round_aux_nonzero.
  - apply binary_round_aux_nonzero. unfold fexp. lia.
Qed.
End NonZeroRounding.

(** Two canonical numbers with different exponents differ once aligned. *)
Lemma aligned_differ : forall m e m' e',
  bounded F32.prec F32.emax m e = true -> bounded F32.prec F32.emax m' e' = true ->
  e' < e ->
  fst (shl_align m e (Z.min e e')) <> fst (shl_align m' e' (Z.min e e')) /\
  fst (shl_align m e (Z.min e' e)) <> fst (shl_align m' e' (Z.min e' e)).
Proof.
  intros m e m' e' H H' Hlt.
  destruct (bounded_inv _ _ m e H) as [Hc _]. destruct (bounded_inv _ _ m' e' H') as [Hc' _].
  unfold fexp, emin, F32.prec, F32.emax in Hc, Hc'.
  rewrite (Z.min_comm e' e), (Z.min_r e e') by lia.
  split; unfold shl_align; rewrite Z.sub_diag;
    (destruct (e' - e) as [|d|d] eqn:Ed; try lia);
    cbn [fst]; intros Heq;
    apply (f_equal digits2_pos) in Heq; rewrite digits_shift in Heq; lia.
Qed.

(** The span between two increasing keys does not vanish. *)
Lemma key_span_nonzero : forall t0 t1,
  finite32 t0 = true -> valid_binary F32.prec F32.emax t1 = true ->
  F32.ltb t0 t1 = true ->
  nonzero_span (F32.sub t1 t0) = true.
Proof.
  intros t0 t1 H0 H1 Hlt.
  destruct t0 as [s0 | s0 | | s0 m0 e0]; try discriminate H0;
    destruct t1 as [s1 | s1 | | s1 m1 e1]; try discriminate Hlt; try reflexivity.
  cbn [finite32] in H0. cbn [valid_binary] in H1.
  destruct (bounded_inv _ _ m0 e0 H0) as [Hc0 _].
  destruct (bounded_inv _ _ m1 e1 H1) as [Hc1 _].
  assert (Hmin : emin F32.prec F32.emax <= Z.min e1 e0)
    by (unfold fexp in Hc0, Hc1; lia).
  unfold F32.sub, SFsub.
  set (x1 := fst (shl_align m1 e1 (Z.min e1 e0))).
  set (x0 := fst (shl_align m0 e0 (Z.min e1 e0))).
  assert (Hne : s0 = s1 -> x1 <> x0).
  { intros ->. unfold F32.ltb, SFltb, SFcompare in Hlt.
    destruct (Z.compare_spec e0 e1) as [He | He | He].
    - subst e1. subst x1 x0. unfold shl_align. rewrite Z.min_id, Z.sub_diag. cbn [fst].
      intros ->. change (Pos.compare_cont Eq m0 m0) with (Pos.compare m0 m0) in Hlt.
      rewrite Pos.compare_refl in Hlt. destruct s1; discriminate Hlt.
    - apply (aligned_differ m1 e1 m0 e0 H1 H0 He).
    - intros Heq. symmetry in Heq. revert Heq. subst x1 x0.
      apply (aligned_differ m0 e0 m1 e1 H0 H1 He). }
  assert (Hd : cond_Zopp s1 (Zpos x1) - cond_Zopp s0 (Zpos x0) <> 0).
  { destruct s0, s1; cbn [cond_Zopp]; try lia;
      specialize (Hne eq_refl); intros Hz; apply Hne;
      assert (Zpos x1 = Zpos x0) by lia; congruence. }
  destruct (cond_Zopp s1 (Zpos x1) - cond_Zopp s0 (Zpos x0)) as [|d|d]; [congruence | |];
    cbn [binary_normalize]; apply binary_round_nonzero; try exact Hmin;
    unfold F32.prec; lia.
Qed.

(** C9, as it holds for a real-valued (blend weight) channel.  Take a
    CUBICSPLINE channel of two keys at times [t0 < t1] with the values
    [a0; v0; b0; a1; v1; b1].  Sampled at or after [t1] it returns the
    last centre value [v1]; sampled before [t0] it returns the first
    centre value [v0]; sampled at [t0] itself it returns the number
    [v0] (equal, or both zeros) when [t0] is finite and the four Bezier
    points [v0], [v0 + b0], [v1 + a1], [v1] are finite. *)
Theorem cubic_spline_two_keys_endpoints :
  forall t0 t1 a0 v0 b0 a1 v1 b1 : spec_float,
    F32.ltb t0 t1 = true ->
    (forall p, SFleb t1 p = true ->
       _interpolate_track [t0; t1] [a0; v0; b0; a1; v1; b1] p INTERP_CUBIC_SPLINE
       = Done v1) /\
    (forall p, F32.ltb p t0 = true ->
       _interpolate_track [t0; t1] [a0; v0; b0; a1; v1; b1] p INTERP_CUBIC_SPLINE
       = Done v0) /\
    (finite32 t0 = true -> valid_binary F32.prec F32.emax t1 = true ->
     finite32 v0 = true -> finite32 (F32.add v0 b0) = true ->
     finite32 (F32.add v1 a1) = true -> finite32 v1 = true ->
       exists r,
         _interpolate_track [t0; t1] [a0; v0; b0; a1; v1; b1] t0 INTERP_CUBIC_SPLINE
         = Done r /\ same_number r v0).
Proof.
  intros t0 t1 a0 v0 b0 a1 v1 b1 Hlt. split; [|split].
  - intros p Hp. destruct (not_before_keys t0 t1 p Hlt Hp) as [H0 H1].
    now apply two_keys_after.
  - intros p Hp. now apply two_keys_before.
  - intros Ht0 Ht1 Hv0 Hc1 Hc2 Hv1.
    rewrite (two_keys_between t0 t1 a0 v0 b0 a1 v1 b1 t0 (ltb_irrefl t0) Hlt).
    eexists. split; [reflexivity|].
    apply real_bezier_at_zero; try assumption.
    unfold factor. rewrite (sub_self t0 Ht0).
    apply div_zero. now apply key_span_nonzero.
Qed.

Lemma cubic_spline_two_keys_endpoints_witness :
  _interpolate_track spline_times spline_values (f32 2) INTERP_CUBIC_SPLINE
    = Done (f32 20) /\
  _interpolate_track spline_times spline_values (f32 (-1)) INTERP_CUBIC_SPLINE
    = Done (f32 10) /\
  exists r,
    _interpolate_track spline_times spline_values (f32 0) INTERP_CUBIC_SPLINE = Done r /\
    same_number r (f32 10).
Proof.
  pose proof (cubic_spline_two_keys_endpoints
                (f32 0) (f32 1) (f32 5) (f32 10) (f32 7) (f32 3) (f32 20) (f32 9)
                eq_refl) as [Hafter [Hbefore Hat]].
  split; [exact (Hafter (f32 2) eq_refl) | split; [exact (Hbefore (f32 (-1)) eq_refl) |]].
  exact (Hat eq_refl eq_refl eq_refl eq_refl eq_refl eq_refl).
Defined.

(** The largest finite [float]. *)
Definition FLT_MAX : spec_float := S754_finite false 16777215 104.

(** C9, the claim as stated fails.  With two keys at the same time the
    sample at the first key's time is the last centre value 20, not the
    first one 10.  With increasing keys and finite values whose sum of
    last centre value and in-tangent overflows, the sample at the first
    key's time is not a number. *)
Lemma cubic_spline_two_keys_endpoints_counterexample :
  (_interpolate_track [f32 1; f32 1] spline_values (f32 1) INTERP_CUBIC_SPLINE
     = Done (f32 20) /\
   get spline_values 1 = Done (f32 10) /\ f32 20 <> f32 10) /\
  (finite32 FLT_MAX = true /\
   _interpolate_track [f32 0; f32 1] [f32 0; f32 10; f32 0; FLT_MAX; FLT_MAX; f32 0]
     (f32 0) INTERP_CUBIC_SPLINE = Done S754_nan).
Proof.
  repeat split; try (vm_compute; reflexivity). vm_compute. discriminate.
Qed.

(** ** Skin expansion: the skip-level scenario in any document *)

(** The node [k] parent links above [x]. *)
Fixpoint climbs (nodes : list FBXNode) (k : nat) (x : Z) : Z :=
  match k with
  | O => x
  | S k => climbs nodes k (parent_of nodes x)
  end.

Lemma climbs_none : forall nodes k, climbs nodes k (-1) = -1.
Proof. intros nodes k. induction k as [|k IH]; [reflexivity | exact IH]. Qed.

Lemma two_elements : forall (l : list Z) a b, In a l -> In b l -> a <> b -> 2 <= size l.
Proof.
  intros l a b Ha Hb Hne. unfold size.
  destruct l as [|x [|y l]]; cbn in *; [contradiction | | lia].
  destruct Ha as [-> | []]. destruct Hb as [-> | []]. contradiction.
Qed.

Lemma singleton_list : forall (l : list Z) a,
  NoDup l -> (forall t, In t l <-> t = a) -> l = [a].
Proof.
  intros l a Hnd H. destruct l as [|x l].
  - exfalso. apply (proj2 (H a) eq_refl).
  - assert (x = a) by (apply H; now left). subst x.
    destruct l as [|y l]; [reflexivity|]. exfalso.
    assert (y = a) by (apply H; right; now left). subst y.
    inversion Hnd as [|? ? Hnin _]; subst. apply Hnin. now left.
Qed.

Lemma mark_joints : forall nd skin idx x,
  In x (joints (mark nd skin idx)) -> In x (joints skin) \/ (x = idx /\ joint nd = true).
Proof.
  intros nd skin idx x. unfold mark, push_back. destruct (joint nd); cbn [andb].
  - destruct (find (joints skin) idx <? 0).
    + cbn [joints set_joints]. rewrite in_app_iff. cbn. intuition.
    + destruct (find (non_joints skin) idx <? 0); cbn; auto.
  - destruct (find (non_joints skin) idx <? 0); cbn; auto.
Qed.

Lemma mark_non_joints : forall nd skin idx x,
  In x (non_joints skin) -> In x (non_joints (mark nd skin idx)).
Proof.
  intros nd skin idx x H. unfold mark, push_back.
  destruct (joint nd && (find (joints skin) idx <? 0)); [exact H|].
  destruct (find (non_joints skin) idx <? 0); [|exact H].
  cbn [non_joints set_non_joints]. apply in_or_app. now left.
Qed.

(** The minimum that [min_root_height] returns is the start value or
    the height of one of the roots. *)
Lemma min_root_height_attained : forall nodes rs m0 m,
  min_root_height nodes rs m0 = Done m ->
  m = m0 \/ exists r, In r rs /\ m = height_of nodes r.
Proof.
  intros nodes. induction rs as [|r rs IH]; intros m0 m H; cbn [min_root_height] in H.
  - inversion H. now left.
  - destruct (get nodes r) as [nd | | |] eqn:Hg; cbn [bind] in H; try discriminate.
    assert (Hh : height nd = height_of nodes r).
    { apply get_node_at in Hg. unfold height_of. now rewrite Hg. }
    destruct ((m0 =? -1) || (height nd <? m0)).
    + apply IH in H. destruct H as [-> | [r' [Hr' ->]]].
      * right. exists r. split; [now left | assumption].
      * right. exists r'. split; [now right | reflexivity].
    + apply IH in H. destruct H as [-> | [r' [Hr' ->]]]; [now left|].
      right. exists r'. split; [now right | reflexivity].
Qed.

(** The marking pass only adds to [non_joints]. *)
Lemma fold_capture_non_joints :
  forall (rec : FBXSkin -> Z -> outcome (FBXSkin * bool)),
    (forall s c s' b, rec s c = Done (s', b) -> incl (non_joints s) (non_joints s')) ->
    forall cs acc s f,
      fold_left
        (fun acc child =>
           '(skin, found) <- acc ;;
           '(skin, b) <- rec skin child ;;
           Done (skin, found || b))
        cs acc = Done (s, f) ->
      exists s0 f0, acc = Done (s0, f0) /\ incl (non_joints s0) (non_joints s).
Proof.
  intros rec Hrec. induction cs as [|c cs IH]; intros acc s f H; cbn [fold_left] in H.
  - exists s, f. split; [assumption | apply incl_refl].
  - apply IH in H. destruct H as [s1 [f1 [H1 Hi]]].
    destruct acc as [[s0 f0] | | |]; cbn [bind] in H1; try discriminate.
    destruct (rec s0 c) as [[s2 b2] | | |] eqn:E; cbn [bind] in H1; try discriminate.
    inversion H1; subst. exists s0, f0. split; [reflexivity|].
    eapply incl_tran; [eapply Hrec; exact E | exact Hi].
Qed.

Lemma capture_non_joints : forall fuel nodes skin x skin' b,
  _capture_nodes_in_skin fuel nodes skin x = Done (skin', b) ->
  incl (non_joints skin) (non_joints skin').
Proof.
  induction fuel as [|fuel IH]; intros nodes skin x skin' b H;
    cbn [_capture_nodes_in_skin] in H; [discriminate|].
  destruct (get nodes x) as [nd | | |]; cbn [bind] in H; try discriminate.
  match type of H with context [fold_left ?f ?cs ?acc] =>
    destruct (fold_left f cs acc) as [[s1 f1] | | |] eqn:Ef end;
    cbn [bind] in H; try discriminate.
  apply (fold_capture_non_joints (_capture_nodes_in_skin fuel nodes)) in Ef.
  - destruct Ef as [s0 [f0 [E0 Hi]]]. inversion E0; subst s0 f0.
    inversion H; subst. destruct f1; [|exact Hi].
    intros y Hy. apply mark_non_joints. now apply Hi.
  - intros s c s' b' Hr. eapply IH. exact Hr.
Qed.

Lemma capture_from_roots_non_joints : forall fuel nodes rs skin skin',
  capture_from_roots fuel nodes skin rs = Done skin' ->
  incl (non_joints skin) (non_joints skin').
Proof.
  intros fuel nodes. induction rs as [|r rs IH]; intros skin skin' H;
    cbn [capture_from_roots] in H.
  - inversion H. apply incl_refl.
  - destruct (_capture_nodes_in_skin fuel nodes skin r) as [[s1 b1] | | |] eqn:E;
      cbn [bind] in H; try discriminate.
    eapply incl_tran; [eapply capture_non_joints; exact E | now apply IH].
Qed.

Section SkipLevel.
Variable nodes : list FBXNode.
Hypothesis Hwf : wf_nodes nodes = true.

Lemma anc_height : forall S a b,
  (forall y, In y S -> valid nodes y) -> anc nodes S a b ->
  height_of nodes b <= height_of nodes a.
Proof.
  intros S a b Hv H. induction H as [x | x z Hx Hp _ IH]; [lia|].
  pose proof (parent_height nodes Hwf x (Hv _ Hx) (Hv _ Hp)). lia.
Qed.

(** A node connected, inside [S], to a node above it has its parent in
    [S]. *)
Lemma conn_lower_parent : forall S x r,
  (forall y, In y S -> valid nodes y) -> conn nodes S x r ->
  height_of nodes r < height_of nodes x -> In (parent_of nodes x) S.
Proof.
  intros S x r Hv Hc Hlt. destruct (conn_common nodes S x r Hc) as [z [Hxz Hrz]].
  pose proof (anc_height S r z Hv Hrz).
  inversion Hxz; subst; [lia | assumption].
Qed.

Variable j0 : Z.
Hypothesis Hj0 : valid nodes j0.

(** [under x]: [x] is joint 0 or one of its descendants. *)
Definition under (x : Z) : Prop := valid nodes x /\ exists k, climbs nodes k x = j0.

Lemma under_height : forall k x,
  valid nodes x -> climbs nodes k x = j0 ->
  height_of nodes x = height_of nodes j0 + Z.of_nat k.
Proof.
  induction k as [|k IH]; intros x Hx Hc; cbn [climbs] in Hc.
  - subst. lia.
  - destruct (parent_cases nodes Hwf x Hx) as [[Hp _] | [Hpv Hh]].
    + rewrite Hp, climbs_none in Hc. unfold valid in Hj0. lia.
    + rewrite (IH _ Hpv Hc) in Hh. lia.
Qed.

Lemma under_ge : forall x, under x -> height_of nodes j0 <= height_of nodes x.
Proof. intros x [Hx [k Hk]]. rewrite (under_height k x Hx Hk). lia. Qed.

Lemma under_top : forall x, under x -> height_of nodes x = height_of nodes j0 -> x = j0.
Proof.
  intros x [Hx [k Hk]] Hh. rewrite (under_height k x Hx Hk) in Hh.
  destruct k; [exact Hk | lia].
Qed.

Lemma under_parent : forall x,
  under x -> height_of nodes j0 < height_of nodes x -> under (parent_of nodes x).
Proof.
  intros x [Hx [k Hk]] Hh. rewrite (under_height k x Hx Hk) in Hh.
  destruct k as [|k]; [lia|]. cbn [climbs] in Hk.
  destruct (parent_cases nodes Hwf x Hx) as [[Hp _] | [Hpv _]].
  - rewrite Hp, climbs_none in Hk. unfold valid in Hj0. lia.
  - split; [assumption | now exists k].
Qed.

Lemma under_first : forall x,
  under x -> height_of nodes x = height_of nodes j0 + 1 -> parent_of nodes x = j0.
Proof.
  intros x [Hx [k Hk]] Hh. rewrite (under_height k x Hx Hk) in Hh.
  destruct k as [|[|k]]; [lia | exact Hk | lia].
Qed.

Lemma under_self : under j0.
Proof. split; [exact Hj0 | now exists O]. Qed.

(** Nothing above joint 0 is under it. *)
Lemma parent_not_under : ~ under (parent_of nodes j0).
Proof.
  intros Hu. pose proof (under_ge _ Hu) as Hge.
  pose proof (parent_height nodes Hwf j0 Hj0 (proj1 Hu)). lia.
Qed.

Definition all_under (skin : FBXSkin) : Prop :=
  forall x, In x (skin_nodes skin) -> under x.

Variable n : Z.
Hypothesis Hn : forall nd, node_at nodes n = Some nd -> joint nd = false.

(** The levelling loop stays under joint 0 and never lists [n] as a
    joint. *)
Lemma climb_to_height_under : forall fuel skin cur m skin' cur',
  climb_to_height fuel nodes skin cur m = Done (skin', cur') ->
  height_of nodes j0 <= m -> under cur -> all_under skin -> ~ In n (joints skin) ->
  all_under skin' /\ ~ In n (joints skin').
Proof.
  induction fuel as [|fuel IH]; intros skin cur m skin' cur' H Hm Hcur Hall Hnj;
    cbn [climb_to_height] in H; [discriminate|].
  destruct (valid_node_at _ _ (proj1 Hcur)) as [nd [Hnd Hg]].
  rewrite Hg in H. cbn [bind] in H.
  assert (Hh : height nd = height_of nodes cur) by (unfold height_of; now rewrite Hnd).
  assert (Hp : parent nd = parent_of nodes cur) by (unfold parent_of; now rewrite Hnd).
  rewrite Hh, Hp in H.
  destruct (Z.ltb_spec m (height_of nodes cur)) as [Hlt | Hge].
  - assert (Hup : under (parent_of nodes cur)) by (apply under_parent; [assumption | lia]).
    destruct (valid_node_at _ _ (proj1 Hup)) as [pnd [Hpnd Hpg]].
    rewrite Hpg in H. cbn [bind] in H.
    apply (IH _ _ _ _ _ H); try assumption.
    + intros x Hx. apply mark_nodes in Hx. destruct Hx as [Hx | ->]; auto.
    + intros Hin. apply mark_joints in Hin. destruct Hin as [Hin | [E Hj]]; [contradiction|].
      rewrite <- E in Hpnd. rewrite (Hn _ Hpnd) in Hj. discriminate.
  - inversion H; subst. split; assumption.
Qed.

Lemma level_roots_under : forall fuel rs skin m skin' rs',
  level_roots fuel nodes skin rs m = Done (skin', rs') ->
  height_of nodes j0 <= m -> (forall r, In r rs -> under r) ->
  all_under skin -> ~ In n (joints skin) ->
  all_under skin' /\ ~ In n (joints skin').
Proof.
  intros fuel. induction rs as [|r rs IH]; intros skin m skin' rs' H Hm Hrs Hall Hnj;
    cbn [level_roots] in H.
  - inversion H; subst. split; assumption.
  - destruct (climb_to_height fuel nodes skin r m) as [[s1 c1] | | |] eqn:E;
      cbn [bind] in H; try discriminate.
    destruct (climb_to_height_under _ _ _ _ _ _ E Hm (Hrs r (or_introl eq_refl)) Hall Hnj)
      as [Hall1 Hnj1].
    destruct (level_roots fuel nodes s1 rs m) as [[s2 r2] | | |] eqn:E2;
      cbn [bind] in H; try discriminate.
    inversion H; subst. apply (IH _ _ _ _ E2); auto. intros; apply Hrs; now right.
Qed.
End SkipLevel.

(** C3, as amended.  In any well-formed document, take a skin of the
    three joints [j0], [j1], [j2] where the parent [n] of joint 2 is not
    a joint (neither tagged so nor listed by the skin), the parent of [n]
    is joint 0, and joint 1 sits somewhere under joint 0 ([k] parent
    links below it).  Then the climbing loops of
    [_capture_nodes_for_multirooted_skin] already put [n] into the skin's
    [non_joints], before any marking pass has run; [_expand_skin]
    succeeds, keeps [n] there and resolves the roots to exactly the node
    of joint 0; and [_verify_skin] accepts the result. *)
Theorem skip_level_non_joint_is_captured :
  forall (nodes : list FBXNode) (fuel : nat) (j0 j1 j2 n : Z) (nd2 nn : FBXNode) (k : nat),
    wf_nodes nodes = true ->
    deep_enough fuel nodes = true ->
    fresh_skin nodes (scenario_skin j0 j1 j2) = true ->
    get nodes j2 = Done nd2 -> parent nd2 = n ->
    get nodes n = Done nn -> parent nn = j0 -> joint nn = false ->
    n <> j1 ->
    climbs nodes k j1 = j0 ->
    (exists skin1 rs1,
       _capture_nodes_for_multirooted_skin fuel nodes (scenario_skin j0 j1 j2)
       = Done (skin1, rs1) /\
       In n (non_joints skin1)) /\
    (exists skin,
       _expand_skin fuel nodes (scenario_skin j0 j1 j2) = Done (OK, skin) /\
       In n (non_joints skin) /\
       roots skin = [j0] /\
       _verify_skin nodes skin = Done OK).
Proof.
  intros nodes fuel j0 j1 j2 n nd2 nn k Hwf Hdeep Hfresh Hg2 Hp2 Hgn Hpn Hjn Hn1 Hk.
  destruct (fresh_skin_spec _ _ Hfresh) as [_ HvJ].
  assert (Hj0 : valid nodes j0) by (apply HvJ; cbn; auto).
  assert (Hj1 : valid nodes j1) by (apply HvJ; cbn; auto).
  assert (Hj2 : valid nodes j2) by (apply HvJ; cbn; auto).
  assert (Hnn : node_at nodes n = Some nn) by (now apply get_node_at).
  assert (Hnv : valid nodes n) by (eapply node_at_valid; exact Hnn).
  assert (Epn : parent_of nodes n = j0) by (unfold parent_of; now rewrite Hnn).
  assert (Ep2 : parent_of nodes j2 = n).
  { apply get_node_at in Hg2. unfold parent_of. now rewrite Hg2. }
  assert (Hjoint : forall nd, node_at nodes n = Some nd -> joint nd = false).
  { intros nd Hnd. rewrite Hnn in Hnd. inversion Hnd; subst. exact Hjn. }
  assert (Hhn : height_of nodes n = height_of nodes j0 + 1).
  { pose proof (parent_height nodes Hwf n Hnv) as E. rewrite Epn in E. now apply E. }
  assert (Hh2 : height_of nodes j2 = height_of nodes j0 + 2).
  { pose proof (parent_height nodes Hwf j2 Hj2) as E. rewrite Ep2 in E.
    rewrite (E Hnv). lia. }
  pose proof (height_nonneg nodes Hwf j0) as Hh0.
  (* the joints sit under joint 0 *)
  assert (U0 : under nodes j0 j0) by (now apply under_self).
  assert (U1 : under nodes j0 j1) by (split; [exact Hj1 | now exists k]).
  assert (U2 : under nodes j0 j2).
  { split; [exact Hj2|]. exists 2%nat. cbn [climbs]. now rewrite Ep2, Epn. }
  assert (HS0 : skin_nodes (scenario_skin j0 j1 j2) = [j0; j1; j2]) by reflexivity.
  assert (HU0 : all_under nodes j0 (scenario_skin j0 j1 j2)).
  { intros x Hx. rewrite HS0 in Hx. cbn in Hx.
    destruct Hx as [<- | [<- | [<- | []]]]; assumption. }
  assert (HnJ : ~ In n [j0; j1; j2]).
  { cbn. intros [E | [E | [E | []]]].
    - rewrite <- E in Hhn. lia.
    - apply Hn1. now symmetry.
    - rewrite <- E in Hhn. lia. }
  assert (Htop0 : top nodes (skin_nodes (scenario_skin j0 j1 j2)) j0).
  { split; [rewrite HS0; cbn; auto|]. intros Hin.
    apply (parent_not_under nodes Hwf j0 Hj0). now apply HU0. }
  assert (Htop2 : top nodes (skin_nodes (scenario_skin j0 j1 j2)) j2).
  { split; [rewrite HS0; cbn; auto|]. rewrite Ep2, HS0. exact HnJ. }
  assert (Hnot02 : ~ conn nodes (skin_nodes (scenario_skin j0 j1 j2)) j0 j2).
  { intros Hc. pose proof (conn_tops_eq nodes _ _ _ Hc Htop0 Htop2) as E.
    rewrite <- E in Hh2. lia. }
  (* the representatives of the first union pass *)
  destruct (initial_lev_inv nodes (scenario_skin j0 j1 j2) Hfresh) as [ds [Hup [Hinv _]]].
  set (reps := get_representatives ds) in *.
  pose proof Hinv as [HvS [HrS HcS]].
  destruct (HcS j0 (proj1 Htop0)) as [r0 [Hr0 Hc0]].
  destruct (HcS j2 (proj1 Htop2)) as [r2 [Hr2 Hc2]].
  assert (Hr02 : r0 <> r2).
  { intros E. apply Hnot02. rewrite <- E in Hc2.
    eapply conn_trans; [exact Hc0 | apply conn_sym; exact Hc2]. }
  assert (Hsize : 2 <= size reps) by (apply (two_elements reps r0 r2); assumption).
  assert (Hrepu : forall r, In r reps -> under nodes j0 r)
    by (intros r Hr; apply HU0, HrS, Hr).
  assert (Hr0h : height_of nodes r0 <= height_of nodes j0 + 1).
  { assert (Hr0S : In r0 [j0; j1; j2]) by (rewrite <- HS0; apply HrS; exact Hr0).
    cbn in Hr0S. destruct Hr0S as [E | [E | [E | []]]].
    - rewrite <- E. lia.
    - rewrite <- E in Hc0.
      destruct (conn_common nodes _ _ _ Hc0) as [z [Hz0 Hz1]].
      apply (top_anc nodes _ j0 z (proj2 Htop0)) in Hz0. rewrite Hz0 in Hz1.
      rewrite <- E.
      inversion Hz1 as [x Ex Ey | x z' Hin1 Hinp Hanc Ex Ey].
      + lia.
      + rewrite HS0 in Hinp. cbn in Hinp. destruct Hinp as [P | [P | [P | []]]].
        * pose proof (parent_height nodes Hwf j1 Hj1) as Q. rewrite <- P in Q.
          specialize (Q Hj0). lia.
        * pose proof (parent_height nodes Hwf j1 Hj1) as Q. rewrite <- P in Q.
          specialize (Q Hj1). lia.
        * rewrite <- P in Hanc.
          inversion Hanc as [y Fx Fy | y z'' Hin2 Hinp2 _ Fx Fy].
          -- rewrite Fy in Hh2. lia.
          -- rewrite Ep2, HS0 in Hinp2. contradiction.
    - exfalso. apply Hnot02. rewrite <- E in Hc0. exact Hc0. }
  (* the minimum height of the representatives *)
  assert (Hrv : forall r, In r reps -> valid nodes r) by (intros r Hr; apply HvS, HrS, Hr).
  destruct (min_root_height_spec nodes Hwf reps (-1) Hrv (or_introl eq_refl))
    as [m [Hm Hmspec]].
  destruct Hmspec as [[_ [Hnil _]] | [Hm0 [Hmin _]]].
  { rewrite Hnil in Hr0. contradiction. }
  assert (Hmlo : height_of nodes j0 <= m).
  { destruct (min_root_height_attained _ _ _ _ Hm) as [E | [r [Hr E]]]; [lia|].
    rewrite E. apply (under_ge nodes Hwf j0 Hj0). now apply Hrepu. }
  assert (Hmhi : m <= height_of nodes j0 + 1) by (specialize (Hmin r0 Hr0); lia).
  (* the levelling loop *)
  destruct (level_roots_spec nodes Hwf fuel reps (scenario_skin j0 j1 j2) [] m Hinv)
    as [skin1 [rs1 [Hlr [Hinv1 [Hrs1h [Hlen1 Hmono1]]]]]]; [|assumption|].
  { intros r Hr. split; [apply deep_enough_height; auto | now apply Hmin]. }
  cbn [app] in Hinv1.
  destruct (level_roots_under nodes Hwf j0 Hj0 n Hjoint fuel reps (scenario_skin j0 j1 j2)
              m skin1 rs1 Hlr Hmlo Hrepu HU0 HnJ) as [HU1 Hnj1].
  destruct Hinv1 as [HvS1 [HrS1 HcS1]].
  assert (Hrs1u : forall r, In r rs1 -> under nodes j0 r) by (intros r Hr; apply HU1, HrS1, Hr).
  assert (Hsame : forall a b, In a rs1 -> In b rs1 -> parent_of nodes a = parent_of nodes b).
  { intros a b Ha Hb.
    pose proof (Hrs1h a Ha) as Hah. pose proof (Hrs1h b Hb) as Hbh.
    destruct (Z.eq_dec m (height_of nodes j0)) as [E | E].
    - rewrite (under_top nodes Hwf j0 Hj0 a (Hrs1u a Ha)) by lia.
      rewrite (under_top nodes Hwf j0 Hj0 b (Hrs1u b Hb)) by lia. reflexivity.
    - rewrite (under_first nodes Hwf j0 Hj0 a (Hrs1u a Ha)) by lia.
      rewrite (under_first nodes Hwf j0 Hj0 b (Hrs1u b Hb)) by lia. reflexivity. }
  assert (Hclimb : climb_until_same fuel nodes skin1 rs1 = Done (skin1, rs1)).
  { destruct fuel as [|fuel'].
    { pose proof (deep_enough_height 0 nodes j0 Hdeep Hj0). cbn in H. lia. }
    destruct rs1 as [|r rest].
    { unfold size in Hsize. cbn in Hlen1. lia. }
    cbn [climb_until_same]. change (get (r :: rest) 0) with (Done r). cbn [bind tl].
    destruct (valid_node_at _ _ (proj1 (Hrs1u r (or_introl eq_refl)))) as [nd [Hnd ->]].
    cbn [bind].
    destruct (all_same_parent_spec nodes rest (parent nd)) as [b [-> Hb]].
    { intros x Hx. apply (proj1 (Hrs1u x (or_intror Hx))). }
    cbn [bind].
    assert (Eb : b = true).
    { apply Hb. intros x Hx. rewrite (Hsame x r (or_intror Hx) (or_introl eq_refl)).
      unfold parent_of. now rewrite Hnd. }
    rewrite Eb. reflexivity. }
  assert (Hmr : _capture_nodes_for_multirooted_skin fuel nodes (scenario_skin j0 j1 j2)
                = Done (skin1, rs1)).
  { unfold _capture_nodes_for_multirooted_skin, initial_roots. rewrite Hup. cbn [bind].
    fold reps. destruct (Z.leb_spec (size reps) 1); [lia|].
    rewrite Hm. cbn [bind]. rewrite Hlr. cbn [bind]. exact Hclimb. }
  set (S1 := skin_nodes skin1) in *.
  assert (Hv1 : forall x, In x S1 -> valid nodes x) by (intros x Hx; apply (proj1 (HU1 x Hx))).
  assert (Hj0S1 : In j0 S1) by (apply Hmono1; rewrite HS0; cbn; auto).
  assert (Hj2S1 : In j2 S1) by (apply Hmono1; rewrite HS0; cbn; auto).
  (* every node of the skin but joint 0 has its parent in the skin *)
  assert (Hclosed : forall c, In c S1 -> height_of nodes j0 < height_of nodes c ->
                              In (parent_of nodes c) S1).
  { intros c Hc Hh. destruct (HcS1 c Hc) as [r [Hr Hcr]].
    pose proof (Hrs1h r Hr) as Hrh.
    destruct (Z.lt_ge_cases (height_of nodes r) (height_of nodes c)) as [Hlt | Hge].
    - exact (conn_lower_parent nodes Hwf S1 c r Hv1 Hcr Hlt).
    - rewrite (under_first nodes Hwf j0 Hj0 c (HU1 c Hc)) by lia. exact Hj0S1. }
  assert (HnS1 : In n (non_joints skin1)).
  { assert (Hin : In n S1) by (rewrite <- Ep2; apply Hclosed; [exact Hj2S1 | lia]).
    unfold S1, skin_nodes in Hin. apply in_app_iff in Hin.
    destruct Hin as [Hin | Hin]; [contradiction | exact Hin]. }
  split.
  { exists skin1, rs1. split; [exact Hmr | exact HnS1]. }
  (* the roots *)
  assert (Htops : forall t, top nodes S1 t <-> t = j0).
  { intros t. split.
    - intros [Ht Hpt].
      pose proof (under_ge nodes Hwf j0 Hj0 t (HU1 t Ht)) as Hge.
      destruct (Z.eq_dec (height_of nodes t) (height_of nodes j0)) as [E | E].
      + exact (under_top nodes Hwf j0 Hj0 t (HU1 t Ht) E).
      + exfalso. apply Hpt. apply Hclosed; [exact Ht | lia].
    - intros ->. split; [exact Hj0S1|]. intros Hin.
      apply (parent_not_under nodes Hwf j0 Hj0). now apply HU1. }
  destruct (compute_roots_spec nodes skin1 Hwf Hv1) as [l [Hcr [Hnd [Htop _]]]].
  fold (skin_nodes skin1) in Htop. fold S1 in Htop.
  assert (El : l = [j0]).
  { apply singleton_list; [exact Hnd|]. intros t. rewrite Htop. apply Htops. }
  rewrite El in Hcr. change (sort [j0]) with [j0] in Hcr.
  destruct (capture_from_roots_spec nodes Hwf S1 (height_of nodes j0) Hclosed fuel [j0] skin1)
    as [skin2 [Hcap Hsame2]].
  { intros y. reflexivity. }
  { intros r [<- | []]. split; [exact Hj0 | lia]. }
  { intros y Hy. now apply deep_enough_height. }
  exists (set_roots skin2 [j0]).
  split; [|split; [|split]].
  - unfold _expand_skin. rewrite Hmr. cbn [bind]. rewrite Hcr. cbn [bind].
    rewrite Hcap. reflexivity.
  - cbn [non_joints set_roots].
    apply (capture_from_roots_non_joints _ _ _ _ _ Hcap). exact HnS1.
  - reflexivity.
  - assert (Hv2 : forall x, In x (joints skin2 ++ non_joints skin2) -> valid nodes x).
    { intros x Hx. apply Hv1. now apply Hsame2. }
    destruct (compute_roots_spec nodes skin2 Hwf Hv2) as [l2 [Hcr2 [Hnd2 [Htop2' _]]]].
    assert (El2 : l2 = [j0]).
    { apply singleton_list; [exact Hnd2|]. intros t. rewrite Htop2', <- Htops.
      split; apply top_ext; intros y.
      - apply Hsame2.
      - symmetry. apply Hsame2. }
    rewrite El2 in Hcr2. change (sort [j0]) with [j0] in Hcr2.
    unfold _verify_skin.
    change (compute_roots nodes (set_roots skin2 [j0])) with (compute_roots nodes skin2).
    rewrite Hcr2. cbn [bind roots set_roots].
    change (size [j0]) with 1. cbn [Z.eqb Pos.eqb negb].
    cbn [roots_differ]. change (get [j0] 0) with (Done j0). cbn [bind].
    rewrite Z.eqb_refl. cbn [negb]. reflexivity.
Qed.

(** Joint 1 as a grandchild of joint 0 through a node that no skin
    names, in a document whose scene root is not a joint. *)
Definition skip_level_nodes : list FBXNode :=
  [ {| parent := 3; children := [1]; height := 2; joint := false |};
    {| parent := 0; children := []; height := 3; joint := true |};
    {| parent := -1; children := [3]; height := 0; joint := false |};
    {| parent := 2; children := [0; 4]; height := 1; joint := true |};
    {| parent := 3; children := [5]; height := 2; joint := false |};
    {| parent := 4; children := [6]; height := 3; joint := true |};
    {| parent := 5; children := []; height := 4; joint := true |} ].

Lemma skip_level_non_joint_is_captured_witness :
  (exists skin1 rs1,
     _capture_nodes_for_multirooted_skin 8 skip_level_nodes (scenario_skin 3 6 1)
     = Done (skin1, rs1) /\
     In 0 (non_joints skin1)) /\
  (exists skin,
     _expand_skin 8 skip_level_nodes (scenario_skin 3 6 1) = Done (OK, skin) /\
     In 0 (non_joints skin) /\
     roots skin = [3] /\
     _verify_skin skip_level_nodes skin = Done OK).
Proof.
  apply (skip_level_non_joint_is_captured skip_level_nodes 8 3 6 1 0
           {| parent := 0; children := []; height := 3; joint := true |}
           {| parent := 3; children := [1]; height := 2; joint := false |} 3).
  - reflexivity.
  - reflexivity.
  - reflexivity.
  - reflexivity.
  - reflexivity.
  - reflexivity.
  - reflexivity.
  - reflexivity.
  - discriminate.
  - reflexivity.
Defined.

(** C3, the claim as stated fails: nothing in it places joint 1.  With
    joint 1 as a second scene root (node 3), joint 2's parent (node 1) is
    not a joint and hangs under joint 0 (node 0), the intermediate node
    does reach [non_joints], but the skin resolves to two roots, the
    nodes of joint 0 and of joint 1. *)
Lemma skip_level_non_joint_is_captured_counterexample :
  let nodes :=
    [ {| parent := -1; children := [1]; height := 0; joint := true |};
      {| parent := 0; children := [2]; height := 1; joint := false |};
      {| parent := 1; children := []; height := 2; joint := true |};
      {| parent := -1; children := []; height := 0; joint := true |} ] in
  wf_nodes nodes = true /\
  fresh_skin nodes (scenario_skin 0 3 2) = true /\
  parent_of nodes 2 = 1 /\ parent_of nodes 1 = 0 /\
  _expand_skin 5 nodes (scenario_skin 0 3 2)
  = Done (OK, {| joints := [0; 3; 2]; non_joints := [1; 0]; roots := [0; 3] |}).
Proof. cbv zeta. repeat split; vm_compute; reflexivity. Qed.

(** ** Real values of [float] numbers *)

(** [bpow e] is 2 to the power [e]. *)
Definition bpow (e : Z) : R := powerRZ 2 e.

Lemma bpow_pos : forall e, (0 < bpow e)%R.
Proof. intros e. apply powerRZ_lt. lra. Qed.

Lemma bpow_add : forall a b, bpow (a + b) = (bpow a * bpow b)%R.
Proof. intros a b. apply powerRZ_add. lra. Qed.

Lemma bpow_0 : bpow 0 = 1%R.
Proof. reflexivity. Qed.

Lemma bpow_succ : forall e, bpow (e + 1) = (2 * bpow e)%R.
Proof. intros e. rewrite bpow_add. change (bpow 1) with (2 * 1)%R. lra. Qed.

Lemma bpow_pred : forall e, bpow (e - 1) = (bpow e / 2)%R.
Proof.
  intros e. pose proof (bpow_succ (e - 1)) as H.
  replace (e - 1 + 1) with e in H by lia. lra.
Qed.

Lemma bpow_IZR : forall n, 0 <= n -> bpow n = IZR (2 ^ n).
Proof.
  intros n Hn. pattern n. apply natlike_ind; [reflexivity | | exact Hn].
  intros k Hk IH. unfold Z.succ. rewrite bpow_succ, IH, Z.pow_add_r by lia.
  rewrite mult_IZR. change (2 ^ 1) with 2. lra.
Qed.

Lemma bpow_ge_1 : forall n, 0 <= n -> (1 <= bpow n)%R.
Proof.
  intros n Hn. rewrite bpow_IZR by exact Hn. apply IZR_le.
  pose proof (Z.pow_pos_nonneg 2 n ltac:(lia) Hn). lia.
Qed.

Lemma bpow_le : forall a b, a <= b -> (bpow a <= bpow b)%R.
Proof.
  intros a b Hab. replace b with (a + (b - a)) by lia. rewrite bpow_add.
  pose proof (bpow_pos a). pose proof (bpow_ge_1 (b - a) ltac:(lia)). nra.
Qed.

(** *** Digits *)

Lemma digits2_pos_bounds : forall m,
  2 ^ (Zpos (digits2_pos m) - 1) <= Zpos m < 2 ^ Zpos (digits2_pos m).
Proof.
  induction m as [m IH | m IH |]; cbn [digits2_pos].
  - rewrite Pos2Z.inj_succ. unfold Z.succ.
    replace (Zpos (digits2_pos m) + 1 - 1) with (Zpos (digits2_pos m) - 1 + 1) by lia.
    rewrite !Z.pow_add_r by lia. change (2 ^ 1) with 2. lia.
  - rewrite Pos2Z.inj_succ. unfold Z.succ.
    replace (Zpos (digits2_pos m) + 1 - 1) with (Zpos (digits2_pos m) - 1 + 1) by lia.
    rewrite !Z.pow_add_r by lia. change (2 ^ 1) with 2. lia.
  - cbn. lia.
Qed.

Lemma Zdigits2_nonneg : forall m, 0 <= Zdigits2 m.
Proof. intros [|m|m]; cbn; lia. Qed.

Lemma Zdigits2_upper : forall m, 0 <= m -> m < 2 ^ Zdigits2 m.
Proof.
  intros [|m|m] H; cbn [Zdigits2]; [cbn; lia | apply digits2_pos_bounds | lia].
Qed.

Lemma Zdigits2_lower : forall m, 0 < m -> 2 ^ (Zdigits2 m - 1) <= m.
Proof.
  intros [|m|m] H; cbn [Zdigits2]; [lia | apply digits2_pos_bounds | lia].
Qed.

(** A number below [2 ^ k] has at most [k] digits. *)
Lemma Zdigits2_le : forall m k, 0 <= m -> 0 <= k -> m < 2 ^ k -> Zdigits2 m <= k.
Proof.
  intros m k Hm Hk Hlt. destruct (Z.eq_dec m 0) as [-> | Hne]; [cbn; lia|].
  pose proof (Zdigits2_lower m ltac:(lia)) as Hl.
  destruct (Z_le_gt_dec (Zdigits2 m) k) as [|Hgt]; [assumption|].
  pose proof (Z.pow_le_mono_r 2 k (Zdigits2 m - 1) ltac:(lia) ltac:(lia)). lia.
Qed.

(** A number from [2 ^ k] on has more than [k] digits. *)
Lemma Zdigits2_gt : forall m k, 0 <= k -> 2 ^ k <= m -> k < Zdigits2 m.
Proof.
  intros m k Hk Hle.
  assert (Hm : 0 <= m) by (pose proof (Z.pow_pos_nonneg 2 k ltac:(lia) Hk); lia).
  pose proof (Zdigits2_upper m Hm) as Hu. pose proof (Zdigits2_nonneg m).
  destruct (Z_lt_le_dec k (Zdigits2 m)) as [|Hge]; [assumption|].
  pose proof (Z.pow_le_mono_r 2 (Zdigits2 m) k ltac:(lia) Hge). lia.
Qed.

(** *** Shifting a located number *)

(** [located m l y]: the real [y] lies in [[m, m + 1)] where the
    location [l] says. *)
Definition located (m : Z) (l : location) (y : R) : Prop :=
  match l with
  | loc_Exact => y = IZR m
  | loc_Inexact Lt => (IZR m < y < IZR m + / 2)%R
  | loc_Inexact Eq => y = (IZR m + / 2)%R
  | loc_Inexact Gt => (IZR m + / 2 < y < IZR m + 1)%R
  end.

Lemma located_bounds : forall m l y, located m l y -> (IZR m <= y < IZR m + 1)%R.
Proof. intros m [|[| |]] y H; cbn in H; lra. Qed.

Lemma shr_record_of_loc_m : forall m l, shr_m (shr_record_of_loc m l) = m.
Proof. intros m [|[| |]]; reflexivity. Qed.

Lemma loc_of_shr_record_of_loc : forall m l,
  loc_of_shr_record (shr_record_of_loc m l) = l.
Proof. intros m [|[| |]]; reflexivity. Qed.

Lemma IZR_xO : forall p, IZR (Zpos p~0) = (2 * IZR (Zpos p))%R.
Proof. intros p. rewrite Pos2Z.inj_xO, mult_IZR. reflexivity. Qed.

Lemma IZR_xI : forall p, IZR (Zpos p~1) = (2 * IZR (Zpos p) + 1)%R.
Proof. intros p. rewrite Pos2Z.inj_xI, plus_IZR, mult_IZR. reflexivity. Qed.

(** One step to the right halves the number. *)
Lemma shr_1_located : forall mrs y,
  0 <= shr_m mrs -> located (shr_m mrs) (loc_of_shr_record mrs) y ->
  0 <= shr_m (shr_1 mrs) /\
  located (shr_m (shr_1 mrs)) (loc_of_shr_record (shr_1 mrs)) (y / 2)%R /\
  2 * shr_m (shr_1 mrs) <= shr_m mrs <= 2 * shr_m (shr_1 mrs) + 1.
Proof.
  intros [m r s] y Hm H. cbn [shr_m] in Hm.
  destruct m as [|[p | p |]|p]; try lia.
  - destruct r, s; cbn [shr_1 shr_m loc_of_shr_record orb located] in H |- *;
      (split; [lia | split; [lra | lia]]).
  - destruct r, s; cbn [shr_1 shr_m loc_of_shr_record orb located] in H |- *;
      rewrite (IZR_xI p) in H; (split; [lia | split; [lra | lia]]).
  - destruct r, s; cbn [shr_1 shr_m loc_of_shr_record orb located] in H |- *;
      rewrite (IZR_xO p) in H; (split; [lia | split; [lra | lia]]).
  - destruct r, s; cbn [shr_1 shr_m loc_of_shr_record orb located] in H |- *;
      (split; [lia | split; [lra | lia]]).
Qed.

(** [n] steps divide by [2 ^ n]. *)
Lemma shr_iter_located : forall n mrs y,
  0 <= shr_m mrs -> located (shr_m mrs) (loc_of_shr_record mrs) y ->
  0 <= shr_m (Pos.iter shr_1 mrs n) /\
  located (shr_m (Pos.iter shr_1 mrs n)) (loc_of_shr_record (Pos.iter shr_1 mrs n))
          (y * bpow (- Zpos n))%R /\
  shr_m (Pos.iter shr_1 mrs n) * 2 ^ Zpos n <= shr_m mrs
    < (shr_m (Pos.iter shr_1 mrs n) + 1) * 2 ^ Zpos n.
Proof.
  intros n. induction n as [|n IH] using Pos.peano_ind; intros mrs y Hm H.
  - cbn [Pos.iter]. destruct (shr_1_located mrs y Hm H) as [H1 [H2 H3]].
    split; [exact H1 | split].
    + change (- Zpos 1) with (-1).
      replace (y * bpow (-1))%R with (y / 2)%R; [exact H2|].
      change (bpow (-1)) with (/ (2 * 1))%R. lra.
    + change (2 ^ 1) with 2. lia.
  - rewrite Pos.iter_succ.
    destruct (IH mrs y Hm H) as [H1 [H2 H3]].
    destruct (shr_1_located _ _ H1 H2) as [H4 [H5 H6]].
    split; [exact H4 | split].
    + replace (y * bpow (- Zpos (Pos.succ n)))%R with (y * bpow (- Zpos n) / 2)%R;
        [exact H5|].
      replace (- Zpos (Pos.succ n)) with (- Zpos n - 1) by lia.
      rewrite bpow_pred. lra.
    + rewrite Pos2Z.inj_succ. unfold Z.succ. rewrite Z.pow_add_r by lia.
      change (2 ^ 1) with 2.
      pose proof (Z.pow_pos_nonneg 2 (Zpos n) ltac:(lia) ltac:(lia)). nia.
Qed.

(** Rounding to nearest moves by at most a half. *)
Lemma round_nearest_even_spec : forall m l y,
  located m l y ->
  m <= round_nearest_even m l <= m + 1 /\
  (Rabs (IZR (round_nearest_even m l) - y) <= / 2)%R /\
  (l = loc_Exact -> IZR (round_nearest_even m l) = y).
Proof.
  intros m l y H.
  destruct l as [|[| |]]; cbn [round_nearest_even located] in H |- *.
  - split; [lia|]. split; [|intros _; now symmetry].
    rewrite H. unfold Rminus. rewrite Rplus_opp_r, Rabs_R0. lra.
  - destruct (Z.even m).
    + split; [lia|]. split; [|discriminate].
      rewrite H. rewrite Rabs_left by lra. lra.
    + split; [lia|]. split; [|discriminate].
      rewrite plus_IZR, H. rewrite Rabs_right by lra. lra.
  - split; [lia|]. split; [|discriminate]. rewrite Rabs_left by lra. lra.
  - split; [lia|]. split; [|discriminate].
    rewrite plus_IZR. rewrite Rabs_right by lra. lra.
Qed.

(** *** Rounding to [float] *)

(** The first shift of [binary_round_aux]: the mantissa is cut to 24
    digits, or to the smallest exponent. *)
Lemma shr_fexp_located : forall m e l y,
  0 <= m -> located m l y ->
  e <= fexp F32.prec F32.emax (Zdigits2 m + e) ->
  exists mrs e1,
    shr_fexp F32.prec F32.emax m e l = (mrs, e1) /\
    e1 = fexp F32.prec F32.emax (Zdigits2 m + e) /\
    0 <= shr_m mrs < 2 ^ 24 /\
    located (shr_m mrs) (loc_of_shr_record mrs) (y * bpow (e - e1))%R /\
    (-149 < e1 -> 2 ^ 23 <= shr_m mrs) /\
    (e1 = e -> shr_m mrs = m /\ loc_of_shr_record mrs = l).
Proof.
  intros m e l y Hm Hloc He.
  pose proof (Zdigits2_nonneg m) as Hd0.
  pose proof (Zdigits2_upper m Hm) as Hup.
  unfold shr_fexp.
  set (e1 := fexp F32.prec F32.emax (Zdigits2 m + e)) in *.
  assert (He1 : e1 = Z.max (Zdigits2 m + e - 24) (-149)) by reflexivity.
  destruct (e1 - e) as [|n|n] eqn:En; try lia.
  - (* no shift *)
    assert (e1 = e) by lia.
    exists (shr_record_of_loc m l), e. cbn [shr].
    rewrite shr_record_of_loc_m, loc_of_shr_record_of_loc.
    split; [reflexivity|]. split; [lia|].
    assert (Hd : Zdigits2 m <= 24) by lia.
    pose proof (Z.pow_le_mono_r 2 (Zdigits2 m) 24 ltac:(lia) Hd).
    split; [lia|]. split.
    + rewrite Z.sub_diag, bpow_0, Rmult_1_r. exact Hloc.
    + split; [|intros _; split; reflexivity].
      intros Hgt. assert (Hd24 : Zdigits2 m = 24) by lia.
      assert (0 < m) by (destruct m; cbn in Hd24; lia).
      pose proof (Zdigits2_lower m ltac:(lia)) as Hl. rewrite Hd24 in Hl. exact Hl.
  - (* shift by [n] *)
    exists (iter_pos shr_1 n (shr_record_of_loc m l)), (e + Zpos n). cbn [shr].
    split; [reflexivity|]. split; [lia|].
    rewrite iter_pos_iter.
    destruct (shr_iter_located n (shr_record_of_loc m l) y) as [H1 [H2 H3]].
    { rewrite shr_record_of_loc_m. exact Hm. }
    { rewrite shr_record_of_loc_m, loc_of_shr_record_of_loc. exact Hloc. }
    rewrite shr_record_of_loc_m in H3.
    set (m1 := shr_m (Pos.iter shr_1 (shr_record_of_loc m l) n)) in *.
    pose proof (Z.pow_pos_nonneg 2 (Zpos n) ltac:(lia) ltac:(lia)) as Hpn.
    assert (Hlt : m1 < 2 ^ 24).
    { assert (Hdn : Zdigits2 m <= 24 + Zpos n) by lia.
      pose proof (Z.pow_le_mono_r 2 (Zdigits2 m) (24 + Zpos n) ltac:(lia) Hdn) as Hp.
      rewrite Z.pow_add_r in Hp by lia. nia. }
    split; [lia|]. split.
    + replace (e - (e + Zpos n)) with (- Zpos n) by lia. exact H2.
    + split; [|lia].
      intros Hgt. assert (Hdn : Zdigits2 m - 1 = 23 + Zpos n) by lia.
      assert (0 < m) by (destruct m; cbn in Hdn; lia).
      pose proof (Zdigits2_lower m ltac:(lia)) as Hl. rewrite Hdn in Hl.
      rewrite Z.pow_add_r in Hl by lia. nia.
Qed.

(** The second shift of [binary_round_aux]: a rounded mantissa of
    [2 ^ 24] is halved. *)
Lemma renormalise_spec : forall m2 e1,
  0 <= m2 <= 2 ^ 24 -> -149 <= e1 -> (-149 < e1 -> 2 ^ 23 <= m2) ->
  exists mrs e2,
    shr_fexp F32.prec F32.emax m2 e1 loc_Exact = (mrs, e2) /\
    match shr_m mrs with
    | Z0 => m2 = 0
    | Zpos p => (IZR (Zpos p) * bpow e2 = IZR m2 * bpow e1)%R /\
                canonical_mantissa F32.prec F32.emax p e2 = true /\
                e1 <= e2 <= e1 + 1
    | Zneg _ => False
    end.
Proof.
  intros m2 e1 Hm He Hn.
  destruct (Z.eq_dec m2 (2 ^ 24)) as [-> | Hne].
  - exists {| shr_m := 8388608; shr_r := false; shr_s := false |}, (e1 + 1).
    split.
    + unfold shr_fexp. change (Zdigits2 (2 ^ 24)) with 25.
      replace (fexp F32.prec F32.emax (25 + e1) - e1) with 1
        by (unfold fexp, emin, F32.prec, F32.emax; lia).
      reflexivity.
    + cbn [shr_m]. split; [|split; [|lia]].
      * rewrite bpow_succ. change (2 ^ 24) with (2 * 8388608). rewrite mult_IZR. lra.
      * unfold canonical_mantissa. apply Z.eqb_eq.
        change (Zpos (digits2_pos 8388608)) with 24.
        unfold fexp, emin, F32.prec, F32.emax. lia.
  - exists (shr_record_of_loc m2 loc_Exact), e1.
    assert (Hd : Zdigits2 m2 <= 24) by (apply Zdigits2_le; lia).
    pose proof (Zdigits2_nonneg m2) as Hd0.
    split.
    + unfold shr_fexp.
      destruct (fexp F32.prec F32.emax (Zdigits2 m2 + e1) - e1) as [|n|n] eqn:En;
        try reflexivity.
      unfold fexp, emin, F32.prec, F32.emax in En. lia.
    + cbn [shr_record_of_loc shr_m]. destruct m2 as [|p|p]; [reflexivity | | lia].
      split; [reflexivity|]. split; [|lia].
      unfold canonical_mantissa. apply Z.eqb_eq. cbn [Zdigits2] in Hd.
      destruct (Z_lt_le_dec (-149) e1) as [Hgt | Hle].
      * pose proof (Zdigits2_gt (Zpos p) 23 ltac:(lia) (Hn Hgt)) as Hg. cbn [Zdigits2] in Hg.
        unfold fexp, emin, F32.prec, F32.emax. lia.
      * unfold fexp, emin, F32.prec, F32.emax. lia.
Qed.

(** The magnitude of a [float] as a real number. *)
Definition Fabs (r : spec_float) : R :=
  match r with
  | S754_finite _ m e => (IZR (Zpos m) * bpow e)%R
  | _ => 0%R
  end.

(** The unit roundoff of [float], and half of its smallest positive number. *)
Definition u32 : R := bpow (-24).
Definition eta32 : R := bpow (-150).

Lemma u32_pos : (0 < u32)%R.
Proof. apply bpow_pos. Qed.

Lemma eta32_pos : (0 < eta32)%R.
Proof. apply bpow_pos. Qed.

Lemma half_ulp_normal : forall e1, (u32 * (bpow 23 * bpow e1) = bpow e1 / 2)%R.
Proof.
  intros e1. unfold u32. rewrite <- Rmult_assoc, <- bpow_add.
  change (-24 + 23) with (-1). change (bpow (-1)) with (/ (2 * 1))%R. lra.
Qed.

(** [binary_round_aux] rounds a located positive number to nearest:
    it overflows only from [2 ^ 127] on, and otherwise answers a zero or
    a canonical number within the relative error [u32] or the absolute
    error [eta32]; an exact number at an exponent of the format is hit
    within the relative error alone. *)
Lemma binary_round_aux_spec : forall s m e l y,
  0 <= m -> located m l y -> (0 < y)%R ->
  e <= fexp F32.prec F32.emax (Zdigits2 m + e) ->
  (binary_round_aux F32.prec F32.emax s m e l = S754_infinity s /\
   (bpow 127 <= y * bpow e)%R) \/
  ((binary_round_aux F32.prec F32.emax s m e l = S754_zero s \/
    exists m' e', binary_round_aux F32.prec F32.emax s m e l = S754_finite s m' e' /\
                  bounded F32.prec F32.emax m' e' = true) /\
   (Rabs (Fabs (binary_round_aux F32.prec F32.emax s m e l) - y * bpow e)
    <= u32 * (y * bpow e) + eta32)%R /\
   (-149 <= e -> l = loc_Exact ->
    (Rabs (Fabs (binary_round_aux F32.prec F32.emax s m e l) - y * bpow e)
     <= u32 * (y * bpow e))%R)).
Proof.
  intros s m e l y Hm Hloc Hy He.
  destruct (shr_fexp_located m e l y Hm Hloc He)
    as [mrs1 [e1 [Hs1 [He1 [Hb1 [Hloc1 [Hn1 Hsame]]]]]]].
  assert (Hemin : -149 <= e1)
    by (rewrite He1; unfold fexp, emin, F32.prec, F32.emax; lia).
  unfold binary_round_aux. rewrite Hs1.
  destruct (round_nearest_even_spec _ _ _ Hloc1) as [Hr1 [Hr2 Hr3]].
  set (m1 := shr_m mrs1) in *. set (l1 := loc_of_shr_record mrs1) in *.
  set (m2 := round_nearest_even m1 l1) in *.
  set (y1 := (y * bpow (e - e1))%R) in *.
  assert (Hx : (y * bpow e = y1 * bpow e1)%R).
  { unfold y1. rewrite Rmult_assoc, <- bpow_add. now replace (e - e1 + e1) with e by lia. }
  rewrite Hx.
  pose proof (bpow_pos e1) as Hp1.
  pose proof (located_bounds _ _ _ Hloc1) as Hy1.
  assert (Hm1 : (0 <= IZR m1)%R) by (apply IZR_le; lia).
  assert (Hx0 : (0 <= y1 * bpow e1)%R) by nra.
  assert (Herr : (Rabs (IZR m2 * bpow e1 - y1 * bpow e1) <= bpow e1 / 2)%R).
  { replace (IZR m2 * bpow e1 - y1 * bpow e1)%R with ((IZR m2 - y1) * bpow e1)%R by ring.
    rewrite Rabs_mult, (Rabs_right (bpow e1)) by lra.
    pose proof (Rabs_pos (IZR m2 - y1)). nra. }
  assert (Hnormal : -149 < e1 -> (bpow e1 / 2 <= u32 * (y1 * bpow e1))%R).
  { intros Hgt. specialize (Hn1 Hgt). apply IZR_le in Hn1.
    rewrite <- bpow_IZR in Hn1 by lia.
    rewrite <- half_ulp_normal. pose proof u32_pos.
    apply Rmult_le_compat_l; [lra|]. apply Rmult_le_compat_r; lra. }
  assert (Hsub : e1 = -149 -> (bpow e1 / 2 = eta32)%R).
  { intros ->. unfold eta32. now rewrite <- bpow_pred. }
  assert (Hexact : -149 <= e -> l = loc_Exact -> e1 = -149 ->
                   IZR m2 = y1 /\ y1 = y).
  { intros Hge Hl Heq. assert (Hee : e1 = e) by lia.
    destruct (Hsame Hee) as [_ Hl1]. split.
    - apply Hr3. fold l1 in Hl1. congruence.
    - unfold y1. replace (e - e1) with 0 by lia. rewrite bpow_0. lra. }
  destruct (renormalise_spec m2 e1) as [mrs2 [e2 [Hs2 Hmatch]]]; [lia | lia | lia |].
  rewrite Hs2. pose proof u32_pos as Hu. pose proof eta32_pos as Heta.
  destruct (shr_m mrs2) as [|p|p]; [| |contradiction].
  - (* rounded to zero *)
    right. split; [left; reflexivity|]. cbn [Fabs].
    assert (He1' : e1 = -149) by lia.
    rewrite Hmatch in Herr. rewrite Rmult_0_l in Herr.
    split; [rewrite <- (Hsub He1'); nra|].
    intros Hge Hl. destruct (Hexact Hge Hl He1') as [H1 H2].
    rewrite Hmatch in H1. lra.
  - destruct Hmatch as [Hval [Hcan He2]].
    destruct (e2 <=? F32.emax - F32.prec) eqn:Hle.
    + right. split.
      * right. exists p, e2. split; [reflexivity|].
        unfold bounded. now rewrite Hcan, Hle.
      * cbn [Fabs]. rewrite Hval.
        destruct (Z_lt_le_dec (-149) e1) as [Hgt | Hle1].
        -- specialize (Hnormal Hgt). split; [lra | intros _ _; lra].
        -- assert (He1' : e1 = -149) by lia. split; [rewrite <- (Hsub He1'); nra|].
           intros Hge Hl. destruct (Hexact Hge Hl He1') as [H1 H2].
           rewrite H1. unfold Rminus. rewrite Rplus_opp_r, Rabs_R0. nra.
    + left. split; [reflexivity|].
      apply Z.leb_gt in Hle. unfold F32.emax, F32.prec in Hle.
      assert (Hgt : -149 < e1) by lia. specialize (Hn1 Hgt). apply IZR_le in Hn1.
      rewrite <- bpow_IZR in Hn1 by lia.
      pose proof (bpow_le 104 e1 ltac:(lia)) as H104.
      replace 127 with (23 + 104) by lia. rewrite bpow_add.
      pose proof (bpow_pos 23). pose proof (bpow_pos 104). nra.
Qed.

Lemma iter_xO_pow : forall d m, Zpos (Pos.iter xO m d) = Zpos m * 2 ^ Zpos d.
Proof.
  intros d. induction d as [|d IH] using Pos.peano_ind; intros m.
  - cbn [Pos.iter]. change (2 ^ 1) with 2. lia.
  - rewrite Pos.iter_succ, Pos2Z.inj_xO, IH, Pos2Z.inj_succ. unfold Z.succ.
    rewrite Z.pow_add_r by lia. change (2 ^ 1) with 2. lia.
Qed.

(** Aligning a number to a smaller exponent keeps its value. *)
Lemma shl_align_value : forall m e e', e' <= e ->
  (IZR (Zpos (fst (shl_align m e e'))) * bpow e' = IZR (Zpos m) * bpow e)%R.
Proof.
  intros m e e' Hle. unfold shl_align.
  destruct (e' - e) as [|d|d] eqn:Ed; cbn [fst]; try lia.
  - now replace e' with e by lia.
  - rewrite iter_xO_pow, mult_IZR, <- bpow_IZR by lia.
    rewrite Rmult_assoc, <- bpow_add. now replace (Zpos d + e') with e by lia.
Qed.

Lemma u32_small : (u32 <= / 2)%R.
Proof.
  unfold u32. pose proof (bpow_le (-24) (-1) ltac:(lia)) as H.
  change (bpow (-1)) with (/ (2 * 1))%R in H. now rewrite Rmult_1_r in H.
Qed.

(** [binary_round] of a positive number at an exponent of the format. *)
Lemma binary_round_spec : forall s m e, -149 <= e ->
  (binary_round F32.prec F32.emax s m e = S754_infinity s /\
   (bpow 127 <= IZR (Zpos m) * bpow e)%R) \/
  ((exists m' e', binary_round F32.prec F32.emax s m e = S754_finite s m' e' /\
                  bounded F32.prec F32.emax m' e' = true) /\
   (Rabs (Fabs (binary_round F32.prec F32.emax s m e) - IZR (Zpos m) * bpow e)
    <= u32 * (IZR (Zpos m) * bpow e))%R).
Proof.
  intros s m e He.
  assert (Hpos : forall p, (0 < IZR (Zpos p))%R) by (intros p; now apply IZR_lt).
  assert (Hgen : forall mz ez, -149 <= ez ->
            ez <= fexp F32.prec F32.emax (Zdigits2 (Zpos mz) + ez) ->
            (binary_round_aux F32.prec F32.emax s (Zpos mz) ez loc_Exact = S754_infinity s /\
             (bpow 127 <= IZR (Zpos mz) * bpow ez)%R) \/
            ((exists m' e', binary_round_aux F32.prec F32.emax s (Zpos mz) ez loc_Exact
                            = S754_finite s m' e' /\
                            bounded F32.prec F32.emax m' e' = true) /\
             (Rabs (Fabs (binary_round_aux F32.prec F32.emax s (Zpos mz) ez loc_Exact)
                    - IZR (Zpos mz) * bpow ez)
              <= u32 * (IZR (Zpos mz) * bpow ez))%R)).
  { intros mz ez Hez Hf.
    destruct (binary_round_aux_spec s (Zpos mz) ez loc_Exact (IZR (Zpos mz)))
      as [Hinf | [Hres [_ Hrel]]]; [lia | reflexivity | apply Hpos | exact Hf | |].
    - now left.
    - right. specialize (Hrel Hez eq_refl). split; [|exact Hrel].
      destruct Hres as [Hz | Hfin]; [|exact Hfin].
      exfalso. rewrite Hz in Hrel. cbn [Fabs] in Hrel.
      pose proof (Hpos mz). pose proof (bpow_pos ez). pose proof u32_small.
      assert (Hx : (0 < IZR (Zpos mz) * bpow ez)%R) by nra.
      rewrite Rabs_left in Hrel by lra. nra. }
  unfold binary_round, shl_align.
  set (e' := fexp F32.prec F32.emax (Zpos (digits2_pos m) + e)).
  assert (He' : e' = Z.max (Zpos (digits2_pos m) + e - 24) (-149)) by reflexivity.
  destruct (e' - e) as [|d|d] eqn:Ed.
  - apply Hgen; [exact He | cbn [Zdigits2]; fold e'; lia].
  - apply Hgen; [exact He | cbn [Zdigits2]; fold e'; lia].
  - assert (Hval : (IZR (Zpos (Pos.iter xO m d)) * bpow e' = IZR (Zpos m) * bpow e)%R).
    { rewrite iter_xO_pow, mult_IZR, <- bpow_IZR by lia.
      rewrite Rmult_assoc, <- bpow_add. now replace (Zpos d + e') with e by lia. }
    rewrite <- Hval. apply Hgen; [lia|].
    cbn [Zdigits2]. rewrite digits_shift.
    replace (Zpos (digits2_pos m + d) + e') with (Zpos (digits2_pos m) + e)
      by (rewrite Pos2Z.inj_add; lia).
    fold e'. lia.
Qed.

(** *** Sums of weights *)

(** A zero, or a positive number at an exponent of the format. *)
Definition okf (x : spec_float) : Prop :=
  match x with
  | S754_zero _ => True
  | S754_finite false _ e => -149 <= e
  | _ => False
  end.

(** Adding two such numbers overflows or is off by the relative error
    [u32] at most. *)
Lemma add_spec : forall a b, okf a -> okf b ->
  F32.add a b = S754_infinity false \/
  (okf (F32.add a b) /\
   (Rabs (Fabs (F32.add a b) - (Fabs a + Fabs b)) <= u32 * (Fabs a + Fabs b))%R).
Proof.
  intros a b Ha Hb. pose proof u32_pos as Hu.
  assert (Hpos : forall p e, (0 < IZR (Zpos p) * bpow e)%R).
  { intros p e. pose proof (bpow_pos e). assert (0 < IZR (Zpos p))%R by now apply IZR_lt. nra. }
  destruct a as [sa | sa | | [|] ma ea]; try contradiction;
    destruct b as [sb | sb | | [|] mb eb]; try contradiction; cbn [okf] in Ha, Hb.
  - right. unfold F32.add. destruct sa, sb; cbn [SFadd okf Fabs];
      (split; [exact I|]); rewrite Rplus_0_r, Rminus_0_r, Rabs_R0; lra.
  - right. unfold F32.add. cbn [SFadd okf Fabs]. split; [exact Hb|].
    rewrite Rplus_0_l. unfold Rminus. rewrite Rplus_opp_r, Rabs_R0.
    pose proof (Hpos mb eb). nra.
  - right. unfold F32.add. cbn [SFadd okf Fabs]. split; [exact Ha|].
    rewrite Rplus_0_r. unfold Rminus. rewrite Rplus_opp_r, Rabs_R0.
    pose proof (Hpos ma ea). nra.
  - unfold F32.add, SFadd. cbn [cond_Zopp Fabs].
    set (ez := Z.min ea eb).
    rewrite <- (shl_align_value ma ea ez), <- (shl_align_value mb eb ez) by (unfold ez; lia).
    set (xa := fst (shl_align ma ea ez)). set (xb := fst (shl_align mb eb ez)).
    change (Zpos xa + Zpos xb) with (Zpos (xa + xb)). cbn [binary_normalize].
    replace (IZR (Zpos xa) * bpow ez + IZR (Zpos xb) * bpow ez)%R
      with (IZR (Zpos (xa + xb)) * bpow ez)%R
      by (rewrite Pos2Z.inj_add, plus_IZR; ring).
    destruct (binary_round_spec false (xa + xb) ez ltac:(unfold ez; lia))
      as [[Hinf _] | [[m' [e' [Hr Hbd]]] Herr]].
    + now left.
    + right. split; [|exact Herr]. rewrite Hr. cbn [okf].
      destruct (bounded_inv _ _ m' e' Hbd) as [Hc _].
      unfold fexp, emin, F32.prec, F32.emax in Hc. lia.
Qed.

(** *** Quotients *)

(** The remainder of a division tells where the quotient lies. *)
Lemma new_location_located : forall n q r,
  0 < n -> 0 <= r < n ->
  located q (new_location n r) (IZR q + IZR r / IZR n)%R.
Proof.
  intros n q r Hn Hr.
  assert (HnR : (0 < IZR n)%R) by now apply IZR_lt.
  assert (Hi : (0 < / IZR n)%R) by now apply Rinv_0_lt_compat.
  assert (Hni : (IZR n * / IZR n = 1)%R) by (apply Rinv_r; lra).
  assert (Hr0 : (0 <= IZR r)%R) by (apply IZR_le; lia).
  assert (HrR : (IZR r < IZR n)%R) by (apply IZR_lt; lia).
  unfold Rdiv. set (i := (/ IZR n)%R) in *.
  assert (Hexact : r = 0 -> (IZR q + IZR r * i)%R = IZR q) by (intros ->; lra).
  assert (Hlt : 0 < r -> 2 * r < n ->
                (IZR q < IZR q + IZR r * i < IZR q + / 2)%R).
  { intros H0 H2. apply IZR_lt in H0, H2. rewrite mult_IZR in H2. nra. }
  assert (Hgt : 2 * r > n ->
                (IZR q + / 2 < IZR q + IZR r * i < IZR q + 1)%R).
  { intros H2. apply Z.gt_lt, IZR_lt in H2. rewrite mult_IZR in H2. nra. }
  unfold new_location. destruct (Z.even n) eqn:Hev.
  - unfold new_location_even. destruct (Z.eqb_spec r 0) as [H0 | H0];
      [now apply Hexact|].
    destruct (Z.compare_spec (2 * r) n) as [He | He | He]; cbn [located].
    + apply (f_equal IZR) in He. rewrite mult_IZR in He. nra.
    + apply Hlt; lia.
    + apply Hgt; lia.
  - unfold new_location_odd. destruct (Z.eqb_spec r 0) as [H0 | H0];
      [now apply Hexact|].
    assert (Hodd : Z.odd n = true) by (rewrite <- Z.negb_even, Hev; reflexivity).
    apply Z.odd_spec in Hodd. destruct Hodd as [k Hk].
    destruct (Z.compare_spec (2 * r + 1) n) as [He | He | He]; cbn [located].
    + apply Hlt; lia.
    + apply Hlt; lia.
    + apply Hgt; lia.
Qed.

(** The integer division behind [/]: a located quotient with enough
    digits for the rounding. *)
Lemma div_core_spec : forall ma ea mb eb,
  exists q e' l y,
    SFdiv_core_binary F32.prec F32.emax (Zpos ma) ea (Zpos mb) eb = (q, e', l) /\
    0 <= q /\ located q l y /\ (0 < y)%R /\
    (y * bpow e' = (IZR (Zpos ma) * bpow ea) / (IZR (Zpos mb) * bpow eb))%R /\
    e' <= fexp F32.prec F32.emax (Zdigits2 q + e').
Proof.
  intros ma ea mb eb. unfold SFdiv_core_binary. cbn [Zdigits2].
  set (da := Zpos (digits2_pos ma)). set (db := Zpos (digits2_pos mb)).
  set (e' := Z.min (fexp F32.prec F32.emax (da + ea - (db + eb))) (ea - eb)).
  assert (He' : e' = Z.min (Z.max (da + ea - (db + eb) - 24) (-149)) (ea - eb))
    by reflexivity.
  set (s := ea - eb - e').
  assert (Hs : 0 <= s) by (unfold s; lia).
  set (m' := match s with Zpos _ => Z.shiftl (Zpos ma) s | 0 => Zpos ma | Zneg _ => 0 end).
  assert (Hm' : m' = Zpos ma * 2 ^ s).
  { unfold m'. destruct s as [|p|p] eqn:Es; [cbn; lia | | lia].
    now rewrite Z.shiftl_mul_pow2 by lia. }
  pose proof (Z.pow_pos_nonneg 2 s ltac:(lia) Hs) as Hps.
  pose proof (Z_div_mod m' (Zpos mb) ltac:(lia)) as Hdm.
  destruct (Z.div_eucl m' (Zpos mb)) as [q r]. destruct Hdm as [Hq Hr].
  assert (Hq0 : 0 <= q) by nia.
  exists q, e', (new_location (Zpos mb) r), (IZR q + IZR r / IZR (Zpos mb))%R.
  assert (HbR : (0 < IZR (Zpos mb))%R) by now apply IZR_lt.
  assert (HaR : (0 < IZR (Zpos ma))%R) by now apply IZR_lt.
  assert (Hy : (IZR q + IZR r / IZR (Zpos mb) = IZR m' / IZR (Zpos mb))%R).
  { rewrite Hq, plus_IZR, mult_IZR. field. lra. }
  split; [reflexivity|]. split; [exact Hq0|]. split.
  { apply new_location_located; lia. }
  split.
  { rewrite Hy. apply Rdiv_lt_0_compat; [|exact HbR]. apply IZR_lt. lia. }
  split.
  { rewrite Hy, Hm', mult_IZR, <- bpow_IZR by exact Hs.
    assert (Hea : (bpow ea = bpow s * bpow e' * bpow eb)%R).
    { rewrite <- !bpow_add. f_equal. unfold s. lia. }
    rewrite Hea. pose proof (bpow_pos eb). field. lra. }
  (* the quotient has 24 digits unless the exponent is the smallest *)
  unfold fexp, emin, F32.prec, F32.emax.
  destruct (Z_le_gt_dec e' (-149)) as [Hle | Hgt]; [lia|].
  assert (Hs24 : 23 + db <= da - 1 + s) by (unfold s; lia).
  pose proof (digits2_pos_bounds ma) as Hda. pose proof (digits2_pos_bounds mb) as Hdb.
  fold da in Hda. fold db in Hdb.
  assert (Hda1 : 0 <= da - 1) by (unfold da; lia).
  pose proof (Z.pow_le_mono_r 2 (23 + db) (da - 1 + s) ltac:(lia) Hs24) as Hp.
  rewrite !Z.pow_add_r in Hp by (unfold db; lia).
  assert (Hq23 : 2 ^ 23 <= q).
  { change (2 ^ 23) with 8388608 in *.
    pose proof (Z.pow_pos_nonneg 2 (da - 1) ltac:(lia) Hda1).
    assert (8388608 * Zpos mb < m') by nia. nia. }
  pose proof (Zdigits2_gt q 23 ltac:(lia) Hq23). lia.
Qed.

(** A canonical non-negative [float], or a zero. *)
Definition nonneg32 (x : spec_float) : bool :=
  match x with
  | S754_zero _ => true
  | S754_finite false m e => bounded F32.prec F32.emax m e
  | _ => false
  end.

(** Dividing by a positive number overflows only from [2 ^ 127] on and
    is otherwise off by the relative error [u32] plus the absolute error
    [eta32] at most. *)
Lemma div_spec : forall a mb eb, okf a ->
  (F32.div a (S754_finite false mb eb) = S754_infinity false /\
   (bpow 127 <= Fabs a / (IZR (Zpos mb) * bpow eb))%R) \/
  (nonneg32 (F32.div a (S754_finite false mb eb)) = true /\
   (Rabs (Fabs (F32.div a (S754_finite false mb eb)) - Fabs a / (IZR (Zpos mb) * bpow eb))
    <= u32 * (Fabs a / (IZR (Zpos mb) * bpow eb)) + eta32)%R).
Proof.
  intros a mb eb Ha. pose proof eta32_pos as Heta.
  destruct a as [sa | sa | | [|] ma ea]; try contradiction.
  - right. unfold F32.div. cbn [SFdiv Fabs nonneg32]. split; [reflexivity|].
    unfold Rdiv. rewrite Rmult_0_l, Rmult_0_r, Rminus_0_r, Rabs_R0. lra.
  - unfold F32.div, SFdiv. cbn [Fabs xorb].
    destruct (div_core_spec ma ea mb eb) as [q [e' [l [y [Hc [Hq [Hl [Hy [Hx Hf]]]]]]]]].
    rewrite Hc. rewrite <- Hx.
    destruct (binary_round_aux_spec false q e' l y Hq Hl Hy Hf)
      as [Hinf | [Hres [Herr _]]].
    + now left.
    + right. split; [|exact Herr].
      destruct Hres as [-> | [m' [e2 [-> Hbd]]]]; [reflexivity | exact Hbd].
Qed.

(** ** Bone weights: what the renormalisation does to a tuple *)

(** The real value of a [float]. *)
Definition F2R (x : spec_float) : R :=
  match x with
  | S754_finite s m e => ((if s then -1 else 1) * (IZR (Zpos m) * bpow e))%R
  | _ => 0%R
  end.

Definition sum_values (l : list spec_float) : R :=
  fold_right (fun q s => (F2R q + s)%R) 0%R l.

Definition sum_abs (l : list spec_float) : R :=
  fold_right (fun q s => (Fabs q + s)%R) 0%R l.

Lemma Fabs_nonneg : forall x, (0 <= Fabs x)%R.
Proof.
  intros [s | s | | s m e]; cbn [Fabs]; try lra.
  pose proof (bpow_pos e). assert (0 < IZR (Zpos m))%R by now apply IZR_lt. nra.
Qed.

Lemma sum_abs_nonneg : forall l, (0 <= sum_abs l)%R.
Proof.
  induction l as [|x l IH]; cbn [sum_abs fold_right]; [lra|].
  fold (sum_abs l). pose proof (Fabs_nonneg x). lra.
Qed.

Lemma sum_abs_In : forall l x, In x l -> (Fabs x <= sum_abs l)%R.
Proof.
  induction l as [|y l IH]; intros x Hx; [contradiction|].
  destruct Hx as [-> | Hx]; cbn [sum_abs fold_right]; fold (sum_abs l).
  - pose proof (sum_abs_nonneg l). lra.
  - specialize (IH x Hx). pose proof (Fabs_nonneg y). lra.
Qed.

Lemma nonneg32_okf : forall x, nonneg32 x = true -> okf x.
Proof.
  intros [s | s | | [|] m e] H; try discriminate H; cbn [okf]; [exact I|].
  cbn [nonneg32] in H. destruct (bounded_inv _ _ m e H) as [Hc _].
  unfold fexp, emin, F32.prec, F32.emax in Hc. lia.
Qed.

Lemma nonneg32_F2R : forall x, nonneg32 x = true -> F2R x = Fabs x.
Proof.
  intros [s | s | | [|] m e] H; try discriminate H; cbn [F2R Fabs]; lra.
Qed.

Lemma sum_values_abs : forall l, Forall (fun q => nonneg32 q = true) l ->
  sum_values l = sum_abs l.
Proof.
  induction 1 as [|x l Hx Hl IH]; [reflexivity|].
  cbn [sum_values sum_abs fold_right]. fold (sum_values l) (sum_abs l).
  now rewrite IH, (nonneg32_F2R x Hx).
Qed.

Lemma Rabs_bound : forall x a, (Rabs x <= a)%R -> (- a <= x <= a)%R.
Proof. intros x a. unfold Rabs. destruct (Rcase_abs x); lra. Qed.

Lemma Rabs_intro : forall x a, (- a <= x <= a)%R -> (Rabs x <= a)%R.
Proof. intros x a. unfold Rabs. destruct (Rcase_abs x); lra. Qed.

(** Once the running sum has overflowed it stays infinite. *)
Lemma total_overflow_sticks : forall t, Forall okf t ->
  fold_left F32.add t (S754_infinity false) = S754_infinity false.
Proof.
  induction 1 as [|x l Hx Hl IH]; [reflexivity|]. cbn [fold_left].
  replace (F32.add (S754_infinity false) x) with (S754_infinity false); [exact IH|].
  destruct x as [s | s | | [|] m e]; try contradiction; reflexivity.
Qed.

(** The running sum of [k] terms is within the factor [1 - k u] of the
    exact sum, from both sides. *)
Lemma total_spec : forall t acc S0 k,
  Forall okf t -> okf acc -> (0 <= S0)%R -> 0 <= k ->
  (IZR (k + size t) * u32 <= / 2)%R ->
  ((1 - IZR k * u32) * S0 <= Fabs acc)%R ->
  (Fabs acc * (1 - IZR k * u32) <= S0)%R ->
  fold_left F32.add t acc = S754_infinity false \/
  (okf (fold_left F32.add t acc) /\
   ((1 - IZR (k + size t) * u32) * (S0 + sum_abs t) <= Fabs (fold_left F32.add t acc))%R /\
   (Fabs (fold_left F32.add t acc) * (1 - IZR (k + size t) * u32) <= S0 + sum_abs t)%R).
Proof.
  intros t. pose proof u32_pos as Hu.
  induction t as [|w t IH]; intros acc S0 k Ht Hacc HS0 Hk Hsmall Hlo Hhi.
  - right. cbn [fold_left sum_abs fold_right]. change (size (@nil spec_float)) with 0.
    rewrite Z.add_0_r, Rplus_0_r. auto.
  - inversion Ht as [|w' t' Hw Ht']; subst w' t'.
    assert (Hsz : k + size (w :: t) = k + 1 + size t)
      by (unfold size; cbn [length]; lia).
    rewrite Hsz in *. cbn [fold_left sum_abs fold_right]. fold (sum_abs t).
    pose proof (Fabs_nonneg acc) as HA. pose proof (Fabs_nonneg w) as Ha.
    set (A := Fabs acc) in *. set (a := Fabs w) in *.
    assert (Hkt : (IZR (k + 1) * u32 <= / 2)%R).
    { pose proof (size_nonneg t) as Hn.
      assert (IZR (k + 1) <= IZR (k + 1 + size t))%R by (apply IZR_le; lia). nra. }
    assert (Hk0 : (0 <= IZR k)%R) by (apply IZR_le; lia).
    rewrite plus_IZR in Hkt. change (IZR 1) with 1%R in Hkt.
    assert (Hku : (0 <= IZR k * u32)%R) by nra.
    destruct (add_spec acc w Hacc Hw) as [Hinf | [Hok Herr]].
    + left. rewrite Hinf. now apply total_overflow_sticks.
    + fold A a in Herr. set (A' := Fabs (F32.add acc w)) in *.
      apply Rabs_bound in Herr.
      replace (S0 + (a + sum_abs t))%R with (S0 + a + sum_abs t)%R by ring.
      assert (Hd : (IZR k * u32 + u32 <= / 2)%R) by lra.
      apply IH; try assumption; try lia; try lra;
        fold A'; rewrite plus_IZR; change (IZR 1) with 1%R;
        replace ((IZR k + 1) * u32)%R with (IZR k * u32 + u32)%R by ring;
        set (d := (IZR k * u32)%R) in *; clearbody d A' A a;
        clear IH Hkt Hsmall Hk0;
        pose proof (Rmult_le_pos d a Hku Ha) as Hda.
      * assert (H1 : ((1 - d) * (S0 + a) <= A + a)%R) by lra.
        assert (H2 : ((1 - u32) * ((1 - d) * (S0 + a)) <= (1 - u32) * (A + a))%R).
        { apply Rmult_le_compat_l; lra. }
        assert (H3 : (0 <= u32 * d * (S0 + a))%R).
        { apply Rmult_le_pos; [apply Rmult_le_pos; lra | lra]. }
        lra.
      * assert (H1 : (A' * (1 - (d + u32)) <= (1 + u32) * (A + a) * (1 - (d + u32)))%R).
        { apply Rmult_le_compat_r; lra. }
        assert (H2 : (0 <= (A + a) * (u32 * (d + u32)))%R).
        { apply Rmult_le_pos; [lra | apply Rmult_le_pos; lra]. }
        lra.
Qed.

(** The quotients of a tuple by a positive total [T]: all finite, and
    their sum is off the exact quotient by the relative error [u32] and
    [eta32] per term at most. *)
Lemma quotients_spec : forall mT eT l,
  Forall okf l ->
  (forall w, In w l -> (Fabs w / (IZR (Zpos mT) * bpow eT) <= 2)%R) ->
  Forall (fun q => nonneg32 q = true) (map (fun w => F32.div w (S754_finite false mT eT)) l) /\
  (Rabs (sum_abs (map (fun w => F32.div w (S754_finite false mT eT)) l)
         - sum_abs l / (IZR (Zpos mT) * bpow eT))
   <= u32 * (sum_abs l / (IZR (Zpos mT) * bpow eT)) + IZR (size l) * eta32)%R.
Proof.
  intros mT eT l Hl. set (FT := (IZR (Zpos mT) * bpow eT)%R).
  induction Hl as [|w l Hw Hl IH]; intros Hsmall.
  - split; [constructor|]. cbn [map sum_abs fold_right]. change (size (@nil spec_float)) with 0.
    unfold Rdiv. rewrite !Rmult_0_l, Rmult_0_r, Rminus_0_r, Rabs_R0. lra.
  - destruct IH as [IH1 IH2]; [intros; apply Hsmall; now right|].
    assert (Hsz : IZR (size (w :: l)) = (1 + IZR (size l))%R).
    { unfold size. cbn [length]. rewrite Nat2Z.inj_succ. unfold Z.succ.
      rewrite plus_IZR. change (IZR 1) with 1%R. lra. }
    rewrite Hsz. cbn [map sum_abs fold_right].
    fold (sum_abs l) (sum_abs (map (fun w => F32.div w (S754_finite false mT eT)) l)).
    destruct (div_spec w mT eT Hw) as [[_ Hbig] | [Hq Herr]].
    + exfalso. fold FT in Hbig. specialize (Hsmall w (or_introl eq_refl)).
      pose proof (bpow_le 2 127 ltac:(lia)) as H2.
      change (bpow 2) with (2 * (2 * 1))%R in H2. lra.
    + split; [now constructor|]. fold FT in Herr.
      apply Rabs_bound in Herr. apply Rabs_bound in IH2. apply Rabs_intro.
      unfold Rdiv in *. lra.
Qed.

(** The whole of [double_of_float] is not needed for the test
    [total > 0.0]: a zero is not positive. *)
Lemma total_positive_zero : forall s, total_positive (S754_zero s) = false.
Proof. intros s. reflexivity. Qed.

Lemma u32_value : u32 = (/ 16777216)%R.
Proof.
  unfold u32. apply Rmult_eq_reg_l with (bpow 24); [|pose proof (bpow_pos 24); lra].
  rewrite <- bpow_add. change (24 + -24) with 0. rewrite bpow_0.
  rewrite (bpow_IZR 24) by lia. change (2 ^ 24) with 16777216. lra.
Qed.

Lemma eta32_tiny : (1024 * eta32 <= u32)%R.
Proof.
  unfold eta32, u32. pose proof (bpow_le (-150) (-34) ltac:(lia)) as H.
  replace (-24) with (10 + -34) by lia. rewrite bpow_add.
  rewrite (bpow_IZR 10) by lia. change (2 ^ 10) with 1024.
  pose proof (bpow_pos (-34)). lra.
Qed.

(** The total of a tuple of non-negative weights that has not
    overflowed is a zero or a positive number, within the factor
    [1 - n u] of the exact sum from both sides. *)
Lemma weights_total_spec : forall t,
  size t <= 1000 ->
  Forall (fun w => nonneg32 w = true) t ->
  weights_total t <> S754_infinity false ->
  okf (weights_total t) /\
  ((1 - IZR (size t) * u32) * sum_abs t <= Fabs (weights_total t))%R /\
  (Fabs (weights_total t) * (1 - IZR (size t) * u32) <= sum_abs t)%R.
Proof.
  intros t Hn Ht Hfin.
  assert (Hok : Forall okf t).
  { eapply Forall_impl; [|exact Ht]. intros w Hw. now apply nonneg32_okf. }
  pose proof (size_nonneg t) as Hn0.
  assert (HnR : (0 <= IZR (size t) <= 1000)%R)
    by (split; [apply IZR_le; lia | apply (IZR_le _ 1000); lia]).
  pose proof u32_value as Hu.
  destruct (total_spec t F32.zero 0 0 Hok I ltac:(lra) ltac:(lia)) as [Hinf | [HokT [Hlo Hhi]]].
  { rewrite Z.add_0_l, Hu. lra. }
  { cbn [Fabs F32.zero]. lra. }
  { cbn [Fabs F32.zero]. lra. }
  { contradiction. }
  fold (weights_total t) in HokT, Hlo, Hhi. rewrite Z.add_0_l, Rplus_0_l in Hlo, Hhi.
  auto.
Qed.

Lemma normalize_tuple_sum_facts : forall t,
  size t <= 1000 ->
  Forall (fun w => nonneg32 w = true) t ->
  total_positive (weights_total t) = true ->
  weights_total t <> S754_infinity false ->
  normalize_tuple t = map (fun w => F32.div w (weights_total t)) t /\
  Forall (fun q => nonneg32 q = true) (normalize_tuple t) /\
  (Rabs (sum_values (normalize_tuple t) - 1) <= IZR (size t + 3) * u32)%R.
Proof.
  intros t Hn Ht Hpos Hfin.
  assert (Hok : Forall okf t).
  { eapply Forall_impl; [|exact Ht]. intros w Hw. now apply nonneg32_okf. }
  pose proof (size_nonneg t) as Hn0.
  assert (HnR : (0 <= IZR (size t) <= 1000)%R)
    by (split; [apply IZR_le; lia | apply (IZR_le _ 1000); lia]).
  pose proof u32_value as Hu. pose proof eta32_tiny as Heta. pose proof eta32_pos as Heta0.
  destruct (total_spec t F32.zero 0 0 Hok I ltac:(lra) ltac:(lia)) as [Hinf | [HokT [Hlo Hhi]]].
  { rewrite Z.add_0_l, Hu. lra. }
  { cbn [Fabs F32.zero]. lra. }
  { cbn [Fabs F32.zero]. lra. }
  { contradiction. }
  fold (weights_total t) in HokT, Hlo, Hhi. rewrite Z.add_0_l, Rplus_0_l in Hlo, Hhi.
  unfold normalize_tuple. cbv zeta. rewrite Hpos.
  destruct (weights_total t) as [s | s | | [|] mT eT] eqn:ET; try contradiction.
  { rewrite total_positive_zero in Hpos. discriminate Hpos. }
  cbn [Fabs] in Hlo, Hhi. set (FT := (IZR (Zpos mT) * bpow eT)%R) in *.
  assert (HFT : (0 < FT)%R).
  { unfold FT. pose proof (bpow_pos eT). assert (0 < IZR (Zpos mT))%R by now apply IZR_lt. nra. }
  set (S := sum_abs t) in *. pose proof (sum_abs_nonneg t) as HS. fold S in HS.
  set (d := (IZR (size t) * u32)%R) in *.
  assert (Hd : (0 <= d <= / 16000)%R) by (unfold d; rewrite Hu; lra).
  set (rho := (S / FT)%R).
  assert (Hrho : (rho * FT = S)%R) by (unfold rho; field; lra).
  assert (Hrho0 : (0 <= rho)%R) by (unfold rho; apply Rmult_le_pos; [lra|]; apply Rlt_le, Rinv_0_lt_compat; lra).
  assert (Hrho_hi : ((1 - d) * rho <= 1)%R).
  { apply Rmult_le_reg_r with FT; [lra|]. rewrite Rmult_assoc, Hrho. lra. }
  assert (Hrho_lo : (1 - d <= rho)%R).
  { apply Rmult_le_reg_r with FT; [lra|]. rewrite Hrho. lra. }
  destruct (quotients_spec mT eT t Hok) as [Hq Hsum].
  { intros w Hw. fold FT. pose proof (sum_abs_In t w Hw) as Hle. fold S in Hle.
    pose proof (Fabs_nonneg w).
    assert (Fabs w / FT <= rho)%R.
    { unfold rho, Rdiv. apply Rmult_le_compat_r; [apply Rlt_le, Rinv_0_lt_compat|]; lra. }
    nra. }
  split; [reflexivity|]. split; [exact Hq|].
  rewrite (sum_values_abs _ Hq). fold FT S in Hsum. fold rho in Hsum.
  apply Rabs_bound in Hsum. apply Rabs_intro.
  rewrite plus_IZR. change (IZR 3) with 3%R. fold d.
  replace ((IZR (size t) + 3) * u32)%R with (d + 3 * u32)%R by (unfold d; ring).
  assert (Hne : (IZR (size t) * eta32 <= 1000 * eta32)%R).
  { apply Rmult_le_compat_r; lra. }
  assert (Hrho1 : (rho <= 1 + d + u32)%R) by nra.
  assert (Hur : (u32 * rho <= u32 * (1 + / 100))%R).
  { apply Rmult_le_compat_l; lra. }
  lra.
Qed.

(** X1.  Renormalising a tuple of finite, non-negative weights whose
    [float] total is positive and has not overflowed divides every
    weight by the total; the results are finite and non-negative, and
    their exact sum differs from 1 by at most [(n + 3) * 2^-24] for a
    tuple of [n] weights: less than [2^-21] for the 4 weights of
    WEIGHTS_0 and than [2^-20] for the 8 of WEIGHTS_0 and WEIGHTS_1. *)
Theorem normalized_weights_sum_to_one : forall t,
  size t <= 1000 ->
  Forall (fun w => nonneg32 w = true) t ->
  total_positive (weights_total t) = true ->
  weights_total t <> S754_infinity false ->
  normalize_tuple t = map (fun w => F32.div w (weights_total t)) t /\
  Forall (fun q => nonneg32 q = true) (normalize_tuple t) /\
  (Rabs (sum_values (normalize_tuple t) - 1) <= IZR (size t + 3) * u32)%R.
Proof. exact normalize_tuple_sum_facts. Qed.

Definition example_weights : list spec_float := [f32 1; f32 1; f32 2; f32 0].

Lemma normalized_weights_sum_to_one_witness :
  normalize_tuple example_weights
  = map (fun w => F32.div w (weights_total example_weights)) example_weights /\
  Forall (fun q => nonneg32 q = true) (normalize_tuple example_weights) /\
  (Rabs (sum_values (normalize_tuple example_weights) - 1)
   <= IZR (size example_weights + 3) * u32)%R.
Proof.
  apply normalized_weights_sum_to_one.
  - vm_compute. discriminate.
  - repeat constructor.
  - reflexivity.
  - vm_compute. discriminate.
Defined.

(** An overflowing total is positive as well: every finite weight is
    then divided by infinity and the tuple becomes all zero. *)
Lemma normalize_tuple_overflow :
  weights_total [FLT_MAX; FLT_MAX; f32 0; f32 0] = S754_infinity false /\
  normalize_tuple [FLT_MAX; FLT_MAX; f32 0; f32 0]
  = [F32.zero; F32.zero; F32.zero; F32.zero].
Proof. split; reflexivity. Qed.

(** ** Bone weights: the loop over the buffer *)

Lemma read_tuple_app : forall (tup pre post : list spec_float),
  read_tuple (pre ++ tup ++ post) (size pre) (length tup) = Done tup.
Proof.
  intros tup. induction tup as [|x t IH]; intros pre post; [reflexivity|].
  cbn [length read_tuple app]. rewrite ptr_get_app. cbn [bind].
  replace (pre ++ x :: t ++ post) with ((pre ++ [x]) ++ t ++ post)
    by (rewrite <- app_assoc; reflexivity).
  replace (size pre + 1) with (size (pre ++ [x])) by (rewrite size_app, size_cons, size_nil; lia).
  now rewrite IH.
Qed.

Lemma write_tuple_app : forall (tup t' pre post : list spec_float),
  length t' = length tup ->
  write_tuple (pre ++ tup ++ post) (size pre) t' = Done (pre ++ t' ++ post).
Proof.
  intros tup. induction tup as [|x t IH]; intros t' pre post Hl.
  - destruct t'; [reflexivity | discriminate].
  - destruct t' as [|y t']; [discriminate|]. cbn [length] in Hl.
    cbn [write_tuple app]. rewrite ptr_set_app. cbn [bind].
    replace (pre ++ y :: t ++ post) with ((pre ++ [y]) ++ t ++ post)
      by (rewrite <- app_assoc; reflexivity).
    replace (size pre + 1) with (size (pre ++ [y])) by (rewrite size_app, size_cons, size_nil; lia).
    rewrite IH by lia. now rewrite <- app_assoc.
Qed.

Lemma normalize_tuple_length : forall t, length (normalize_tuple t) = length t.
Proof.
  intros t. unfold normalize_tuple. cbv zeta.
  destruct (total_positive (weights_total t)); [apply length_map | reflexivity].
Qed.

Lemma normalize_weights_from : forall (group : nat) (tuples : list (list spec_float))
    (fuel : nat) (pre : list spec_float),
  (0 < group)%nat ->
  Forall (fun t => length t = group) tuples ->
  (length tuples < fuel)%nat ->
  normalize_weights fuel group (pre ++ concat tuples) (size pre)
  = Done (pre ++ concat (map normalize_tuple tuples)).
Proof.
  intros group tuples. induction tuples as [|t tuples IH]; intros fuel pre Hg Hall Hfuel.
  - destruct fuel as [|fuel]; [cbn in Hfuel; lia|].
    cbn [normalize_weights concat map]. rewrite app_nil_r.
    now rewrite Z.ltb_irrefl.
  - destruct fuel as [|fuel]; [cbn in Hfuel; lia|].
    inversion Hall as [|t0 ts Ht Hts]; subst t0 ts.
    cbn [normalize_weights concat map].
    assert (Hlt : (size pre <? size (pre ++ t ++ concat tuples)) = true).
    { apply Z.ltb_lt. rewrite !size_app. pose proof (size_nonneg (concat tuples)).
      assert (0 < size t) by (unfold size; lia). lia. }
    rewrite Hlt. rewrite <- Ht at 1. rewrite read_tuple_app. cbn [bind].
    assert (Hstep : (if total_positive (weights_total t)
                     then write_tuple (pre ++ t ++ concat tuples) (size pre)
                            (map (fun x => F32.div x (weights_total t)) t)
                     else Done (pre ++ t ++ concat tuples))
                    = Done ((pre ++ normalize_tuple t) ++ concat tuples)).
    { unfold normalize_tuple. cbv zeta.
      destruct (total_positive (weights_total t)).
      - rewrite write_tuple_app by apply length_map. now rewrite <- app_assoc.
      - now rewrite <- app_assoc. }
    rewrite Hstep. cbn [bind].
    replace (size pre + Z.of_nat group) with (size (pre ++ normalize_tuple t)).
    + rewrite IH; [|assumption|assumption|cbn in Hfuel; lia].
      now rewrite <- app_assoc.
    + rewrite size_app. f_equal. unfold size. now rewrite normalize_tuple_length, Ht.
Qed.

(** X2.  On a buffer made of whole tuples the loop renormalises tuple
    by tuple: the result is the concatenation of the renormalised
    tuples, each computed from its own weights only. *)
Theorem normalize_weights_by_tuple : forall (group : nat) (tuples : list (list spec_float))
    (fuel : nat),
  (0 < group)%nat ->
  Forall (fun t => length t = group) tuples ->
  (length tuples < fuel)%nat ->
  normalize_weights fuel group (concat tuples) 0
  = Done (concat (map normalize_tuple tuples)).
Proof.
  intros group tuples fuel Hg Hall Hfuel.
  exact (normalize_weights_from group tuples fuel [] Hg Hall Hfuel).
Qed.

Lemma normalize_weights_by_tuple_witness :
  normalize_weights 3 4 (concat [example_weights; [f32 0; f32 0; f32 0; f32 0]]) 0
  = Done (concat (map normalize_tuple [example_weights; [f32 0; f32 0; f32 0; f32 0]])).
Proof.
  apply (normalize_weights_by_tuple 4 [example_weights; [f32 0; f32 0; f32 0; f32 0]] 3).
  - lia.
  - repeat constructor.
  - cbn. lia.
Defined.

Lemma read_tuple_short : forall (n : nat) (w : list spec_float) (k : Z),
  (0 < n)%nat -> 0 <= k -> size w < k + Z.of_nat n -> read_tuple w k n = Undefined.
Proof.
  induction n as [|n IH]; intros w k Hn Hk Hlt; [lia|].
  cbn [read_tuple]. unfold ptr_get.
  destruct (Z.ltb_spec k 0); [lia|].
  destruct (nth_error w (Z.to_nat k)) eqn:E; [|reflexivity]. cbn [bind].
  assert (Hin : (Z.to_nat k < length w)%nat) by (apply nth_error_Some; congruence).
  unfold size in Hlt.
  rewrite IH; [reflexivity | lia | lia | unfold size; lia].
Qed.

(** X3.  A buffer that ends in a partial tuple is read past its end:
    the whole tuples before it are renormalised, then the reads
    [w[k + j]] of the last iteration leave the allocation. *)
Theorem normalize_weights_partial_tuple : forall (group : nat)
    (tuples : list (list spec_float)) (rest : list spec_float) (fuel : nat),
  Forall (fun t => length t = group) tuples ->
  (0 < length rest < group)%nat ->
  (length tuples < fuel)%nat ->
  normalize_weights fuel group (concat tuples ++ rest) 0 = Undefined.
Proof.
  intros group tuples rest fuel Hall Hrest Hfuel.
  assert (Hgen : forall pre,
            normalize_weights fuel group (pre ++ concat tuples ++ rest) (size pre) = Undefined).
  { revert fuel Hfuel. induction tuples as [|t tuples IH]; intros fuel Hfuel pre.
    - destruct fuel as [|fuel]; [lia|]. cbn [normalize_weights concat app].
      assert (Hr : 0 < size rest < Z.of_nat group) by (unfold size; lia).
      assert (Hlt : (size pre <? size (pre ++ rest)) = true).
      { apply Z.ltb_lt. rewrite size_app. lia. }
      rewrite Hlt. rewrite read_tuple_short; [reflexivity | lia | apply size_nonneg |].
      rewrite size_app. lia.
    - destruct fuel as [|fuel]; [cbn in Hfuel; lia|].
      inversion Hall as [|t0 ts Ht Hts]; subst t0 ts.
      cbn [normalize_weights concat]. rewrite <- app_assoc.
      assert (Hlt : (size pre <? size (pre ++ t ++ concat tuples ++ rest)) = true).
      { apply Z.ltb_lt. rewrite !size_app. pose proof (size_nonneg (concat tuples)).
        pose proof (size_nonneg rest).
        assert (0 < size t) by (unfold size; lia). lia. }
      rewrite Hlt. rewrite <- Ht at 1. rewrite read_tuple_app. cbn [bind].
      assert (Hstep : (if total_positive (weights_total t)
                       then write_tuple (pre ++ t ++ concat tuples ++ rest) (size pre)
                              (map (fun x => F32.div x (weights_total t)) t)
                       else Done (pre ++ t ++ concat tuples ++ rest))
                      = Done ((pre ++ normalize_tuple t) ++ concat tuples ++ rest)).
      { unfold normalize_tuple. cbv zeta.
        destruct (total_positive (weights_total t)).
        - rewrite write_tuple_app by apply length_map. now rewrite <- app_assoc.
        - now rewrite <- app_assoc. }
      rewrite Hstep. cbn [bind].
      replace (size pre + Z.of_nat group) with (size (pre ++ normalize_tuple t)).
      + apply IH; [assumption | cbn in Hfuel; lia].
      + rewrite size_app. f_equal. unfold size. now rewrite normalize_tuple_length, Ht. }
  exact (Hgen []).
Qed.

Lemma normalize_weights_partial_tuple_witness :
  normalize_weights 3 4 (concat [example_weights] ++ [f32 1; f32 1]) 0 = Undefined.
Proof.
  apply (normalize_weights_partial_tuple 4 [example_weights] [f32 1; f32 1] 3).
  - repeat constructor.
  - cbn. lia.
  - cbn. lia.
Defined.

(** ** Triangle winding: index counts that are no multiple of 3 *)

Lemma swap_loop_prefix : forall (A : Type) (n m : nat) (pre l post : list A),
  length l = (3 * n)%nat ->
  swap_loop (n + m) (pre ++ l ++ post) (size pre)
  = swap_loop m (pre ++ swap_triples l ++ post) (size pre + 3 * Z.of_nat n).
Proof.
  intros A n. induction n as [|n IH]; intros m pre l post Hl.
  - destruct l; [|discriminate]. cbn [plus swap_triples app].
    now replace (size pre + 3 * Z.of_nat 0) with (size pre) by lia.
  - destruct l as [|a [|b [|c r]]]; try (simpl in Hl; lia).
    cbn [plus swap_loop swap_triples app].
    assert (E1 : pre ++ a :: b :: c :: r ++ post = (pre ++ [a]) ++ b :: c :: r ++ post)
      by now rewrite <- app_assoc.
    assert (E2 : pre ++ a :: b :: c :: r ++ post = (pre ++ [a; b]) ++ c :: r ++ post)
      by now rewrite <- app_assoc.
    assert (S1 : size pre + 1 = size (pre ++ [a]))
      by (rewrite size_app, size_cons, size_nil; lia).
    assert (S2 : size pre + 2 = size (pre ++ [a; b]))
      by (rewrite size_app, !size_cons, size_nil; lia).
    rewrite E1 at 1. rewrite S1, ptr_get_app. cbn [bind].
    rewrite E2 at 1. rewrite S2, ptr_get_app. cbn [bind].
    rewrite E1, ptr_set_app. cbn [bind].
    replace ((pre ++ [a]) ++ c :: c :: r ++ post) with ((pre ++ [a; c]) ++ c :: r ++ post)
      by (rewrite <- !app_assoc; reflexivity).
    replace (size (pre ++ [a; b])) with (size (pre ++ [a; c]))
      by (rewrite !size_app, !size_cons; reflexivity).
    rewrite ptr_set_app. cbn [bind].
    replace ((pre ++ [a; c]) ++ b :: r ++ post) with ((pre ++ [a; c; b]) ++ r ++ post)
      by (rewrite <- !app_assoc; reflexivity).
    replace (size pre + 3) with (size (pre ++ [a; c; b]))
      by (rewrite size_app, !size_cons, size_nil; lia).
    rewrite IH by (simpl in Hl; lia).
    rewrite <- !app_assoc. cbn [app].
    f_equal. rewrite size_app, !size_cons, size_nil. lia.
Qed.

(** X4.  The winding flip of an index list whose length is no multiple
    of 3 flips the whole triples and then swaps through the raw pointer
    past the end of the vector. *)
Theorem flip_winding_partial_triangle : forall (A : Type) (indices : list A),
  size indices mod 3 <> 0 -> flip_winding indices = Undefined.
Proof.
  intros A indices Hmod. unfold flip_winding.
  pose proof (size_nonneg indices) as Hn.
  pose proof (Z.div_mod (size indices) 3 ltac:(lia)) as Hdm.
  pose proof (Z.mod_pos_bound (size indices) 3 ltac:(lia)) as Hr.
  set (q := size indices / 3) in *. set (r := size indices mod 3) in *.
  assert (Hq : 0 <= q) by (unfold q; apply Z.div_pos; lia).
  assert (Hit : (size indices + 2) / 3 = q + 1).
  { symmetry. apply (Z.div_unique _ 3 (q + 1) (r - 1)); lia. }
  rewrite Hit. replace (Z.to_nat (q + 1)) with (Z.to_nat q + 1)%nat by lia.
  set (l := firstn (3 * Z.to_nat q) indices). set (post := skipn (3 * Z.to_nat q) indices).
  assert (Hsplit : indices = [] ++ l ++ post) by (symmetry; apply firstn_skipn).
  assert (Hl : length l = (3 * Z.to_nat q)%nat).
  { unfold l. rewrite length_firstn. unfold size in Hdm. lia. }
  assert (Hpost : Z.of_nat (length post) = r).
  { unfold post. rewrite length_skipn. unfold size in Hdm. lia. }
  rewrite Hsplit. change 0 with (size (@nil A)).
  rewrite swap_loop_prefix by exact Hl.
  cbn [app swap_loop]. change (size (@nil A)) with 0.
  assert (Hsw : length (swap_triples l) = length l)
    by (apply (swap_triples_length (n := length l)); lia).
  set (k := 0 + 3 * Z.of_nat (Z.to_nat q)).
  assert (Hk : k = size (swap_triples l)) by (unfold k, size; lia).
  destruct post as [|a [|b [|c post']]]; cbn [length] in Hpost.
  - lia.
  - unfold ptr_get. destruct (Z.ltb_spec (k + 1) 0); [reflexivity|].
    rewrite (proj2 (nth_error_None _ _)); [reflexivity|].
    rewrite length_app. cbn [length]. unfold size in Hk. lia.
  - replace (swap_triples l ++ [a; b]) with ((swap_triples l ++ [a]) ++ b :: []) at 1
      by (rewrite <- app_assoc; reflexivity).
    replace (k + 1) with (size (swap_triples l ++ [a]))
      by (rewrite size_app, size_cons, size_nil; lia).
    rewrite ptr_get_app. cbn [bind].
    unfold ptr_get. destruct (Z.ltb_spec (k + 2) 0); [reflexivity|].
    rewrite (proj2 (nth_error_None _ _)); [reflexivity|].
    rewrite length_app. cbn [length]. unfold size in Hk. lia.
  - lia.
Qed.

Lemma flip_winding_partial_triangle_witness :
  flip_winding [0; 1; 2; 3] = Undefined.
Proof.
  apply (flip_winding_partial_triangle Z [0; 1; 2; 3]). vm_compute. discriminate.
Defined.

(** ** Generated indices of an unindexed triangle list *)

(** [k; k + 1; ...; k + n - 1]. *)
Fixpoint iota (k : Z) (n : nat) : list Z :=
  match n with
  | O => []
  | S n => k :: iota (k + 1) n
  end.

Lemma iota_length : forall n k, length (iota k n) = n.
Proof. induction n as [|n IH]; intros k; cbn [iota length]; [reflexivity | now rewrite IH]. Qed.

Lemma ptr_set_at : forall (pre : list Z) (x y : Z) (post : list Z) (i : Z),
  i = size pre -> ptr_set (pre ++ x :: post) i y = Done (pre ++ y :: post).
Proof. intros pre x y post i ->. apply ptr_set_app. Qed.

Lemma generate_loop_spec : forall (n : nat) (pre : list Z),
  generate_loop n (pre ++ repeat 0 (3 * n)) (size pre)
  = Done (pre ++ swap_triples (iota (size pre) (3 * n))).
Proof.
  induction n as [|n IH]; intros pre.
  - cbn. now rewrite app_nil_r.
  - replace (3 * S n)%nat with (S (S (S (3 * n)))) by lia.
    cbn [repeat iota swap_triples generate_loop].
    set (k := size pre). set (z := repeat 0 (3 * n)).
    rewrite (ptr_set_at pre 0 k (0 :: 0 :: z) k eq_refl). cbn [bind].
    replace (pre ++ k :: 0 :: 0 :: z) with ((pre ++ [k]) ++ 0 :: 0 :: z)
      by (rewrite <- app_assoc; reflexivity).
    rewrite (ptr_set_at (pre ++ [k]) 0 (k + 2) (0 :: z) (k + 1))
      by (rewrite size_app, size_cons, size_nil; unfold k; lia).
    cbn [bind].
    replace ((pre ++ [k]) ++ (k + 2) :: 0 :: z) with ((pre ++ [k; k + 2]) ++ 0 :: z)
      by (rewrite <- !app_assoc; reflexivity).
    rewrite (ptr_set_at (pre ++ [k; k + 2]) 0 (k + 1) z (k + 2))
      by (rewrite size_app, !size_cons, size_nil; unfold k; lia).
    cbn [bind].
    replace ((pre ++ [k; k + 2]) ++ (k + 1) :: z) with ((pre ++ [k; k + 2; k + 1]) ++ z)
      by (rewrite <- !app_assoc; reflexivity).
    assert (Hk3 : k + 3 = size (pre ++ [k; k + 2; k + 1]))
      by (rewrite size_app, !size_cons, size_nil; unfold k; lia).
    rewrite Hk3. unfold z. rewrite IH. rewrite <- Hk3. rewrite <- app_assoc. cbn [app].
    replace (k + 1 + 1 + 1) with (k + 3) by lia.
    replace (k + 1 + 1) with (k + 2) by lia. reflexivity.
Qed.

(** X5.  For a vertex count that is a positive multiple of 3 the
    generated indices are 0, 1, ..., vs - 1 with the last two indices of
    every triangle exchanged: exactly what the winding flip makes of the
    identity indices. *)
Theorem generate_indices_flips_identity : forall vs,
  0 < vs -> vs mod 3 = 0 ->
  generate_indices vs = Done (Some (swap_triples (iota 0 (Z.to_nat vs)))) /\
  flip_winding (iota 0 (Z.to_nat vs)) = Done (swap_triples (iota 0 (Z.to_nat vs))).
Proof.
  intros vs Hpos Hmod.
  pose proof (Z.div_mod vs 3 ltac:(lia)) as Hdm. rewrite Hmod in Hdm.
  assert (Hq : 0 <= vs / 3) by (apply Z.div_pos; lia).
  split.
  - unfold generate_indices. destruct (Z.eqb_spec vs 0); [lia|].
    assert (Hit : (vs + 2) / 3 = vs / 3).
    { symmetry. apply (Z.div_unique _ 3 (vs / 3) 2); lia. }
    rewrite Hit.
    replace (Z.to_nat vs) with (3 * Z.to_nat (vs / 3))%nat by lia.
    pose proof (generate_loop_spec (Z.to_nat (vs / 3)) []) as H.
    cbn [app] in H. change (size (@nil Z)) with 0 in H. rewrite H. reflexivity.
  - apply flip_winding_spec. unfold size. rewrite iota_length. rewrite Z2Nat.id by lia.
    exact Hmod.
Qed.

Lemma generate_indices_flips_identity_witness :
  generate_indices 6 = Done (Some (swap_triples (iota 0 (Z.to_nat 6)))) /\
  flip_winding (iota 0 (Z.to_nat 6)) = Done (swap_triples (iota 0 (Z.to_nat 6))).
Proof. apply (generate_indices_flips_identity 6); [lia | reflexivity]. Defined.

(** ** Animation: parsed channels against the sampler *)

(** X6.  A CATMULLROMSPLINE weight channel that the parser accepts
    (3 values per key and blend shape) is never interpolated: the
    sampler's size test fails on each of its tracks, so each track is
    sampled as its first stored value at every time. *)
Theorem catmull_rom_weight_tracks_are_constant : forall keys weights wc,
  0 < wc -> 0 < size keys -> size weights = size keys * 3 * wc ->
  exists tracks,
    parse_weight_tracks INTERP_CATMULLROMSPLINE keys weights wc = Done (Some tracks) /\
    size tracks = wc /\
    Forall (fun ch => exists v, get (values ch) 0 = Done v /\
                      forall p_time,
                        _interpolate_track (times ch) (values ch) p_time (interpolation ch)
                        = Done v) tracks.
Proof.
  intros keys weights wc Hwc Hk Hsz. unfold parse_weight_tracks.
  cbn [output_count]. rewrite Hsz, Z.eqb_refl. cbn [negb].
  rewrite Z.quot_div_nonneg by nia.
  replace (size keys * 3 * wc / wc) with (size keys * 3) by (rewrite Z.div_mul; lia).
  destruct (weight_tracks_loop_total (Z.to_nat wc) INTERP_CATMULLROMSPLINE keys weights
              (wc := wc) (wlen := size keys * 3) (k := 0))
    as [tracks [-> [Hlen Hall]]]; try lia.
  cbn [bind]. exists tracks. split; [reflexivity|]. split; [unfold size; lia|].
  eapply Forall_impl; [|exact Hall].
  intros ch [Hi [Ht Hv]].
  destruct (get_in_range (values ch) (i := 0)) as [v [Hg _]]; [lia|].
  exists v. split; [exact Hg|]. intros p_time.
  unfold _interpolate_track, values_correspond. rewrite Hi, Ht, Hv.
  destruct (Z.eqb_spec (size keys * 3) 0); [lia|].
  rewrite Z.quot_1_r.
  destruct (Z.eqb_spec (size keys) (size keys * 3)); [lia|]. cbn [negb]. exact Hg.
Qed.

Lemma catmull_rom_weight_tracks_are_constant_witness :
  exists tracks,
    parse_weight_tracks INTERP_CATMULLROMSPLINE spline_times
      (spline_values ++ spline_values) 2 = Done (Some tracks) /\
    size tracks = 2 /\
    Forall (fun ch => exists v, get (values ch) 0 = Done v /\
                      forall p_time,
                        _interpolate_track (times ch) (values ch) p_time (interpolation ch)
                        = Done v) tracks.
Proof.
  apply (catmull_rom_weight_tracks_are_constant spline_times
           (spline_values ++ spline_values) 2); [lia | reflexivity | reflexivity].
Defined.

(** ** Animation: sampling outside the keys *)

(** A key list in non-decreasing order. *)
Fixpoint keys_sorted (keys : list spec_float) : bool :=
  match keys with
  | a :: ((b :: _) as r) => SFleb a b && keys_sorted r
  | _ => true
  end.

Lemma leb_trans_not_before : forall a b p,
  SFleb a b = true -> SFleb b p = true -> F32.ltb p a = false.
Proof.
  intros a b p Hab Hbp. unfold F32.ltb, SFltb, SFleb in *.
  destruct a as [sa | sa | | sa ma ea], b as [sb | sb | | sb mb eb],
           p as [sp | sp | | sp mp ep];
    try destruct sa; try destruct sb; try destruct sp;
    cbn in Hab, Hbp |- *; try discriminate; try reflexivity;
    order_cases; try discriminate; try reflexivity;
    exfalso; lia.
Qed.

Lemma leb_refl_not_before : forall b p, SFleb b p = true -> F32.ltb p b = false.
Proof.
  intros b p Hbp. unfold F32.ltb, SFltb, SFleb in *.
  destruct b as [sb | sb | | sb mb eb], p as [sp | sp | | sp mp ep];
    try destruct sb; try destruct sp;
    cbn in Hbp |- *; try discriminate; try reflexivity;
    order_cases; try discriminate; try reflexivity;
    exfalso; lia.
Qed.

(** No key of a sorted list is later than a time at or after its last key. *)
Lemma sorted_keys_not_after : forall ks last p,
  keys_sorted (ks ++ [last]) = true -> SFleb last p = true ->
  forall x, In x (ks ++ [last]) -> F32.ltb p x = false.
Proof.
  intros ks. induction ks as [|a ks IH]; intros last p Hs Hp x Ht.
  - destruct Ht as [<- | []]. now apply leb_refl_not_before.
  - assert (Hal : SFleb a last = true /\ keys_sorted (ks ++ [last]) = true).
    { clear IH Ht. revert a Hs. induction ks as [|b ks IHk]; intros a Hs.
      - cbn in Hs. apply andb_true_iff in Hs. destruct Hs as [H1 _]. now split.
      - cbn [app keys_sorted] in Hs. apply andb_true_iff in Hs. destruct Hs as [H1 H2].
        split; [|exact H2].
        destruct (IHk b H2) as [Hbl _].
        (* a <= b <= last *)
        assert (Hn : F32.ltb last a = false) by (apply (leb_trans_not_before a b last); assumption).
        unfold F32.ltb, SFltb in Hn. unfold SFleb in *.
        destruct a as [sa | sa | | sa ma ea], b as [sb | sb | | sb mb eb],
                 last as [sl | sl | | sl ml el];
          try destruct sa; try destruct sb; try destruct sl;
          cbn in H1, Hbl, Hn |- *; try discriminate; try reflexivity;
          order_cases; try discriminate; try reflexivity; exfalso; lia. }
    destruct Hal as [Hal Hs'].
    destruct Ht as [<- | Ht].
    + apply (leb_trans_not_before a last p); assumption.
    + apply (IH last p Hs' Hp x Ht).
Qed.

Lemma find_idx_all : forall ks p idx,
  (forall x, In x ks -> F32.ltb p x = false) ->
  find_idx ks p idx = idx + size ks.
Proof.
  intros ks. induction ks as [|a ks IH]; intros p idx H; cbn [find_idx].
  - change (size (@nil spec_float)) with 0. lia.
  - rewrite (H a (or_introl eq_refl)). rewrite IH by (intros; apply H; now right).
    rewrite size_cons. lia.
Qed.

(** X7.  Sampling clamps to the end keys.  With one value per key
    (LINEAR, STEP) or three (CUBICSPLINE), a time before the first key
    gives the first key's value; with the keys in non-decreasing order a
    time at or after the last key gives the last key's value. *)
Theorem sampling_clamps_to_end_keys :
  forall (T : Type) (I : SceneFormatImporterGLTFInterpolate T)
         (interp : Interpolation) (first_key : spec_float) (keys : list spec_float)
         (p_values : list T) (p_time : spec_float),
    interp <> INTERP_CATMULLROMSPLINE ->
    size p_values = size (first_key :: keys) * output_count interp ->
    (F32.ltb p_time first_key = true ->
       _interpolate_track (first_key :: keys) p_values p_time interp
       = get p_values (if output_count interp =? 3 then 1 else 0)) /\
    (forall front last, first_key :: keys = front ++ [last] ->
       keys_sorted (first_key :: keys) = true -> SFleb last p_time = true ->
       _interpolate_track (first_key :: keys) p_values p_time interp
       = get p_values (if output_count interp =? 3
                       then (size (first_key :: keys) - 1) * 3 + 1
                       else size (first_key :: keys) - 1)).
Proof.
  intros T I interp k0 keys p_values p_time Hi Hsz.
  pose proof (size_nonneg keys) as Hk.
  assert (Hn : 0 < size (k0 :: keys)) by (rewrite size_cons; lia).
  assert (Htrack : _interpolate_track (k0 :: keys) p_values p_time interp
                   = sample_track (k0 :: keys) p_values p_time interp).
  { unfold _interpolate_track, values_correspond. rewrite Hsz.
    destruct interp; try contradiction; cbn [output_count]; rewrite ?Z.mul_1_r.
    - destruct (Z.eqb_spec (size (k0 :: keys)) 0); [lia|].
      now rewrite Z.quot_1_r, Z.eqb_refl.
    - destruct (Z.eqb_spec (size (k0 :: keys)) 0); [lia|].
      now rewrite Z.quot_1_r, Z.eqb_refl.
    - destruct (Z.eqb_spec (size (k0 :: keys) * 3) 0); [lia|].
      rewrite Z.quot_mul by lia. now rewrite Z.eqb_refl. }
  rewrite Htrack. split.
  - intros Hbefore. unfold sample_track. cbn [find_idx]. rewrite Hbefore.
    destruct interp; try contradiction; reflexivity.
  - intros front last Hsplit Hsorted Hlast.
    unfold sample_track.
    rewrite find_idx_all.
    2:{ rewrite Hsplit in Hsorted |- *. now apply sorted_keys_not_after with (last := last). }
    destruct interp; try contradiction; cbn [output_count Z.eqb];
      (destruct (Z.eqb_spec (-1 + size (k0 :: keys)) (-1)); [lia|]);
      (destruct (Z.leb_spec (size (k0 :: keys) - 1) (-1 + size (k0 :: keys))); [|lia]);
      reflexivity.
Qed.

Lemma sampling_clamps_to_end_keys_witness :
  _interpolate_track spline_times spline_values (f32 (-1)) INTERP_CUBIC_SPLINE
    = get spline_values 1 /\
  _interpolate_track spline_times spline_values (f32 2) INTERP_CUBIC_SPLINE
    = get spline_values ((size spline_times - 1) * 3 + 1).
Proof.
  assert (Hne : INTERP_CUBIC_SPLINE <> INTERP_CATMULLROMSPLINE) by discriminate.
  split.
  - exact (proj1 (sampling_clamps_to_end_keys spec_float real_interpolate
                    INTERP_CUBIC_SPLINE (f32 0) [f32 1] spline_values (f32 (-1))
                    Hne eq_refl) eq_refl).
  - exact (proj2 (sampling_clamps_to_end_keys spec_float real_interpolate
                    INTERP_CUBIC_SPLINE (f32 0) [f32 1] spline_values (f32 2)
                    Hne eq_refl) [f32 0] (f32 1) eq_refl eq_refl eq_refl).
Defined.

(** ** Skins: the highest node of a subset *)

(** X9.  [_find_highest_node] answers -1 for an empty subset; for a
    subset of existing nodes it answers a member of least height. *)
Theorem find_highest_node_is_minimal : forall (nodes : list FBXNode) (sub : list Z),
  wf_nodes nodes = true ->
  (forall x, In x sub -> valid nodes x) ->
  exists b, _find_highest_node nodes sub = Done b /\
    (sub = [] -> b = -1) /\
    (sub <> [] -> In b sub /\ forall y, In y sub -> height_of nodes b <= height_of nodes y).
Proof.
  intros nodes sub Hwf Hv. destruct sub as [|x0 sub].
  - exists (-1). split; [reflexivity|]. split; [reflexivity | intros H; now contradiction H].
  - destruct (find_highest_spec nodes Hwf (x0 :: sub) x0 Hv (or_introl eq_refl))
      as [b [Hb [Hin Hmin]]].
    exists b. split; [exact Hb|]. split; [discriminate | intros _; now split].
Qed.

Lemma find_highest_node_is_minimal_witness :
  exists b, _find_highest_node (scenario_nodes 0 1 2 3 0 false) [2; 1; 3] = Done b /\
    ([2; 1; 3] = [] -> b = -1) /\
    ([2; 1; 3] <> [] ->
     In b [2; 1; 3] /\
     forall y, In y [2; 1; 3] ->
       height_of (scenario_nodes 0 1 2 3 0 false) b
       <= height_of (scenario_nodes 0 1 2 3 0 false) y).
Proof.
  apply (find_highest_node_is_minimal (scenario_nodes 0 1 2 3 0 false) [2; 1; 3]).
  - reflexivity.
  - intros x Hx. unfold valid. cbn in Hx. change (size (scenario_nodes 0 1 2 3 0 false)) with 4.
    lia.
Defined.

(** ** Skins: what [_verify_skin] accepts *)

Lemma roots_differ_complete : forall l stored pre,
  size l = size stored ->
  roots_differ l (pre ++ stored) (size pre) = Done (negb (if list_eq_dec Z.eq_dec l stored then true else false)).
Proof.
  induction l as [|r l IH]; intros stored pre Hsz.
  - destruct stored; [|unfold size in Hsz; cbn in Hsz; lia].
    cbn [roots_differ]. destruct (list_eq_dec Z.eq_dec [] []); [reflexivity | congruence].
  - destruct stored as [|s stored]; [unfold size in Hsz; cbn in Hsz; lia|].
    cbn [roots_differ]. rewrite get_app_mid. cbn [bind].
    destruct (Z.eqb_spec r s) as [-> | Hne]; cbn [negb].
    + replace (pre ++ s :: stored) with ((pre ++ [s]) ++ stored)
        by (rewrite <- app_assoc; reflexivity).
      replace (size pre + 1) with (size (pre ++ [s]))
        by (rewrite size_app, size_cons, size_nil; lia).
      rewrite IH by (rewrite !size_cons in Hsz; lia).
      destruct (list_eq_dec Z.eq_dec l stored) as [-> | Hn];
        destruct (list_eq_dec Z.eq_dec (s :: stored) (s :: stored)) as [|Hn'];
        try reflexivity; try congruence.
      destruct (list_eq_dec Z.eq_dec (s :: l) (s :: stored)) as [E |]; [|reflexivity].
      inversion E. contradiction.
    + destruct (list_eq_dec Z.eq_dec (r :: l) (s :: stored)) as [E |]; [|reflexivity].
      inversion E. contradiction.
Qed.

Lemma parents_differ_complete : forall nodes p rs,
  (forall r, In r rs -> valid nodes r) ->
  exists b, parents_differ nodes p rs = Done b /\
            (b = false <-> forall r, In r rs -> parent_of nodes r = p).
Proof.
  intros nodes p. induction rs as [|r rs IH]; intros Hv; cbn [parents_differ].
  - exists false. split; [reflexivity|]. split; [intros _ r [] | reflexivity].
  - destruct (valid_node_at _ _ (Hv r (or_introl eq_refl))) as [nd [Hnd ->]]. cbn [bind].
    assert (Hp : parent_of nodes r = parent nd) by (unfold parent_of; now rewrite Hnd).
    destruct (Z.eqb_spec (parent nd) p) as [E | Hne]; cbn [negb].
    + destruct IH as [b [-> Hb]]; [intros; apply Hv; now right|].
      exists b. split; [reflexivity|]. rewrite Hb. split.
      * intros H r' [<- | Hr']; [congruence | now apply H].
      * intros H r' Hr'. apply H. now right.
    + exists true. split; [reflexivity|]. split; [discriminate|].
      intros H. exfalso. apply Hne. rewrite <- Hp. apply H. now left.
Qed.

Lemma sorted_le_nodup_lt : forall l,
  StronglySorted Z.le l -> NoDup l -> StronglySorted Z.lt l.
Proof.
  induction 1 as [|a l Hs IH Hall]; intros Hnd; constructor.
  - apply IH. now inversion Hnd.
  - inversion Hnd as [|a' l' Hnin Hnd']; subst.
    rewrite Forall_forall in *. intros x Hx. specialize (Hall x Hx).
    assert (a <> x) by (intros ->; contradiction). lia.
Qed.

Lemma sorted_lt_le_nodup : forall l,
  StronglySorted Z.lt l -> StronglySorted Z.le l /\ NoDup l.
Proof.
  induction 1 as [|a l Hs [IH1 IH2] Hall].
  - split; constructor.
  - split; constructor; try assumption.
    + eapply Forall_impl; [|exact Hall]. intros; lia.
    + rewrite Forall_forall in Hall. intros Hin. specialize (Hall a Hin). lia.
Qed.

Lemma verify_skin_characterised : forall (nodes : list FBXNode) (skin : FBXSkin),
  wf_nodes nodes = true ->
  (forall x, In x (skin_nodes skin) -> valid nodes x) ->
  (_verify_skin nodes skin = Done OK \/ _verify_skin nodes skin = Done FAILED) /\
  (_verify_skin nodes skin = Done OK <->
   roots skin <> [] /\
   StronglySorted Z.lt (roots skin) /\
   (forall r, In r (roots skin) <-> top nodes (skin_nodes skin) r) /\
   (forall r1 r2, In r1 (roots skin) -> In r2 (roots skin) ->
                  parent_of nodes r1 = parent_of nodes r2)).
Proof.
  intros nodes skin Hwf Hv.
  destruct (compute_roots_spec nodes skin Hwf Hv) as [l [Hcr [Hnd [Htop _]]]].
  fold (skin_nodes skin) in Htop.
  assert (Hsl : StronglySorted Z.lt (sort l)).
  { apply sorted_le_nodup_lt; [apply sort_sorted|].
    eapply Permutation_NoDup; [apply Permutation_sym, sort_perm | exact Hnd]. }
  assert (Hin : forall r, In r (sort l) <-> top nodes (skin_nodes skin) r).
  { intros r. rewrite <- Htop. split; apply Permutation_in;
      [apply sort_perm | apply Permutation_sym, sort_perm]. }
  assert (Hvalid : forall r, In r (sort l) -> valid nodes r).
  { intros r Hr. apply Hv. apply Hin in Hr. apply Hr. }
  assert (Hiff : forall stored,
            (stored <> [] /\ StronglySorted Z.lt stored /\
             (forall r, In r stored <-> top nodes (skin_nodes skin) r)) <->
            (sort l <> [] /\ sort l = stored)).
  { intros stored. split.
    - intros [Hne [Hs Hset]].
      assert (E : sort l = stored).
      { destruct (sorted_lt_le_nodup _ Hsl) as [H1 H2].
        destruct (sorted_lt_le_nodup _ Hs) as [H3 H4].
        apply sorted_perm_eq; try assumption.
        apply NoDup_Permutation; try assumption.
        intros x. now rewrite Hin, Hset. }
      split; [now rewrite E | exact E].
    - intros [Hne <-]. auto. }
  unfold _verify_skin. rewrite Hcr. cbn [bind].
  set (out := sort l) in *. set (stored := roots skin) in *.
  pose proof (size_nonneg out) as Ho.
  destruct (Z.eqb_spec (size out) 0) as [Hz | Hnz].
  { split; [now right|]. split; [discriminate|].
    intros [H1 [H2 [H3 _]]]. exfalso.
    destruct (proj1 (Hiff stored) (conj H1 (conj H2 H3))) as [Hne _].
    destruct out; [now apply Hne | unfold size in Hz; cbn in Hz; lia]. }
  assert (Hone : out <> []) by (intros E; rewrite E in Hnz; now apply Hnz).
  destruct (Z.eqb_spec (size out) (size stored)) as [Hsz | Hsz]; cbn [negb].
  2:{ split; [now right|]. split; [discriminate|].
      intros [H1 [H2 [H3 _]]]. exfalso.
      destruct (proj1 (Hiff stored) (conj H1 (conj H2 H3))) as [_ E]. now rewrite E in Hsz. }
  pose proof (roots_differ_complete out stored [] Hsz) as Hrd.
  cbn [app] in Hrd. change (size (@nil Z)) with 0 in Hrd. rewrite Hrd. cbn [bind].
  destruct (list_eq_dec Z.eq_dec out stored) as [E | Hne]; cbn [negb].
  2:{ split; [now right|]. split; [discriminate|].
      intros [H1 [H2 [H3 _]]]. exfalso.
      destruct (proj1 (Hiff stored) (conj H1 (conj H2 H3))) as [_ E]. contradiction. }
  assert (Hfirst : stored <> [] /\ StronglySorted Z.lt stored /\
                   (forall r, In r stored <-> top nodes (skin_nodes skin) r))
    by (apply Hiff; now split).
  destruct Hfirst as [F1 [F2 F3]].
  destruct (Z.eqb_spec (size out) 1) as [H1 | H1].
  { split; [now left|]. split; [|reflexivity]. intros _.
    split; [assumption|]. split; [assumption|]. split; [assumption|].
    rewrite <- E. intros r1 r2 Hr1 Hr2.
    destruct out as [|a [|b out']]; [contradiction | | unfold size in H1; cbn in H1; lia].
    destruct Hr1 as [<- | []], Hr2 as [<- | []]. reflexivity. }
  destruct out as [|r0 rest] eqn:Eout; [contradiction|].
  change (get (r0 :: rest) 0) with (Done r0). cbn [bind tl].
  destruct (valid_node_at _ _ (Hvalid r0 (or_introl eq_refl))) as [nd0 [Hnd0 ->]]. cbn [bind].
  assert (Hp0 : parent_of nodes r0 = parent nd0) by (unfold parent_of; now rewrite Hnd0).
  destruct (parents_differ_complete nodes (parent nd0) rest) as [b [-> Hb]].
  { intros r Hr. apply Hvalid. now right. }
  cbn [bind]. destruct b.
  - split; [now right|]. split; [discriminate|].
    intros [_ [_ [_ Hpar]]]. exfalso.
    assert (Hall : forall r, In r rest -> parent_of nodes r = parent nd0).
    { intros r Hr. rewrite <- Hp0. apply Hpar; rewrite <- E; [now right | now left]. }
    apply Hb in Hall. discriminate Hall.
  - split; [now left|]. split; [|reflexivity]. intros _.
    split; [assumption|]. split; [assumption|]. split; [assumption|].
    assert (Hall : forall r, In r (r0 :: rest) -> parent_of nodes r = parent nd0).
    { intros r [<- | Hr]; [exact Hp0 | now apply (proj1 Hb eq_refl)]. }
    rewrite <- E. intros r1 r2 Hr1 Hr2. now rewrite (Hall r1 Hr1), (Hall r2 Hr2).
Qed.

Lemma verify_skin_accepts_exactly_aux : forall (nodes : list FBXNode) (skin : FBXSkin),
  wf_nodes nodes = true ->
  (forall x, In x (skin_nodes skin) -> valid nodes x) ->
  roots skin <> [] /\
  StronglySorted Z.lt (roots skin) /\
  (forall r, In r (roots skin) <-> top nodes (skin_nodes skin) r) /\
  (forall r1 r2, In r1 (roots skin) -> In r2 (roots skin) ->
                 parent_of nodes r1 = parent_of nodes r2) ->
  _verify_skin nodes skin = Done OK.
Proof.
  intros nodes skin Hwf Hv H.
  now apply (proj2 (verify_skin_characterised nodes skin Hwf Hv)).
Qed.

(** X11.  On a well-formed hierarchy [_verify_skin] never crashes, and
    it accepts a skin exactly when the stored roots are, in strictly
    ascending order, the skin nodes whose parent is no skin node, there
    is at least one, and they all have the same parent. *)
Theorem verify_skin_accepts_exactly : forall (nodes : list FBXNode) (skin : FBXSkin),
  wf_nodes nodes = true ->
  (forall x, In x (skin_nodes skin) -> valid nodes x) ->
  (_verify_skin nodes skin = Done OK \/ _verify_skin nodes skin = Done FAILED) /\
  (_verify_skin nodes skin = Done OK <->
   roots skin <> [] /\
   StronglySorted Z.lt (roots skin) /\
   (forall r, In r (roots skin) <-> top nodes (skin_nodes skin) r) /\
   (forall r1 r2, In r1 (roots skin) -> In r2 (roots skin) ->
                  parent_of nodes r1 = parent_of nodes r2)).
Proof.
  exact verify_skin_characterised.
Qed.

Lemma verify_skin_accepts_exactly_witness :
  _verify_skin (scenario_nodes 0 1 2 3 0 false)
    {| joints := [0; 1; 2]; non_joints := [3]; roots := [0] |} = Done OK.
Proof.
  destruct (verify_skin_accepts_exactly (scenario_nodes 0 1 2 3 0 false)
              {| joints := [0; 1; 2]; non_joints := [3]; roots := [0] |}) as [[H | H] _].
  - reflexivity.
  - intros x Hx. unfold valid. cbn in Hx. change (size (scenario_nodes 0 1 2 3 0 false)) with 4.
    lia.
  - exact H.
  - vm_compute in H. discriminate H.
Defined.

(** ** Skins: expansion followed by verification *)

(** X12.  For every skin with at least one joint on a well-formed
    hierarchy, single-rooted or not, [_expand_skin] succeeds, keeps
    every joint among the skin nodes, stores as roots exactly the skin
    nodes whose parent is no skin node, and the skin it leaves passes
    [_verify_skin]: the two calls of [_parse_skins] cannot fail. *)
Theorem expanded_skin_passes_verification :
  forall (nodes : list FBXNode) (skin : FBXSkin) (fuel : nat),
    wf_nodes nodes = true ->
    fresh_skin nodes skin = true ->
    deep_enough fuel nodes = true ->
    joints skin <> [] ->
    exists skin',
      _expand_skin fuel nodes skin = Done (OK, skin') /\
      (forall j, In j (joints skin) -> In j (skin_nodes skin')) /\
      (forall r, In r (roots skin') <-> top nodes (skin_nodes skin') r) /\
      _verify_skin nodes skin' = Done OK.
Proof.
  intros nodes skin fuel Hwf Hfresh Hdeep Hj.
  destruct (multiroot_spec nodes Hwf fuel skin Hfresh Hdeep)
    as [skin1 [rs1 [Hmr [Hv1 [Hmono Hshare]]]]].
  set (S1 := skin_nodes skin1) in *.
  assert (HS1 : exists x, In x S1).
  { destruct (joints skin) as [|j js] eqn:E; [contradiction|].
    exists j. apply Hmono. unfold skin_nodes. rewrite E. now left. }
  destruct HS1 as [x0 Hx0].
  destruct (compute_roots_spec nodes skin1 Hwf Hv1) as [l [Hcr [Hnd [Htop _]]]].
  fold (skin_nodes skin1) in Htop. fold S1 in Htop.
  destruct (exists_top nodes Hwf S1 (Z.to_nat (height_of nodes x0)) x0 Hv1) as [t0 Ht0].
  { pose proof (height_nonneg nodes Hwf x0). lia. }
  { assumption. }
  set (h := height_of nodes t0).
  assert (Htops : forall r, In r (sort l) ->
                    valid nodes r /\ parent_of nodes r = parent_of nodes t0
                    /\ height_of nodes r = h).
  { intros r Hr. apply (Permutation_in _ (sort_perm l)) in Hr. apply Htop in Hr.
    assert (Hrv : valid nodes r) by (apply Hv1, Hr).
    assert (Hp : parent_of nodes r = parent_of nodes t0) by now apply Hshare.
    split; [assumption|]. split; [assumption|].
    apply (same_parent_same_height nodes Hwf); [assumption | apply Hv1, Ht0 | assumption]. }
  assert (Hclosed : forall c, In c S1 -> h < height_of nodes c -> In (parent_of nodes c) S1).
  { intros c Hc Hh. destruct (in_dec Z.eq_dec (parent_of nodes c) S1) as [|Hn]; [assumption|].
    exfalso. assert (Hct : top nodes S1 c) by now split.
    pose proof (Hshare c t0 Hct Ht0) as Hp.
    pose proof (same_parent_same_height nodes Hwf c t0 (Hv1 _ Hc) (Hv1 _ (proj1 Ht0)) Hp).
    unfold h in Hh. lia. }
  destruct (capture_from_roots_spec nodes Hwf S1 h Hclosed fuel (sort l) skin1)
    as [skin2 [Hcap Hsame]].
  { intros y. reflexivity. }
  { intros r Hr. destruct (Htops r Hr) as [H1 [_ H3]]. split; [assumption | lia]. }
  { intros y Hy. now apply deep_enough_height. }
  assert (Hlne : sort l <> []).
  { intros E. assert (Hin : In t0 (sort l))
      by (apply (Permutation_in _ (Permutation_sym (sort_perm l))), Htop, Ht0).
    rewrite E in Hin. contradiction. }
  assert (Hv2 : forall x, In x (skin_nodes (set_roots skin2 (sort l))) -> valid nodes x).
  { intros x Hx. apply Hv1. now apply Hsame. }
  assert (Hroots : forall r, In r (roots (set_roots skin2 (sort l)))
                             <-> top nodes (skin_nodes (set_roots skin2 (sort l))) r).
  { intros r. cbn [roots set_roots].
    change (skin_nodes (set_roots skin2 (sort l))) with (skin_nodes skin2).
    split.
    - intros Hr. apply (Permutation_in _ (sort_perm l)), Htop in Hr.
      revert Hr. apply top_ext. intros y. symmetry. apply Hsame.
    - intros Hr. apply (Permutation_in _ (Permutation_sym (sort_perm l))), Htop.
      revert Hr. apply top_ext. intros y. apply Hsame. }
  exists (set_roots skin2 (sort l)).
  split; [|split; [|split]].
  - unfold _expand_skin. rewrite Hmr. cbn [bind]. rewrite Hcr. cbn [bind].
    rewrite Hcap. reflexivity.
  - intros j Hjn. change (skin_nodes (set_roots skin2 (sort l))) with (skin_nodes skin2).
    apply Hsame, Hmono. unfold skin_nodes. apply in_or_app. now left.
  - exact Hroots.
  - apply (verify_skin_accepts_exactly_aux nodes (set_roots skin2 (sort l)) Hwf Hv2).
    cbn [roots set_roots]. split; [exact Hlne|]. split.
    + apply sorted_le_nodup_lt; [apply sort_sorted|].
      eapply Permutation_NoDup; [apply Permutation_sym, sort_perm | exact Hnd].
    + split; [exact Hroots|].
      intros r1 r2 Hr1 Hr2.
      destruct (Htops r1 Hr1) as [_ [P1 _]]. destruct (Htops r2 Hr2) as [_ [P2 _]].
      now rewrite P1, P2.
Qed.

Lemma expanded_skin_passes_verification_witness :
  exists skin',
    _expand_skin 5 (scenario_nodes 0 1 2 3 0 false)
      {| joints := [2]; non_joints := []; roots := [] |} = Done (OK, skin') /\
    (forall j, In j [2] -> In j (skin_nodes skin')) /\
    (forall r, In r (roots skin')
               <-> top (scenario_nodes 0 1 2 3 0 false) (skin_nodes skin') r) /\
    _verify_skin (scenario_nodes 0 1 2 3 0 false) skin' = Done OK.
Proof.
  apply (expanded_skin_passes_verification (scenario_nodes 0 1 2 3 0 false)
           {| joints := [2]; non_joints := []; roots := [] |} 5).
  - reflexivity.
  - reflexivity.
  - reflexivity.
  - discriminate.
Defined.

(** X13.  A skin without joints is expanded to a skin without roots,
    which [_verify_skin] refuses: on such a skin the second call of
    [_parse_skins] fails whatever the nodes are. *)
Theorem empty_skin_fails_verification :
  forall (nodes : list FBXNode) (fuel : nat) (stored : list Z),
    _expand_skin fuel nodes {| joints := []; non_joints := []; roots := stored |}
    = Done (OK, {| joints := []; non_joints := []; roots := [] |}) /\
    _verify_skin nodes {| joints := []; non_joints := []; roots := [] |} = Done FAILED.
Proof. intros nodes fuel stored. split; reflexivity. Qed.

(** ** Node hierarchy: computed heights *)

Lemma write_at_app : forall (A : Type) (pre : list A) (x y : A) (post : list A),
  write_at (pre ++ x :: post) (size pre) y = Done (pre ++ y :: post).
Proof.
  intros A pre x y post.
  pose proof (ptr_set_app pre x y post) as H. unfold ptr_set in H. unfold write_at.
  destruct ((size pre <? 0) || (size (pre ++ x :: post) <=? size pre)); [discriminate H|].
  exact H.
Qed.

(** The depth of node [i]: the number of steps to a node without parent. *)
Fixpoint depth (nodes : list FBXNode) (f : nat) (i : Z) : Z :=
  match f with
  | O => 0
  | S f => if 0 <=? parent_of nodes i then 1 + depth nodes f (parent_of nodes i) else 0
  end.

(** The nodes from index [i] on with their heights set, and the roots
    among them. *)
Fixpoint set_heights (nodes : list FBXNode) (f : nat) (i : Z) (l : list FBXNode)
    : list FBXNode :=
  match l with
  | [] => []
  | nd :: r => set_height nd (depth nodes f i) :: set_heights nodes f (i + 1) r
  end.

Fixpoint roots_from (nodes : list FBXNode) (f : nat) (i : Z) (l : list FBXNode) : list Z :=
  match l with
  | [] => []
  | nd :: r => (if depth nodes f i =? 0 then [i] else []) ++ roots_from nodes f (i + 1) r
  end.

Lemma depth_nonneg : forall nodes f i, 0 <= depth nodes f i.
Proof.
  intros nodes f. induction f as [|f IH]; intros i; cbn [depth]; [lia|].
  destruct (0 <=? parent_of nodes i); [specialize (IH (parent_of nodes i)); lia | lia].
Qed.

Lemma same_parents_at : forall (nodes nodes' : list FBXNode) i,
  map parent nodes' = map parent nodes -> valid nodes i ->
  exists nd', get nodes' i = Done nd' /\ parent nd' = parent_of nodes i.
Proof.
  intros nodes nodes' i Hmap Hv.
  assert (Hlen : length nodes' = length nodes)
    by (rewrite <- (length_map parent nodes'), Hmap; apply length_map).
  assert (Hv' : valid nodes' i) by (unfold valid, size in *; lia).
  destruct (valid_node_at _ _ Hv) as [nd [Hnd _]].
  destruct (valid_node_at _ _ Hv') as [nd' [Hnd' Hg']].
  exists nd'. split; [exact Hg'|].
  unfold parent_of. rewrite Hnd. unfold node_at in Hnd, Hnd'.
  destruct (i <? 0); [discriminate|].
  pose proof (map_nth_error parent _ _ Hnd) as E1.
  pose proof (map_nth_error parent _ _ Hnd') as E2.
  rewrite Hmap in E2. congruence.
Qed.

Section Heights.
Variable nodes : list FBXNode.
Variable rank : Z -> nat.
Variable fuel : nat.
Hypothesis Hrank : forall i, valid nodes i -> 0 <= parent_of nodes i ->
  valid nodes (parent_of nodes i) /\ (rank (parent_of nodes i) < rank i)%nat.
Hypothesis Hfuel : forall i, valid nodes i -> (rank i + 1 < fuel)%nat.

Lemma depth_indep : forall f1 f2 i,
  valid nodes i -> (rank i < f1)%nat -> (rank i < f2)%nat ->
  depth nodes f1 i = depth nodes f2 i.
Proof.
  induction f1 as [|f1 IH]; intros f2 i Hv H1 H2; [lia|].
  destruct f2 as [|f2]; [lia|]. cbn [depth].
  destruct (Z.leb_spec 0 (parent_of nodes i)) as [Hp | Hp]; [|reflexivity].
  destruct (Hrank i Hv Hp) as [Hpv Hpr]. rewrite (IH f2); [reflexivity | assumption | lia | lia].
Qed.

Lemma climb_height_spec : forall f nodes' i h,
  map parent nodes' = map parent nodes ->
  valid nodes i -> (rank i + 1 < f)%nat ->
  climb_height f nodes' i h = Done (h + depth nodes f i).
Proof.
  induction f as [|f IH]; intros nodes' i h Hmap Hv Hf; [lia|].
  cbn [climb_height depth].
  destruct (Z.leb_spec 0 i) as [_ | Hneg]; [|unfold valid in Hv; lia].
  destruct (same_parents_at nodes nodes' i Hmap Hv) as [nd' [-> Hp]]. cbn [bind].
  rewrite Hp.
  destruct (Z.leb_spec 0 (parent_of nodes i)) as [Hpos | Hpneg].
  - destruct (Hrank i Hv Hpos) as [Hpv Hpr].
    rewrite IH; [f_equal; lia | assumption | assumption | lia].
  - destruct f as [|f]; [lia|]. cbn [climb_height].
    destruct (Z.leb_spec 0 (parent_of nodes i)); [lia|]. f_equal. lia.
Qed.

Lemma compute_heights_loop_spec : forall todo done' roots,
  map parent (done' ++ todo) = map parent nodes ->
  compute_heights_loop fuel (length todo) (done' ++ todo) (size done') roots
  = Done (done' ++ set_heights nodes fuel (size done') todo,
          roots ++ roots_from nodes fuel (size done') todo).
Proof.
  induction todo as [|nd todo IH]; intros done' roots Hmap.
  - cbn. now rewrite !app_nil_r.
  - cbn [length compute_heights_loop set_heights roots_from].
    rewrite get_app_mid. cbn [bind].
    assert (Hv : valid nodes (size done')).
    { assert (Hlen : length (done' ++ nd :: todo) = length nodes)
        by (rewrite <- (length_map parent (done' ++ nd :: todo)), Hmap; apply length_map).
      rewrite length_app in Hlen. cbn [length] in Hlen. unfold valid, size. lia. }
    rewrite (climb_height_spec fuel (done' ++ nd :: todo) (size done') 0 Hmap Hv (Hfuel _ Hv)).
    cbn [bind]. rewrite Z.add_0_l. rewrite write_at_app. cbn [bind].
    set (d := depth nodes fuel (size done')).
    replace (done' ++ set_height nd d :: todo) with ((done' ++ [set_height nd d]) ++ todo)
      by (rewrite <- app_assoc; reflexivity).
    replace (size done' + 1) with (size (done' ++ [set_height nd d]))
      by (rewrite size_app, size_cons, size_nil; lia).
    rewrite IH.
    + rewrite <- !app_assoc. cbn [app]. unfold push_back.
      destruct (d =? 0); [rewrite <- app_assoc|]; reflexivity.
    + rewrite <- Hmap. rewrite <- app_assoc, !map_app. reflexivity.
Qed.

Lemma set_heights_node_at : forall l start i nd,
  0 <= start -> node_at l i = Some nd ->
  node_at (set_heights nodes fuel start l) i
  = Some (set_height nd (depth nodes fuel (start + i))).
Proof.
  induction l as [|x l IH]; intros start i nd Hs H.
  - unfold node_at in H. destruct (i <? 0); [discriminate|].
    destruct (Z.to_nat i); discriminate.
  - unfold node_at in *. destruct (Z.ltb_spec i 0); [discriminate|].
    cbn [set_heights]. destruct (Z.to_nat i) as [|n] eqn:En.
    + cbn [nth_error] in *. inversion H; subst. do 3 f_equal. lia.
    + cbn [nth_error] in *.
      specialize (IH (start + 1) (i - 1) nd ltac:(lia)).
      destruct (Z.ltb_spec (i - 1) 0); [lia|].
      replace (Z.to_nat (i - 1)) with n in IH by lia.
      rewrite IH by exact H. do 3 f_equal. lia.
Qed.

Lemma set_heights_length : forall l start, length (set_heights nodes fuel start l) = length l.
Proof.
  induction l as [|x l IH]; intros start; cbn [set_heights length]; [reflexivity | now rewrite IH].
Qed.

Lemma roots_from_spec : forall l start i,
  In i (roots_from nodes fuel start l)
  <-> start <= i < start + size l /\ depth nodes fuel i = 0.
Proof.
  induction l as [|x l IH]; intros start i; cbn [roots_from].
  - change (size (@nil FBXNode)) with 0. split; [intros [] | lia].
  - rewrite in_app_iff, IH, size_cons. pose proof (size_nonneg l).
    destruct (Z.eqb_spec (depth nodes fuel start) 0) as [E | E]; cbn [In].
    + split.
      * intros [[<- | []] | H1]; [lia | lia].
      * intros [H1 H2]. destruct (Z.eq_dec i start) as [-> | Hne]; [left; now left | right; lia].
    + split.
      * intros [[] | H1]. lia.
      * intros [H1 H2]. right. split; [|assumption].
        destruct (Z.eq_dec i start) as [-> | Hne]; [contradiction | lia].
Qed.

Lemma roots_from_sorted : forall l start,
  StronglySorted Z.lt (roots_from nodes fuel start l).
Proof.
  induction l as [|x l IH]; intros start; cbn [roots_from]; [constructor|].
  destruct (depth nodes fuel start =? 0); cbn [app]; [|apply IH].
  constructor; [apply IH|]. rewrite Forall_forall. intros y Hy.
  apply roots_from_spec in Hy. lia.
Qed.

Lemma depth_zero_iff : forall i, valid nodes i ->
  (depth nodes fuel i = 0 <-> parent_of nodes i < 0).
Proof.
  intros i Hv. pose proof (Hfuel i Hv) as Hf.
  destruct fuel as [|f]; [lia|]. cbn [depth].
  destruct (Z.leb_spec 0 (parent_of nodes i)) as [Hp | Hp].
  - pose proof (depth_nonneg nodes f (parent_of nodes i)). lia.
  - split; [intros _; assumption | reflexivity].
Qed.

Lemma depth_step : forall i, valid nodes i -> 0 <= parent_of nodes i ->
  depth nodes fuel i = depth nodes fuel (parent_of nodes i) + 1.
Proof.
  intros i Hv Hp. pose proof (Hfuel i Hv) as Hf.
  destruct (Hrank i Hv Hp) as [Hpv Hpr].
  destruct fuel as [|f] eqn:Ef; [lia|].
  assert (E : depth nodes (S f) i = 1 + depth nodes f (parent_of nodes i)).
  { cbn [depth]. destruct (Z.leb_spec 0 (parent_of nodes i)); [reflexivity | lia]. }
  rewrite E. rewrite (depth_indep f (S f) (parent_of nodes i)); [lia | assumption | lia | lia].
Qed.

Lemma compute_node_heights_result :
  _compute_node_heights fuel nodes
  = Done (set_heights nodes fuel 0 nodes, roots_from nodes fuel 0 nodes).
Proof.
  unfold _compute_node_heights.
  exact (compute_heights_loop_spec nodes [] [] eq_refl).
Qed.
End Heights.

Lemma compute_node_heights_facts :
  forall (nodes : list FBXNode) (rank : Z -> nat) (fuel : nat),
    (forall i, valid nodes i -> 0 <= parent_of nodes i ->
       valid nodes (parent_of nodes i) /\ (rank (parent_of nodes i) < rank i)%nat) ->
    (forall i, valid nodes i -> (rank i + 1 < fuel)%nat) ->
    exists nodes' roots,
      _compute_node_heights fuel nodes = Done (nodes', roots) /\
      length nodes' = length nodes /\
      (forall i nd, node_at nodes i = Some nd ->
         exists nd', node_at nodes' i = Some nd' /\
           parent nd' = parent nd /\ children nd' = children nd /\ joint nd' = joint nd /\
           height nd' = if parent nd <? 0 then 0 else height_of nodes' (parent nd) + 1) /\
      (forall i, In i roots <-> valid nodes i /\ parent_of nodes i < 0) /\
      StronglySorted Z.lt roots.
Proof.
  intros nodes rank fuel Hrank Hfuel.
  exists (set_heights nodes fuel 0 nodes), (roots_from nodes fuel 0 nodes).
  split; [apply (compute_node_heights_result nodes rank fuel Hrank Hfuel)|].
  split; [apply set_heights_length|]. split; [|split].
  - intros i nd Hnd. pose proof (node_at_valid _ _ _ Hnd) as Hv.
    exists (set_height nd (depth nodes fuel (0 + i))).
    split; [apply set_heights_node_at; [lia | exact Hnd]|].
    cbn [set_height parent children joint height]. repeat split.
    rewrite Z.add_0_l.
    assert (Hp : parent_of nodes i = parent nd) by (unfold parent_of; now rewrite Hnd).
    destruct (Z.ltb_spec (parent nd) 0) as [Hneg | Hpos].
    + apply (depth_zero_iff nodes rank fuel Hfuel i Hv). lia.
    + rewrite (depth_step nodes rank fuel Hrank Hfuel i Hv) by lia. rewrite Hp.
      destruct (Hrank i Hv ltac:(lia)) as [Hpv _]. rewrite Hp in Hpv.
      destruct (valid_node_at _ _ Hpv) as [pn [Hpn _]].
      unfold height_of. rewrite (set_heights_node_at nodes fuel nodes 0 (parent nd) pn) by (try lia; assumption).
      cbn [set_height height]. now rewrite Z.add_0_l.
  - intros i. rewrite roots_from_spec. unfold valid. split.
    + intros [Hr Hd]. split; [lia|].
      apply (depth_zero_iff nodes rank fuel Hfuel i); [unfold valid; lia | exact Hd].
    + intros [Hr Hd]. split; [lia|].
      apply (depth_zero_iff nodes rank fuel Hfuel i); [unfold valid; lia | exact Hd].
  - apply roots_from_sorted.
Qed.

(** X10.  On a hierarchy without cycles (some rank decreases from every
    node to its parent, and the fuel exceeds the ranks)
    [_compute_node_heights] terminates; it changes nothing but the
    heights; a node without parent gets height 0 and every other node
    one more than its parent; and [root_nodes] lists, in ascending order,
    exactly the nodes without parent. *)
Theorem compute_node_heights_gives_depths :
  forall (nodes : list FBXNode) (rank : Z -> nat) (fuel : nat),
    (forall i, valid nodes i -> 0 <= parent_of nodes i ->
       valid nodes (parent_of nodes i) /\ (rank (parent_of nodes i) < rank i)%nat) ->
    (forall i, valid nodes i -> (rank i + 1 < fuel)%nat) ->
    exists nodes' roots,
      _compute_node_heights fuel nodes = Done (nodes', roots) /\
      length nodes' = length nodes /\
      (forall i nd, node_at nodes i = Some nd ->
         exists nd', node_at nodes' i = Some nd' /\
           parent nd' = parent nd /\ children nd' = children nd /\ joint nd' = joint nd /\
           height nd' = if parent nd <? 0 then 0 else height_of nodes' (parent nd) + 1) /\
      (forall i, In i roots <-> valid nodes i /\ parent_of nodes i < 0) /\
      StronglySorted Z.lt roots.
Proof.
  exact compute_node_heights_facts.
Qed.


(** Three nodes in a chain, heights not yet computed. *)
Definition chain_nodes : list FBXNode :=
  [ {| parent := -1; children := [1]; height := 0; joint := false |};
    {| parent := 0; children := [2]; height := 0; joint := true |};
    {| parent := 1; children := []; height := 0; joint := true |} ].

Lemma chain_nodes_rank : forall i, valid chain_nodes i -> 0 <= parent_of chain_nodes i ->
  valid chain_nodes (parent_of chain_nodes i) /\
  (Z.to_nat (parent_of chain_nodes i) < Z.to_nat i)%nat.
Proof.
  intros i Hv. unfold valid in *. change (size chain_nodes) with 3 in *.
  assert (Hi : i = 0 \/ i = 1 \/ i = 2) by lia.
  destruct Hi as [-> | [-> | ->]].
  - change (parent_of chain_nodes 0) with (-1). lia.
  - change (parent_of chain_nodes 1) with 0. lia.
  - change (parent_of chain_nodes 2) with 1. lia.
Qed.

Lemma chain_nodes_fuel : forall i, valid chain_nodes i -> (Z.to_nat i + 1 < 5)%nat.
Proof. intros i Hv. unfold valid in Hv. change (size chain_nodes) with 3 in Hv. lia. Qed.

Lemma compute_node_heights_gives_depths_witness :
  exists nodes' roots,
    _compute_node_heights 5 chain_nodes = Done (nodes', roots) /\
    length nodes' = length chain_nodes /\
    (forall i nd, node_at chain_nodes i = Some nd ->
       exists nd', node_at nodes' i = Some nd' /\
         parent nd' = parent nd /\ children nd' = children nd /\ joint nd' = joint nd /\
         height nd' = if parent nd <? 0 then 0 else height_of nodes' (parent nd) + 1) /\
    (forall i, In i roots <-> valid chain_nodes i /\ parent_of chain_nodes i < 0) /\
    StronglySorted Z.lt roots.
Proof.
  exact (compute_node_heights_gives_depths chain_nodes Z.to_nat 5
           chain_nodes_rank chain_nodes_fuel).
Defined.

(** ** Node hierarchy: from computed heights to the invariant *)

(** Every parent index is -1 or more, and every listed child is an
    existing node that names the lister as its parent. *)
Definition links_consistent (nodes : list FBXNode) : bool :=
  forallb (fun nd => -1 <=? parent nd) nodes
  && forallb (fun i => match node_at nodes i with
                       | Some nd => forallb (fun c => match node_at nodes c with
                                                      | Some cn => parent cn =? i
                                                      | None => false
                                                      end) (children nd)
                       | None => false
                       end)
             (map Z.of_nat (seq 0 (length nodes))).

(** X14.  The nodes that [_compute_node_heights] returns satisfy the
    hierarchy invariant that the skin resolver relies on, when the links
    between parents and children are consistent. *)
Theorem computed_heights_are_well_formed :
  forall (nodes : list FBXNode) (rank : Z -> nat) (fuel : nat),
    (forall i, valid nodes i -> 0 <= parent_of nodes i ->
       valid nodes (parent_of nodes i) /\ (rank (parent_of nodes i) < rank i)%nat) ->
    (forall i, valid nodes i -> (rank i + 1 < fuel)%nat) ->
    links_consistent nodes = true ->
    exists nodes' roots,
      _compute_node_heights fuel nodes = Done (nodes', roots) /\
      wf_nodes nodes' = true.
Proof.
  intros nodes rank fuel Hrank Hfuel Hlinks.
  destruct (compute_node_heights_facts nodes rank fuel Hrank Hfuel)
    as [nodes' [roots [Hrun [Hlen [Hnodes _]]]]].
  exists nodes', roots. split; [exact Hrun|].
  unfold links_consistent in Hlinks. apply andb_true_iff in Hlinks.
  destruct Hlinks as [Hpar Hkids]. rewrite forallb_forall in Hpar, Hkids.
  unfold wf_nodes. apply forallb_forall. intros i Hi.
  rewrite Hlen in Hi. specialize (Hkids i Hi).
  destruct (node_at nodes i) as [nd|] eqn:Hnd; [|discriminate].
  destruct (Hnodes i nd Hnd) as [nd' [Hnd' [Ep [Ec [_ Eh]]]]].
  rewrite Hnd'. unfold wf_node. rewrite Ep, Ec, Eh.
  pose proof (node_at_valid _ _ _ Hnd) as Hv.
  assert (Hin : In nd nodes).
  { unfold node_at in Hnd. destruct (i <? 0); [discriminate|]. eapply nth_error_In; eauto. }
  specialize (Hpar nd Hin). apply Z.leb_le in Hpar.
  apply andb_true_iff. split; [apply andb_true_iff; split|].
  - (* heights are not negative: by induction on the rank *)
    assert (Hh : forall n j ndj, (rank j <= n)%nat -> node_at nodes j = Some ndj ->
               0 <= height_of nodes' j).
    { induction n as [|n IHn]; intros j ndj Hr Hj;
        destruct (Hnodes j ndj Hj) as [ndj' [Hj' [Ejp [_ [_ Ejh]]]]];
        pose proof (node_at_valid _ _ _ Hj) as Hjv;
        unfold height_of at 1; rewrite Hj', Ejh;
        destruct (Z.ltb_spec (parent ndj) 0) as [|Hp0]; try lia;
        assert (Epj : parent_of nodes j = parent ndj) by (unfold parent_of; now rewrite Hj);
        destruct (Hrank j Hjv ltac:(lia)) as [Hpv Hpr]; rewrite Epj in Hpv, Hpr.
      - lia.
      - destruct (valid_node_at _ _ Hpv) as [pn [Hpn _]].
        specialize (IHn (parent ndj) pn ltac:(lia) Hpn). lia. }
    specialize (Hh (rank i) i nd (Nat.le_refl _) Hnd).
    unfold height_of in Hh. rewrite Hnd', Eh in Hh. now apply Z.leb_le.
  - destruct (Z.eqb_spec (parent nd) (-1)) as [E | Hne].
    + rewrite E. reflexivity.
    + destruct (Z.ltb_spec (parent nd) 0) as [|Hp0]; [lia|].
      assert (Epi : parent_of nodes i = parent nd) by (unfold parent_of; now rewrite Hnd).
      destruct (Hrank i Hv ltac:(lia)) as [Hpv _]. rewrite Epi in Hpv.
      destruct (valid_node_at _ _ Hpv) as [pn [Hpn _]].
      destruct (Hnodes _ pn Hpn) as [pn' [Hpn' _]].
      rewrite Hpn'. unfold height_of. rewrite Hpn'. apply Z.eqb_refl.
  - rewrite forallb_forall in Hkids |- *. intros c Hc. specialize (Hkids c Hc).
    destruct (node_at nodes c) as [cn|] eqn:Hcn; [|discriminate].
    destruct (Hnodes c cn Hcn) as [cn' [Hcn' [Ecp _]]].
    rewrite Hcn', Ecp. exact Hkids.
Qed.

Lemma computed_heights_are_well_formed_witness :
  exists nodes' roots,
    _compute_node_heights 5 chain_nodes = Done (nodes', roots) /\
    wf_nodes nodes' = true.
Proof.
  exact (computed_heights_are_well_formed chain_nodes Z.to_nat 5
           chain_nodes_rank chain_nodes_fuel eq_refl).
Defined.

(** ** Bone weights: positive sums and zero sums *)

(** A positive [float] is positive as a [double]. *)
Lemma binary_round_aux_positive : forall m e l, emin F64.prec F64.emax <= e ->
  SFltb (S754_zero false) (binary_round_aux F64.prec F64.emax false (Zpos m) e l) = true.
Proof.
  intros m e l He. unfold binary_round_aux.
  destruct (shr_fexp_positive F64.prec F64.emax ltac:(reflexivity) m e l He)
    as [m1 [Hm1 He1]].
  destruct (shr_fexp F64.prec F64.emax (Zpos m) e l) as [mrs1 e1]. cbn [fst snd] in Hm1, He1.
  rewrite Hm1.
  destruct (round_nearest_even_positive m1 (loc_of_shr_record mrs1)) as [m2 ->].
  destruct (shr_fexp_positive F64.prec F64.emax ltac:(reflexivity) m2 e1 loc_Exact He1)
    as [m3 [Hm3 He3]].
  destruct (shr_fexp F64.prec F64.emax (Zpos m2) e1 loc_Exact) as [mrs2 e2].
  cbn [fst snd] in Hm3. rewrite Hm3.
  destruct (e2 <=? F64.emax - F64.prec); reflexivity.
Qed.

Lemma total_positive_finite : forall m e,
  -149 <= e -> total_positive (S754_finite false m e) = true.
Proof.
  intros m e He. unfold total_positive, double_of_float, F64.ltb, F64.zero.
  cbn [cond_Zopp]. unfold binary_normalize, binary_round, shl_align.
  assert (Hmin : emin F64.prec F64.emax <= e)
    by (unfold emin, F64.prec, F64.emax; lia).
  destruct (fexp F64.prec F64.emax (Zpos (digits2_pos m) + e) - e) as [|d|d] eqn:Ed.
  - now apply binary_round_aux_positive.
  - now apply binary_round_aux_positive.
  - apply binary_round_aux_positive. unfold fexp, emin, F64.prec, F64.emax in *. lia.
Qed.

Lemma Fabs_finite_pos : forall m e, (0 < Fabs (S754_finite false m e))%R.
Proof.
  intros m e. cbn [Fabs]. pose proof (bpow_pos e).
  assert (0 < IZR (Zpos m))%R by now apply IZR_lt. nra.
Qed.

(** C6, as amended.  On a buffer of whole tuples, 4 wide (WEIGHTS_0
    alone) or 8 wide (WEIGHTS_0 and WEIGHTS_1 merged), the loop rewrites
    every tuple on its own.  For a tuple of finite non-negative weights
    whose [float] total has not overflowed: when the sum of the weights
    is positive, every weight is divided by the total and the exact sum
    of the results is within [(n + 3) * 2^-24] of 1, [n] being 4 or 8;
    when the sum is zero, the tuple is left as it is. *)
Theorem bone_weights_are_renormalised :
  forall (group : nat) (tuples : list (list spec_float)) (fuel : nat),
    group = 4%nat \/ group = 8%nat ->
    Forall (fun t => length t = group) tuples ->
    (length tuples < fuel)%nat ->
    normalize_weights fuel group (concat tuples) 0
    = Done (concat (map normalize_tuple tuples)) /\
    forall t, In t tuples ->
      Forall (fun w => nonneg32 w = true) t ->
      weights_total t <> S754_infinity false ->
      ((0 < sum_values t)%R ->
         normalize_tuple t = map (fun w => F32.div w (weights_total t)) t /\
         Forall (fun q => nonneg32 q = true) (normalize_tuple t) /\
         (Rabs (sum_values (normalize_tuple t) - 1) <= IZR (Z.of_nat group + 3) * u32)%R) /\
      (sum_values t = 0%R -> normalize_tuple t = t).
Proof.
  intros group tuples fuel Hg Hall Hfuel. split.
  - apply (normalize_weights_from group tuples fuel []);
      [destruct Hg; lia | assumption | assumption].
  - intros t Hin Ht Hfin.
    assert (Hlen : length t = group) by (rewrite Forall_forall in Hall; now apply Hall).
    assert (Hsz : size t = Z.of_nat group) by (unfold size; now rewrite Hlen).
    assert (Hn : size t <= 1000) by (destruct Hg; lia).
    destruct (weights_total_spec t Hn Ht Hfin) as [Hok [Hlo Hhi]].
    rewrite (sum_values_abs t Ht).
    pose proof u32_value as Hu.
    assert (Hfac : (/ 2 <= 1 - IZR (size t) * u32)%R).
    { assert (IZR (size t) <= 8)%R by (apply (IZR_le _ 8); destruct Hg; lia).
      assert (0 <= IZR (size t))%R by (apply (IZR_le 0); apply size_nonneg).
      rewrite Hu. lra. }
    pose proof (Fabs_nonneg (weights_total t)) as HF0.
    pose proof (sum_abs_nonneg t) as HS0.
    split.
    + intros Hpos.
      assert (HF : (0 < Fabs (weights_total t))%R) by nra.
      assert (Htp : total_positive (weights_total t) = true).
      { destruct (weights_total t) as [s | s | | [|] m e]; cbn [okf Fabs] in *;
          try contradiction; try lra.
        now apply total_positive_finite. }
      rewrite <- Hsz. now apply normalize_tuple_sum_facts.
    + intros Hzero. rewrite Hzero in Hhi.
      assert (HF : (Fabs (weights_total t) <= 0)%R) by nra.
      unfold normalize_tuple. cbv zeta.
      destruct (weights_total t) as [s | s | | [|] m e] eqn:E; cbn [okf] in Hok;
        try contradiction.
      * now rewrite total_positive_zero.
      * exfalso. pose proof (Fabs_finite_pos m e). lra.
Qed.

Lemma bone_weights_are_renormalised_witness :
  normalize_weights 3 4 (concat [example_weights; [f32 0; f32 0; f32 0; f32 0]]) 0
  = Done (concat (map normalize_tuple [example_weights; [f32 0; f32 0; f32 0; f32 0]])) /\
  (Rabs (sum_values (normalize_tuple example_weights) - 1) <= IZR (Z.of_nat 4 + 3) * u32)%R /\
  normalize_tuple [f32 0; f32 0; f32 0; f32 0] = [f32 0; f32 0; f32 0; f32 0].
Proof.
  destruct (bone_weights_are_renormalised 4
              [example_weights; [f32 0; f32 0; f32 0; f32 0]] 3
              (or_introl eq_refl) ltac:(repeat constructor) ltac:(cbn; lia))
    as [Hrun Hall].
  split; [exact Hrun|]. split.
  - destruct (Hall example_weights (or_introl eq_refl) ltac:(repeat constructor)
                ltac:(vm_compute; discriminate)) as [Hpos _].
    apply Hpos.
    rewrite (sum_values_abs example_weights ltac:(repeat constructor)).
    apply Rlt_le_trans with (Fabs (f32 1)).
    + rewrite f32_one_eq. apply Fabs_finite_pos.
    + apply sum_abs_In. now left.
  - destruct (Hall [f32 0; f32 0; f32 0; f32 0] (or_intror (or_introl eq_refl))
                ltac:(repeat constructor) ltac:(vm_compute; discriminate)) as [_ Hzero].
    apply Hzero. cbn. lra.
Defined.

(** C6, the claim as stated fails: the test is made on the [float]
    running total.  The weights [FLT_MAX, FLT_MAX, 0, 0] are finite and
    non-negative and their sum is positive, but their total overflows to
    infinity, which is positive as well: every weight is divided by
    infinity and the tuple becomes all zero, with the sum 0. *)
Lemma bone_weights_are_renormalised_counterexample :
  Forall (fun w => nonneg32 w = true) [FLT_MAX; FLT_MAX; f32 0; f32 0] /\
  (0 < sum_values [FLT_MAX; FLT_MAX; f32 0; f32 0])%R /\
  normalize_weights 2 4 [FLT_MAX; FLT_MAX; f32 0; f32 0] 0
  = Done [F32.zero; F32.zero; F32.zero; F32.zero] /\
  sum_values [F32.zero; F32.zero; F32.zero; F32.zero] = 0%R.
Proof.
  assert (Hnn : Forall (fun w => nonneg32 w = true) [FLT_MAX; FLT_MAX; f32 0; f32 0])
    by (repeat constructor).
  split; [exact Hnn|]. split; [|split].
  - rewrite (sum_values_abs _ Hnn).
    apply Rlt_le_trans with (Fabs FLT_MAX).
    + apply Fabs_finite_pos.
    + apply sum_abs_In. now left.
  - reflexivity.
  - cbn. lra.
Qed.

(** ** Node hierarchy: parents from the children lists *)

Lemma write_at_Done : forall (A : Type) (v : list A) (i : Z) (x : A),
  0 <= i < size v ->
  exists v', write_at v i x = Done v' /\ length v' = length v /\
    forall j, nth_error v' j = if Nat.eqb j (Z.to_nat i) then Some x else nth_error v j.
Proof.
  intros A v i x Hi. unfold write_at.
  destruct (Z.ltb_spec i 0); [lia|]. destruct (Z.leb_spec (size v) i); [lia|]. cbn [orb].
  eexists. split; [reflexivity|].
  assert (Hn : (Z.to_nat i < length v)%nat) by (unfold size in Hi; lia).
  split.
  - rewrite length_app, length_firstn. cbn [length]. rewrite length_skipn. lia.
  - intros j. destruct (Nat.eqb_spec j (Z.to_nat i)) as [-> | Hne].
    + rewrite nth_error_app2 by (rewrite length_firstn; lia).
      rewrite length_firstn. replace (Z.to_nat i - Nat.min (Z.to_nat i) (length v))%nat with 0%nat by lia.
      reflexivity.
    + destruct (Nat.lt_ge_cases j (Z.to_nat i)) as [Hlt | Hge].
      * rewrite nth_error_app1 by (rewrite length_firstn; lia).
        now rewrite nth_error_firstn, (proj2 (Nat.ltb_lt _ _) Hlt).
      * rewrite nth_error_app2 by (rewrite length_firstn; lia).
        rewrite length_firstn.
        replace (j - Nat.min (Z.to_nat i) (length v))%nat with (S (j - S (Z.to_nat i))) by lia.
        cbn [nth_error]. rewrite nth_error_skipn. f_equal. lia.
Qed.

(** The nodes with their parents blanked: what the pass leaves alone. *)
Definition blank_parents (nodes : list FBXNode) : list FBXNode :=
  map (fun nd => set_parent nd 0) nodes.

(** [now] differs from [before] in parents only, every parent that
    differs replaces -1, and the new parent lists the node as a child. *)
Definition adopted (before now : list FBXNode) : Prop :=
  blank_parents now = blank_parents before /\
  forall c, parent_of now c = parent_of before c \/
            (parent_of before c = -1 /\
             exists lister, node_at before (parent_of now c) = Some lister /\
                            In c (children lister)).

Lemma adopted_refl : forall nodes, adopted nodes nodes.
Proof. intros nodes. split; [reflexivity | intros c; now left]. Qed.

Lemma blank_parents_node_at : forall a b i nd,
  blank_parents a = blank_parents b -> node_at a i = Some nd ->
  exists nd', node_at b i = Some nd' /\ children nd' = children nd /\
              height nd' = height nd /\ joint nd' = joint nd.
Proof.
  intros a b i nd E H. unfold node_at in *. destruct (i <? 0); [discriminate|].
  pose proof (map_nth_error (fun nd => set_parent nd 0) _ _ H) as Ha.
  fold (blank_parents a) in Ha. rewrite E in Ha. unfold blank_parents in Ha.
  rewrite nth_error_map in Ha. destruct (nth_error b (Z.to_nat i)) as [nd'|]; [|discriminate].
  exists nd'. split; [reflexivity|]. cbn in Ha. inversion Ha as [E']. auto.
Qed.

Lemma set_parent_step : forall before nodes child_i child node_i lister,
  adopted before nodes ->
  node_at nodes child_i = Some child -> parent child = -1 ->
  node_at before node_i = Some lister -> In child_i (children lister) ->
  exists nodes', write_at nodes child_i (set_parent child node_i) = Done nodes' /\
    adopted before nodes' /\
    parent_of nodes' child_i = node_i /\
    (forall c, c <> child_i -> parent_of nodes' c = parent_of nodes c).
Proof.
  intros before nodes child_i child node_i lister [Hb Hp] Hc Hpc Hl Hin.
  pose proof (node_at_valid _ _ _ Hc) as Hv.
  destruct (write_at_Done FBXNode nodes child_i (set_parent child node_i) Hv) as [nodes' [Hw [Hlen Hnth]]].
  exists nodes'. split; [exact Hw|].
  assert (Hat : forall c, node_at nodes' c
                          = if Z.eqb c child_i then Some (set_parent child node_i)
                            else node_at nodes c).
  { intros c. unfold node_at. destruct (Z.ltb_spec c 0) as [Hneg | Hpos].
    - destruct (Z.eqb_spec c child_i); [unfold valid in Hv; lia | reflexivity].
    - rewrite Hnth. destruct (Z.eqb_spec c child_i) as [-> | Hne].
      + now rewrite Nat.eqb_refl.
      + destruct (Nat.eqb_spec (Z.to_nat c) (Z.to_nat child_i)); [unfold valid in Hv; lia|].
        reflexivity. }
  assert (Hpar : forall c, parent_of nodes' c
                           = if Z.eqb c child_i then node_i else parent_of nodes c).
  { intros c. unfold parent_of. rewrite Hat. destruct (Z.eqb c child_i); reflexivity. }
  split; [split|split].
  - rewrite <- Hb. unfold blank_parents. apply nth_error_ext. intros j.
    rewrite !nth_error_map, Hnth.
    destruct (Nat.eqb_spec j (Z.to_nat child_i)) as [-> | Hne]; [|reflexivity].
    unfold node_at in Hc. destruct (child_i <? 0); [discriminate|]. rewrite Hc. reflexivity.
  - intros c. rewrite Hpar. destruct (Z.eqb_spec c child_i) as [-> | Hne]; [|apply Hp].
    right. destruct (Hp child_i) as [E | [E _]].
    + split; [|exists lister; now split].
      rewrite <- E. unfold parent_of. now rewrite Hc.
    + split; [exact E | exists lister; now split].
  - rewrite Hpar. now rewrite Z.eqb_refl.
  - intros c Hne. rewrite Hpar. destruct (Z.eqb_spec c child_i); [contradiction | reflexivity].
Qed.

Lemma adopt_children_spec : forall before node_i lister kids nodes,
  node_at before node_i = Some lister ->
  (forall c, In c kids -> In c (children lister)) ->
  adopted before nodes ->
  exists nodes' completed,
    adopt_children nodes node_i kids = Done (nodes', completed) /\
    adopted before nodes' /\
    (forall c, parent_of nodes c <> -1 -> parent_of nodes' c = parent_of nodes c) /\
    (completed = true ->
     forall c, In c kids -> valid before c /\ parent_of nodes' c <> -1) /\
    (completed = false -> exists c, In c kids /\ ~ valid before c).
Proof.
  intros before node_i lister kids. induction kids as [|c kids IH]; intros nodes Hl Hk Ha.
  - exists nodes, true. cbn [adopt_children]. split; [reflexivity|]. split; [exact Ha|].
    split; [auto|]. split; [intros _ c []| discriminate].
  - cbn [adopt_children].
    assert (Hlen : size nodes = size before).
    { destruct Ha as [Hb _]. unfold size.
      rewrite <- (length_map (fun nd => set_parent nd 0) nodes).
      fold (blank_parents nodes). rewrite Hb. unfold blank_parents. now rewrite length_map. }
    destruct (Z.ltb_spec c 0) as [Hneg | Hpos]; cbn [orb].
    { exists nodes, false. split; [reflexivity|]. split; [exact Ha|]. split; [auto|].
      split; [discriminate|]. intros _. exists c. split; [now left | unfold valid; lia]. }
    destruct (Z.leb_spec (size nodes) c) as [Hbig | Hsmall].
    { exists nodes, false. split; [reflexivity|]. split; [exact Ha|]. split; [auto|].
      split; [discriminate|]. intros _. exists c. split; [now left | unfold valid; lia]. }
    assert (Hv : valid nodes c) by (unfold valid; lia).
    destruct (valid_node_at _ _ Hv) as [child [Hchild ->]]. cbn [bind].
    assert (Epc : parent_of nodes c = parent child) by (unfold parent_of; now rewrite Hchild).
    destruct (Z.eqb_spec (parent child) (-1)) as [E | Hne]; cbn [negb].
    + destruct (set_parent_step before nodes c child node_i lister Ha Hchild E Hl
                  (Hk c (or_introl eq_refl))) as [nodes1 [-> [Ha1 [Hp1 Hother]]]].
      cbn [bind].
      destruct (IH nodes1 Hl (fun x Hx => Hk x (or_intror Hx)) Ha1)
        as [nodes' [completed [-> [Ha' [Hstable [Hdone Hfail]]]]]].
      exists nodes', completed. split; [reflexivity|]. split; [exact Ha'|].
      assert (Hni : node_i <> -1).
      { pose proof (node_at_valid _ _ _ Hl) as Hnv. unfold valid in Hnv. lia. }
      split; [|split].
      * intros x Hx. destruct (Z.eq_dec x c) as [-> | Hxc]; [congruence|].
        rewrite Hstable; rewrite Hother by assumption; [reflexivity | assumption].
      * intros Hc x [<- | Hx]; [|now apply Hdone].
        split; [unfold valid; lia|]. rewrite Hstable; rewrite Hp1; assumption.
      * intros Hc. destruct (Hfail Hc) as [x [Hx Hxv]]. exists x. split; [now right | assumption].
    + destruct (IH nodes Hl (fun x Hx => Hk x (or_intror Hx)) Ha)
        as [nodes' [completed [-> [Ha' [Hstable [Hdone Hfail]]]]]].
      exists nodes', completed. split; [reflexivity|]. split; [exact Ha'|].
      split; [exact Hstable|]. split.
      * intros Hc x [<- | Hx]; [|now apply Hdone].
        split; [unfold valid; lia|]. rewrite Hstable; rewrite Epc; assumption.
      * intros Hc. destruct (Hfail Hc) as [x [Hx Hxv]]. exists x. split; [now right | assumption].
Qed.

Lemma build_parents_loop_spec : forall before todo done' nodes,
  before = done' ++ todo ->
  adopted before nodes ->
  (forall i nd c, node_at before i = Some nd -> i < size done' -> In c (children nd) ->
                  valid before c /\ parent_of nodes c <> -1) ->
  exists nodes',
    build_parents_loop (length todo) nodes (size done') = Done nodes' /\
    adopted before nodes' /\
    (forall c, parent_of nodes c <> -1 -> parent_of nodes' c = parent_of nodes c) /\
    ((forall i nd c, node_at before i = Some nd -> In c (children nd) -> valid before c) ->
     forall i nd c, node_at before i = Some nd -> In c (children nd) ->
                    parent_of nodes' c <> -1).
Proof.
  intros before todo. induction todo as [|nd todo IH]; intros done' nodes Hsplit Ha Hdone.
  - exists nodes. cbn [length build_parents_loop]. split; [reflexivity|]. split; [exact Ha|].
    split; [auto|]. intros _ i nd c Hi Hc.
    apply (Hdone i nd c Hi); [|exact Hc].
    pose proof (node_at_valid _ _ _ Hi) as Hv. unfold valid in Hv.
    rewrite Hsplit, app_nil_r in Hv. lia.
  - cbn [length build_parents_loop].
    assert (Hnd : node_at before (size done') = Some nd).
    { apply get_node_at. rewrite Hsplit. apply get_app_mid. }
    destruct (blank_parents_node_at before nodes (size done') nd
                (eq_sym (proj1 Ha)) Hnd) as [nd' [Hnd' [Ec _]]].
    rewrite (proj2 (get_node_at nodes (size done') nd') Hnd'). cbn [bind]. rewrite Ec.
    destruct (adopt_children_spec before (size done') nd (children nd) nodes Hnd (fun c H => H) Ha)
      as [nodes1 [completed [-> [Ha1 [Hstable1 [Hc1 Hf1]]]]]].
    cbn [bind]. destruct completed.
    + replace (size done' + 1) with (size (done' ++ [nd]))
        by (rewrite size_app, size_cons, size_nil; lia).
      destruct (IH (done' ++ [nd]) nodes1) as [nodes' [-> [Ha' [Hstable' Hall]]]].
      * rewrite <- app_assoc. exact Hsplit.
      * exact Ha1.
      * intros i n0 c Hi Hlt Hc. rewrite size_app, size_cons, size_nil in Hlt.
        destruct (Z.eq_dec i (size done')) as [-> | Hne].
        -- rewrite Hnd in Hi. inversion Hi; subst n0. now apply (Hc1 eq_refl).
        -- destruct (Hdone i n0 c Hi ltac:(lia) Hc) as [Hv Hp]. split; [exact Hv|].
           now rewrite Hstable1.
      * exists nodes'. split; [reflexivity|]. split; [exact Ha'|]. split; [|exact Hall].
        intros c Hc. rewrite Hstable'; rewrite Hstable1; auto.
    + exists nodes1. split; [reflexivity|]. split; [exact Ha1|]. split; [exact Hstable1|].
      intros Hvalid. exfalso. destruct (Hf1 eq_refl) as [c [Hc Hcv]].
      apply Hcv. exact (Hvalid _ _ _ Hnd Hc).
Qed.

(** X15.  [_build_parent_hierachy] always returns.  It changes parents
    only and never replaces a parent other than -1; every parent it sets
    is a node that lists the child among its children; and when every
    listed child index exists, every listed child has a parent
    afterwards. *)
Theorem build_parent_hierachy_adopts_children : forall (nodes : list FBXNode),
  exists nodes',
    _build_parent_hierachy nodes = Done nodes' /\
    blank_parents nodes' = blank_parents nodes /\
    (forall c, parent_of nodes c <> -1 -> parent_of nodes' c = parent_of nodes c) /\
    (forall c, parent_of nodes' c <> parent_of nodes c ->
       exists lister, node_at nodes (parent_of nodes' c) = Some lister /\
                      In c (children lister)) /\
    ((forall i nd c, node_at nodes i = Some nd -> In c (children nd) -> valid nodes c) ->
     forall i nd c, node_at nodes i = Some nd -> In c (children nd) ->
                    parent_of nodes' c <> -1).
Proof.
  intros nodes. unfold _build_parent_hierachy.
  destruct (build_parents_loop_spec nodes nodes [] nodes eq_refl (adopted_refl nodes))
    as [nodes' [Hrun [[Hb Hp] [Hstable Hall]]]].
  { intros i nd c Hi Hlt. pose proof (node_at_valid _ _ _ Hi) as Hv.
    unfold valid in Hv. change (size (@nil FBXNode)) with 0 in Hlt. lia. }
  exists nodes'. split; [exact Hrun|]. split; [exact Hb|]. split; [exact Hstable|].
  split; [|exact Hall].
  intros c Hne. destruct (Hp c) as [E | [_ H]]; [contradiction | exact H].
Qed.

(** Three nodes whose parents are still to be filled in. *)
Definition orphan_nodes : list FBXNode :=
  [ {| parent := -1; children := [1; 2]; height := 0; joint := false |};
    {| parent := -1; children := [2]; height := 0; joint := false |};
    {| parent := -1; children := []; height := 0; joint := false |} ].

Lemma build_parent_hierachy_adopts_children_witness :
  exists nodes',
    _build_parent_hierachy orphan_nodes = Done nodes' /\
    blank_parents nodes' = blank_parents orphan_nodes /\
    (forall c, parent_of orphan_nodes c <> -1 ->
               parent_of nodes' c = parent_of orphan_nodes c) /\
    (forall c, parent_of nodes' c <> parent_of orphan_nodes c ->
       exists lister, node_at orphan_nodes (parent_of nodes' c) = Some lister /\
                      In c (children lister)) /\
    ((forall i nd c, node_at orphan_nodes i = Some nd -> In c (children nd) ->
                     valid orphan_nodes c) ->
     forall i nd c, node_at orphan_nodes i = Some nd -> In c (children nd) ->
                    parent_of nodes' c <> -1).
Proof. exact (build_parent_hierachy_adopts_children orphan_nodes). Defined.

(** ** Names *)

Section NamesFacts.
Import Stdlib.Strings.Ascii Stdlib.Strings.String.
Local Open Scope string_scope.
Local Open Scope Z_scope.

(** *** Unique bone names *)

Lemma string_length_append : forall a b,
  String.length (a ++ b) = (String.length a + String.length b)%nat.
Proof. induction a as [|c a IH]; intros b; cbn; [reflexivity | now rewrite IH]. Qed.

Lemma string_append_inj : forall a b c, a ++ b = a ++ c -> b = c.
Proof. induction a as [|x a IH]; intros b c H; cbn in H; [exact H | inversion H; auto]. Qed.

Lemma itos_inj : forall a b, itos a = itos b -> a = b.
Proof.
  intros a b H. unfold itos in H. apply DecimalZ.to_int_inj.
  pose proof (DecimalString.NilEmpty.isi (Z.to_int a)) as Ha.
  pose proof (DecimalString.NilEmpty.isi (Z.to_int b)) as Hb.
  rewrite H in Ha. congruence.
Qed.

Lemma candidate_inj : forall s j k, 1 <= j -> 1 <= k ->
  candidate s j = candidate s k -> j = k.
Proof.
  intros s j k Hj Hk H. unfold candidate in H.
  destruct (Z.ltb_spec 1 j), (Z.ltb_spec 1 k); try lia.
  - apply string_append_inj in H. cbn in H. inversion H as [E]. now apply itos_inj.
  - apply (f_equal String.length) in H. rewrite string_length_append in H. cbn in H. lia.
  - apply (f_equal String.length) in H. rewrite string_length_append in H. cbn in H. lia.
Qed.

Lemma existsb_eqb_In : forall u l,
  List.existsb (String.eqb u) l = true <-> In u l.
Proof.
  intros u l. rewrite List.existsb_exists. split.
  - intros [x [Hx E]]. apply String.eqb_eq in E. now subst.
  - intros H. exists u. split; [exact H | apply String.eqb_refl].
Qed.

(** The candidates [index .. index + n - 1]. *)
Fixpoint candidates (s : string) (index : Z) (n : nat) : list string :=
  match n with
  | O => nil
  | S n => candidate s index :: candidates s (index + 1) n
  end.

Lemma candidates_In : forall s n index u,
  In u (candidates s index n) <-> exists k, index <= k < index + Z.of_nat n /\ u = candidate s k.
Proof.
  intros s n. induction n as [|n IH]; intros index u; cbn [candidates In].
  - split; [intros [] | intros [k [Hk _]]; lia].
  - rewrite IH. split.
    + intros [<- | [k [Hk ->]]]; [exists index; split; [lia | reflexivity] | exists k; split; [lia | reflexivity]].
    + intros [k [Hk ->]]. destruct (Z.eq_dec k index) as [-> | Hne]; [now left|].
      right. exists k. split; [lia | reflexivity].
Qed.

Lemma candidates_NoDup : forall s n index, 1 <= index -> NoDup (candidates s index n).
Proof.
  intros s n. induction n as [|n IH]; intros index Hi; cbn [candidates]; constructor.
  - rewrite candidates_In. intros [k [Hk E]].
    apply candidate_inj in E; lia.
  - apply IH. lia.
Qed.

Lemma candidates_length : forall s n i, List.length (candidates s i n) = n.
Proof. intros s n. induction n as [|n IHn]; intros i; cbn; [reflexivity | now rewrite IHn]. Qed.

(** Pigeonhole: the candidates below [index] are pairwise distinct, so
    they cannot all be taken unless there are at least as many names. *)
Lemma taken_bound : forall names s index,
  1 <= index ->
  (forall k, 1 <= k < index -> In (candidate s k) names) ->
  index - 1 <= Z.of_nat (List.length names).
Proof.
  intros names s index Hi Hprev.
  assert (Hincl : incl (candidates s 1 (Z.to_nat (index - 1))) names).
  { intros u Hu. apply candidates_In in Hu. destruct Hu as [k [Hk ->]]. apply Hprev. lia. }
  pose proof (NoDup_incl_length (candidates_NoDup s (Z.to_nat (index - 1)) 1 ltac:(lia)) Hincl) as Hlen.
  rewrite candidates_length in Hlen. lia.
Qed.

Lemma unique_name_loop_spec : forall fuel names s index,
  1 <= index ->
  (forall k, 1 <= k < index -> In (candidate s k) names) ->
  (List.length names + 1 < fuel + Z.to_nat index)%nat ->
  Z.of_nat (List.length names) + 1 < 2 ^ 31 ->
  exists k, index <= k <= Z.of_nat (List.length names) + 1 /\
    unique_name_loop fuel names s index = Done (candidate s k) /\
    ~ In (candidate s k) names.
Proof.
  induction fuel as [|fuel IH]; intros names s index Hi Hprev Hfuel Hbound.
  - exfalso. pose proof (taken_bound names s index Hi Hprev). lia.
  - cbn [unique_name_loop].
    pose proof (taken_bound names s index Hi Hprev) as Hlen.
    destruct (List.existsb (String.eqb (candidate s index)) names) eqn:E; cbn [negb].
    + apply existsb_eqb_In in E.
      assert (Hprev' : forall k, 1 <= k < index + 1 -> In (candidate s k) names).
      { intros k Hk. destruct (Z.eq_dec k index) as [-> | Hne]; [exact E | apply Hprev; lia]. }
      pose proof (taken_bound names s (index + 1) ltac:(lia) Hprev') as Hlen'.
      destruct (Z.leb_spec (2 ^ 31 - 1) index) as [Hbig | Hsmall]; [lia|].
      destruct (IH names s (index + 1) ltac:(lia) Hprev' ltac:(lia) Hbound) as [k [Hk [Hr Hnin]]].
      exists k. split; [lia|]. split; assumption.
    + exists index. split; [lia|]. split; [reflexivity|].
      intros Hin. apply existsb_eqb_In in Hin. congruence.
Qed.

Lemma type_from_str_fallback : forall s,
  (forall t, s <> _get_accessor_type_name t) -> _get_type_from_str s = TYPE_SCALAR.
Proof.
  intros s Hs. unfold _get_type_from_str.
  repeat match goal with
  | |- context [String.eqb s ?n] =>
      destruct (String.eqb_spec s n) as [E | _];
      [exfalso; subst s;
       first [ apply (Hs TYPE_SCALAR); reflexivity | apply (Hs TYPE_VEC2); reflexivity
             | apply (Hs TYPE_VEC3); reflexivity | apply (Hs TYPE_VEC4); reflexivity
             | apply (Hs TYPE_MAT2); reflexivity | apply (Hs TYPE_MAT3); reflexivity
             | apply (Hs TYPE_MAT4); reflexivity ] |]
  end.
  reflexivity.
Qed.

(** X16.  The two accessor type tables are inverse to each other:
    reading back the name written for a type gives the type, and a
    string that is none of the seven names reads as the fallback
    [TYPE_SCALAR]. *)
Theorem accessor_type_name_round_trip :
  (forall t, _get_type_from_str (_get_accessor_type_name t) = t) /\
  (forall s, (forall t, s <> _get_accessor_type_name t) ->
             _get_type_from_str s = TYPE_SCALAR).
Proof.
  split.
  - intros t. destruct t; reflexivity.
  - exact type_from_str_fallback.
Qed.

Lemma accessor_type_name_round_trip_witness :
  _get_type_from_str (_get_accessor_type_name TYPE_MAT3) = TYPE_MAT3 /\
  _get_type_from_str "mat3" = TYPE_SCALAR.
Proof.
  split.
  - exact (proj1 accessor_type_name_round_trip TYPE_MAT3).
  - apply (proj2 accessor_type_name_round_trip "mat3"). intros t. destruct t; discriminate.
Defined.

(** X17.  [_gen_unique_bone_name] terminates after at most one try per
    name already taken plus one, and the name it returns and inserts
    was not taken: it is the sanitised name (or "bone" for an empty one),
    alone or followed by "_" and a number between 2 and the number of
    taken names plus 1. *)
Theorem gen_unique_bone_name_is_fresh :
  forall (fuel : nat) (unique_names : list string) (p_name : string),
    (List.length unique_names < fuel)%nat ->
    Z.of_nat (List.length unique_names) + 1 < 2 ^ 31 ->
    exists u_name k,
      _gen_unique_bone_name fuel unique_names p_name
      = Done (u_name, u_name :: unique_names) /\
      ~ In u_name unique_names /\
      1 <= k <= Z.of_nat (List.length unique_names) + 1 /\
      u_name = candidate
                 (if (_sanitize_bone_name p_name =? EmptyString)%string
                  then "bone" else _sanitize_bone_name p_name) k.
Proof.
  intros fuel names p_name Hfuel Hbound. unfold _gen_unique_bone_name. cbv zeta.
  set (s := if (_sanitize_bone_name p_name =? EmptyString)%string
            then "bone" else _sanitize_bone_name p_name).
  destruct (unique_name_loop_spec fuel names s 1) as [k [Hk [Hr Hnin]]]; try lia.
  exists (candidate s k), k. rewrite Hr. cbn [bind]. auto.
Qed.

Lemma gen_unique_bone_name_is_fresh_witness :
  exists u_name k,
    _gen_unique_bone_name 3 ["Arm_L"; "Arm_L_2"] "Arm:L"
    = Done (u_name, u_name :: ["Arm_L"; "Arm_L_2"]) /\
    ~ In u_name ["Arm_L"; "Arm_L_2"] /\
    1 <= k <= Z.of_nat (List.length ["Arm_L"; "Arm_L_2"]) + 1 /\
    u_name = candidate
               (if (_sanitize_bone_name "Arm:L" =? EmptyString)%string
                then "bone" else _sanitize_bone_name "Arm:L") k.
Proof.
  apply (gen_unique_bone_name_is_fresh 3 ["Arm_L"; "Arm_L_2"] "Arm:L").
  - cbn. lia.
  - cbn. lia.
Defined.
End NamesFacts.

(** ** Buffer codec: what an unpadded view gives back *)

(** *** Integers as [double] *)

Lemma of_Z_pos : forall (s : bool) (m : positive), Zpos m < 2 ^ 53 ->
  exists (mz : positive) (ez : Z),
    binary_round F64.prec F64.emax s m 0 = S754_finite s mz ez /\
    ez <= 0 /\ Zpos mz = Zpos m * 2 ^ (- ez).
Proof.
  intros s m Hm.
  pose proof (digits2_pos_bounds m) as Hd.
  assert (Hd53 : Zpos (digits2_pos m) <= 53).
  { apply (Zdigits2_le (Zpos m) 53); lia. }
  unfold binary_round, shl_align.
  set (ex' := fexp F64.prec F64.emax (Zpos (digits2_pos m) + 0)).
  assert (Hex : ex' = Zpos (digits2_pos m) - 53).
  { unfold ex', fexp, emin, F64.prec, F64.emax. lia. }
  destruct (ex' - 0) as [|d|d] eqn:Ed; try lia.
  - exists m, 0. split; [|split; [lia | cbn; lia]].
    apply round_exact. unfold bounded, canonical_mantissa.
    fold ex'. apply andb_true_iff. split; [apply Z.eqb_eq; lia|].
    apply Z.leb_le. unfold F64.prec, F64.emax. lia.
  - exists (shift_pos d m), ex'. unfold shift_pos.
    split; [|split; [lia|]].
    + apply round_exact. unfold bounded, canonical_mantissa. rewrite digits_shift.
      apply andb_true_iff. split.
      * apply Z.eqb_eq. rewrite Pos2Z.inj_add. unfold fexp, emin, F64.prec, F64.emax. lia.
      * apply Z.leb_le. unfold F64.prec, F64.emax. lia.
    + rewrite iter_xO_pow. f_equal. f_equal. lia.
Qed.

(** An integer below [2 ^ 53] in size converts to [double] and back
    without change. *)
Lemma trunc_of_Z : forall z, - 2 ^ 53 < z < 2 ^ 53 -> trunc_double (F64.of_Z z) = Some z.
Proof.
  intros z Hz. unfold F64.of_Z, binary_normalize.
  destruct z as [|m|m].
  - reflexivity.
  - destruct (of_Z_pos false m ltac:(lia)) as [mz [ez [-> [He Hv]]]].
    cbn [trunc_double cond_Zopp]. f_equal.
    destruct (Z.leb_spec 0 ez) as [H0 | Hneg].
    + assert (ez = 0) by lia. subst ez. rewrite Hv. cbn. lia.
    + rewrite Hv. apply Z.div_mul.
      pose proof (Z.pow_pos_nonneg 2 (- ez) ltac:(lia) ltac:(lia)). lia.
  - destruct (of_Z_pos true m ltac:(lia)) as [mz [ez [-> [He Hv]]]].
    cbn [trunc_double cond_Zopp]. f_equal.
    destruct (Z.leb_spec 0 ez) as [H0 | Hneg].
    + assert (ez = 0) by lia. subst ez. rewrite Hv. cbn. lia.
    + rewrite Hv, Z.div_mul; [lia|].
      pose proof (Z.pow_pos_nonneg 2 (- ez) ltac:(lia) ltac:(lia)). lia.
Qed.

Lemma int_of_double_of_Z : forall lo hi z,
  - 2 ^ 53 < lo -> hi < 2 ^ 53 -> lo <= z <= hi ->
  int_of_double lo hi (F64.of_Z z) = Done z.
Proof.
  intros lo hi z Hlo Hhi Hz. unfold int_of_double. rewrite trunc_of_Z by lia.
  destruct (Z.leb_spec lo z); [|lia]. destruct (Z.leb_spec z hi); [|lia]. reflexivity.
Qed.

(** *** Bytes *)

Lemma bytes_of_uint_length : forall n z, length (bytes_of_uint n z) = n.
Proof. induction n as [|n IH]; intros z; cbn; [reflexivity | now rewrite IH]. Qed.

Lemma uint_of_bytes_of_uint : forall n z, 0 <= z < 256 ^ Z.of_nat n ->
  uint_of_bytes (bytes_of_uint n z) = z.
Proof.
  induction n as [|n IH]; intros z Hz.
  - cbn in Hz. cbn. lia.
  - cbn [bytes_of_uint uint_of_bytes]. rewrite IH.
    + pose proof (Z.div_mod z 256 ltac:(lia)). lia.
    + rewrite Nat2Z.inj_succ, Z.pow_succ_r in Hz by lia.
      split; [apply Z.div_pos; lia | apply Z.div_lt_upper_bound; lia].
Qed.

Lemma read_bytes_app : forall (pre bs post : list Z),
  read_bytes (pre ++ bs ++ post) (size pre) (length bs) = Done bs.
Proof.
  intros pre bs post. unfold read_bytes.
  pose proof (size_nonneg pre). rewrite !size_app.
  pose proof (size_nonneg post).
  destruct (Z.ltb_spec (size pre) 0); [lia|].
  destruct (Z.ltb_spec (size pre + (size bs + size post)) (size pre + Z.of_nat (length bs)));
    [unfold size in *; lia|].
  cbn [orb]. unfold size. rewrite Nat2Z.id.
  rewrite skipn_app, Nat.sub_diag, skipn_all. cbn [app skipn].
  rewrite firstn_app, Nat.sub_diag, firstn_all. cbn [firstn]. now rewrite app_nil_r.
Qed.

(** *** One component *)

(** The values a component type stores exactly: the integers of its
    range, and for [COMPONENT_TYPE_FLOAT] the finite [float]s. *)
Definition int_range (ct : Z) : option (Z * Z) :=
  if ct =? COMPONENT_TYPE_BYTE then Some (-128, 127)
  else if ct =? COMPONENT_TYPE_UNSIGNED_BYTE then Some (0, 255)
  else if ct =? COMPONENT_TYPE_SHORT then Some (-32768, 32767)
  else if ct =? COMPONENT_TYPE_UNSIGNED_SHORT then Some (0, 65535)
  else if ct =? COMPONENT_TYPE_INT then Some (- 2 ^ 31, 2 ^ 31 - 1)
  else None.

Definition storable (ct : Z) (d : spec_float) : Prop :=
  (exists z lo hi, int_range ct = Some (lo, hi) /\ lo <= z <= hi /\ d = F64.of_Z z) \/
  (ct = COMPONENT_TYPE_FLOAT /\ exists x, finite32 x = true /\ d = double_of_float x).

(** The bit pattern of a finite [float] reads back as the same [float]. *)
Lemma of_bits_to_bits : forall x, finite32 x = true -> F32.of_bits (F32.to_bits x) = x.
Proof.
  intros [s | s | | s m e] H; try discriminate H.
  - destruct s; reflexivity.
  - cbn [finite32] in H. destruct (bounded_inv F32.prec F32.emax m e H) as [Hc He].
    unfold fexp, emin, F32.prec, F32.emax in Hc. unfold F32.prec, F32.emax in He.
    pose proof (digits2_pos_bounds m) as Hd.
    assert (Hs : F32.sign_bit s = if s then 2 ^ 31 else 0) by reflexivity.
    unfold F32.to_bits.
    destruct (Z.ltb_spec (Zpos m) (2 ^ 23)) as [Hsub | Hnorm].
    + assert (Hd23 : Zpos (digits2_pos m) <= 23) by (apply (Zdigits2_le (Zpos m) 23); lia).
      assert (e = -149) by lia. subst e.
      unfold F32.of_bits. cbv zeta.
      assert (Hex : ((F32.sign_bit s + Zpos m) / 2 ^ 23) mod 256 = 0).
      { destruct s; rewrite Hs.
        - replace (2 ^ 31 + Zpos m) with (Zpos m + 256 * 2 ^ 23) by lia.
          rewrite Z.div_add by lia. rewrite Z.div_small by lia. reflexivity.
        - rewrite Z.add_0_l, Z.div_small by lia. reflexivity. }
      assert (Hmant : (F32.sign_bit s + Zpos m) mod 2 ^ 23 = Zpos m).
      { destruct s; rewrite Hs.
        - replace (2 ^ 31 + Zpos m) with (Zpos m + 256 * 2 ^ 23) by lia.
          rewrite Z.mod_add by lia. apply Z.mod_small; lia.
        - rewrite Z.add_0_l. apply Z.mod_small; lia. }
      assert (Hsign : (2 ^ 31 <=? F32.sign_bit s + Zpos m) = s).
      { destruct s; rewrite Hs; [apply Z.leb_le | apply Z.leb_gt]; lia. }
      rewrite Hex, Hmant, Hsign. reflexivity.
    + assert (Hd24 : 23 < Zpos (digits2_pos m)) by (apply (Zdigits2_gt (Zpos m) 23); lia).
      assert (Hd24' : Zpos (digits2_pos m) = 24) by lia.
      rewrite Hd24' in Hd. change (2 ^ (24 - 1)) with (2 ^ 23) in Hd.
      assert (Hm24 : Zpos m < 2 * 2 ^ 23) by (change (2 * 2 ^ 23) with (2 ^ 24); lia).
      assert (He' : -149 <= e) by lia.
      unfold F32.of_bits. cbv zeta.
      set (b := F32.sign_bit s + (e + 150) * 2 ^ 23 + (Zpos m - 2 ^ 23)).
      assert (Hb : b = (Zpos m - 2 ^ 23) + ((if s then 256 else 0) + (e + 150)) * 2 ^ 23).
      { unfold b. rewrite Hs. destruct s; lia. }
      assert (Hex : (b / 2 ^ 23) mod 256 = e + 150).
      { rewrite Hb, Z.div_add by lia. rewrite (Z.div_small (Zpos m - 2 ^ 23)) by lia.
        rewrite Z.add_0_l. destruct s.
        - replace (256 + (e + 150)) with ((e + 150) + 1 * 256) by lia.
          rewrite Z.mod_add by lia. apply Z.mod_small; lia.
        - rewrite Z.add_0_l. apply Z.mod_small; lia. }
      assert (Hmant : b mod 2 ^ 23 = Zpos m - 2 ^ 23).
      { rewrite Hb, Z.mod_add by lia. apply Z.mod_small; lia. }
      assert (Hsign : (2 ^ 31 <=? b) = s).
      { unfold b. rewrite Hs. destruct s; [apply Z.leb_le | apply Z.leb_gt]; lia. }
      rewrite Hex, Hmant, Hsign.
      destruct (Z.eqb_spec (e + 150) 0); [lia|].
      destruct (Z.eqb_spec (e + 150) 255); [lia|].
      replace (Zpos m - 2 ^ 23 + 2 ^ 23) with (Zpos m) by lia.
      f_equal. lia.
Qed.

Lemma to_bits_range : forall x, finite32 x = true -> 0 <= F32.to_bits x < 256 ^ 4.
Proof.
  intros [s | s | | s m e] H; try discriminate H.
  - destruct s; cbn; lia.
  - cbn [finite32] in H. destruct (bounded_inv F32.prec F32.emax m e H) as [Hc He].
    unfold fexp, emin, F32.prec, F32.emax in Hc. unfold F32.prec, F32.emax in He.
    pose proof (digits2_pos_bounds m) as Hd.
    assert (Hs : F32.sign_bit s = if s then 2 ^ 31 else 0) by reflexivity.
    unfold F32.to_bits.
    destruct (Z.ltb_spec (Zpos m) (2 ^ 23)) as [Hsub | Hnorm].
    + rewrite Hs. destruct s; lia.
    + assert (Hd24 : 23 < Zpos (digits2_pos m)) by (apply (Zdigits2_gt (Zpos m) 23); lia).
      assert (Hd24' : Zpos (digits2_pos m) = 24) by lia.
      rewrite Hd24' in Hd.
      assert (Hm24 : Zpos m < 2 * 2 ^ 23) by (change (2 * 2 ^ 23) with (2 ^ 24); lia).
      rewrite Hs. destruct s; lia.
Qed.

(** What is written for a storable value is read back as that value,
    wherever the bytes lie. *)
Lemma component_round_trip : forall ct d, storable ct d ->
  exists x,
    encode_component ct false d = Done x /\
    forall pre post,
      read_component (pre ++ bytes_of_uint (Z.to_nat (_get_component_type_size ct)) x ++ post)
        (size pre) ct false = Done d.
Proof.
  intros ct d [[z [lo [hi [Hr [Hz ->]]]]] | [-> [x [Hx ->]]]].
  - unfold int_range in Hr.
    destruct (Z.eqb_spec ct COMPONENT_TYPE_BYTE) as [-> | _].
    { inversion Hr; subst lo hi. exists (unsigned_of 8 z). split.
      - unfold encode_component. cbn [Z.eqb COMPONENT_TYPE_BYTE Pos.eqb].
        rewrite int_of_double_of_Z by lia. reflexivity.
      - intros pre post. unfold read_component. cbn [Z.eqb COMPONENT_TYPE_BYTE Pos.eqb].
        change (Z.to_nat (_get_component_type_size COMPONENT_TYPE_BYTE)) with 1%nat.
        pose proof (read_bytes_app pre (bytes_of_uint 1 (unsigned_of 8 z)) post) as Hrd.
        rewrite bytes_of_uint_length in Hrd. rewrite Hrd. cbn [bind].
        rewrite uint_of_bytes_of_uint
          by (unfold unsigned_of; change (256 ^ Z.of_nat 1) with (2 ^ 8); apply Z.mod_pos_bound; lia).
        f_equal. f_equal. unfold signed_of, unsigned_of.
        change (2 ^ (8 - 1)) with 128. change (2 ^ 8) with 256.
        destruct (Z.ltb_spec (z mod 256) 128);
          pose proof (Z.div_mod z 256 ltac:(lia));
          pose proof (Z.mod_pos_bound z 256 ltac:(lia)); lia. }
    destruct (Z.eqb_spec ct COMPONENT_TYPE_UNSIGNED_BYTE) as [-> | _].
    { inversion Hr; subst lo hi. exists z. split.
      - unfold encode_component. cbn [Z.eqb COMPONENT_TYPE_BYTE COMPONENT_TYPE_UNSIGNED_BYTE Pos.eqb].
        now rewrite int_of_double_of_Z by lia.
      - intros pre post. unfold read_component.
        cbn [Z.eqb COMPONENT_TYPE_BYTE COMPONENT_TYPE_UNSIGNED_BYTE Pos.eqb].
        change (Z.to_nat (_get_component_type_size COMPONENT_TYPE_UNSIGNED_BYTE)) with 1%nat.
        pose proof (read_bytes_app pre (bytes_of_uint 1 z) post) as Hrd.
        rewrite bytes_of_uint_length in Hrd. rewrite Hrd. cbn [bind].
        rewrite uint_of_bytes_of_uint by (change (256 ^ Z.of_nat 1) with 256; lia).
        reflexivity. }
    destruct (Z.eqb_spec ct COMPONENT_TYPE_SHORT) as [-> | _].
    { inversion Hr; subst lo hi. exists (unsigned_of 16 z). split.
      - unfold encode_component.
        cbn [Z.eqb COMPONENT_TYPE_BYTE COMPONENT_TYPE_UNSIGNED_BYTE COMPONENT_TYPE_SHORT Pos.eqb].
        rewrite int_of_double_of_Z by lia. reflexivity.
      - intros pre post. unfold read_component.
        cbn [Z.eqb COMPONENT_TYPE_BYTE COMPONENT_TYPE_UNSIGNED_BYTE COMPONENT_TYPE_SHORT Pos.eqb].
        change (Z.to_nat (_get_component_type_size COMPONENT_TYPE_SHORT)) with 2%nat.
        pose proof (read_bytes_app pre (bytes_of_uint 2 (unsigned_of 16 z)) post) as Hrd.
        rewrite bytes_of_uint_length in Hrd. rewrite Hrd. cbn [bind].
        rewrite uint_of_bytes_of_uint
          by (unfold unsigned_of; change (256 ^ Z.of_nat 2) with (2 ^ 16); apply Z.mod_pos_bound; lia).
        f_equal. f_equal. unfold signed_of, unsigned_of.
        change (2 ^ (16 - 1)) with 32768. change (2 ^ 16) with 65536.
        destruct (Z.ltb_spec (z mod 65536) 32768);
          pose proof (Z.div_mod z 65536 ltac:(lia));
          pose proof (Z.mod_pos_bound z 65536 ltac:(lia)); lia. }
    destruct (Z.eqb_spec ct COMPONENT_TYPE_UNSIGNED_SHORT) as [-> | _].
    { inversion Hr; subst lo hi. exists z. split.
      - unfold encode_component.
        cbn [Z.eqb COMPONENT_TYPE_BYTE COMPONENT_TYPE_UNSIGNED_BYTE COMPONENT_TYPE_SHORT
             COMPONENT_TYPE_UNSIGNED_SHORT Pos.eqb].
        now rewrite int_of_double_of_Z by lia.
      - intros pre post. unfold read_component.
        cbn [Z.eqb COMPONENT_TYPE_BYTE COMPONENT_TYPE_UNSIGNED_BYTE COMPONENT_TYPE_SHORT
             COMPONENT_TYPE_UNSIGNED_SHORT Pos.eqb].
        change (Z.to_nat (_get_component_type_size COMPONENT_TYPE_UNSIGNED_SHORT)) with 2%nat.
        pose proof (read_bytes_app pre (bytes_of_uint 2 z) post) as Hrd.
        rewrite bytes_of_uint_length in Hrd. rewrite Hrd. cbn [bind].
        rewrite uint_of_bytes_of_uint by (change (256 ^ Z.of_nat 2) with 65536; lia).
        reflexivity. }
    destruct (Z.eqb_spec ct COMPONENT_TYPE_INT) as [-> | _]; [|discriminate Hr].
    inversion Hr; subst lo hi. exists (unsigned_of 32 z). split.
    + unfold encode_component.
      cbn [Z.eqb COMPONENT_TYPE_BYTE COMPONENT_TYPE_UNSIGNED_BYTE COMPONENT_TYPE_SHORT
           COMPONENT_TYPE_UNSIGNED_SHORT COMPONENT_TYPE_INT Pos.eqb].
      rewrite int_of_double_of_Z by lia. reflexivity.
    + intros pre post. unfold read_component.
      cbn [Z.eqb COMPONENT_TYPE_BYTE COMPONENT_TYPE_UNSIGNED_BYTE COMPONENT_TYPE_SHORT
           COMPONENT_TYPE_UNSIGNED_SHORT COMPONENT_TYPE_INT Pos.eqb].
      change (Z.to_nat (_get_component_type_size COMPONENT_TYPE_INT)) with 4%nat.
      pose proof (read_bytes_app pre (bytes_of_uint 4 (unsigned_of 32 z)) post) as Hrd.
      rewrite bytes_of_uint_length in Hrd. rewrite Hrd. cbn [bind].
      rewrite uint_of_bytes_of_uint
        by (unfold unsigned_of; change (256 ^ Z.of_nat 4) with (2 ^ 32); apply Z.mod_pos_bound; lia).
      f_equal. f_equal. unfold signed_of, unsigned_of.
      change (2 ^ (32 - 1)) with 2147483648. change (2 ^ 32) with 4294967296.
      change (2 ^ 31) with 2147483648 in Hz.
      destruct (Z.ltb_spec (z mod 4294967296) 2147483648);
        pose proof (Z.div_mod z 4294967296 ltac:(lia));
        pose proof (Z.mod_pos_bound z 4294967296 ltac:(lia)); lia.
  - exists (F32.to_bits x). split.
    + unfold encode_component.
      cbn [Z.eqb COMPONENT_TYPE_BYTE COMPONENT_TYPE_UNSIGNED_BYTE COMPONENT_TYPE_SHORT
           COMPONENT_TYPE_UNSIGNED_SHORT COMPONENT_TYPE_INT COMPONENT_TYPE_FLOAT Pos.eqb].
      now rewrite narrow_widen.
    + intros pre post. unfold read_component.
      cbn [Z.eqb COMPONENT_TYPE_BYTE COMPONENT_TYPE_UNSIGNED_BYTE COMPONENT_TYPE_SHORT
           COMPONENT_TYPE_UNSIGNED_SHORT COMPONENT_TYPE_INT COMPONENT_TYPE_FLOAT Pos.eqb].
      change (Z.to_nat (_get_component_type_size COMPONENT_TYPE_FLOAT)) with 4%nat.
      pose proof (read_bytes_app pre (bytes_of_uint 4 (F32.to_bits x)) post) as Hrd.
      rewrite bytes_of_uint_length in Hrd. rewrite Hrd. cbn [bind].
      rewrite uint_of_bytes_of_uint by (apply to_bits_range; exact Hx).
      now rewrite of_bits_to_bits.
Qed.

(** *** The loops on an unpadded layout *)

Definition encodes (ct : Z) (d : spec_float) (x : Z) : Prop :=
  encode_component ct false d = Done x.

Definition reads_back (ct : Z) (d : spec_float) (x : Z) : Prop :=
  forall pre post,
    read_component (pre ++ bytes_of_uint (Z.to_nat (_get_component_type_size ct)) x ++ post)
      (size pre) ct false = Done d.

Lemma storable_patterns : forall ct ds, Forall (storable ct) ds ->
  exists xs, Forall2 (encodes ct) ds xs /\ Forall2 (reads_back ct) ds xs.
Proof.
  intros ct ds H. induction H as [|d ds Hd _ [xs [He Hr]]].
  - exists []. split; constructor.
  - destruct (component_round_trip ct d Hd) as [x [Hx Hb]].
    exists (x :: xs). split; constructor; assumption.
Qed.

Lemma encode_components_plain : forall ct sb ds xs,
  Forall2 (encodes ct) ds xs ->
  forall pre post rest j,
    encode_components (length xs) (pre ++ repeat 0 (length xs) ++ post) (size pre)
      (ds ++ rest) j 0 sb ct false
    = Done (pre ++ xs ++ post, size pre + size xs, rest).
Proof.
  intros ct sb ds xs H. induction H as [|d x ds xs Hd _ IH]; intros pre post rest j.
  - cbn. rewrite Z.add_0_r. reflexivity.
  - cbn [length encode_components repeat app]. unfold skips_before. cbn [Z.eqb negb andb].
    change (ptr_get (d :: ds ++ rest) 0) with (Done d). cbn [bind].
    unfold encodes in Hd. rewrite Hd. cbn [bind].
    rewrite write_at_app. cbn [bind tl].
    replace (pre ++ x :: repeat 0 (length xs) ++ post)
      with ((pre ++ [x]) ++ repeat 0 (length xs) ++ post)
      by (rewrite <- app_assoc; reflexivity).
    replace (size pre + 1) with (size (pre ++ [x])) by (rewrite size_app; reflexivity).
    rewrite IH. rewrite <- app_assoc. cbn [app]. rewrite size_app, !size_cons, size_nil.
    replace (size pre + (1 + 0) + size xs) with (size pre + (1 + size xs)) by lia. reflexivity.
Qed.

Lemma encode_elements_plain : forall ct sb ccn n ds xs,
  Forall2 (encodes ct) ds xs -> length xs = (n * ccn)%nat ->
  forall pre,
    encode_elements n (pre ++ repeat 0 (n * ccn)) (size pre) ds (Z.of_nat ccn) 0 sb ct false
    = Done (pre ++ xs).
Proof.
  intros ct sb ccn n. induction n as [|n IH]; intros ds xs H Hlen pre.
  - destruct xs; [|discriminate Hlen]. cbn. reflexivity.
  - rewrite <- (firstn_skipn ccn xs) in H.
    apply Forall2_app_inv_r in H. destruct H as [ds1 [ds2 [H1 [H2 ->]]]].
    assert (Hl1 : length (firstn ccn xs) = ccn) by (rewrite length_firstn; cbn in Hlen; lia).
    assert (Hl2 : length (skipn ccn xs) = (n * ccn)%nat)
      by (rewrite length_skipn; cbn in Hlen; lia).
    cbn [encode_elements]. rewrite Nat2Z.id.
    change (S n * ccn)%nat with (ccn + n * ccn)%nat. rewrite repeat_app.
    rewrite <- Hl1 at 1 2.
    rewrite (encode_components_plain ct sb ds1 (firstn ccn xs) H1 pre (repeat 0 (n * ccn)) ds2 0).
    cbn [bind].
    replace (pre ++ firstn ccn xs ++ repeat 0 (n * ccn))
      with ((pre ++ firstn ccn xs) ++ repeat 0 (n * ccn)) by (now rewrite <- app_assoc).
    replace (size pre + size (firstn ccn xs)) with (size (pre ++ firstn ccn xs))
      by (now rewrite size_app).
    rewrite (IH ds2 (skipn ccn xs) H2 Hl2). rewrite <- app_assoc.
    now rewrite firstn_skipn.
Qed.

Lemma component_size_cases : forall ct,
  _get_component_type_size ct = 0 \/ _get_component_type_size ct = 1 \/
  _get_component_type_size ct = 2 \/ _get_component_type_size ct = 4.
Proof.
  intros ct. unfold _get_component_type_size.
  repeat match goal with |- context [if ?c then _ else _] => destruct c end; auto.
Qed.

Lemma flat_map_bytes_size : forall csn xs,
  size (flat_map (bytes_of_uint csn) xs) = size xs * Z.of_nat csn.
Proof.
  intros csn xs. induction xs as [|x xs IH]; [reflexivity|].
  cbn [flat_map]. rewrite size_app, size_cons, IH. unfold size at 1.
  rewrite bytes_of_uint_length. lia.
Qed.

Lemma decode_components_plain : forall ct sb ds xs,
  Forall2 (reads_back ct) ds xs ->
  forall pre post j,
    decode_components (length xs)
      (pre ++ flat_map (bytes_of_uint (Z.to_nat (_get_component_type_size ct))) xs ++ post)
      (size pre) j 0 sb ct (_get_component_type_size ct) false
    = Done ds.
Proof.
  intros ct sb ds xs H. induction H as [|d x ds xs Hd _ IH]; intros pre post j.
  - reflexivity.
  - cbn [length decode_components flat_map]. unfold skips_before. cbn [Z.eqb negb andb].
    rewrite <- app_assoc. rewrite (Hd pre _). cbn [bind].
    set (bs := bytes_of_uint (Z.to_nat (_get_component_type_size ct)) x).
    replace (pre ++ bs ++ flat_map (bytes_of_uint (Z.to_nat (_get_component_type_size ct))) xs ++ post)
      with ((pre ++ bs) ++ flat_map (bytes_of_uint (Z.to_nat (_get_component_type_size ct))) xs ++ post)
      by (now rewrite <- app_assoc).
    replace (size pre + _get_component_type_size ct) with (size (pre ++ bs)).
    + rewrite IH. reflexivity.
    + rewrite size_app. unfold bs, size at 2. rewrite bytes_of_uint_length.
      destruct (component_size_cases ct) as [-> | [-> | [-> | ->]]]; reflexivity.
Qed.

Lemma decode_elements_plain : forall ct sb ccn n ds xs,
  Forall2 (reads_back ct) ds xs -> length xs = (n * ccn)%nat ->
  forall pre post offset i,
    size pre = offset + i * (Z.of_nat ccn * _get_component_type_size ct) ->
    size pre + size xs * _get_component_type_size ct < 2 ^ 32 ->
    decode_elements n
      (pre ++ flat_map (bytes_of_uint (Z.to_nat (_get_component_type_size ct))) xs ++ post)
      offset (Z.of_nat ccn * _get_component_type_size ct) i 0 sb (Z.of_nat ccn) ct
      (_get_component_type_size ct) false
    = Done ds.
Proof.
  intros ct sb ccn n. induction n as [|n IH]; intros ds xs H Hlen pre post offset i Hpre Hbound.
  - destruct xs; [|discriminate Hlen]. inversion H. reflexivity.
  - assert (Hcs : 0 <= _get_component_type_size ct)
      by (destruct (component_size_cases ct) as [-> | [-> | [-> | ->]]]; lia).
    pose proof (size_nonneg pre) as Hp0. pose proof (size_nonneg xs) as Hx0.
    rewrite <- (firstn_skipn ccn xs) in H.
    apply Forall2_app_inv_r in H. destruct H as [ds1 [ds2 [H1 [H2 ->]]]].
    assert (Hl1 : length (firstn ccn xs) = ccn) by (rewrite length_firstn; cbn in Hlen; lia).
    assert (Hl2 : length (skipn ccn xs) = (n * ccn)%nat)
      by (rewrite length_skipn; cbn in Hlen; lia).
    cbn [decode_elements]. rewrite Nat2Z.id.
    rewrite <- Hpre. unfold to_uint32. rewrite Z.mod_small by nia.
    rewrite <- (firstn_skipn ccn xs). rewrite !flat_map_app, <- !app_assoc.
    rewrite <- Hl1 at 1.
    rewrite (decode_components_plain ct sb ds1 (firstn ccn xs) H1). cbn [bind].
    set (f1 := flat_map (bytes_of_uint (Z.to_nat (_get_component_type_size ct))) (firstn ccn xs)).
    replace (pre ++ f1 ++ flat_map (bytes_of_uint (Z.to_nat (_get_component_type_size ct))) (skipn ccn xs) ++ post)
      with ((pre ++ f1) ++ flat_map (bytes_of_uint (Z.to_nat (_get_component_type_size ct))) (skipn ccn xs) ++ post)
      by (now rewrite <- app_assoc).
    assert (Hf1 : size f1 = Z.of_nat ccn * _get_component_type_size ct).
    { unfold f1. rewrite flat_map_bytes_size. unfold size. rewrite Hl1. lia. }
    assert (Hsx : size xs = Z.of_nat ccn + size (skipn ccn xs)).
    { unfold size. rewrite length_skipn. cbn in Hlen. lia. }
    rewrite (IH ds2 (skipn ccn xs) H2 Hl2 (pre ++ f1) post offset (i + 1)).
    + reflexivity.
    + rewrite size_app, Hf1. lia.
    + rewrite size_app, Hf1. nia.
Qed.

(** *** Encoding a view and decoding it again *)


Lemma plain_element_size : forall ct ty, skip_table ct ty = (0, 0) ->
  element_size_for ct ty = component_count_for_type ty * _get_component_type_size ct.
Proof.
  intros ct ty. unfold skip_table, element_size_for. cbv zeta.
  destruct ((ct =? COMPONENT_TYPE_BYTE) || (ct =? COMPONENT_TYPE_UNSIGNED_BYTE)).
  - destruct ty; cbn; intros H; try discriminate H; reflexivity.
  - destruct ((ct =? COMPONENT_TYPE_SHORT) || (ct =? COMPONENT_TYPE_UNSIGNED_SHORT)).
    + destruct ty; cbn; intros H; try discriminate H; reflexivity.
    + reflexivity.
Qed.

(** The accessor the [_encode_accessor_as_*] functions fill in for a
    view: no offset of its own, not normalized, not sparse. *)
Definition plain_accessor (view count ct : Z) (ty : FBXType) : FBXAccessor :=
  {| buffer_view := view; a_byte_offset := 0; component_type := ct; normalized := false;
     count := count; type := ty; sparse_count := 0;
     sparse_indices_buffer_view := 0; sparse_indices_byte_offset := 0;
     sparse_indices_component_type := 0;
     sparse_values_buffer_view := 0; sparse_values_byte_offset := 0 |}.

Lemma encode_decode_round_trip_facts :
  forall (st : FBXState) (b0 : list Z) (bs : list (list Z)) (src : list spec_float)
         (p_count : Z) (p_type : FBXType) (ct : Z) (p_byte_offset : Z) (p_for_vertex : bool),
    buffers st = b0 :: bs ->
    buffer_views st = [] ->
    0 < _get_component_type_size ct ->
    skip_table ct p_type = (0, 0) ->
    Forall (storable ct) src ->
    size src = p_count * component_count_for_type p_type ->
    (p_for_vertex = true -> Z.rem (element_size_for ct p_type) 4 = 0) ->
    0 <= p_byte_offset <= size b0 ->
    size b0 + size src * _get_component_type_size ct < 2 ^ 31 ->
    exists (st' : FBXState) (bytes : list Z),
      _encode_buffer_view st src p_count p_type ct false p_byte_offset p_for_vertex
      = Done (OK, st', Some 0) /\
      buffers st' = (b0 ++ bytes) :: bs /\
      size bytes = size src * _get_component_type_size ct /\
      buffer_views st'
      = [ {| buffer := 0; byte_offset := size b0; byte_length := size bytes;
             byte_stride := -1 |} ] /\
      forall (accs : list FBXAccessor) (i : Z),
        get accs i = Done (plain_accessor 0 p_count ct p_type) ->
        _decode_accessor {| buffers := buffers st'; buffer_views := buffer_views st';
                            accessors := accs |} i p_for_vertex
        = Done src.
Proof.
  intros st b0 bs src p_count p_type ct p_byte_offset p_for_vertex
         Hbuf Hviews Hcs Hskip Hsrc Hsize Hvert Hoff Hbound.
  destruct (storable_patterns ct src Hsrc) as [xs [Henc Hdec]].
  set (cs := _get_component_type_size ct) in *.
  set (cc := component_count_for_type p_type) in *.
  assert (Hcc : 1 <= cc) by (unfold cc; destruct p_type; cbn; lia).
  pose proof (size_nonneg src) as Hs0. pose proof (size_nonneg b0) as Hb0.
  assert (Hcount : 0 <= p_count) by nia.
  assert (Hxs : length xs = length src) by (symmetry; eapply Forall2_length; exact Henc).
  assert (Hlen : length xs = (Z.to_nat p_count * Z.to_nat cc)%nat).
  { rewrite Hxs. unfold size in Hsize. nia. }
  assert (Hes : element_size_for ct p_type = cc * cs) by (now apply plain_element_size).
  assert (Hcs124 : cs = 1 \/ cs = 2 \/ cs = 4).
  { destruct (component_size_cases ct) as [H | H]; fold cs in H; [lia | exact H]. }
  assert (Halign : align_stride p_for_vertex (cc * cs) = cc * cs).
  { unfold align_stride. destruct p_for_vertex; [|reflexivity].
    rewrite <- Hes, Hvert by reflexivity. reflexivity. }
  set (bytes := flat_map (bytes_of_uint (Z.to_nat cs)) xs).
  assert (Hbytes : size bytes = size src * cs).
  { unfold bytes. rewrite flat_map_bytes_size. unfold size. rewrite Hxs. lia. }
  assert (Hsxs : size xs = p_count * cc) by (unfold size in *; rewrite Hxs; exact Hsize).
  (* the span [_encode_buffer_view] tests *)
  assert (Hspan : align_stride p_for_vertex cs * (p_count - 1) + cs <= size xs * cs
                  /\ - 4 < align_stride p_for_vertex cs * (p_count - 1) + cs).
  { unfold align_stride. destruct p_for_vertex; cbn [andb].
    - assert (H4 : Z.rem (cc * cs) 4 = 0) by (rewrite <- Hes; now apply Hvert).
      assert (Hge : 4 <= cc * cs).
      { apply Z.rem_divide in H4; [|lia]. destruct H4 as [q Hq]. nia. }
      assert (Hle : cs <= cc * cs) by nia.
      assert (Hprod : size xs * cs = p_count * (cc * cs)) by (rewrite Hsxs; ring).
      rewrite Hprod. clear Hprod. remember (cc * cs) as E eqn:HE0. clear HE0.
      assert (Ha : (if negb (Z.rem cs 4 =? 0) then cs + (4 - Z.rem cs 4) else cs) = 4).
      { destruct Hcs124 as [H | [H | H]]; rewrite H; reflexivity. }
      rewrite Ha. destruct (Z.eq_dec p_count 0) as [-> | Hne]; [lia|]. nia.
    - assert (Hprod : size xs * cs = p_count * (cc * cs)) by (rewrite Hsxs; ring).
      rewrite Hprod. nia. }
  exists {| buffers := (b0 ++ bytes) :: bs;
            buffer_views := [ {| buffer := 0; byte_offset := size b0;
                                 byte_length := size bytes; byte_stride := -1 |} ];
            accessors := accessors st |}, bytes.
  split; [|split; [reflexivity | split; [exact Hbytes | split; [reflexivity|]]]].
  - unfold _encode_buffer_view. cbv zeta. fold cs cc.
    destruct (Z.eqb_spec cs 0); [lia|]. rewrite Hskip.
    rewrite Hbuf. change (get (b0 :: bs) 0) with (Done b0). cbn [bind].
    replace (Z.to_nat (p_count * cc)) with (Z.to_nat p_count * Z.to_nat cc)%nat by nia.
    replace cc with (Z.of_nat (Z.to_nat cc)) at 2 by lia.
    pose proof (encode_elements_plain ct 0 (Z.to_nat cc) (Z.to_nat p_count) src xs Henc Hlen [])
      as Hrun.
    cbn [app] in Hrun. change (size (@nil Z)) with 0 in Hrun. rewrite Hrun. cbn [bind].
    fold bytes. unfold set_buffer0, add_buffer_view, push_back.
    cbn [buffers buffer_views accessors]. rewrite Hbuf, Hviews. cbn [tl app].
    change (size (@nil FBXBufferView)) with 0.
    destruct Hspan as [Hspan1 Hspan2].
    destruct (Z.ltb_spec (size xs * cs) (align_stride p_for_vertex cs * (p_count - 1) + cs));
      [lia|].
    rewrite to_uint32_small by lia.
    rewrite to_int32_small by (rewrite Hsxs in Hspan1; lia).
    rewrite size_app, Hbytes.
    destruct (Z.ltb_spec (size b0 + size src * cs)
                (p_byte_offset + (align_stride p_for_vertex cs * (p_count - 1) + cs)));
      [rewrite Hsxs in Hspan1; nia|].
    rewrite Hsxs, <- Hsize. reflexivity.
  - intros accs i Hget. destruct (get_Done_inv accs i Hget) as [Hi _].
    unfold _decode_accessor. cbn [accessors].
    destruct (Z.ltb_spec i 0); [lia|]. destruct (Z.leb_spec (size accs) i); [lia|].
    cbn [orb]. rewrite Hget. cbn [bind]. cbv zeta.
    cbn [plain_accessor type component_type buffer_view count normalized a_byte_offset
         sparse_count buffer_views buffers].
    fold cs cc. destruct (Z.eqb_spec cs 0); [lia|]. rewrite Hskip, Hes.
    cbn [Z.leb Z.compare]. change (size [_]) with 1. cbn [Z.leb Z.compare].
    unfold _decode_buffer_view. cbn [buffer_views buffers].
    change (get [?bv] 0) with (Done bv). cbn [bind]. cbv zeta.
    unfold view_stride, required_span, view_stride.
    cbn [buffer byte_offset byte_length byte_stride Z.eqb negb Pos.eqb].
    rewrite Halign. cbn [Z.ltb Z.compare orb].
    assert (Hcc16 : cc <= 16) by (unfold cc; destruct p_type; cbn; lia).
    rewrite (@to_int32_small (cc * cs)) by nia.
    rewrite (@to_int32_small (cc * cs * (p_count - 1) + cc * cs)) by nia.
    rewrite (@to_int32_small (cc * p_count)) by nia.
    rewrite size_cons. pose proof (size_nonneg bs).
    destruct (Z.leb_spec (1 + size bs) 0); [lia|].
    change (get ((b0 ++ bytes) :: bs) 0) with (Done (b0 ++ bytes)). cbn [bind].
    rewrite Z.add_0_r, to_uint32_small by lia.
    destruct (Z.ltb_spec (size bytes) (cc * cs * (p_count - 1) + cc * cs)); [nia|].
    rewrite to_int32_small by nia.
    rewrite size_app.
    destruct (Z.ltb_spec (size b0 + size bytes) (size b0 + (cc * cs * (p_count - 1) + cc * cs)));
      [nia|].
    replace cc with (Z.of_nat (Z.to_nat cc)) by lia.
    pose proof (decode_elements_plain ct 0 (Z.to_nat cc) (Z.to_nat p_count) src xs Hdec Hlen
                  b0 [] (size b0) 0) as Hrun.
    fold cs in Hrun. rewrite app_nil_r in Hrun. fold bytes in Hrun.
    rewrite Hrun by (rewrite ?Hsxs; nia). cbn [bind].
    unfold ptr_fill. rewrite Hsize.
    replace (Z.max 0 (Z.of_nat (Z.to_nat cc) * p_count)) with (p_count * cc) by lia.
    rewrite Z.eqb_refl. reflexivity.
Qed.

(** X18.  The first view encoded into a state, in a layout without
    padding and with storable values (integers of the component type's
    range, finite floats for [COMPONENT_TYPE_FLOAT]), is accepted, becomes
    view 0 and appends exactly one tightly packed run of bytes to buffer
    0; decoding an accessor on that view gives the source values back.
    For vertex data this needs an element size that is a multiple
    of 4. *)
Theorem encode_decode_round_trip_unpadded :
  forall (st : FBXState) (b0 : list Z) (bs : list (list Z)) (src : list spec_float)
         (p_count : Z) (p_type : FBXType) (ct : Z) (p_byte_offset : Z) (p_for_vertex : bool),
    buffers st = b0 :: bs ->
    buffer_views st = [] ->
    0 < _get_component_type_size ct ->
    skip_table ct p_type = (0, 0) ->
    Forall (storable ct) src ->
    size src = p_count * component_count_for_type p_type ->
    (p_for_vertex = true -> Z.rem (element_size_for ct p_type) 4 = 0) ->
    0 <= p_byte_offset <= size b0 ->
    size b0 + size src * _get_component_type_size ct < 2 ^ 31 ->
    exists (st' : FBXState) (bytes : list Z),
      _encode_buffer_view st src p_count p_type ct false p_byte_offset p_for_vertex
      = Done (OK, st', Some 0) /\
      buffers st' = (b0 ++ bytes) :: bs /\
      size bytes = size src * _get_component_type_size ct /\
      buffer_views st'
      = [ {| buffer := 0; byte_offset := size b0; byte_length := size bytes;
             byte_stride := -1 |} ] /\
      forall (accs : list FBXAccessor) (i : Z),
        get accs i = Done (plain_accessor 0 p_count ct p_type) ->
        _decode_accessor {| buffers := buffers st'; buffer_views := buffer_views st';
                            accessors := accs |} i p_for_vertex
        = Done src.
Proof. exact encode_decode_round_trip_facts. Qed.

(** Two [VEC3] elements of unsigned shorts for a buffer that already
    holds a byte. *)
Definition round_trip_state : FBXState :=
  {| buffers := [[7]]; buffer_views := []; accessors := [] |}.

Definition round_trip_values : list spec_float := map F64.of_Z [1; 2; 3; 40000; 5; 65535].

Lemma encode_decode_round_trip_unpadded_witness :
  exists (st' : FBXState) (bytes : list Z),
    _encode_buffer_view round_trip_state round_trip_values 2 TYPE_VEC3
      COMPONENT_TYPE_UNSIGNED_SHORT false 1 false
    = Done (OK, st', Some 0) /\
    buffers st' = ([7] ++ bytes) :: [] /\
    size bytes = size round_trip_values * _get_component_type_size COMPONENT_TYPE_UNSIGNED_SHORT /\
    buffer_views st'
    = [ {| buffer := 0; byte_offset := size [7]; byte_length := size bytes;
           byte_stride := -1 |} ] /\
    forall (accs : list FBXAccessor) (i : Z),
      get accs i = Done (plain_accessor 0 2 COMPONENT_TYPE_UNSIGNED_SHORT TYPE_VEC3) ->
      _decode_accessor {| buffers := buffers st'; buffer_views := buffer_views st';
                          accessors := accs |} i false
      = Done round_trip_values.
Proof.
  apply (encode_decode_round_trip_unpadded round_trip_state [7] [] round_trip_values 2
           TYPE_VEC3 COMPONENT_TYPE_UNSIGNED_SHORT 1 false).
  - reflexivity.
  - reflexivity.
  - reflexivity.
  - reflexivity.
  - unfold round_trip_values. cbn [map].
    repeat (apply Forall_cons;
            [left; eexists; exists 0, 65535;
             split; [reflexivity | split; [|reflexivity]]; lia |]).
    apply Forall_nil.
  - reflexivity.
  - discriminate.
  - cbn. lia.
  - cbn. lia.
Defined.

(** ** Skeletons: the roots of a skeleton *)

(** The nodes of skeleton [p], in index order. *)
Definition in_skeleton (nodes : list FBXSkelNode) (p : Z) (i : Z) : bool :=
  match nth_error nodes (Z.to_nat i) with
  | Some nd => (0 <=? i) && (skeleton nd =? p)
  | None => false
  end.

Definition skeleton_members (nodes : list FBXSkelNode) (p : Z) : list Z :=
  filter (in_skeleton nodes p) (map Z.of_nat (seq 0 (length nodes))).

Lemma get_map_base : forall (nodes : list FBXSkelNode) i nd,
  get nodes i = Done nd -> get (map base nodes) i = Done (base nd).
Proof.
  intros nodes i nd H. unfold get in *. destruct (i <? 0); [discriminate|].
  rewrite nth_error_map. destruct (nth_error nodes (Z.to_nat i)); [|discriminate].
  inversion H; subst. reflexivity.
Qed.

Lemma skel_get_valid : forall (nodes : list FBXSkelNode) i,
  0 <= i < size nodes -> exists nd, get nodes i = Done nd /\ nth_error nodes (Z.to_nat i) = Some nd.
Proof. intros nodes i H. exact (get_in_range nodes (i := i) H). Qed.

Lemma skeleton_members_spec : forall nodes p i,
  In i (skeleton_members nodes p) <->
  exists nd, get nodes i = Done nd /\ skeleton nd = p.
Proof.
  intros nodes p i. unfold skeleton_members. rewrite filter_In, in_map_iff. split.
  - intros [[k [<- Hk]] Hin]. apply in_seq in Hk. unfold in_skeleton in Hin.
    rewrite Nat2Z.id in Hin.
    destruct (nth_error nodes k) as [nd|] eqn:E; [|discriminate].
    apply andb_true_iff in Hin. destruct Hin as [_ Hs]. apply Z.eqb_eq in Hs.
    exists nd. split; [|exact Hs]. unfold get.
    destruct (Z.ltb_spec (Z.of_nat k) 0); [lia|]. now rewrite Nat2Z.id, E.
  - intros [nd [Hg Hs]]. destruct (get_Done_inv nodes i Hg) as [Hi Hn]. split.
    + exists (Z.to_nat i). split; [lia|]. apply in_seq. unfold size in Hi. lia.
    + unfold in_skeleton. rewrite Hn. apply andb_true_iff. split; [apply Z.leb_le; lia|].
      now apply Z.eqb_eq.
Qed.

Lemma skeleton_members_valid : forall nodes p i,
  In i (skeleton_members nodes p) -> valid (map base nodes) i.
Proof.
  intros nodes p i H. apply skeleton_members_spec in H. destruct H as [nd [Hg _]].
  destruct (get_Done_inv nodes i Hg) as [Hi _]. unfold valid, size in *.
  rewrite length_map. exact Hi.
Qed.

(** The loop over all nodes is the union pass over the members. *)
Lemma skeleton_union_pass_members : forall nodes p,
  wf_nodes (map base nodes) = true ->
  forall n k ds, (k + n = length nodes)%nat ->
    skeleton_union_pass n nodes p (Z.of_nat k) ds
    = union_pass (map base nodes) (skeleton_members nodes p)
        (filter (in_skeleton nodes p) (map Z.of_nat (seq k n))) ds.
Proof.
  intros nodes p Hwf. induction n as [|n IH]; intros k ds Hk; [reflexivity|].
  cbn [skeleton_union_pass seq map filter].
  assert (Hv : 0 <= Z.of_nat k < size nodes) by (unfold size; lia).
  destruct (skel_get_valid nodes _ Hv) as [nd [Hg Hn]]. rewrite Hg. cbn [bind].
  unfold in_skeleton at 1. rewrite Hn.
  destruct (Z.leb_spec 0 (Z.of_nat k)); [|lia]. cbn [andb].
  replace (Z.of_nat k + 1) with (Z.of_nat (S k)) by lia.
  destruct (Z.eqb_spec (skeleton nd) p) as [Hs | Hs]; cbn [negb].
  2:{ apply IH. lia. }
  cbn [union_pass]. rewrite (get_map_base nodes _ nd Hg). cbn [bind].
  assert (Hvb : valid (map base nodes) (Z.of_nat k)).
  { unfold valid, size. rewrite length_map. unfold size in Hv. exact Hv. }
  assert (Hpar : parent_of (map base nodes) (Z.of_nat k) = parent (base nd)).
  { unfold parent_of, node_at. destruct (Z.ltb_spec (Z.of_nat k) 0); [lia|].
    now rewrite nth_error_map, Hn. }
  destruct (parent_cases (map base nodes) Hwf (Z.of_nat k) Hvb) as [[Hp _] | [Hp _]];
    rewrite Hpar in Hp.
  - rewrite Hp. cbn [Z.leb Z.compare bind].
    destruct (Z.leb_spec 0 (find (skeleton_members nodes p) (-1))) as [Hf | Hf].
    + apply find_In in Hf. apply skeleton_members_valid in Hf. unfold valid in Hf. lia.
    + apply IH. lia.
  - assert (Hpv : 0 <= parent (base nd) < size nodes).
    { unfold valid, size in Hp. rewrite length_map in Hp. exact Hp. }
    destruct (Z.leb_spec 0 (parent (base nd))); [|lia].
    destruct (skel_get_valid nodes _ Hpv) as [pnd [Hpg Hpn]]. rewrite Hpg. cbn [bind].
    destruct (Z.eqb_spec (skeleton pnd) p) as [Hps | Hps].
    + destruct (Z.leb_spec 0 (find (skeleton_members nodes p) (parent (base nd)))) as [Hf | Hf].
      * apply IH. lia.
      * exfalso. apply find_not_In in Hf. apply Hf. apply skeleton_members_spec.
        exists pnd. split; assumption.
    + destruct (Z.leb_spec 0 (find (skeleton_members nodes p) (parent (base nd)))) as [Hf | Hf].
      * exfalso. apply find_In in Hf. apply skeleton_members_spec in Hf.
        destruct Hf as [pnd' [Hg' Hs']]. congruence.
      * apply IH. lia.
Qed.

Lemma determine_skeleton_roots_facts :
  forall (nodes : list FBXSkelNode) (skeletons : list Skel.FBXSkeleton)
         (p_skel_i : Z) (sk : Skel.FBXSkeleton),
    wf_nodes (map base nodes) = true ->
    get skeletons p_skel_i = Done sk ->
    exists (l : list Z) (skeletons' : list Skel.FBXSkeleton) (err : Error),
      _determine_skeleton_roots nodes skeletons p_skel_i = Done (err, skeletons') /\
      write_at skeletons p_skel_i (Skel.set_roots sk l) = Done skeletons' /\
      StronglySorted Z.lt l /\
      (forall t, In t l <->
                 top (map base nodes) (skeleton_members nodes p_skel_i) t) /\
      (err = OK \/ err = FAILED) /\
      (err = OK <->
       l <> [] /\
       forall r1 r2, In r1 l -> In r2 l ->
                     parent_of (map base nodes) r1 = parent_of (map base nodes) r2).
Proof.
  intros nodes skeletons p sk Hwf Hsk.
  set (N := map base nodes). set (S := skeleton_members nodes p).
  assert (Hv : forall x, In x S -> valid N x) by (intros x; apply skeleton_members_valid).
  unfold _determine_skeleton_roots.
  pose proof (skeleton_union_pass_members nodes p Hwf (length nodes) 0 empty eq_refl) as Hpass.
  change (Z.of_nat 0) with 0 in Hpass.
  change (filter (in_skeleton nodes p) (map Z.of_nat (seq 0 (length nodes)))) with S in Hpass.
  rewrite Hpass. fold S N.
  destruct (union_pass_all N S Hv) as [ds [-> [Hok [Hk [Hc Hl]]]]]. cbn [bind].
  rewrite Hsk. cbn [bind].
  destruct (highest_of_each_spec N Hwf S Hv ds Hok Hk (get_representatives ds) [])
    as [hs [-> Hf]]; [auto|].
  cbn [bind app].
  destruct (highest_list_facts N Hwf S Hv ds Hok Hk Hc Hl (get_representatives ds) hs)
    as [Hnd Htop].
  { now apply representatives_NoDup. }
  { tauto. }
  { assumption. }
  assert (Hsl : StronglySorted Z.lt (sort hs)).
  { apply sorted_le_nodup_lt; [apply sort_sorted|].
    eapply Permutation_NoDup; [apply Permutation_sym, sort_perm | exact Hnd]. }
  assert (Hin : forall r, In r (sort hs) <-> top N S r).
  { intros r. rewrite <- Htop. split; apply Permutation_in;
      [apply sort_perm | apply Permutation_sym, sort_perm]. }
  assert (Hvalid : forall r, In r (sort hs) -> valid N r).
  { intros r Hr. apply Hv. apply Hin in Hr. apply Hr. }
  destruct (get_Done_inv skeletons p Hsk) as [Hp _].
  destruct (write_at_Done Skel.FBXSkeleton skeletons p (Skel.set_roots sk (sort hs)) Hp)
    as [skeletons' [Hw _]].
  rewrite Hw. cbn [bind].
  set (out := sort hs) in *. pose proof (size_nonneg out) as Ho.
  destruct (Z.eqb_spec (size out) 0) as [Hz | Hnz].
  { exists out, skeletons', FAILED.
    split; [reflexivity|]. split; [exact Hw|]. split; [exact Hsl|]. split; [exact Hin|].
    split; [now right|]. split; [discriminate|].
    intros [Hne _]. exfalso. destruct out; [now apply Hne | unfold size in Hz; cbn in Hz; lia]. }
  assert (Hne : out <> []) by (intros E; rewrite E in Hnz; now apply Hnz).
  destruct (Z.eqb_spec (size out) 1) as [H1 | H1].
  { exists out, skeletons', OK.
    split; [reflexivity|]. split; [exact Hw|]. split; [exact Hsl|]. split; [exact Hin|].
    split; [now left|]. split; [|reflexivity]. intros _. split; [exact Hne|].
    destruct out as [|a [|b out']]; try (unfold size in H1; cbn in H1; lia).
    intros r1 r2 [<- | []] [<- | []]. reflexivity. }
  destruct out as [|r0 rest] eqn:Eout; [congruence|].
  change (get (r0 :: rest) 0) with (Done r0). cbn [bind tl].
  assert (Hv0 : valid N r0) by (apply Hvalid; now left).
  assert (Hv0' : 0 <= r0 < size nodes).
  { unfold valid, N, size in Hv0. rewrite length_map in Hv0. exact Hv0. }
  destruct (skel_get_valid nodes r0 Hv0') as [nd0 [Hg0 Hn0]]. rewrite Hg0. cbn [bind].
  assert (Hp0 : parent_of N r0 = parent (base nd0)).
  { unfold parent_of, node_at, N. destruct (Z.ltb_spec r0 0); [lia|].
    now rewrite nth_error_map, Hn0. }
  destruct (parents_differ_complete N (parent (base nd0)) rest) as [b [-> Hb]].
  { intros r Hr. apply Hvalid. now right. }
  cbn [bind].
  exists (r0 :: rest), skeletons', (if b then FAILED else OK).
  split; [reflexivity|]. split; [exact Hw|]. split; [exact Hsl|]. split; [exact Hin|].
  split; [destruct b; auto|].
  split.
  - intros Hok'. destruct b; [discriminate|]. split; [discriminate|].
    pose proof (proj1 Hb eq_refl) as Hall.
    assert (Hall' : forall r, In r (r0 :: rest) -> parent_of N r = parent (base nd0)).
    { intros r [<- | Hr]; [exact Hp0 | now apply Hall]. }
    intros r1 r2 Hr1 Hr2. now rewrite (Hall' r1 Hr1), (Hall' r2 Hr2).
  - intros [_ Hsame]. destruct b; [|reflexivity]. exfalso.
    assert (Hfalse : true = false); [|discriminate].
    apply Hb. intros r Hr. rewrite <- Hp0. apply Hsame; [now right | now left].
Qed.

(** X19.  On a well-formed hierarchy [_determine_skeleton_roots] never
    crashes for an existing skeleton.  It stores as the skeleton's roots,
    in strictly ascending order, exactly the nodes of the skeleton whose
    parent is not in the skeleton, and it returns [OK] exactly when there
    is such a node and all of them have the same parent. *)
Theorem determine_skeleton_roots_characterised :
  forall (nodes : list FBXSkelNode) (skeletons : list Skel.FBXSkeleton)
         (p_skel_i : Z) (sk : Skel.FBXSkeleton),
    wf_nodes (map base nodes) = true ->
    get skeletons p_skel_i = Done sk ->
    exists (l : list Z) (skeletons' : list Skel.FBXSkeleton) (err : Error),
      _determine_skeleton_roots nodes skeletons p_skel_i = Done (err, skeletons') /\
      write_at skeletons p_skel_i (Skel.set_roots sk l) = Done skeletons' /\
      StronglySorted Z.lt l /\
      (forall t, In t l <->
                 top (map base nodes) (skeleton_members nodes p_skel_i) t) /\
      (err = OK \/ err = FAILED) /\
      (err = OK <->
       l <> [] /\
       forall r1 r2, In r1 l -> In r2 l ->
                     parent_of (map base nodes) r1 = parent_of (map base nodes) r2).
Proof. exact determine_skeleton_roots_facts. Qed.

(** A root with two child bones of skeleton 0, one of which has a child. *)
Definition skeleton_example_nodes : list FBXSkelNode :=
  [ {| base := {| parent := -1; children := [1; 2]; height := 0; joint := false |};
       skeleton := -1 |};
    {| base := {| parent := 0; children := [3]; height := 1; joint := true |};
       skeleton := 0 |};
    {| base := {| parent := 0; children := []; height := 1; joint := true |};
       skeleton := 0 |};
    {| base := {| parent := 1; children := []; height := 2; joint := true |};
       skeleton := 0 |} ].

Definition skeleton_example : Skel.FBXSkeleton :=
  {| Skel.joints := [1; 2; 3]; Skel.roots := [] |}.

Lemma determine_skeleton_roots_characterised_witness :
  exists (l : list Z) (skeletons' : list Skel.FBXSkeleton) (err : Error),
    _determine_skeleton_roots skeleton_example_nodes [skeleton_example] 0
    = Done (err, skeletons') /\
    write_at [skeleton_example] 0 (Skel.set_roots skeleton_example l) = Done skeletons' /\
    StronglySorted Z.lt l /\
    (forall t, In t l <->
               top (map base skeleton_example_nodes)
                 (skeleton_members skeleton_example_nodes 0) t) /\
    (err = OK \/ err = FAILED) /\
    (err = OK <->
     l <> [] /\
     forall r1 r2, In r1 l -> In r2 l ->
                   parent_of (map base skeleton_example_nodes) r1
                   = parent_of (map base skeleton_example_nodes) r2).
Proof.
  apply (determine_skeleton_roots_characterised skeleton_example_nodes [skeleton_example] 0
           skeleton_example).
  - reflexivity.
  - reflexivity.
Defined.

(** ** Skeletons: non-joints inside a skeleton become joints *)

Lemma non_joint_union_pass_spec : forall nodes all,
  (forall x, In x all -> valid nodes x) ->
  forall todo ds, incl todo all -> ds_ok ds ->
    (forall k, In k (keys ds) -> In k all) ->
    exists ds', non_joint_union_pass nodes all todo ds = Done ds' /\
      ds_ok ds' /\
      (forall k, In k (keys ds') -> In k all) /\
      (forall k, In k (keys ds) \/ In k todo -> In k (keys ds')).
Proof.
  intros nodes all Hv. induction todo as [|x todo IH]; intros ds Hin Hok Hk.
  - exists ds. split; [reflexivity|]. split; [exact Hok|]. split; [exact Hk|].
    intros k [H | []]. exact H.
  - cbn [non_joint_union_pass].
    assert (Hx : In x all) by (apply Hin; now left).
    destruct (valid_node_at _ _ (Hv x Hx)) as [nd [_ ->]]. cbn [bind].
    assert (Hi_ok : ds_ok (insert ds x)) by (now apply ds_ok_insert).
    assert (Hi_all : forall k, In k (keys (insert ds x)) -> In k all).
    { intros k Hk'. apply keys_insert in Hk'. destruct Hk' as [Hk' | ->]; auto. }
    assert (Hi_old : forall k, In k (keys ds) \/ k = x -> In k (keys (insert ds x))).
    { intros k Hk'. now apply keys_insert. }
    assert (Hstep : exists ds1,
              (if (0 <=? parent nd) && (0 <=? find all (parent nd))
               then pnode <- get nodes (parent nd) ;;
                    Done (if negb (joint pnode)
                          then create_union (insert ds x) (parent nd) x
                          else insert ds x)
               else Done (insert ds x)) = Done ds1 /\
              ds_ok ds1 /\
              (forall k, In k (keys ds1) -> In k all) /\
              (forall k, In k (keys ds) \/ k = x -> In k (keys ds1))).
    { destruct ((0 <=? parent nd) && (0 <=? find all (parent nd))) eqn:Ec.
      - apply andb_true_iff in Ec. destruct Ec as [_ Hf]. apply Z.leb_le, find_In in Hf.
        destruct (valid_node_at _ _ (Hv _ Hf)) as [pnd [_ ->]]. cbn [bind].
        destruct (joint pnd); cbn [negb].
        + exists (insert ds x). auto.
        + exists (create_union (insert ds x) (parent nd) x). split; [reflexivity|].
          split; [now apply ds_ok_create_union|]. split.
          * intros k Hk'. apply keys_create_union in Hk'.
            destruct Hk' as [Hk' | [-> | ->]]; auto.
          * intros k Hk'. apply keys_create_union. left. auto.
      - exists (insert ds x). auto. }
    destruct Hstep as [ds1 [-> [Hok1 [Hall1 Hold1]]]]. cbn [bind].
    destruct (IH ds1) as [ds' [Hr [Hok' [Hall' Hold']]]]; auto.
    { intros y Hy. apply Hin. now right. }
    exists ds'. split; [exact Hr|]. split; [exact Hok'|]. split; [exact Hall'|].
    intros k [H | [<- | H]]; apply Hold'; auto.
Qed.

(** *** The classes of a disjoint set partition its keys *)

Lemma NoDup_map_filter : forall (f : Element -> bool) (ds : DisjointSet.t),
  NoDup (map object ds) -> NoDup (map object (filter f ds)).
Proof.
  intros f ds. induction ds as [|e ds IH]; intros H; cbn [filter map]; [constructor|].
  cbn [map] in H. inversion H as [|? ? Hni Hnd]; subst.
  destruct (f e); [|now apply IH]. cbn [map]. constructor; [|now apply IH].
  intros Hin. apply Hni. apply in_map_iff in Hin. destruct Hin as [e' [He' Hf']].
  apply filter_In in Hf'. apply in_map_iff. exists e'. tauto.
Qed.

Lemma members_NoDup : forall ds r, ds_ok ds -> NoDup (get_members ds r).
Proof.
  intros ds r [Hnd _]. unfold get_members.
  destruct (has ds r && (root_of ds r =? r)); [|constructor].
  now apply NoDup_map_filter.
Qed.

Lemma NoDup_flat_map_disjoint : forall (f : Z -> list Z) (rs : list Z),
  NoDup rs ->
  (forall r, In r rs -> NoDup (f r)) ->
  (forall r1 r2 x, In r1 rs -> In r2 rs -> In x (f r1) -> In x (f r2) -> r1 = r2) ->
  NoDup (flat_map f rs).
Proof.
  intros f rs. induction rs as [|r rs IH]; intros Hnd Hblock Hdis; cbn [flat_map].
  - constructor.
  - inversion Hnd as [|? ? Hni Hnd']; subst.
    assert (Hrest : NoDup (flat_map f rs)).
    { apply IH; [assumption | intros; apply Hblock; now right|].
      intros r1 r2 x H1 H2. apply Hdis; now right. }
    assert (Hb : NoDup (f r)) by (apply Hblock; now left).
    assert (Hsep : forall x, In x (f r) -> ~ In x (flat_map f rs)).
    { intros x Hx Hin. apply in_flat_map in Hin. destruct Hin as [r' [Hr' Hx']].
      assert (r = r') by (apply (Hdis r r' x); auto; [now left | now right]).
      subst r'. contradiction. }
    clear - Hrest Hb Hsep. induction (f r) as [|a l IHl]; cbn [app]; [assumption|].
    inversion Hb as [|? ? Ha Hl]; subst. constructor.
    + rewrite in_app_iff. intros [H | H]; [contradiction|]. apply (Hsep a); [now left | assumption].
    + apply IHl; [assumption|]. intros x Hx. apply Hsep. now right.
Qed.

Lemma classes_partition : forall ds, ds_ok ds ->
  NoDup (flat_map (get_members ds) (get_representatives ds)) /\
  forall x, In x (flat_map (get_members ds) (get_representatives ds)) <-> In x (keys ds).
Proof.
  intros ds Hok. split.
  - apply NoDup_flat_map_disjoint.
    + now apply representatives_NoDup.
    + intros r _. now apply members_NoDup.
    + intros r1 r2 x H1 H2 Hx1 Hx2.
      apply in_members in Hx1; [|assumption|assumption].
      apply in_members in Hx2; [|assumption|assumption].
      destruct Hx1 as [_ <-]. destruct Hx2 as [_ <-]. reflexivity.
  - intros x. rewrite in_flat_map. split.
    + intros [r [Hr Hx]]. apply in_members in Hx; [|assumption|assumption]. tauto.
    + intros Hx. exists (root_of ds x).
      destruct (root_of_is_rep ds x Hok Hx) as [H1 H2].
      assert (Hrep : In (root_of ds x) (get_representatives ds))
        by (apply in_representatives; auto).
      split; [exact Hrep|]. apply in_members; auto.
Qed.

(** *** Marking *)

(** [nodes'] is [nodes] with the joint flag set on the listed nodes. *)
Definition joints_set (marked : list Z) (nodes nodes' : list FBXNode) : Prop :=
  length nodes' = length nodes /\
  forall i, (In i marked ->
             node_at nodes' i = option_map (fun nd => set_joint nd true) (node_at nodes i)) /\
            (~ In i marked -> node_at nodes' i = node_at nodes i).

Lemma joints_set_ext : forall l1 l2 nodes nodes',
  (forall i, In i l1 <-> In i l2) -> joints_set l1 nodes nodes' -> joints_set l2 nodes nodes'.
Proof.
  intros l1 l2 nodes nodes' H [Hlen Hat]. split; [exact Hlen|]. intros i. split.
  - intros Hi. apply Hat. now apply H.
  - intros Hi. apply Hat. now rewrite H.
Qed.

Lemma make_joints_spec : forall ms nodes0 nodes sk marked,
  (forall m, In m ms -> valid nodes0 m) ->
  joints_set marked nodes0 nodes ->
  exists nodes',
    make_joints nodes sk ms
    = Done (nodes', Skel.set_joints sk (Skel.joints sk ++ ms)) /\
    joints_set (marked ++ ms) nodes0 nodes'.
Proof.
  induction ms as [|m ms IH]; intros nodes0 nodes sk marked Hv [Hlen Hat].
  - exists nodes. cbn [make_joints]. rewrite !app_nil_r. destruct sk as [j r].
    split; [reflexivity|]. split; [exact Hlen | exact Hat].
  - cbn [make_joints].
    assert (Hm0 : valid nodes0 m) by (apply Hv; now left).
    assert (Hm : valid nodes m) by (unfold valid, size in *; rewrite Hlen; exact Hm0).
    destruct (valid_node_at _ _ Hm) as [nd [Hnd ->]]. cbn [bind].
    destruct (write_at_Done FBXNode nodes m (set_joint nd true) Hm) as [nodes1 [-> [Hlen1 Hnth]]].
    cbn [bind].
    assert (Hat1 : forall c, node_at nodes1 c
                             = if Z.eqb c m then Some (set_joint nd true) else node_at nodes c).
    { intros c. unfold node_at. destruct (Z.ltb_spec c 0) as [Hneg | Hpos].
      - destruct (Z.eqb_spec c m); [unfold valid in Hm; lia | reflexivity].
      - rewrite Hnth. destruct (Z.eqb_spec c m) as [-> | Hne].
        + now rewrite Nat.eqb_refl.
        + destruct (Nat.eqb_spec (Z.to_nat c) (Z.to_nat m)); [unfold valid in Hm; lia|].
          reflexivity. }
    destruct (valid_node_at _ _ Hm0) as [nd0 [Hnd0 _]].
    assert (Hset : Some (set_joint nd true)
                   = option_map (fun x => set_joint x true) (node_at nodes0 m)).
    { rewrite Hnd0. cbn [option_map].
      destruct (Hat m) as [H1 H2].
      assert (Hcase : node_at nodes m = Some (set_joint nd0 true) \/ node_at nodes m = Some nd0).
      { destruct (in_dec Z.eq_dec m marked) as [Hp | Hp].
        - left. rewrite (H1 Hp), Hnd0. reflexivity.
        - right. rewrite (H2 Hp). exact Hnd0. }
      rewrite Hnd in Hcase. destruct Hcase as [E | E]; inversion E; reflexivity. }
    destruct (IH nodes0 nodes1 (Skel.set_joints sk (push_back (Skel.joints sk) m))
                (marked ++ [m])) as [nodes' [Hr Hjs]].
    + intros x Hx. apply Hv. now right.
    + split; [congruence|]. intros i. rewrite Hat1, in_app_iff. cbn [In]. split.
      * intros [Hp | [<- | []]]; [|now rewrite Z.eqb_refl].
        destruct (Z.eqb_spec i m) as [-> | Hne]; [exact Hset | now apply Hat].
      * intros Hn. destruct (Z.eqb_spec i m) as [-> | Hne]; [tauto|]. apply Hat. tauto.
    + exists nodes'. split.
      * rewrite Hr. destruct sk as [j r]. unfold Skel.set_joints, push_back. cbn.
        now rewrite <- app_assoc.
      * rewrite <- app_assoc in Hjs. exact Hjs.
Qed.

Lemma make_subtree_joints_spec : forall ds rs nodes0 nodes sk marked,
  (forall r m, In r rs -> In m (get_members ds r) -> valid nodes0 m) ->
  joints_set marked nodes0 nodes ->
  exists nodes',
    make_subtree_joints nodes sk ds rs
    = Done (nodes', Skel.set_joints sk (Skel.joints sk ++ flat_map (get_members ds) rs)) /\
    joints_set (marked ++ flat_map (get_members ds) rs) nodes0 nodes'.
Proof.
  intros ds. induction rs as [|r rs IH]; intros nodes0 nodes sk marked Hv Hjs.
  - exists nodes. cbn [make_subtree_joints flat_map]. rewrite !app_nil_r. destruct sk as [j r'].
    split; [reflexivity | exact Hjs].
  - cbn [make_subtree_joints flat_map].
    destruct (make_joints_spec (get_members ds r) nodes0 nodes sk marked) as [nodes1 [-> Hjs1]].
    + intros m Hm. apply (Hv r); [now left | exact Hm].
    + exact Hjs.
    + cbn [bind].
      destruct (IH nodes0 nodes1 (Skel.set_joints sk (Skel.joints sk ++ get_members ds r))
                  (marked ++ get_members ds r)) as [nodes' [-> Hjs']].
      * intros r' m Hr' Hm. apply (Hv r'); [now right | exact Hm].
      * exact Hjs1.
      * exists nodes'. split.
        -- destruct sk as [j r']. unfold Skel.set_joints. cbn. now rewrite <- app_assoc.
        -- rewrite <- app_assoc in Hjs'. exact Hjs'.
Qed.

Lemma reparent_non_joints_facts :
  forall (nodes : list FBXNode) (sk : Skel.FBXSkeleton) (p_non_joints : list Z),
    (forall x, In x p_non_joints -> valid nodes x) ->
    exists (added : list Z) (nodes' : list FBXNode),
      _reparent_non_joint_skeleton_subtrees nodes sk p_non_joints
      = Done (OK, nodes', Skel.set_joints sk (Skel.joints sk ++ added)) /\
      NoDup added /\
      (forall x, In x added <-> In x p_non_joints) /\
      length nodes' = length nodes /\
      (forall i, In i p_non_joints ->
         node_at nodes' i = option_map (fun nd => set_joint nd true) (node_at nodes i)) /\
      (forall i, ~ In i p_non_joints -> node_at nodes' i = node_at nodes i).
Proof.
  intros nodes sk all Hv. unfold _reparent_non_joint_skeleton_subtrees.
  destruct (non_joint_union_pass_spec nodes all Hv all empty (incl_refl _) ds_ok_empty)
    as [ds [-> [Hok [Hsub Hsup]]]].
  { intros k []. }
  cbn [bind].
  destruct (classes_partition ds Hok) as [Hnd Hmem].
  assert (Hkeys : forall x, In x (keys ds) <-> In x all).
  { intros x. split; [apply Hsub | intros H; apply Hsup; now right]. }
  destruct (make_subtree_joints_spec ds (get_representatives ds) nodes nodes sk [])
    as [nodes' [-> Hjs]].
  - intros r m Hr Hm. apply Hv, Hkeys, Hmem. apply in_flat_map. eauto.
  - split; [reflexivity|]. intros i. split; [intros [] | reflexivity].
  - cbn [bind app] in *.
    exists (flat_map (get_members ds) (get_representatives ds)), nodes'.
    split; [reflexivity|]. split; [exact Hnd|].
    split; [intros x; rewrite Hmem; apply Hkeys|].
    destruct Hjs as [Hlen Hat]. split; [exact Hlen|]. split.
    + intros i Hi. apply Hat. apply Hmem, Hkeys. exact Hi.
    + intros i Hi. apply Hat. rewrite Hmem, Hkeys. exact Hi.
Qed.

(** X20.  When every listed non-joint is an existing node,
    [_reparent_non_joint_skeleton_subtrees] returns [OK] without a crash,
    appends every listed non-joint exactly once to the joints of the
    skeleton (and nothing else), sets the joint flag of exactly these
    nodes and changes no other field and no other node: the grouping into
    subtrees only decides the order. *)
Theorem reparent_turns_non_joints_into_joints :
  forall (nodes : list FBXNode) (sk : Skel.FBXSkeleton) (p_non_joints : list Z),
    (forall x, In x p_non_joints -> valid nodes x) ->
    exists (added : list Z) (nodes' : list FBXNode),
      _reparent_non_joint_skeleton_subtrees nodes sk p_non_joints
      = Done (OK, nodes', Skel.set_joints sk (Skel.joints sk ++ added)) /\
      NoDup added /\
      (forall x, In x added <-> In x p_non_joints) /\
      length nodes' = length nodes /\
      (forall i, In i p_non_joints ->
         node_at nodes' i = option_map (fun nd => set_joint nd true) (node_at nodes i)) /\
      (forall i, ~ In i p_non_joints -> node_at nodes' i = node_at nodes i).
Proof. exact reparent_non_joints_facts. Qed.

(** A joint with a chain of two non-joints below it. *)
Definition subtree_example_nodes : list FBXNode :=
  [ {| parent := -1; children := [1]; height := 0; joint := true |};
    {| parent := 0; children := [2]; height := 1; joint := false |};
    {| parent := 1; children := []; height := 2; joint := false |} ].

Lemma reparent_turns_non_joints_into_joints_witness :
  exists (added : list Z) (nodes' : list FBXNode),
    _reparent_non_joint_skeleton_subtrees subtree_example_nodes
      {| Skel.joints := [0]; Skel.roots := [0] |} [2; 1]
    = Done (OK, nodes',
            Skel.set_joints {| Skel.joints := [0]; Skel.roots := [0] |}
              (Skel.joints {| Skel.joints := [0]; Skel.roots := [0] |} ++ added)) /\
    NoDup added /\
    (forall x, In x added <-> In x [2; 1]) /\
    length nodes' = length subtree_example_nodes /\
    (forall i, In i [2; 1] ->
       node_at nodes' i
       = option_map (fun nd => set_joint nd true) (node_at subtree_example_nodes i)) /\
    (forall i, ~ In i [2; 1] -> node_at nodes' i = node_at subtree_example_nodes i).
Proof.
  apply (reparent_turns_non_joints_into_joints subtree_example_nodes
           {| Skel.joints := [0]; Skel.roots := [0] |} [2; 1]).
  intros x Hx. unfold valid. change (size subtree_example_nodes) with 3. cbn in Hx. lia.
Defined.

(** ** Animation: sampling at a key *)

Lemma find_idx_skip : forall ks rest p idx,
  (forall x, In x ks -> F32.ltb p x = false) ->
  find_idx (ks ++ rest) p idx = find_idx rest p (idx + size ks).
Proof.
  intros ks. induction ks as [|a ks IH]; intros rest p idx H; cbn [app find_idx].
  - change (size (@nil spec_float)) with 0. now rewrite Z.add_0_r.
  - rewrite (H a (or_introl eq_refl)). rewrite IH by (intros; apply H; now right).
    rewrite size_cons. f_equal. lia.
Qed.

Lemma leb_refl_finite : forall t, finite32 t = true -> SFleb t t = true.
Proof.
  intros t H. unfold SFleb. destruct t as [s | s | | s m e]; try discriminate H.
  - reflexivity.
  - destruct s; cbn; rewrite Z.compare_refl;
      change (Pos.compare_cont Eq m m) with (Pos.compare m m);
      rewrite Pos.compare_refl; reflexivity.
Qed.

(** The scan stops at the key itself. *)
Lemma find_idx_at_key : forall pre tk post,
  keys_sorted (pre ++ [tk]) = true -> finite32 tk = true ->
  match post with t' :: _ => F32.ltb tk t' = true | [] => True end ->
  find_idx (pre ++ tk :: post) tk (-1) = size pre.
Proof.
  intros pre tk post Hs Hf Hnext.
  replace (pre ++ tk :: post) with ((pre ++ [tk]) ++ post)
    by (rewrite <- app_assoc; reflexivity).
  rewrite find_idx_skip.
  - rewrite size_app, size_cons, size_nil. destruct post as [|t' post]; cbn [find_idx].
    + lia.
    + rewrite Hnext. lia.
  - apply sorted_keys_not_after with (last := tk); [exact Hs | now apply leb_refl_finite].
Qed.

(** [a + 0] is the number [a]. *)
Lemma add_zero_r : forall a z, finite32 a = true -> is_zero z = true ->
  same_number (F32.add a z) a.
Proof.
  intros [sa | sa | | sa ma ea] [sz | sz | | sz mz ez] Ha Hz; try discriminate.
  - right. split; [|reflexivity]. destruct sa, sz; reflexivity.
  - left. reflexivity.
Qed.

(** The linear blend at the first of its two keys. *)
Lemma real_lerp_at_start : forall a b tk t',
  finite32 a = true -> finite32 (F32.sub b a) = true ->
  finite32 tk = true -> valid_binary F32.prec F32.emax t' = true ->
  F32.ltb tk t' = true ->
  same_number (real_lerp a b (factor tk tk t')) a.
Proof.
  intros a b tk t' Ha Hba Htk Ht' Hlt. unfold real_lerp, factor.
  rewrite (sub_self tk Htk).
  pose proof (div_zero (F32.sub t' tk) (key_span_nonzero tk t' Htk Ht' Hlt)) as Hc.
  apply add_zero_r; [exact Ha|]. now apply mul_zero.
Qed.

Lemma sampling_at_key_facts :
  forall (pre post : list spec_float) (tk : spec_float)
         (vpre vpost : list spec_float) (vk : spec_float),
    size vpre = size pre -> size vpost = size post ->
    keys_sorted (pre ++ [tk]) = true -> finite32 tk = true ->
    match post with
    | t' :: _ => F32.ltb tk t' = true /\ valid_binary F32.prec F32.emax t' = true
    | [] => True
    end ->
    _interpolate_track (pre ++ tk :: post) (vpre ++ vk :: vpost) tk INTERP_STEP = Done vk /\
    (finite32 vk = true ->
     match vpost with
     | v' :: _ => finite32 (F32.sub v' vk) = true
     | [] => True
     end ->
     exists r,
       _interpolate_track (pre ++ tk :: post) (vpre ++ vk :: vpost) tk INTERP_LINEAR = Done r /\
       same_number r vk).
Proof.
  intros pre post tk vpre vpost vk Hvpre Hvpost Hs Hf Hnext.
  pose proof (size_nonneg pre) as Hp0. pose proof (size_nonneg post) as Hq0.
  assert (Hidx : find_idx (pre ++ tk :: post) tk (-1) = size pre).
  { apply find_idx_at_key; auto. destruct post; [exact I | apply Hnext]. }
  assert (Hst : size (pre ++ tk :: post) = size pre + 1 + size post)
    by (rewrite size_app, size_cons; lia).
  assert (Hsv : size (vpre ++ vk :: vpost) = size pre + 1 + size post)
    by (rewrite size_app, size_cons; lia).
  assert (Hget : get (vpre ++ vk :: vpost) (size pre) = Done vk).
  { rewrite <- Hvpre. apply get_app_mid. }
  assert (Htrack : forall interp, output_count interp = 1 ->
            _interpolate_track (pre ++ tk :: post) (vpre ++ vk :: vpost) tk interp
            = sample_track (pre ++ tk :: post) (vpre ++ vk :: vpost) tk interp).
  { intros interp Hi. unfold _interpolate_track, values_correspond. rewrite Hsv, Hst.
    destruct (Z.eqb_spec (size pre + 1 + size post) 0); [lia|].
    destruct interp; try discriminate Hi; now rewrite Z.quot_1_r, Z.eqb_refl. }
  split.
  - rewrite Htrack by reflexivity. unfold sample_track. rewrite Hidx, Hst.
    destruct (Z.eqb_spec (size pre) (-1)); [lia|].
    destruct (Z.leb_spec (size pre + 1 + size post - 1) (size pre)) as [Hlast | Hmid].
    + replace (size pre + 1 + size post - 1) with (size pre) by lia. exact Hget.
    + exact Hget.
  - intros Hvk Hdiff. rewrite Htrack by reflexivity. unfold sample_track.
    rewrite Hidx, Hst.
    destruct (Z.eqb_spec (size pre) (-1)); [lia|].
    destruct (Z.leb_spec (size pre + 1 + size post - 1) (size pre)) as [Hlast | Hmid].
    + replace (size pre + 1 + size post - 1) with (size pre) by lia.
      exists vk. split; [exact Hget | now left].
    + destruct post as [|t' post]; [rewrite size_nil in Hmid; lia|].
      destruct vpost as [|v' vpost];
        [rewrite size_nil, size_cons in Hvpost; pose proof (size_nonneg post); lia|].
      destruct Hnext as [Hlt Hvalid].
      assert (Hg0 : get (pre ++ tk :: t' :: post) (size pre) = Done tk) by apply get_app_mid.
      assert (Hg1 : get (pre ++ tk :: t' :: post) (size pre + 1) = Done t').
      { replace (pre ++ tk :: t' :: post) with ((pre ++ [tk]) ++ t' :: post)
          by (rewrite <- app_assoc; reflexivity).
        replace (size pre + 1) with (size (pre ++ [tk]))
          by (rewrite size_app, size_cons, size_nil; lia).
        apply get_app_mid. }
      assert (Hv1 : get (vpre ++ vk :: v' :: vpost) (size pre + 1) = Done v').
      { replace (vpre ++ vk :: v' :: vpost) with ((vpre ++ [vk]) ++ v' :: vpost)
          by (rewrite <- app_assoc; reflexivity).
        replace (size pre + 1) with (size (vpre ++ [vk]))
          by (rewrite size_app, size_cons, size_nil; lia).
        apply get_app_mid. }
      rewrite Hg0, Hg1, Hget, Hv1. cbn [bind].
      eexists. split; [reflexivity|].
      now apply real_lerp_at_start.
Qed.

(** X21.  A STEP or LINEAR track of real values passes through its
    keys.  Sampled exactly at a finite key time that is strictly before
    the next key (the keys up to it being in order), a STEP track returns
    the value of that key, and a LINEAR track returns the same number
    when the key value is finite and the difference to the next value
    does not overflow. *)
Theorem sampling_at_a_key_returns_its_value :
  forall (pre post : list spec_float) (tk : spec_float)
         (vpre vpost : list spec_float) (vk : spec_float),
    size vpre = size pre -> size vpost = size post ->
    keys_sorted (pre ++ [tk]) = true -> finite32 tk = true ->
    match post with
    | t' :: _ => F32.ltb tk t' = true /\ valid_binary F32.prec F32.emax t' = true
    | [] => True
    end ->
    _interpolate_track (pre ++ tk :: post) (vpre ++ vk :: vpost) tk INTERP_STEP = Done vk /\
    (finite32 vk = true ->
     match vpost with
     | v' :: _ => finite32 (F32.sub v' vk) = true
     | [] => True
     end ->
     exists r,
       _interpolate_track (pre ++ tk :: post) (vpre ++ vk :: vpost) tk INTERP_LINEAR = Done r /\
       same_number r vk).
Proof. exact sampling_at_key_facts. Qed.

Lemma sampling_at_a_key_returns_its_value_witness :
  _interpolate_track ([f32 0] ++ f32 1 :: [f32 3]) ([f32 5] ++ f32 7 :: [f32 2]) (f32 1)
    INTERP_STEP = Done (f32 7) /\
  exists r,
    _interpolate_track ([f32 0] ++ f32 1 :: [f32 3]) ([f32 5] ++ f32 7 :: [f32 2]) (f32 1)
      INTERP_LINEAR = Done r /\
    same_number r (f32 7).
Proof.
  destruct (sampling_at_a_key_returns_its_value [f32 0] [f32 3] (f32 1) [f32 5] [f32 2] (f32 7))
    as [Hstep Hlin]; try reflexivity.
  - split; reflexivity.
  - split; [exact Hstep|]. apply Hlin; reflexivity.
Defined.

(** ** The extension registry *)

(** A call of one of the three registry functions. *)
Inductive registry_call : Type :=
| Register (p_extension : Z) (p_first_priority : bool)
| Unregister (p_extension : Z)
| UnregisterAll.

Definition registry_step (all : list Z) (c : registry_call) : list Z :=
  match c with
  | Register e first => register_fbx_document_extension all e first
  | Unregister e => unregister_fbx_document_extension all e
  | UnregisterAll => unregister_all_fbx_document_extensions all
  end.

Definition registry_run (calls : list registry_call) : list Z :=
  fold_left registry_step calls [].

Lemma find_absent : forall v x, find v x = -1 <-> ~ In x v.
Proof.
  intros v x. rewrite <- find_not_In.
  pose proof (find_from_range v x 0) as H. unfold find. lia.
Qed.

Lemma erase_In : forall v x y, In y (erase v x) -> In y v.
Proof.
  induction v as [|a v IH]; intros x y H; cbn [erase] in H; [contradiction|].
  destruct (a =? x); [now right|]. destruct H as [<- | H]; [now left | right; eauto].
Qed.

Lemma erase_NoDup : forall v x, NoDup v -> NoDup (erase v x) /\ ~ In x (erase v x).
Proof.
  induction v as [|a v IH]; intros x H; cbn [erase].
  - split; [constructor | intros []].
  - inversion H as [|? ? Hni Hnd]; subst.
    destruct (Z.eqb_spec a x) as [-> | Hne]; [now split|].
    destruct (IH x Hnd) as [H1 H2]. split.
    + constructor; [|exact H1]. intros Hin. apply Hni. eapply erase_In; eassumption.
    + intros [E | Hin]; [congruence | contradiction].
Qed.

Lemma erase_other : forall v x y, y <> x -> In y v -> In y (erase v x).
Proof.
  induction v as [|a v IH]; intros x y Hne H; cbn [erase]; [contradiction|].
  destruct (Z.eqb_spec a x) as [-> | Hax].
  - destruct H as [<- | H]; [congruence | exact H].
  - destruct H as [<- | H]; [now left | right; now apply IH].
Qed.

Lemma registry_step_NoDup : forall all c, NoDup all -> NoDup (registry_step all c).
Proof.
  intros all [e first | e |] H; cbn [registry_step].
  - unfold register_fbx_document_extension.
    destruct (Z.eqb_spec (find all e) (-1)) as [Hf | Hf]; [|exact H].
    apply find_absent in Hf. destruct first.
    + now constructor.
    + unfold push_back. apply NoDup_rev in H. rewrite <- (rev_involutive (all ++ [e])).
      apply NoDup_rev. rewrite rev_app_distr. cbn [rev app]. constructor; [|exact H].
      now rewrite <- in_rev.
  - now apply erase_NoDup.
  - constructor.
Qed.

Lemma registry_run_NoDup : forall calls, NoDup (registry_run calls).
Proof.
  intros calls. unfold registry_run.
  assert (H : forall all, NoDup all -> NoDup (fold_left registry_step calls all)).
  { induction calls as [|c calls IH]; intros all Hall; cbn [fold_left]; [exact Hall|].
    apply IH. now apply registry_step_NoDup. }
  apply H. constructor.
Qed.

(** X22.  Whatever sequence of register, unregister and unregister-all
    calls has been made, the registry holds no extension twice.
    Consequently unregistering an extension removes it completely and
    leaves the others in place, and registering makes the extension
    present, at the front when it is new and given first priority,
    without touching the registry when it is present already. *)
Theorem extension_registry_has_no_duplicates :
  forall (calls : list registry_call),
    let all := registry_run calls in
    NoDup all /\
    (forall e, ~ In e (unregister_fbx_document_extension all e) /\
               forall e', e' <> e ->
                 (In e' (unregister_fbx_document_extension all e) <-> In e' all)) /\
    (forall e first,
       In e (register_fbx_document_extension all e first) /\
       (In e all -> register_fbx_document_extension all e first = all) /\
       (~ In e all -> register_fbx_document_extension all e true = e :: all) /\
       (~ In e all -> register_fbx_document_extension all e false = all ++ [e])).
Proof.
  intros calls all. pose proof (registry_run_NoDup calls) as Hnd. fold all in Hnd.
  split; [exact Hnd|]. split.
  - intros e. unfold unregister_fbx_document_extension.
    destruct (erase_NoDup all e Hnd) as [_ Hni]. split; [exact Hni|].
    intros e' Hne. split; [apply erase_In | now apply erase_other].
  - intros e first. unfold register_fbx_document_extension, push_back.
    destruct (Z.eqb_spec (find all e) (-1)) as [Hf | Hf].
    + apply find_absent in Hf. split; [|split; [|split]].
      * destruct first; [now left | apply in_or_app; right; now left].
      * intros Hin. contradiction.
      * reflexivity.
      * reflexivity.
    + assert (Hin : In e all).
      { destruct (in_dec Z.eq_dec e all) as [H | H]; [exact H|].
        apply find_absent in H. contradiction. }
      split; [exact Hin|]. split; [reflexivity|]. split; intros H; contradiction.
Qed.

Lemma extension_registry_has_no_duplicates_witness :
  NoDup (registry_run [Register 1 false; Register 2 true; Register 1 true; Unregister 2;
                       Register 3 true]) /\
  registry_run [Register 1 false; Register 2 true; Register 1 true; Unregister 2;
                Register 3 true] = [3; 1].
Proof.
  split.
  - exact (proj1 (extension_registry_has_no_duplicates
                    [Register 1 false; Register 2 true; Register 1 true; Unregister 2;
                     Register 3 true])).
  - reflexivity.
Defined.

(** ** Buffer codec: typed decoders after an encode *)

Lemma ints_of_doubles_of_Z : forall zs,
  Forall (fun z => - 2 ^ 31 <= z <= 2 ^ 31 - 1) zs ->
  ints_of_doubles (map F64.of_Z zs) = Done zs.
Proof.
  intros zs H. induction H as [|z zs Hz _ IH]; cbn [map ints_of_doubles]; [reflexivity|].
  rewrite int_of_double_of_Z by lia. cbn [bind]. rewrite IH. reflexivity.
Qed.

Lemma floats_of_doubles_of_floats : forall xs,
  Forall (fun x => finite32 x = true) xs ->
  map float_of_double (map double_of_float xs) = xs.
Proof.
  intros xs H. induction H as [|x xs Hx _ IH]; cbn [map]; [reflexivity|].
  now rewrite narrow_widen, IH.
Qed.

Lemma int_range_size : forall ct lo hi, int_range ct = Some (lo, hi) ->
  0 < _get_component_type_size ct /\ - 2 ^ 31 <= lo /\ hi <= 2 ^ 31 - 1.
Proof.
  intros ct lo hi H. unfold int_range in H.
  repeat match type of H with
  | context [Z.eqb ct ?c] => destruct (Z.eqb_spec ct c) as [-> | _]
  end; inversion H; subst; cbn; lia.
Qed.

(** X23.  Integers and floats survive the trip through a freshly
    encoded view.  With no buffer view in the state yet and a layout
    without padding, encoding integers of the component type's range and
    reading the accessor back with [_decode_accessor_as_ints] returns the
    same integers; encoding finite floats as [COMPONENT_TYPE_FLOAT] and
    reading them back with [_decode_accessor_as_floats] returns the same
    floats. *)
Theorem typed_decoders_invert_encoding :
  forall (st : FBXState) (b0 : list Z) (bs : list (list Z))
         (p_count : Z) (p_type : FBXType) (ct : Z) (p_byte_offset : Z) (p_for_vertex : bool),
    buffers st = b0 :: bs ->
    buffer_views st = [] ->
    skip_table ct p_type = (0, 0) ->
    (p_for_vertex = true -> Z.rem (element_size_for ct p_type) 4 = 0) ->
    0 <= p_byte_offset <= size b0 ->
    (forall (zs : list Z) (lo hi : Z),
       int_range ct = Some (lo, hi) ->
       Forall (fun z => lo <= z <= hi) zs ->
       size zs = p_count * component_count_for_type p_type ->
       size b0 + size zs * _get_component_type_size ct < 2 ^ 31 ->
       exists st',
         _encode_buffer_view st (map F64.of_Z zs) p_count p_type ct false p_byte_offset
           p_for_vertex = Done (OK, st', Some 0) /\
         forall accs i,
           get accs i = Done (plain_accessor 0 p_count ct p_type) ->
           _decode_accessor_as_ints
             {| buffers := buffers st'; buffer_views := buffer_views st'; accessors := accs |}
             i p_for_vertex = Done zs) /\
    (forall (xs : list spec_float),
       ct = COMPONENT_TYPE_FLOAT ->
       Forall (fun x => finite32 x = true) xs ->
       size xs = p_count * component_count_for_type p_type ->
       size b0 + size xs * _get_component_type_size ct < 2 ^ 31 ->
       exists st',
         _encode_buffer_view st (map double_of_float xs) p_count p_type ct false p_byte_offset
           p_for_vertex = Done (OK, st', Some 0) /\
         forall accs i,
           get accs i = Done (plain_accessor 0 p_count ct p_type) ->
           _decode_accessor_as_floats
             {| buffers := buffers st'; buffer_views := buffer_views st'; accessors := accs |}
             i p_for_vertex = Done xs).
Proof.
  intros st b0 bs p_count p_type ct off pfv Hbuf Hviews Hskip Hvert Hoff. split.
  - intros zs lo hi Hr Hzs Hsize Hbound.
    destruct (int_range_size ct lo hi Hr) as [Hcs [Hlo Hhi]].
    destruct (encode_decode_round_trip_facts st b0 bs (map F64.of_Z zs) p_count p_type ct
                off pfv Hbuf Hviews Hcs Hskip) as [st' [bytes [Henc [_ [_ [_ Hdec]]]]]]; auto.
    + apply Forall_map. eapply Forall_impl; [|exact Hzs].
      intros z Hz. left. exists z, lo, hi. auto.
    + unfold size in *. rewrite length_map. exact Hsize.
    + unfold size in *. rewrite length_map. exact Hbound.
    + exists st'. split; [exact Henc|]. intros accs i Hget.
      unfold _decode_accessor_as_ints. rewrite (Hdec accs i Hget). cbn [bind].
      destruct (Z.eqb_spec (size (map F64.of_Z zs)) 0) as [Hz | Hnz].
      * destruct zs; [reflexivity | unfold size in Hz; cbn in Hz; lia].
      * apply ints_of_doubles_of_Z. eapply Forall_impl; [|exact Hzs].
        intros z Hz. cbn beta in Hz. lia.
  - intros xs -> Hxs Hsize Hbound.
    destruct (encode_decode_round_trip_facts st b0 bs (map double_of_float xs) p_count p_type
                COMPONENT_TYPE_FLOAT off pfv Hbuf Hviews) as [st' [bytes [Henc [_ [_ [_ Hdec]]]]]];
      auto.
    + reflexivity.
    + apply Forall_map. eapply Forall_impl; [|exact Hxs].
      intros x Hx. right. split; [reflexivity|]. exists x. auto.
    + unfold size in *. rewrite length_map. exact Hsize.
    + unfold size in *. rewrite length_map. exact Hbound.
    + exists st'. split; [exact Henc|]. intros accs i Hget.
      unfold _decode_accessor_as_floats. rewrite (Hdec accs i Hget). cbn [bind].
      destruct (Z.eqb_spec (size (map double_of_float xs)) 0) as [Hz | Hnz].
      * destruct xs; [reflexivity | unfold size in Hz; cbn in Hz; lia].
      * now rewrite floats_of_doubles_of_floats.
Qed.

Lemma typed_decoders_invert_encoding_witness :
  exists st',
    _encode_buffer_view round_trip_state (map F64.of_Z [-7; 0; 2147483647]) 3 TYPE_SCALAR
      COMPONENT_TYPE_INT false 1 true = Done (OK, st', Some 0) /\
    forall accs i,
      get accs i = Done (plain_accessor 0 3 COMPONENT_TYPE_INT TYPE_SCALAR) ->
      _decode_accessor_as_ints
        {| buffers := buffers st'; buffer_views := buffer_views st'; accessors := accs |}
        i true = Done [-7; 0; 2147483647].
Proof.
  destruct (typed_decoders_invert_encoding round_trip_state [7] [] 3 TYPE_SCALAR
              COMPONENT_TYPE_INT 1 true) as [Hints _].
  - reflexivity.
  - reflexivity.
  - reflexivity.
  - reflexivity.
  - cbn. lia.
  - apply (Hints [-7; 0; 2147483647] (- 2 ^ 31) (2 ^ 31 - 1)).
    + reflexivity.
    + repeat (apply Forall_cons; [lia|]). apply Forall_nil.
    + reflexivity.
    + cbn. lia.
Defined.

(** ** Accessor bounds *)

Lemma SFltb_trans : forall x y z, SFltb x y = true -> SFltb y z = true -> SFltb x z = true.
Proof.
  intros x y z Hxy Hyz. unfold SFltb in *.
  destruct x as [sx | sx | | sx mx ex], y as [sy | sy | | sy my ey],
           z as [sz | sz | | sz mz ez];
    try destruct sx; try destruct sy; try destruct sz;
    cbn in Hxy, Hyz |- *; try discriminate; try reflexivity;
    order_cases; try discriminate; try reflexivity;
    exfalso; lia.
Qed.

Definition not_nan (x : spec_float) : bool :=
  match x with S754_nan => false | _ => true end.

Lemma filter_not_nan : forall x, not_nan x = true -> _filter_number x = x.
Proof. intros [s | s | | s m e] H; try discriminate H; reflexivity. Qed.

(** The running maximum and minimum of one component. *)
Definition fmax (a m : spec_float) : spec_float := _filter_number (MAX a m).
Definition fmin (a m : spec_float) : spec_float := _filter_number (MIN a m).

Definition is_max (seen : list spec_float) (m : spec_float) : Prop :=
  not_nan m = true /\ In m seen /\ forall c, In c seen -> F64.ltb m c = false.

Definition is_min (seen : list spec_float) (m : spec_float) : Prop :=
  not_nan m = true /\ In m seen /\ forall c, In c seen -> F64.ltb c m = false.

Lemma fmax_self : forall c, not_nan c = true -> fmax c c = c.
Proof.
  intros c H. unfold fmax, MAX. destruct (F64.ltb c c); now apply filter_not_nan.
Qed.

Lemma fmin_self : forall c, not_nan c = true -> fmin c c = c.
Proof.
  intros c H. unfold fmin, MIN. destruct (F64.ltb c c); now apply filter_not_nan.
Qed.

Lemma fmax_step : forall seen m c, not_nan c = true -> is_max seen m ->
  is_max (c :: seen) (fmax c m).
Proof.
  intros seen m c Hc [Hm [Hin Hub]]. unfold fmax, MAX.
  destruct (F64.ltb m c) eqn:E.
  - rewrite filter_not_nan by exact Hc. split; [exact Hc|]. split; [now left|].
    intros s [<- | Hs]; [apply ltb_irrefl|].
    destruct (F64.ltb c s) eqn:E2; [|reflexivity].
    rewrite <- (Hub s Hs). symmetry. apply (SFltb_trans m c s); assumption.
  - rewrite filter_not_nan by exact Hm. split; [exact Hm|]. split; [now right|].
    intros s [<- | Hs]; [exact E | now apply Hub].
Qed.

Lemma fmin_step : forall seen m c, not_nan c = true -> is_min seen m ->
  is_min (c :: seen) (fmin c m).
Proof.
  intros seen m c Hc [Hm [Hin Hlb]]. unfold fmin, MIN.
  destruct (F64.ltb c m) eqn:E.
  - rewrite filter_not_nan by exact Hc. split; [exact Hc|]. split; [now left|].
    intros s [<- | Hs]; [apply ltb_irrefl|].
    destruct (F64.ltb s c) eqn:E2; [|reflexivity].
    rewrite <- (Hlb s Hs). symmetry. apply (SFltb_trans s c m); assumption.
  - rewrite filter_not_nan by exact Hm. split; [exact Hm|]. split; [now right|].
    intros s [<- | Hs]; [exact E | now apply Hlb].
Qed.

(** *** The loops, component by component *)

Fixpoint zipw (f : spec_float -> spec_float -> spec_float) (row ms : list spec_float)
    : list spec_float :=
  match row, ms with
  | a :: row, m :: ms => f a m :: zipw f row ms
  | _, _ => []
  end.

Lemma zipw_length : forall f row ms, length ms = length row -> length (zipw f row ms) = length row.
Proof.
  intros f row. induction row as [|a row IH]; intros [|m ms] H; cbn in *; try lia.
  now rewrite IH by lia.
Qed.

Lemma zipw_nth : forall f row ms t d, (t < length row)%nat -> length ms = length row ->
  nth t (zipw f row ms) d = f (nth t row d) (nth t ms d).
Proof.
  intros f row. induction row as [|a row IH]; intros [|m ms] t d Ht H; cbn in *; try lia.
  destruct t as [|t]; [reflexivity|]. apply IH; lia.
Qed.

Lemma seed_min_max_spec : forall row apre apost mdone mrest ndone nrest p_i ec type_i,
  size apre = p_i * ec + type_i -> size mdone = type_i -> size ndone = type_i ->
  length mrest = length row -> length nrest = length row ->
  seed_min_max (length row) type_i p_i ec (mdone ++ mrest) (apre ++ row ++ apost)
    (ndone ++ nrest)
  = Done (mdone ++ row, ndone ++ row).
Proof.
  induction row as [|a row IH];
    intros apre apost mdone mrest ndone nrest p_i ec type_i Ha Hm Hn Hlm Hln.
  - destruct mrest; [|discriminate]. destruct nrest; [|discriminate]. reflexivity.
  - destruct mrest as [|m mrest]; [discriminate|]. destruct nrest as [|n nrest]; [discriminate|].
    cbn [length seed_min_max app]. rewrite <- Ha, get_app_mid. cbn [bind].
    rewrite <- Hm, write_at_app. cbn [bind].
    rewrite Hm, <- Hn, write_at_app. cbn [bind].
    replace (apre ++ a :: row ++ apost) with ((apre ++ [a]) ++ row ++ apost)
      by (rewrite <- app_assoc; reflexivity).
    replace (mdone ++ a :: mrest) with ((mdone ++ [a]) ++ mrest)
      by (rewrite <- app_assoc; reflexivity).
    replace (ndone ++ a :: nrest) with ((ndone ++ [a]) ++ nrest)
      by (rewrite <- app_assoc; reflexivity).
    rewrite IH.
    + rewrite <- !app_assoc. reflexivity.
    + rewrite size_app, size_cons, size_nil. lia.
    + rewrite size_app, size_cons, size_nil. lia.
    + rewrite size_app, size_cons, size_nil. lia.
    + cbn in Hlm. lia.
    + cbn in Hln. lia.
Qed.

Lemma fold_min_max_spec : forall row apre apost mdone mrest ndone nrest p_i ec type_i,
  size apre = p_i * ec + type_i -> size mdone = type_i -> size ndone = type_i ->
  length mrest = length row -> length nrest = length row ->
  fold_min_max (length row) type_i p_i ec (mdone ++ mrest) (apre ++ row ++ apost)
    (ndone ++ nrest)
  = Done (mdone ++ zipw fmax row mrest, ndone ++ zipw fmin row nrest).
Proof.
  induction row as [|a row IH];
    intros apre apost mdone mrest ndone nrest p_i ec type_i Ha Hm Hn Hlm Hln.
  - destruct mrest; [|discriminate]. destruct nrest; [|discriminate]. reflexivity.
  - destruct mrest as [|m mrest]; [discriminate|]. destruct nrest as [|n nrest]; [discriminate|].
    cbn [length fold_min_max app zipw]. rewrite <- Ha, get_app_mid. cbn [bind].
    rewrite <- Hm, get_app_mid. cbn [bind]. rewrite write_at_app. cbn [bind].
    rewrite Hm, <- Hn, get_app_mid. cbn [bind]. rewrite write_at_app. cbn [bind].
    rewrite Hn, <- Hm, get_app_mid. cbn [bind]. rewrite write_at_app. cbn [bind].
    rewrite Hm, <- Hn, get_app_mid. cbn [bind]. rewrite write_at_app. cbn [bind].
    fold (fmax a m). fold (fmin a n).
    replace (apre ++ a :: row ++ apost) with ((apre ++ [a]) ++ row ++ apost)
      by (rewrite <- app_assoc; reflexivity).
    replace (mdone ++ fmax a m :: mrest) with ((mdone ++ [fmax a m]) ++ mrest)
      by (rewrite <- app_assoc; reflexivity).
    replace (ndone ++ fmin a n :: nrest) with ((ndone ++ [fmin a n]) ++ nrest)
      by (rewrite <- app_assoc; reflexivity).
    rewrite IH.
    + rewrite <- !app_assoc. reflexivity.
    + rewrite size_app, size_cons, size_nil. lia.
    + rewrite size_app, size_cons, size_nil. lia.
    + rewrite size_app, size_cons, size_nil. lia.
    + cbn in Hlm. lia.
    + cbn in Hln. lia.
Qed.

(** One call on the element whose components are [row]. *)
Lemma calc_accessor_min_max_row : forall row apre apost mx mn p_i,
  size apre = p_i * size row -> length mx = length row -> length mn = length row ->
  _calc_accessor_min_max p_i (size row) mx (apre ++ row ++ apost) mn
  = Done (zipw fmax row (if p_i =? 0 then row else mx),
          zipw fmin row (if p_i =? 0 then row else mn)).
Proof.
  intros row apre apost mx mn p_i Ha Hm Hn. unfold _calc_accessor_min_max.
  replace (Z.to_nat (size row)) with (length row) by (unfold size; now rewrite Nat2Z.id).
  destruct (Z.eqb_spec p_i 0) as [-> | Hne].
  - pose proof (seed_min_max_spec row apre apost [] mx [] mn 0 (size row) 0) as Hs.
    cbn [app] in Hs. rewrite Hs by (rewrite ?size_nil; auto; lia). cbn [bind].
    pose proof (fold_min_max_spec row apre apost [] row [] row 0 (size row) 0) as Hf.
    cbn [app] in Hf. apply Hf; rewrite ?size_nil; auto; lia.
  - cbn [bind].
    pose proof (fold_min_max_spec row apre apost [] mx [] mn p_i (size row) 0) as Hf.
    cbn [app] in Hf. apply Hf; rewrite ?size_nil; auto; lia.
Qed.

(** *** The calls for all elements *)

Fixpoint run_rows (i : Z) (rows : list (list spec_float)) (mx mn : list spec_float)
    : list spec_float * list spec_float :=
  match rows with
  | [] => (mx, mn)
  | row :: rest =>
      run_rows (i + 1) rest (zipw fmax row (if i =? 0 then row else mx))
        (zipw fmin row (if i =? 0 then row else mn))
  end.

Lemma accessor_min_max_rows : forall (ec : nat) rows apre i mx mn,
  Forall (fun row => length row = ec) rows ->
  size apre = i * Z.of_nat ec -> length mx = ec -> length mn = ec ->
  accessor_min_max (length rows) i (Z.of_nat ec) mx (apre ++ concat rows) mn
  = Done (run_rows i rows mx mn).
Proof.
  intros ec rows. induction rows as [|row rows IH]; intros apre i mx mn Hrows Ha Hm Hn.
  - reflexivity.
  - pose proof (Forall_inv Hrows) as Hrow. pose proof (Forall_inv_tail Hrows) as Hrest.
    cbv beta in Hrow.
    cbn [length accessor_min_max concat run_rows].
    assert (Hec : Z.of_nat ec = size row) by (unfold size; lia).
    rewrite Hec at 1.
    rewrite calc_accessor_min_max_row by (try congruence; lia). cbn [bind].
    rewrite app_assoc. apply IH.
    + exact Hrest.
    + rewrite size_app. lia.
    + rewrite zipw_length; [exact Hrow | destruct (i =? 0); congruence].
    + rewrite zipw_length; [exact Hrow | destruct (i =? 0); congruence].
Qed.

Definition column (t : nat) (rows : list (list spec_float)) : list spec_float :=
  map (fun row => nth t row S754_nan) rows.

Definition good_row (ec : nat) (row : list spec_float) : Prop :=
  length row = ec /\ forall c, In c row -> not_nan c = true.

Lemma run_rows_bounds : forall (ec : nat) rows i mx mn seen,
  0 < i -> Forall (good_row ec) rows ->
  length mx = ec -> length mn = ec ->
  (forall t, (t < ec)%nat ->
     is_max (column t seen) (nth t mx S754_nan) /\
     is_min (column t seen) (nth t mn S754_nan)) ->
  length (fst (run_rows i rows mx mn)) = ec /\
  length (snd (run_rows i rows mx mn)) = ec /\
  forall t, (t < ec)%nat ->
    is_max (column t (rev rows ++ seen)) (nth t (fst (run_rows i rows mx mn)) S754_nan) /\
    is_min (column t (rev rows ++ seen)) (nth t (snd (run_rows i rows mx mn)) S754_nan).
Proof.
  intros ec rows. induction rows as [|row rows IH]; intros i mx mn seen Hi Hrows Hm Hn Hinv.
  - cbn [run_rows fst snd rev app]. auto.
  - destruct (Forall_inv Hrows) as [Hlen Hnan]. pose proof (Forall_inv_tail Hrows) as Hrest.
    cbn [run_rows rev]. destruct (Z.eqb_spec i 0) as [-> | _]; [lia|].
    rewrite <- app_assoc. cbn [app].
    apply IH; try lia; try exact Hrest.
    + rewrite zipw_length; congruence.
    + rewrite zipw_length; congruence.
    + intros t Ht. rewrite !zipw_nth by (try lia; congruence).
      destruct (Hinv t Ht) as [Hmax Hmin].
      assert (Hc : not_nan (nth t row S754_nan) = true) by (apply Hnan, nth_In; lia).
      unfold column. cbn [map]. split; [now apply fmax_step | now apply fmin_step].
Qed.

Lemma accessor_bounds_facts :
  forall (ec : nat) (rows : list (list spec_float)) (type_max type_min : list spec_float),
    rows <> [] -> Forall (good_row ec) rows ->
    length type_max = ec -> length type_min = ec ->
    exists mx mn,
      accessor_min_max (length rows) 0 (Z.of_nat ec) type_max (concat rows) type_min
      = Done (mx, mn) /\
      length mx = ec /\ length mn = ec /\
      forall t, (t < ec)%nat ->
        (exists row, In row rows /\ nth t mx S754_nan = nth t row S754_nan) /\
        (exists row, In row rows /\ nth t mn S754_nan = nth t row S754_nan) /\
        (forall row, In row rows ->
           F64.ltb (nth t mx S754_nan) (nth t row S754_nan) = false /\
           F64.ltb (nth t row S754_nan) (nth t mn S754_nan) = false).
Proof.
  intros ec rows type_max type_min Hne Hrows Hm Hn.
  destruct rows as [|row0 rows]; [congruence|].
  destruct (Forall_inv Hrows) as [Hlen0 Hnan0]. pose proof (Forall_inv_tail Hrows) as Hrest.
  pose proof (accessor_min_max_rows ec (row0 :: rows) [] 0 type_max type_min) as Hrun.
  cbn [app] in Hrun. rewrite Hrun; try assumption.
  2:{ eapply Forall_impl; [|exact Hrows]. intros r [H _]. exact H. }
  2:{ reflexivity. }
  cbn [run_rows]. change (0 =? 0) with true. cbv iota. change (0 + 1) with 1.
  destruct (run_rows_bounds ec rows 1 (zipw fmax row0 row0) (zipw fmin row0 row0)
              [row0]) as [H1 [H2 H3]]; try lia; try exact Hrest.
  - rewrite zipw_length; congruence.
  - rewrite zipw_length; congruence.
  - intros t Ht. rewrite !zipw_nth by (try lia; reflexivity).
    assert (Hc : not_nan (nth t row0 S754_nan) = true) by (apply Hnan0, nth_In; lia).
    rewrite fmax_self, fmin_self by exact Hc. unfold column. cbn [map].
    split; (split; [exact Hc|]; split; [now left|]; intros c [<- | []]; apply ltb_irrefl).
  - destruct (run_rows 1 rows (zipw fmax row0 row0) (zipw fmin row0 row0)) as [mx mn] eqn:E.
    cbn [fst snd] in *. exists mx, mn. split; [reflexivity|]. split; [exact H1|].
    split; [exact H2|]. intros t Ht. destruct (H3 t Ht) as [[_ [Hin Hub]] [_ [Hin' Hlb]]].
    assert (Hcol : forall c, In c (column t (rev rows ++ [row0])) <->
                             exists row, In row (row0 :: rows) /\ c = nth t row S754_nan).
    { intros c. unfold column. rewrite in_map_iff. split.
      - intros [row [<- Hr]]. exists row. split; [|reflexivity].
        apply in_app_iff in Hr. destruct Hr as [Hr | [<- | []]];
          [right; now apply in_rev | now left].
      - intros [row [Hr ->]]. exists row. split; [reflexivity|].
        apply in_app_iff. destruct Hr as [<- | Hr]; [right; now left | left; rewrite <- in_rev; exact Hr]. }
    split; [now apply Hcol|]. split; [now apply Hcol|].
    intros row Hr. split.
    + apply Hub, Hcol. eauto.
    + apply Hlb, Hcol. eauto.
Qed.

(** X24.  The bounds stored in an accessor are true bounds.  After the
    calls of [_calc_accessor_min_max] for the elements 0, 1, ... of an
    attribute array without NaN, every entry of [type_max] is one of the
    values of its component and no value of that component is greater;
    every entry of [type_min] is one of the values and none is smaller;
    what the two vectors held before does not matter. *)
Theorem accessor_min_max_are_bounds :
  forall (ec : nat) (rows : list (list spec_float)) (type_max type_min : list spec_float),
    rows <> [] -> Forall (good_row ec) rows ->
    length type_max = ec -> length type_min = ec ->
    exists mx mn,
      accessor_min_max (length rows) 0 (Z.of_nat ec) type_max (concat rows) type_min
      = Done (mx, mn) /\
      length mx = ec /\ length mn = ec /\
      forall t, (t < ec)%nat ->
        (exists row, In row rows /\ nth t mx S754_nan = nth t row S754_nan) /\
        (exists row, In row rows /\ nth t mn S754_nan = nth t row S754_nan) /\
        (forall row, In row rows ->
           F64.ltb (nth t mx S754_nan) (nth t row S754_nan) = false /\
           F64.ltb (nth t row S754_nan) (nth t mn S754_nan) = false).
Proof. exact accessor_bounds_facts. Qed.

Lemma accessor_min_max_are_bounds_witness :
  exists mx mn,
    accessor_min_max 3 0 2 [F64.zero; F64.zero]
      (concat [[F64.of_Z 3; F64.of_Z (-1)]; [F64.of_Z 7; F64.of_Z 4]; [F64.of_Z 5; F64.of_Z (-9)]])
      [F64.zero; F64.zero]
    = Done (mx, mn) /\
    mx = [F64.of_Z 7; F64.of_Z 4] /\ mn = [F64.of_Z 3; F64.of_Z (-9)].
Proof.
  destruct (accessor_min_max_are_bounds 2
              [[F64.of_Z 3; F64.of_Z (-1)]; [F64.of_Z 7; F64.of_Z 4]; [F64.of_Z 5; F64.of_Z (-9)]]
              [F64.zero; F64.zero] [F64.zero; F64.zero]) as [mx [mn [Hrun _]]].
  - discriminate.
  - repeat (apply Forall_cons;
            [split; [reflexivity | intros c [<- | [<- | []]]; reflexivity] |]).
    apply Forall_nil.
  - reflexivity.
  - reflexivity.
  - exists mx, mn. split; [exact Hrun|].
    vm_compute in Hrun. inversion Hrun. split; reflexivity.
Defined.

(** ** Duplicate skins *)

Lemma SFeqb_sym : forall x y, SFeqb x y = SFeqb y x.
Proof.
  intros x y. unfold SFeqb.
  destruct x as [sx | sx | | sx mx ex], y as [sy | sy | | sy my ey];
    try destruct sx; try destruct sy; cbn; try reflexivity;
    order_cases; try reflexivity; try lia; subst; try lia.
Qed.

Lemma SFeqb_trans : forall x y z, SFeqb x y = true -> SFeqb y z = true -> SFeqb x z = true.
Proof.
  intros x y z Hxy Hyz. unfold SFeqb in *.
  destruct x as [sx | sx | | sx mx ex], y as [sy | sy | | sy my ey],
           z as [sz | sz | | sz mz ez];
    try destruct sx; try destruct sy; try destruct sz;
    cbn in Hxy, Hyz |- *; try discriminate; try reflexivity;
    order_cases; try discriminate; try reflexivity;
    exfalso; subst; lia.
Qed.

Lemma xform_neq_sym : forall a b, xform_neq a b = xform_neq b a.
Proof.
  induction a as [|x a IH]; intros [|y b]; cbn [xform_neq]; try reflexivity.
  now rewrite SFeqb_sym, IH.
Qed.

Lemma xform_neq_trans : forall a b c,
  xform_neq a b = false -> xform_neq b c = false -> xform_neq a c = false.
Proof.
  induction a as [|x a IH]; intros [|y b] [|z c] H1 H2; cbn [xform_neq] in *;
    try discriminate; try reflexivity.
  apply orb_false_iff in H1. destruct H1 as [H1 H1'].
  apply orb_false_iff in H2. destruct H2 as [H2 H2'].
  apply negb_false_iff in H1. apply negb_false_iff in H2.
  apply orb_false_iff. split; [|eapply IH; eassumption].
  apply negb_false_iff. eapply SFeqb_trans; eassumption.
Qed.

Lemma binds_are_same_inv : forall x a y b,
  binds_are_same (x :: a) (y :: b) = true <->
  bind_bone x = bind_bone y /\ bind_name x = bind_name y /\
  xform_neq (bind_pose x) (bind_pose y) = false /\ binds_are_same a b = true.
Proof.
  intros x a y b. cbn [binds_are_same].
  destruct (Z.eqb_spec (bind_bone x) (bind_bone y)) as [Hb | Hb]; cbn [negb].
  2:{ split; [discriminate | intros [H _]; contradiction]. }
  destruct (String.eqb_spec (bind_name x) (bind_name y)) as [Hn | Hn]; cbn [negb].
  2:{ split; [discriminate | intros [_ [H _]]; contradiction]. }
  destruct (xform_neq (bind_pose x) (bind_pose y)).
  - split; [discriminate | intros [_ [_ [H _]]]; discriminate].
  - tauto.
Qed.

Lemma binds_are_same_sym : forall a b, length a = length b ->
  binds_are_same a b = true -> binds_are_same b a = true.
Proof.
  induction a as [|x a IH]; intros [|y b] Hl H; try discriminate; [reflexivity|].
  apply binds_are_same_inv in H. destruct H as [H1 [H2 [H3 H4]]].
  apply binds_are_same_inv. rewrite xform_neq_sym. repeat split; auto.
Qed.

Lemma binds_are_same_trans : forall a b c, length a = length b -> length b = length c ->
  binds_are_same a b = true -> binds_are_same b c = true -> binds_are_same a c = true.
Proof.
  induction a as [|x a IH]; intros [|y b] [|z c] Hab Hbc H1 H2; try discriminate;
    [reflexivity|].
  apply binds_are_same_inv in H1. destruct H1 as [A1 [A2 [A3 A4]]].
  apply binds_are_same_inv in H2. destruct H2 as [B1 [B2 [B3 B4]]].
  apply binds_are_same_inv. repeat split; try congruence.
  - eapply xform_neq_trans; eassumption.
  - eapply IH; try eassumption; cbn in *; lia.
Qed.

Lemma skins_are_same_length : forall a b, _skins_are_same a b = true ->
  length a = length b /\ binds_are_same a b = true.
Proof.
  intros a b H. unfold _skins_are_same in H.
  destruct (Z.eqb_spec (size a) (size b)) as [E | E]; cbn [negb] in H; [|discriminate].
  unfold size in E. split; [lia | exact H].
Qed.

Lemma skins_are_same_sym : forall a b, _skins_are_same a b = true -> _skins_are_same b a = true.
Proof.
  intros a b H. destruct (skins_are_same_length a b H) as [Hl Hb].
  unfold _skins_are_same, size. rewrite Hl, Z.eqb_refl. cbn [negb].
  now apply binds_are_same_sym.
Qed.

Lemma skins_are_same_trans : forall a b c,
  _skins_are_same a b = true -> _skins_are_same b c = true -> _skins_are_same a c = true.
Proof.
  intros a b c H1 H2. destruct (skins_are_same_length a b H1) as [Hl1 Hb1].
  destruct (skins_are_same_length b c H2) as [Hl2 Hb2].
  unfold _skins_are_same, size. rewrite Hl1, Hl2, Z.eqb_refl. cbn [negb].
  eapply binds_are_same_trans; eassumption.
Qed.

(** The reference stored for skin [j], and the comparison of the
    objects two references point to. *)
Definition ref_at (skins : list Z) (j : Z) : option Z :=
  if j <? 0 then None else nth_error skins (Z.to_nat j).

Definition object_at (heap : list (list Bind)) (r : Z) : option (list Bind) :=
  if r <? 0 then None else nth_error heap (Z.to_nat r).

Definition same_object (heap : list (list Bind)) (a b : Z) : bool :=
  match object_at heap a, object_at heap b with
  | Some x, Some y => _skins_are_same x y
  | _, _ => false
  end.

Lemma get_ref_at : forall skins j r, get skins j = Done r <-> ref_at skins j = Some r.
Proof.
  intros. unfold get, ref_at. destruct (j <? 0); [split; discriminate|].
  destruct (nth_error skins (Z.to_nat j)); split; congruence.
Qed.

Lemma ref_at_range : forall skins j r, ref_at skins j = Some r -> 0 <= j < size skins.
Proof.
  intros skins j r H. unfold ref_at in H. destruct (Z.ltb_spec j 0); [discriminate|].
  assert (Z.to_nat j < length skins)%nat by (apply nth_error_Some; congruence).
  unfold size. lia.
Qed.

Lemma ref_at_In : forall skins j r, ref_at skins j = Some r -> In r skins.
Proof.
  intros skins j r H. unfold ref_at in H. destruct (j <? 0); [discriminate|].
  eapply nth_error_In; eassumption.
Qed.

Lemma ref_at_some : forall skins j, 0 <= j < size skins -> exists r, ref_at skins j = Some r.
Proof.
  intros skins j H. destruct (get_in_range skins (i := j) H) as [r [Hg _]].
  exists r. now apply get_ref_at.
Qed.

Lemma same_object_trans : forall heap a b c,
  same_object heap a b = true -> same_object heap b c = true -> same_object heap a c = true.
Proof.
  intros heap a b c. unfold same_object.
  destruct (object_at heap a), (object_at heap b), (object_at heap c); try discriminate.
  apply skins_are_same_trans.
Qed.

Section Dedup.
Variable heap : list (list Bind).
Variable skins0 : list Z.
Hypothesis refs_valid : forall r, In r skins0 -> 0 <= r < size heap.

(** Every reference is one that an earlier or the same skin had at the
    start, and its object compares equal to the skin's own. *)
Definition origin_ok (skins : list Z) : Prop :=
  length skins = length skins0 /\
  forall j b, ref_at skins j = Some b ->
    exists k c, 0 <= k <= j /\ ref_at skins0 k = Some b /\
                ref_at skins0 j = Some c /\ (b = c \/ same_object heap b c = true).

(** The rows below [i] are done. *)
Definition rows_done (skins : list Z) (i : Z) : Prop :=
  forall i' j a b, 0 <= i' < i -> i' < j ->
    ref_at skins i' = Some a -> ref_at skins j = Some b ->
    same_object heap a b = true -> b = a.

(** Row [i] is done below column [j]. *)
Definition row_done (skins : list Z) (i j : Z) : Prop :=
  forall j' a b, i < j' < j ->
    ref_at skins i = Some a -> ref_at skins j' = Some b ->
    same_object heap a b = true -> b = a.

Lemma origin_valid : forall skins r, origin_ok skins -> In r skins -> 0 <= r < size heap.
Proof.
  intros skins r [_ H] Hin. apply In_nth_error in Hin. destruct Hin as [n Hn].
  destruct (H (Z.of_nat n) r) as [k [c [_ [Hk _]]]].
  - unfold ref_at. destruct (Z.ltb_spec (Z.of_nat n) 0); [lia|]. now rewrite Nat2Z.id.
  - apply refs_valid. eapply ref_at_In; eassumption.
Qed.

Lemma get_object : forall r, 0 <= r < size heap ->
  exists x, get heap r = Done x /\ object_at heap r = Some x.
Proof.
  intros r H. destruct (get_in_range heap (i := r) H) as [x [Hg Hn]].
  exists x. split; [exact Hg|]. unfold object_at. destruct (Z.ltb_spec r 0); [lia | exact Hn].
Qed.

Lemma remove_duplicates_of_spec : forall n skins i j,
  0 <= i < j -> j + Z.of_nat n = size skins ->
  origin_ok skins -> rows_done skins i -> row_done skins i j ->
  exists skins',
    remove_duplicates_of n heap skins i j = Done skins' /\
    origin_ok skins' /\ rows_done skins' (i + 1).
Proof.
  induction n as [|n IH]; intros skins i j Hij Hn Hor Hrows Hrow.
  - exists skins. split; [reflexivity|]. split; [exact Hor|].
    intros i' j' a b Hi' Hlt Ha Hb Hs.
    destruct (Z.eq_dec i' i) as [-> | Hne].
    + apply (Hrow j' a b); auto. apply ref_at_range in Hb. lia.
    + apply (Hrows i' j' a b); auto. lia.
  - cbn [remove_duplicates_of].
    destruct (ref_at_some skins i ltac:(lia)) as [a Ha].
    destruct (ref_at_some skins j ltac:(lia)) as [b Hb].
    rewrite (proj2 (get_ref_at skins i a) Ha), (proj2 (get_ref_at skins j b) Hb). cbn [bind].
    pose proof (origin_valid skins a Hor (ref_at_In _ _ _ Ha)) as Hva.
    pose proof (origin_valid skins b Hor (ref_at_In _ _ _ Hb)) as Hvb.
    destruct (get_object a Hva) as [xa [-> Hoa]]. destruct (get_object b Hvb) as [xb [-> Hob]].
    cbn [bind].
    assert (Hsame : same_object heap a b = _skins_are_same xa xb)
      by (unfold same_object; now rewrite Hoa, Hob).
    destruct (_skins_are_same xa xb) eqn:Es.
    + destruct (write_at_Done Z skins j a ltac:(lia)) as [skins1 [-> [Hlen1 Hnth]]].
      cbn [bind].
      assert (Hat : forall c, ref_at skins1 c = if Z.eqb c j then Some a else ref_at skins c).
      { intros c. unfold ref_at. destruct (Z.ltb_spec c 0) as [Hneg | Hpos].
        - destruct (Z.eqb_spec c j); [lia | reflexivity].
        - rewrite Hnth. destruct (Z.eqb_spec c j) as [-> | Hne].
          + now rewrite Nat.eqb_refl.
          + destruct (Nat.eqb_spec (Z.to_nat c) (Z.to_nat j)); [lia | reflexivity]. }
      apply IH.
      * lia.
      * unfold size in *. rewrite Hlen1. lia.
      * destruct Hor as [Hlen Hor]. split; [congruence|]. intros c r Hc. rewrite Hat in Hc.
        destruct (Z.eqb_spec c j) as [-> | Hne]; [|now apply Hor].
        inversion Hc; subst r.
        destruct (Hor i a Ha) as [k [ci [Hk [Hk0 _]]]].
        destruct (Hor j b Hb) as [_ [cj [_ [_ [Hj0 Hbc]]]]].
        exists k, cj. split; [lia|]. split; [exact Hk0|]. split; [exact Hj0|].
        right. destruct Hbc as [<- | Hbc]; [exact Hsame|].
        eapply same_object_trans; [exact Hsame | exact Hbc].
      * intros i' j' a' b' Hi' Hlt Ha' Hb' Hs. rewrite Hat in Ha', Hb'.
        destruct (Z.eqb_spec i' j); [lia|].
        destruct (Z.eqb_spec j' j) as [-> | Hne].
        -- inversion Hb'; subst b'. apply (Hrows i' i a' a); auto; lia.
        -- apply (Hrows i' j' a' b'); auto.
      * intros j' a' b' Hj' Ha' Hb' Hs. rewrite Hat in Ha', Hb'.
        destruct (Z.eqb_spec i j); [lia|].
        assert (a' = a) by congruence. subst a'.
        destruct (Z.eqb_spec j' j) as [-> | Hne]; [congruence|].
        apply (Hrow j' a b'); auto. lia.
    + cbn [bind]. apply IH; auto; try lia.
      intros j' a' b' Hj' Ha' Hb' Hs.
      assert (a' = a) by congruence. subst a'.
      destruct (Z.eq_dec j' j) as [-> | Hne].
      * assert (b' = b) by congruence. subst b'. congruence.
      * apply (Hrow j' a b'); auto. lia.
Qed.

Lemma remove_duplicates_from_spec : forall n skins i,
  0 <= i -> i + Z.of_nat n = size skins ->
  origin_ok skins -> rows_done skins i ->
  exists skins',
    remove_duplicates_from n heap skins i = Done skins' /\
    origin_ok skins' /\ rows_done skins' (size skins).
Proof.
  induction n as [|n IH]; intros skins i Hi Hn Hor Hrows.
  - exists skins. split; [reflexivity|]. split; [exact Hor|].
    replace (size skins) with i by lia. exact Hrows.
  - cbn [remove_duplicates_from].
    destruct (remove_duplicates_of_spec (Z.to_nat (size skins - (i + 1))) skins i (i + 1))
      as [skins1 [-> [Hor1 Hrows1]]]; auto; try lia.
    { intros j' a b Hj'. lia. }
    cbn [bind].
    assert (Hsz : size skins1 = size skins).
    { destruct Hor as [H _]. destruct Hor1 as [H1 _]. unfold size. congruence. }
    destruct (IH skins1 (i + 1)) as [skins' [Hr [Hor' Hrows']]]; auto; try lia.
    exists skins'. split; [exact Hr|]. split; [exact Hor'|]. now rewrite <- Hsz.
Qed.
End Dedup.

Lemma remove_duplicate_skins_facts :
  forall (heap : list (list Bind)) (skins : list Z),
    (forall r, In r skins -> 0 <= r < size heap) ->
    exists skins',
      _remove_duplicate_skins heap skins = Done skins' /\
      length skins' = length skins /\
      (forall i j a b, 0 <= i < j ->
         ref_at skins' i = Some a -> ref_at skins' j = Some b ->
         same_object heap a b = true -> b = a) /\
      (forall j b, ref_at skins' j = Some b ->
         exists k c, 0 <= k <= j /\ ref_at skins k = Some b /\
                     ref_at skins j = Some c /\ (b = c \/ same_object heap b c = true)).
Proof.
  intros heap skins Hv. unfold _remove_duplicate_skins.
  destruct (remove_duplicates_from_spec heap skins Hv (length skins) skins 0)
    as [skins' [Hr [[Hlen Hor] Hrows]]]; try lia.
  - reflexivity.
  - split; [reflexivity|]. intros j b Hb. exists j, b.
    pose proof (ref_at_range _ _ _ Hb). auto with zarith.
  - intros i' j a b Hi'. lia.
  - exists skins'. split; [exact Hr|]. split; [exact Hlen|]. split; [|exact Hor].
    intros i j a b Hij Ha Hb Hs. apply (Hrows i j a b); auto; try lia.
    apply ref_at_range in Ha. unfold size in *. lia.
Qed.

(** X25.  [_remove_duplicate_skins] never crashes when every skin
    refers to an existing [Skin] object.  Afterwards any two skins whose
    objects compare equal with [_skins_are_same] refer to one and the
    same object, and every skin refers to an object that it or an earlier
    skin referred to before and that compares equal to its own old one:
    no skin ends up with binds that differ from its own. *)
Theorem remove_duplicate_skins_shares_equal_skins :
  forall (heap : list (list Bind)) (skins : list Z),
    (forall r, In r skins -> 0 <= r < size heap) ->
    exists skins',
      _remove_duplicate_skins heap skins = Done skins' /\
      length skins' = length skins /\
      (forall i j a b, 0 <= i < j ->
         ref_at skins' i = Some a -> ref_at skins' j = Some b ->
         same_object heap a b = true -> b = a) /\
      (forall j b, ref_at skins' j = Some b ->
         exists k c, 0 <= k <= j /\ ref_at skins k = Some b /\
                     ref_at skins j = Some c /\ (b = c \/ same_object heap b c = true)).
Proof. exact remove_duplicate_skins_facts. Qed.

(** Three skins: the first and the third have equal binds in distinct
    objects. *)
Definition example_bind (bone : Z) : Bind :=
  {| bind_bone := bone; bind_name := String.EmptyString; bind_pose := [f32 1; f32 0; f32 0] |}.

Definition example_heap : list (list Bind) :=
  [[example_bind 0; example_bind 1]; [example_bind 2]; [example_bind 0; example_bind 1]].

Lemma remove_duplicate_skins_shares_equal_skins_witness :
  _remove_duplicate_skins example_heap [0; 1; 2] = Done [0; 1; 0] /\
  exists skins',
    _remove_duplicate_skins example_heap [0; 1; 2] = Done skins' /\
    length skins' = length [0; 1; 2] /\
    (forall i j a b, 0 <= i < j ->
       ref_at skins' i = Some a -> ref_at skins' j = Some b ->
       same_object example_heap a b = true -> b = a) /\
    (forall j b, ref_at skins' j = Some b ->
       exists k c, 0 <= k <= j /\ ref_at [0; 1; 2] k = Some b /\
                   ref_at [0; 1; 2] j = Some c /\
                   (b = c \/ same_object example_heap b c = true)).
Proof.
  split; [reflexivity|].
  apply (remove_duplicate_skins_shares_equal_skins example_heap [0; 1; 2]).
  intros r Hr. change (size example_heap) with 3. cbn in Hr. lia.
Defined.

(** ** Buffer codec: sparse accessors *)

(** The position of the last occurrence of [k] among the sparse indices,
    counted from [i]. *)
Fixpoint last_pos (ks : list Z) (k i : Z) (acc : option Z) : option Z :=
  match ks with
  | [] => acc
  | x :: rest => last_pos rest k (i + 1) (if x =? k then Some i else acc)
  end.

Lemma last_pos_acc : forall ks k i acc,
  last_pos ks k i acc = match last_pos ks k i None with Some p => Some p | None => acc end.
Proof.
  induction ks as [|x ks IH]; intros k i acc; cbn [last_pos]; [reflexivity|].
  rewrite IH. rewrite (IH k (i + 1) (if x =? k then Some i else None)).
  destruct (last_pos ks k (i + 1) None); [reflexivity|]. destruct (x =? k); reflexivity.
Qed.

Lemma last_pos_range : forall ks k i p,
  last_pos ks k i None = Some p -> i <= p < i + size ks.
Proof.
  induction ks as [|x ks IH]; intros k i p H; cbn [last_pos] in H; [discriminate|].
  rewrite last_pos_acc in H. rewrite size_cons. pose proof (size_nonneg ks).
  destruct (last_pos ks k (i + 1) None) as [q|] eqn:E.
  - inversion H; subst. apply IH in E. lia.
  - destruct (x =? k); inversion H; subst. lia.
Qed.

Lemma ptr_set_Done : forall (v : list spec_float) (i : Z) (x : spec_float),
  0 <= i < size v ->
  exists v', ptr_set v i x = Done v' /\ length v' = length v /\
    forall p, nth_error v' p = if Nat.eqb p (Z.to_nat i) then Some x else nth_error v p.
Proof.
  intros v i x Hi. destruct (write_at_Done spec_float v i x Hi) as [v' [Hw H]].
  exists v'. split; [|exact H]. unfold write_at in Hw. unfold ptr_set.
  destruct ((i <? 0) || (size v <=? i)); [discriminate | exact Hw].
Qed.

Lemma ptr_set_outside : forall (v : list spec_float) (i : Z) (x : spec_float),
  i < 0 \/ size v <= i -> ptr_set v i x = Undefined.
Proof.
  intros v i x H. unfold ptr_set.
  destruct (Z.ltb_spec i 0); [reflexivity|]. destruct (Z.leb_spec (size v) i); [reflexivity | lia].
Qed.

(** One block copy inside the destination. *)
Lemma sparse_copy_spec : forall n dst data wo i cc j,
  0 <= j -> j + Z.of_nat n = cc -> 0 <= wo -> wo + cc <= size dst ->
  0 <= i -> (i + 1) * cc <= size data ->
  exists dst',
    sparse_copy n dst data wo i cc j = Done dst' /\ length dst' = length dst /\
    forall p, 0 <= p ->
      nth_error dst' (Z.to_nat p)
      = if (wo + j <=? p) && (p <? wo + cc)
        then nth_error data (Z.to_nat (i * cc + (p - wo)))
        else nth_error dst (Z.to_nat p).
Proof.
  induction n as [|n IH]; intros dst data wo i cc j Hj Hn Hwo Hfit Hi Hdata.
  - exists dst. split; [reflexivity|]. split; [reflexivity|]. intros p Hp.
    destruct (Z.leb_spec (wo + j) p); destruct (Z.ltb_spec p (wo + cc)); cbn [andb];
      try reflexivity; lia.
  - cbn [sparse_copy].
    destruct (get_in_range data (i := i * cc + j) ltac:(nia)) as [x [-> Hx]]. cbn [bind].
    destruct (ptr_set_Done dst (wo + j) x ltac:(lia)) as [dst1 [-> [Hlen1 Hnth1]]].
    cbn [bind].
    destruct (IH dst1 data wo i cc (j + 1)) as [dst' [Hr [Hlen' Hnth']]]; try lia.
    { unfold size in *. rewrite Hlen1. lia. }
    exists dst'. split; [exact Hr|]. split; [congruence|]. intros p Hp.
    rewrite Hnth' by exact Hp. rewrite Hnth1.
    destruct (Nat.eqb_spec (Z.to_nat p) (Z.to_nat (wo + j))) as [E | E].
    + assert (p = wo + j) by lia. subst p.
      destruct (Z.leb_spec (wo + (j + 1)) (wo + j)); [lia|]. cbn [andb].
      destruct (Z.leb_spec (wo + j) (wo + j)); [|lia].
      destruct (Z.ltb_spec (wo + j) (wo + cc)); [|lia]. cbn [andb].
      rewrite <- Hx. f_equal. f_equal. lia.
    + assert (p <> wo + j) by lia.
      destruct (Z.leb_spec (wo + (j + 1)) p); destruct (Z.ltb_spec p (wo + cc));
        destruct (Z.leb_spec (wo + j) p); cbn [andb]; try lia; reflexivity.
Qed.

Lemma sparse_scatter_spec : forall ks dst data cc i0 count,
  1 <= cc -> 0 <= i0 -> size dst = count * cc -> count * cc < 2 ^ 31 ->
  (forall k, In k ks -> 0 <= k < count) ->
  (i0 + size ks) * cc <= size data ->
  exists dst',
    sparse_scatter (map F64.of_Z ks) dst data cc i0 = Done dst' /\
    length dst' = length dst /\
    forall k j, 0 <= k -> 0 <= j < cc ->
      nth_error dst' (Z.to_nat (k * cc + j))
      = match last_pos ks k i0 None with
        | Some p => nth_error data (Z.to_nat (p * cc + j))
        | None => nth_error dst (Z.to_nat (k * cc + j))
        end.
Proof.
  induction ks as [|x ks IH]; intros dst data cc i0 count Hcc Hi0 Hsize Hcount Hks Hdata.
  - exists dst. split; [reflexivity|]. split; [reflexivity|]. reflexivity.
  - cbn [map sparse_scatter]. rewrite size_cons in Hdata. pose proof (size_nonneg ks) as Hk0.
    assert (Hx : 0 <= x < count) by (apply Hks; now left).
    rewrite int_of_double_of_Z by nia. cbn [bind]. cbv zeta.
    rewrite (@to_int32_small (x * cc)) by nia.
    destruct (sparse_copy_spec (Z.to_nat cc) dst data (x * cc) i0 cc 0)
      as [dst1 [-> [Hlen1 Hnth1]]]; try nia.
    cbn [bind].
    destruct (IH dst1 data cc (i0 + 1) count) as [dst' [Hr [Hlen' Hnth']]]; try lia.
    { unfold size in *. rewrite Hlen1. exact Hsize. }
    { intros k Hk. apply Hks. now right. }
    exists dst'. split; [exact Hr|]. split; [congruence|]. intros k j Hk Hj.
    rewrite Hnth' by assumption. cbn [last_pos]. rewrite (last_pos_acc ks k (i0 + 1) (if x =? k then Some i0 else None)).
    destruct (last_pos ks k (i0 + 1) None) as [p|]; [reflexivity|].
    rewrite Hnth1 by nia. rewrite Z.add_0_r.
    destruct (Z.eqb_spec x k) as [-> | Hne].
    + destruct (Z.leb_spec (k * cc) (k * cc + j)); [|lia].
      destruct (Z.ltb_spec (k * cc + j) (k * cc + cc)); [|lia]. cbn [andb].
      f_equal. f_equal. lia.
    + destruct (Z.leb_spec (x * cc) (k * cc + j)); destruct (Z.ltb_spec (k * cc + j) (x * cc + cc));
        cbn [andb]; try reflexivity.
      exfalso. apply Hne. nia.
Qed.

(** An index outside the destination is not caught. *)
Lemma sparse_scatter_outside : forall good bad rest dst data cc i0 count,
  1 <= cc -> 0 <= i0 -> size dst = count * cc -> 0 <= count -> count * cc < 2 ^ 31 ->
  (forall k, In k good -> 0 <= k < count) ->
  - 2 ^ 31 <= bad * cc < 2 ^ 31 -> (bad < 0 \/ count <= bad) ->
  (i0 + size good + 1) * cc <= size data ->
  sparse_scatter (map F64.of_Z (good ++ bad :: rest)) dst data cc i0 = Undefined.
Proof.
  induction good as [|x good IH]; intros bad rest dst data cc i0 count
    Hcc Hi0 Hsize Hcount Hfit Hgood Hbad Hout Hdata.
  - cbn [app map sparse_scatter]. rewrite int_of_double_of_Z by nia. cbn [bind]. cbv zeta.
    rewrite (@to_int32_small (bad * cc)) by lia.
    rewrite size_nil in Hdata.
    destruct (Z.to_nat cc) as [|n] eqn:En; [lia|]. cbn [sparse_copy].
    destruct (get_in_range data (i := i0 * cc + 0) ltac:(nia)) as [y [-> _]]. cbn [bind].
    rewrite ptr_set_outside by nia. reflexivity.
  - cbn [app map sparse_scatter]. rewrite size_cons in Hdata. pose proof (size_nonneg good).
    assert (Hx : 0 <= x < count) by (apply Hgood; now left).
    rewrite int_of_double_of_Z by nia. cbn [bind]. cbv zeta.
    rewrite (@to_int32_small (x * cc)) by nia.
    destruct (sparse_copy_spec (Z.to_nat cc) dst data (x * cc) i0 cc 0)
      as [dst1 [-> [Hlen1 _]]]; try nia.
    cbn [bind]. apply (IH bad rest dst1 data cc (i0 + 1) count); auto; try lia.
    + unfold size in *. rewrite Hlen1. exact Hsize.
    + intros k Hk. apply Hgood. now right.
Qed.

Lemma decode_buffer_view_OK_length :
  forall st bv se sb es cnt ty cc ct cs nm off pfv vals,
    _decode_buffer_view st bv se sb es cnt ty cc ct cs nm off pfv = Done (OK, vals) ->
    length vals = (Z.to_nat cnt * Z.to_nat cc)%nat.
Proof.
  intros st bv se sb es cnt ty cc ct cs nm off pfv vals H. unfold _decode_buffer_view in H.
  destruct (get (buffer_views st) bv) as [v | | |]; cbn [bind] in H; try discriminate.
  destruct ((buffer v <? 0) || (size (buffers st) <=? buffer v)); [discriminate|].
  destruct (get (buffers st) (buffer v)) as [buf | | |]; cbn [bind] in H; try discriminate.
  destruct (byte_length v <? required_span v es cnt pfv); [discriminate|].
  destruct (size buf <? _); [discriminate|].
  match type of H with context [decode_elements ?a ?b ?c ?d ?e ?f ?g ?h ?k ?l ?m] =>
    destruct (decode_elements_cases a b c d e f g h k l m) as [E | [vs [E Hl]]] end;
    rewrite E in H; cbn [bind] in H; [discriminate|].
  inversion H; subst. exact Hl.
Qed.

Lemma sparse_accessor_facts :
  forall (st : FBXState) (i : Z) (a : FBXAccessor) (p_for_vertex : bool)
         (ks : list Z) (data : list spec_float),
    get (accessors st) i = Done a ->
    buffer_view a < 0 -> 0 < sparse_count a -> 0 <= count a ->
    count a * component_count_for_type (type a) < 2 ^ 31 ->
    sparse_count a * component_count_for_type (type a) < 2 ^ 31 ->
    _get_component_type_size (component_type a) <> 0 ->
    _decode_buffer_view st (sparse_indices_buffer_view a) 0 0
      (_get_component_type_size (sparse_indices_component_type a)) (sparse_count a)
      TYPE_SCALAR 1 (sparse_indices_component_type a)
      (_get_component_type_size (sparse_indices_component_type a)) false
      (sparse_indices_byte_offset a) false
    = Done (OK, map F64.of_Z ks) ->
    _decode_buffer_view st (sparse_values_buffer_view a)
      (fst (skip_table (component_type a) (type a)))
      (snd (skip_table (component_type a) (type a)))
      (element_size_for (component_type a) (type a)) (sparse_count a) (type a)
      (component_count_for_type (type a)) (component_type a)
      (_get_component_type_size (component_type a)) (normalized a)
      (sparse_values_byte_offset a) p_for_vertex
    = Done (OK, data) ->
    ((forall k, In k ks -> 0 <= k < count a) ->
     exists dst,
       _decode_accessor st i p_for_vertex = Done dst /\
       size dst = count a * component_count_for_type (type a) /\
       forall k j, 0 <= k < count a -> 0 <= j < component_count_for_type (type a) ->
         get dst (k * component_count_for_type (type a) + j)
         = Done (match last_pos ks k 0 None with
                 | Some p => nth (Z.to_nat (p * component_count_for_type (type a) + j))
                               data F64.zero
                 | None => F64.zero
                 end)) /\
    (forall good bad rest,
       ks = good ++ bad :: rest ->
       (forall k, In k good -> 0 <= k < count a) ->
       - 2 ^ 31 <= bad * component_count_for_type (type a) < 2 ^ 31 ->
       (bad < 0 \/ count a <= bad) ->
       _decode_accessor st i p_for_vertex = Undefined).
Proof.
  intros st i a pfv ks data Hget Hbv Hsc Hcount Hfit Hsfit Hcs Hidx Hval.
  set (cc := component_count_for_type (type a)) in *.
  assert (Hcc : 1 <= cc) by (unfold cc; destruct (type a); cbn; lia).
  pose proof (decode_buffer_view_OK_length _ _ _ _ _ _ _ _ _ _ _ _ _ _ Hidx) as Hlk.
  pose proof (decode_buffer_view_OK_length _ _ _ _ _ _ _ _ _ _ _ _ _ _ Hval) as Hld.
  rewrite length_map in Hlk. change (Z.to_nat 1) with 1%nat in Hlk.
  assert (Hsk : size ks = sparse_count a) by (unfold size; lia).
  assert (Hsd : size data = sparse_count a * cc) by (unfold size; nia).
  assert (Hrun : _decode_accessor st i pfv
                 = sparse_scatter (map F64.of_Z ks)
                     (repeat F64.zero (Z.to_nat (count a * cc))) data cc 0).
  { destruct (get_Done_inv (accessors st) i Hget) as [Hi _].
    unfold _decode_accessor.
    destruct (Z.ltb_spec i 0); [lia|]. destruct (Z.leb_spec (size (accessors st)) i); [lia|].
    cbn [orb]. rewrite Hget. cbn [bind]. cbv zeta. fold cc.
    destruct (Z.eqb_spec (_get_component_type_size (component_type a)) 0); [contradiction|].
    destruct (skip_table (component_type a) (type a)) as [se sb]. cbn [fst snd] in Hval.
    destruct (Z.leb_spec 0 (buffer_view a)); [lia|]. cbn [bind].
    destruct (Z.ltb_spec 0 (sparse_count a)); [|lia].
    rewrite Hidx. cbn [bind].
    unfold ptr_fill at 1.
    assert (Hmk : size (map F64.of_Z ks) = sparse_count a)
      by (unfold size in *; rewrite length_map; exact Hsk).
    rewrite Hmk. replace (Z.max 0 (sparse_count a)) with (sparse_count a) by lia.
    rewrite Z.eqb_refl. cbn [bind].
    rewrite Hval. cbn [bind].
    rewrite (@to_int32_small (cc * sparse_count a)) by nia.
    rewrite (@to_int32_small (count a * cc)) by nia.
    unfold ptr_fill. rewrite Hsd.
    replace (Z.max 0 (cc * sparse_count a)) with (sparse_count a * cc) by lia.
    rewrite Z.eqb_refl. cbn [bind]. reflexivity. }
  rewrite Hrun.
  assert (Hsz : size (repeat F64.zero (Z.to_nat (count a * cc))) = count a * cc).
  { unfold size. rewrite repeat_length. nia. }
  split.
  - intros Hks.
    destruct (sparse_scatter_spec ks (repeat F64.zero (Z.to_nat (count a * cc))) data cc 0
                (count a)) as [dst [-> [Hlen Hnth]]]; try lia; try assumption.
    exists dst. split; [reflexivity|].
    assert (Hds : size dst = count a * cc) by (unfold size in *; rewrite Hlen; exact Hsz).
    split; [exact Hds|]. intros k j Hk Hj.
    assert (Hin : 0 <= k * cc + j < count a * cc) by nia.
    unfold get. destruct (Z.ltb_spec (k * cc + j) 0); [lia|].
    rewrite Hnth by lia.
    destruct (last_pos ks k 0 None) as [p|] eqn:Ep.
    + apply last_pos_range in Ep.
      assert (Hp : (Z.to_nat (p * cc + j) < length data)%nat) by (unfold size in *; nia).
      rewrite (nth_error_nth' data F64.zero Hp). reflexivity.
    + assert (Hq : (Z.to_nat (k * cc + j) < length (repeat F64.zero (Z.to_nat (count a * cc))))%nat)
        by (unfold size in Hsz; lia).
      rewrite (nth_error_nth' _ F64.zero Hq). rewrite nth_repeat. reflexivity.
  - intros good bad rest -> Hgood Hbad Hout.
    apply (sparse_scatter_outside good bad rest _ data cc 0 (count a)); auto; try lia.
    rewrite size_app, size_cons in Hsk. pose proof (size_nonneg rest). pose proof (size_nonneg good).
    nia.
Qed.

(** X26.  Sparse accessors.  For an accessor without buffer view whose
    sparse indices decode to the integers [ks] and whose sparse values
    decode to [data], and whose numbers of values (count times component
    count, sparse count times component count) fit an [int]: when every
    index is below the accessor's count, [_decode_accessor] returns count
    times component-count values that are zero except in the elements
    named by an index, which hold the sparse values of the last
    occurrence of that index; when an index is negative or not below the
    count (and its product with the component count fits an [int]),
    nothing checks it and a component is written outside the destination
    (undefined behaviour). *)
Theorem sparse_accessor_substitutes_indexed_elements :
  forall (st : FBXState) (i : Z) (a : FBXAccessor) (p_for_vertex : bool)
         (ks : list Z) (data : list spec_float),
    get (accessors st) i = Done a ->
    buffer_view a < 0 -> 0 < sparse_count a -> 0 <= count a ->
    count a * component_count_for_type (type a) < 2 ^ 31 ->
    sparse_count a * component_count_for_type (type a) < 2 ^ 31 ->
    _get_component_type_size (component_type a) <> 0 ->
    _decode_buffer_view st (sparse_indices_buffer_view a) 0 0
      (_get_component_type_size (sparse_indices_component_type a)) (sparse_count a)
      TYPE_SCALAR 1 (sparse_indices_component_type a)
      (_get_component_type_size (sparse_indices_component_type a)) false
      (sparse_indices_byte_offset a) false
    = Done (OK, map F64.of_Z ks) ->
    _decode_buffer_view st (sparse_values_buffer_view a)
      (fst (skip_table (component_type a) (type a)))
      (snd (skip_table (component_type a) (type a)))
      (element_size_for (component_type a) (type a)) (sparse_count a) (type a)
      (component_count_for_type (type a)) (component_type a)
      (_get_component_type_size (component_type a)) (normalized a)
      (sparse_values_byte_offset a) p_for_vertex
    = Done (OK, data) ->
    ((forall k, In k ks -> 0 <= k < count a) ->
     exists dst,
       _decode_accessor st i p_for_vertex = Done dst /\
       size dst = count a * component_count_for_type (type a) /\
       forall k j, 0 <= k < count a -> 0 <= j < component_count_for_type (type a) ->
         get dst (k * component_count_for_type (type a) + j)
         = Done (match last_pos ks k 0 None with
                 | Some p => nth (Z.to_nat (p * component_count_for_type (type a) + j))
                               data F64.zero
                 | None => F64.zero
                 end)) /\
    (forall good bad rest,
       ks = good ++ bad :: rest ->
       (forall k, In k good -> 0 <= k < count a) ->
       - 2 ^ 31 <= bad * component_count_for_type (type a) < 2 ^ 31 ->
       (bad < 0 \/ count a <= bad) ->
       _decode_accessor st i p_for_vertex = Undefined).
Proof. exact sparse_accessor_facts. Qed.

(** Four unsigned bytes, all zero but for the sparse entries 1 and 3;
    the second accessor names entry 4 of 4. *)
Definition sparse_accessor (count0 : Z) : FBXAccessor :=
  {| buffer_view := -1; a_byte_offset := 0; component_type := COMPONENT_TYPE_UNSIGNED_BYTE;
     normalized := false; count := count0; type := TYPE_SCALAR; sparse_count := 2;
     sparse_indices_buffer_view := 0; sparse_indices_byte_offset := 0;
     sparse_indices_component_type := COMPONENT_TYPE_UNSIGNED_BYTE;
     sparse_values_buffer_view := 1; sparse_values_byte_offset := 0 |}.

Definition sparse_state : FBXState :=
  {| buffers := [[1; 3; 9; 8]];
     buffer_views :=
       [ {| buffer := 0; byte_offset := 0; byte_length := 2; byte_stride := -1 |};
         {| buffer := 0; byte_offset := 2; byte_length := 2; byte_stride := -1 |} ];
     accessors := [sparse_accessor 4; sparse_accessor 3] |}.

Lemma sparse_accessor_substitutes_indexed_elements_witness :
  _decode_accessor sparse_state 0 false = Done (map F64.of_Z [0; 9; 0; 8]) /\
  _decode_accessor sparse_state 1 false = Undefined.
Proof.
  split.
  - pose proof (sparse_accessor_substitutes_indexed_elements sparse_state 0 (sparse_accessor 4)
                  false [1; 3] (map F64.of_Z [9; 8]) eq_refl
                  ltac:(cbn; lia) ltac:(cbn; lia) ltac:(cbn; lia) ltac:(cbn; lia)
                  ltac:(cbn; lia) ltac:(discriminate)
                  ltac:(vm_compute; reflexivity) ltac:(vm_compute; reflexivity)) as [Hin _].
    destruct Hin as [dst [Hrun _]].
    + intros k Hk. cbn in Hk. cbn. lia.
    + rewrite Hrun. vm_compute in Hrun. inversion Hrun. reflexivity.
  - pose proof (sparse_accessor_substitutes_indexed_elements sparse_state 1 (sparse_accessor 3)
                  false [1; 3] (map F64.of_Z [9; 8]) eq_refl
                  ltac:(cbn; lia) ltac:(cbn; lia) ltac:(cbn; lia) ltac:(cbn; lia)
                  ltac:(cbn; lia) ltac:(discriminate)
                  ltac:(vm_compute; reflexivity) ltac:(vm_compute; reflexivity)) as [_ Hout].
    apply (Hout [1] 3 []).
    + reflexivity.
    + intros k Hk. cbn in Hk. cbn. lia.
    + cbn. lia.
    + right. cbn. lia.
Defined.

(** ** Buffer codec: normalized bytes *)

(** The value [read_component] gives for the normalized byte [b], and the
    test that storing it again yields [b]. *)
Definition normalized_byte_value (ct b : Z) : spec_float :=
  if ct =? COMPONENT_TYPE_BYTE
  then F64.div (F64.of_Z (signed_of 8 b)) (F64.of_Z 128)
  else F64.div (F64.of_Z b) (F64.of_Z 255).

Definition byte_survives (ct b : Z) : bool :=
  match encode_component ct true (normalized_byte_value ct b) with
  | Done z => z =? b
  | _ => false
  end.

Lemma all_bytes_survive :
  forallb (byte_survives COMPONENT_TYPE_BYTE) (map Z.of_nat (seq 0 256)) = true /\
  forallb (byte_survives COMPONENT_TYPE_UNSIGNED_BYTE) (map Z.of_nat (seq 0 256)) = true.
Proof. split; vm_compute; reflexivity. Qed.

Lemma byte_survives_all : forall ct b,
  ct = COMPONENT_TYPE_BYTE \/ ct = COMPONENT_TYPE_UNSIGNED_BYTE -> 0 <= b < 256 ->
  encode_component ct true (normalized_byte_value ct b) = Done b.
Proof.
  intros ct b Hct Hb.
  assert (Hin : In b (map Z.of_nat (seq 0 256))).
  { apply in_map_iff. exists (Z.to_nat b). split; [lia|]. apply in_seq. lia. }
  assert (Hs : byte_survives ct b = true).
  { destruct all_bytes_survive as [H1 H2].
    destruct Hct as [-> | ->]; [exact (proj1 (forallb_forall _ _) H1 b Hin)
                               | exact (proj1 (forallb_forall _ _) H2 b Hin)]. }
  unfold byte_survives in Hs.
  destruct (encode_component ct true (normalized_byte_value ct b)) as [z | | |];
    try discriminate Hs.
  apply Z.eqb_eq in Hs. now subst.
Qed.

(** X8.  A normalized 8-bit component survives decoding and encoding:
    for every byte of a view read as normalized [COMPONENT_TYPE_BYTE] or
    [COMPONENT_TYPE_UNSIGNED_BYTE], storing the value read (the byte
    divided by 128 or 255) as a normalized component of the same type
    gives the same byte; the division and the multiplication round back
    to the integer in all 256 cases. *)
Theorem normalized_bytes_survive_reencoding :
  forall (ct b : Z) (pre post : list Z),
    ct = COMPONENT_TYPE_BYTE \/ ct = COMPONENT_TYPE_UNSIGNED_BYTE ->
    0 <= b < 256 ->
    exists d,
      read_component (pre ++ [b] ++ post) (size pre) ct true = Done d /\
      encode_component ct true d = Done b.
Proof.
  intros ct b pre post Hct Hb. exists (normalized_byte_value ct b).
  split; [|now apply byte_survives_all].
  unfold read_component, normalized_byte_value.
  pose proof (read_bytes_app pre [b] post) as Hrd. cbn [length] in Hrd.
  destruct Hct as [-> | ->].
  - cbn [Z.eqb COMPONENT_TYPE_BYTE Pos.eqb]. rewrite Hrd. cbn [bind uint_of_bytes].
    now rewrite Z.mul_0_r, Z.add_0_r.
  - cbn [Z.eqb COMPONENT_TYPE_BYTE COMPONENT_TYPE_UNSIGNED_BYTE Pos.eqb].
    rewrite Hrd. cbn [bind uint_of_bytes]. now rewrite Z.mul_0_r, Z.add_0_r.
Qed.

Lemma normalized_bytes_survive_reencoding_witness :
  exists d,
    read_component ([7; 7] ++ [200] ++ [1]) (size [7; 7]) COMPONENT_TYPE_UNSIGNED_BYTE true
    = Done d /\
    encode_component COMPONENT_TYPE_UNSIGNED_BYTE true d = Done 200.
Proof.
  apply (normalized_bytes_survive_reencoding COMPONENT_TYPE_UNSIGNED_BYTE 200 [7; 7] [1]).
  - now right.
  - lia.
Defined.

(** ** Buffer codec: what else [_encode_buffer_view] does *)

Lemma align_component_stride : forall ct,
  0 < _get_component_type_size ct ->
  align_stride true (_get_component_type_size ct) = 4 /\
  align_stride false (_get_component_type_size ct) = _get_component_type_size ct.
Proof.
  intros ct H. split; [|reflexivity].
  destruct (component_size_cases ct) as [E | [E | [E | E]]]; rewrite E in *;
    [lia | reflexivity | reflexivity | reflexivity].
Qed.

(** The outcome of an encode in a layout without padding: the bytes are
    appended in any case, the view is added when the span test passes. *)
Lemma encode_buffer_view_plain :
  forall (st : FBXState) (b0 : list Z) (bs : list (list Z)) (src : list spec_float)
         (p_count : Z) (p_type : FBXType) (ct : Z) (p_byte_offset : Z) (p_for_vertex : bool),
    buffers st = b0 :: bs ->
    0 < _get_component_type_size ct ->
    skip_table ct p_type = (0, 0) ->
    Forall (storable ct) src ->
    size src = p_count * component_count_for_type p_type ->
    0 <= p_byte_offset <= size b0 ->
    size b0 + size src * _get_component_type_size ct < 2 ^ 31 ->
    exists bytes,
      size bytes = size src * _get_component_type_size ct /\
      _encode_buffer_view st src p_count p_type ct false p_byte_offset p_for_vertex
      = Done (if size bytes <? align_stride p_for_vertex (_get_component_type_size ct)
                                 * (p_count - 1) + _get_component_type_size ct
              then (ERR_INVALID_DATA, set_buffer0 st (b0 ++ bytes), None)
              else (OK,
                    add_buffer_view (set_buffer0 st (b0 ++ bytes))
                      {| buffer := size (buffer_views st); byte_offset := size b0;
                         byte_length := size bytes; byte_stride := -1 |},
                    Some (size (buffer_views st)))).
Proof.
  intros st b0 bs src p_count p_type ct off pfv Hbuf Hcs Hskip Hsrc Hsize Hoff Hbound.
  destruct (storable_patterns ct src Hsrc) as [xs [Henc _]].
  destruct (align_component_stride ct Hcs) as [Hat Haf].
  set (cs := _get_component_type_size ct) in *.
  set (cc := component_count_for_type p_type) in *.
  assert (Hcc : 1 <= cc) by (unfold cc; destruct p_type; cbn; lia).
  pose proof (size_nonneg src) as Hs0. pose proof (size_nonneg b0) as Hb0.
  assert (Hcount : 0 <= p_count) by nia.
  assert (Hxs : length xs = length src) by (symmetry; eapply Forall2_length; exact Henc).
  assert (Hlen : length xs = (Z.to_nat p_count * Z.to_nat cc)%nat).
  { rewrite Hxs. unfold size in Hsize. nia. }
  set (bytes := flat_map (bytes_of_uint (Z.to_nat cs)) xs).
  assert (Hbytes : size bytes = size src * cs).
  { unfold bytes. rewrite flat_map_bytes_size. unfold size. rewrite Hxs. lia. }
  assert (Hsxs : size xs = size src) by (unfold size; now rewrite Hxs).
  exists bytes. split; [exact Hbytes|].
  unfold _encode_buffer_view. cbv zeta. fold cs cc.
  destruct (Z.eqb_spec cs 0); [lia|]. rewrite Hskip.
  rewrite Hbuf. change (get (b0 :: bs) 0) with (Done b0). cbn [bind].
  replace (Z.to_nat (p_count * cc)) with (Z.to_nat p_count * Z.to_nat cc)%nat by nia.
  replace cc with (Z.of_nat (Z.to_nat cc)) at 2 by lia.
  pose proof (encode_elements_plain ct 0 (Z.to_nat cc) (Z.to_nat p_count) src xs Henc Hlen [])
    as Hrun.
  cbn [app] in Hrun. change (size (@nil Z)) with 0 in Hrun. rewrite Hrun. cbn [bind].
  fold bytes. rewrite Hsxs, <- Hbytes.
  set (span := align_stride pfv cs * (p_count - 1) + cs).
  destruct (Z.ltb_spec (size bytes) span) as [Hfail | Hfit]; [reflexivity|].
  assert (Hspan : - 4 < span).
  { unfold span. destruct pfv; [rewrite Hat | rewrite Haf]; nia. }
  rewrite to_uint32_small by lia.
  rewrite to_int32_small by lia.
  unfold set_buffer0 at 1. cbn [buffers]. rewrite size_app.
  destruct (Z.ltb_spec (size b0 + size bytes) (off + span)); [lia|].
  unfold set_buffer0. cbn [buffer_views]. reflexivity.
Qed.

(** X27.  Only the first encoded view can be read back.
    [_encode_buffer_view] stores the number of views in the [buffer]
    field of the view it adds; in a state that has at least as many views
    as buffers (one buffer and one view, say) the encode still returns
    [OK] and a view index, but the view names a buffer that does not
    exist, and [_decode_accessor] of an accessor on it returns the empty
    vector. *)
Theorem later_encoded_views_cannot_be_decoded :
  forall (st : FBXState) (b0 : list Z) (bs : list (list Z)) (src : list spec_float)
         (p_count : Z) (p_type : FBXType) (ct : Z) (p_byte_offset : Z),
    buffers st = b0 :: bs ->
    size (buffers st) <= size (buffer_views st) ->
    0 < _get_component_type_size ct ->
    skip_table ct p_type = (0, 0) ->
    Forall (storable ct) src ->
    size src = p_count * component_count_for_type p_type ->
    0 <= p_byte_offset <= size b0 ->
    size b0 + size src * _get_component_type_size ct < 2 ^ 31 ->
    exists (st' : FBXState),
      _encode_buffer_view st src p_count p_type ct false p_byte_offset false
      = Done (OK, st', Some (size (buffer_views st))) /\
      size (buffers st') = size (buffers st) /\
      forall (accs : list FBXAccessor) (i : Z),
        get accs i = Done (plain_accessor (size (buffer_views st)) p_count ct p_type) ->
        _decode_accessor {| buffers := buffers st'; buffer_views := buffer_views st';
                            accessors := accs |} i false
        = Done [].
Proof.
  intros st b0 bs src p_count p_type ct off Hbuf Hmany Hcs Hskip Hsrc Hsize Hoff Hbound.
  destruct (encode_buffer_view_plain st b0 bs src p_count p_type ct off false
              Hbuf Hcs Hskip Hsrc Hsize Hoff Hbound) as [bytes [Hbytes Hrun]].
  assert (Hcc : 1 <= component_count_for_type p_type) by (destruct p_type; cbn; lia).
  pose proof (size_nonneg src) as Hs0.
  assert (Hcount : 0 <= p_count) by nia.
  destruct (Z.ltb_spec (size bytes)
              (align_stride false (_get_component_type_size ct) * (p_count - 1)
               + _get_component_type_size ct)) as [Hfail | Hfit].
  { exfalso. unfold align_stride in Hfail. cbn [andb] in Hfail. nia. }
  eexists. split; [exact Hrun|]. split.
  - unfold add_buffer_view, set_buffer0. cbn [buffers]. rewrite Hbuf. cbn [tl].
    now rewrite !size_cons.
  - intros accs i Hget. destruct (get_Done_inv accs i Hget) as [Hi _].
    pose proof (size_nonneg (buffer_views st)) as Hv0.
    unfold _decode_accessor. cbn [accessors].
    destruct (Z.ltb_spec i 0); [lia|]. destruct (Z.leb_spec (size accs) i); [lia|].
    cbn [orb]. rewrite Hget. cbn [bind]. cbv zeta.
    cbn [plain_accessor type component_type buffer_view count normalized a_byte_offset
         sparse_count].
    destruct (Z.eqb_spec (_get_component_type_size ct) 0); [lia|]. rewrite Hskip.
    destruct (Z.leb_spec 0 (size (buffer_views st))); [|lia].
    unfold add_buffer_view, set_buffer0, push_back. cbn [buffer_views buffers].
    rewrite size_app, size_cons, size_nil.
    destruct (Z.leb_spec (size (buffer_views st) + (1 + 0)) (size (buffer_views st))); [lia|].
    unfold _decode_buffer_view. cbn [buffer_views buffers].
    rewrite get_app_mid. cbn [bind]. cbv zeta. cbn [buffer].
    rewrite Hbuf in Hmany |- *. cbn [tl]. rewrite size_cons in Hmany |- *.
    destruct (Z.ltb_spec (size (buffer_views st)) 0); [lia|].
    destruct (Z.leb_spec (1 + size bs) (size (buffer_views st))); [|lia].
    cbn [orb bind]. reflexivity.
Qed.

Definition one_view_state : FBXState :=
  {| buffers := [[1; 2]];
     buffer_views := [ {| buffer := 0; byte_offset := 0; byte_length := 2; byte_stride := -1 |} ];
     accessors := [] |}.

Lemma later_encoded_views_cannot_be_decoded_witness :
  exists (st' : FBXState),
    _encode_buffer_view one_view_state (map F64.of_Z [5; 6]) 2 TYPE_SCALAR
      COMPONENT_TYPE_UNSIGNED_BYTE false 2 false
    = Done (OK, st', Some (size (buffer_views one_view_state))) /\
    size (buffers st') = size (buffers one_view_state) /\
    forall (accs : list FBXAccessor) (i : Z),
      get accs i = Done (plain_accessor (size (buffer_views one_view_state)) 2
                           COMPONENT_TYPE_UNSIGNED_BYTE TYPE_SCALAR) ->
      _decode_accessor {| buffers := buffers st'; buffer_views := buffer_views st';
                          accessors := accs |} i false
      = Done [].
Proof.
  apply (later_encoded_views_cannot_be_decoded one_view_state [1; 2] []
           (map F64.of_Z [5; 6]) 2 TYPE_SCALAR COMPONENT_TYPE_UNSIGNED_BYTE 2).
  - reflexivity.
  - cbn. lia.
  - reflexivity.
  - reflexivity.
  - cbn [map].
    repeat (apply Forall_cons;
            [left; eexists; exists 0, 255;
             split; [reflexivity | split; [|reflexivity]]; lia |]).
    apply Forall_nil.
  - reflexivity.
  - cbn. lia.
  - cbn. lia.
Defined.

(** X28.  Vertex data narrower than four bytes is refused after it has
    been written.  For vertex data the span test of
    [_encode_buffer_view] uses a stride of 4 although the elements are
    packed; when count times element size is below 4 * (count - 1) +
    component size (two or more 1- or 2-byte scalars, for instance) the
    call returns [ERR_INVALID_DATA] and adds no view, but the encoded
    bytes stay appended to buffer 0. *)
Theorem narrow_vertex_data_is_refused :
  forall (st : FBXState) (b0 : list Z) (bs : list (list Z)) (src : list spec_float)
         (p_count : Z) (p_type : FBXType) (ct : Z) (p_byte_offset : Z),
    buffers st = b0 :: bs ->
    0 < _get_component_type_size ct ->
    skip_table ct p_type = (0, 0) ->
    Forall (storable ct) src ->
    size src = p_count * component_count_for_type p_type ->
    0 <= p_byte_offset <= size b0 ->
    size b0 + size src * _get_component_type_size ct < 2 ^ 31 ->
    p_count * (component_count_for_type p_type * _get_component_type_size ct)
      < 4 * (p_count - 1) + _get_component_type_size ct ->
    exists (st' : FBXState) (bytes : list Z),
      _encode_buffer_view st src p_count p_type ct false p_byte_offset true
      = Done (ERR_INVALID_DATA, st', None) /\
      buffers st' = (b0 ++ bytes) :: bs /\
      size bytes = size src * _get_component_type_size ct /\
      buffer_views st' = buffer_views st.
Proof.
  intros st b0 bs src p_count p_type ct off Hbuf Hcs Hskip Hsrc Hsize Hoff Hbound Hnarrow.
  destruct (encode_buffer_view_plain st b0 bs src p_count p_type ct off true
              Hbuf Hcs Hskip Hsrc Hsize Hoff Hbound) as [bytes [Hbytes Hrun]].
  destruct (align_component_stride ct Hcs) as [Hat _]. rewrite Hat in Hrun.
  destruct (Z.ltb_spec (size bytes) (4 * (p_count - 1) + _get_component_type_size ct))
    as [Hfail | Hfit].
  - exists (set_buffer0 st (b0 ++ bytes)), bytes. split; [exact Hrun|].
    unfold set_buffer0. cbn [buffers buffer_views]. rewrite Hbuf. cbn [tl]. auto.
  - exfalso. rewrite Hbytes, Hsize in Hfit. nia.
Qed.

Lemma narrow_vertex_data_is_refused_witness :
  exists (st' : FBXState) (bytes : list Z),
    _encode_buffer_view round_trip_state (map F64.of_Z [5; 6; 7]) 3 TYPE_SCALAR
      COMPONENT_TYPE_UNSIGNED_SHORT false 1 true
    = Done (ERR_INVALID_DATA, st', None) /\
    buffers st' = ([7] ++ bytes) :: [] /\
    size bytes = size (map F64.of_Z [5; 6; 7])
                 * _get_component_type_size COMPONENT_TYPE_UNSIGNED_SHORT /\
    buffer_views st' = buffer_views round_trip_state.
Proof.
  apply (narrow_vertex_data_is_refused round_trip_state [7] [] (map F64.of_Z [5; 6; 7]) 3
           TYPE_SCALAR COMPONENT_TYPE_UNSIGNED_SHORT 1).
  - reflexivity.
  - reflexivity.
  - reflexivity.
  - cbn [map].
    repeat (apply Forall_cons;
            [left; eexists; exists 0, 65535;
             split; [reflexivity | split; [|reflexivity]]; lia |]).
    apply Forall_nil.
  - reflexivity.
  - cbn. lia.
  - cbn. lia.
  - cbn. lia.
Defined.
